(** * md2markup: Markdown to Confluence Wiki Markup

    A shallow embedding of [md2markup.py] (class [ConfluenceConverter]) and
    the properties of its conversion pipeline.

    Conventions of the embedding.
    - A Python [str] is a list of characters; characters are the code points
      U+0000..U+00FF (type [ascii]), with Python's own classification of
      them ([str.isspace], line boundaries of [str.splitlines], the regex
      classes [\s], [\d], [\w]).
    - A Python exception is [None] in the monad [M]; a [while] loop whose
      recursion is not structural takes fuel and raises when it runs out.
    - A [dict] is an association list in insertion order, which is the
      order Python iterates it in.
    - [re] patterns are values of [regex], run by a backtracking matcher
      that explores alternatives in the order Python's engine does. *)

From Stdlib Require Import String Ascii Bool Arith Lia Decimal DecimalString DecimalNat.
From Stdlib Require Import List.
Import ListNotations.

Set Implicit Arguments.

(* ------------------------------------------------------------------ *)
(** ** Characters and strings *)
(* ------------------------------------------------------------------ *)

Definition str := list ascii.

Definition NUL : ascii := "000"%char.
Definition SOH : ascii := "001"%char.
Definition TAB : ascii := "009"%char.
Definition LF : ascii := "010"%char.
Definition CR : ascii := "013"%char.
Definition SP : ascii := " "%char.

Definition between (lo hi : nat) (c : ascii) : bool :=
  let n := nat_of_ascii c in (lo <=? n) && (n <=? hi).

(** [str.isspace] on one character, which is also the regex class [\s]. *)
Definition is_space (c : ascii) : bool :=
  between 9 13 c || between 28 31 c || between 32 32 c
  || between 133 133 c || between 160 160 c.

(** The line boundaries of [str.splitlines]. *)
Definition is_linebreak (c : ascii) : bool :=
  between 10 13 c || between 28 30 c || between 133 133 c.

(** The regex class [\d] (decimal digits). *)
Definition is_digit (c : ascii) : bool := between 48 57 c.

(** The regex class [\w]: alphanumeric characters and the underscore. *)
Definition is_word (c : ascii) : bool :=
  between 48 57 c || between 65 90 c || between 97 122 c || between 95 95 c
  || between 170 170 c || between 178 179 c || between 181 181 c
  || between 185 186 c || between 188 190 c || between 192 214 c
  || between 216 246 c || between 248 255 c.

Definition hex_digit (c : ascii) : option nat :=
  let n := nat_of_ascii c in
  if between 48 57 c then Some (n - 48)
  else if between 97 102 c then Some (n - 87)
  else if between 65 70 c then Some (n - 55)
  else None.

(** [py "..."] reads a literal the way Python reads a string literal, so
    that the examples below can be compared with the source and its tests:
    the escapes [\n \r \t \v \f \0 \\ \xHH] are interpreted. *)
Fixpoint py (s : string) : str :=
  match s with
  | EmptyString => []
  | String c t =>
      if Ascii.eqb c "\"%char then
        match t with
        | String e t' =>
            if Ascii.eqb e "n"%char then LF :: py t'
            else if Ascii.eqb e "r"%char then CR :: py t'
            else if Ascii.eqb e "t"%char then TAB :: py t'
            else if Ascii.eqb e "v"%char then "011"%char :: py t'
            else if Ascii.eqb e "f"%char then "012"%char :: py t'
            else if Ascii.eqb e "0"%char then NUL :: py t'
            else if Ascii.eqb e "\"%char then "\"%char :: py t'
            else if Ascii.eqb e "x"%char then
              match t' with
              | String h1 (String h2 t'') =>
                  match hex_digit h1, hex_digit h2 with
                  | Some a, Some b => ascii_of_nat (16 * a + b) :: py t''
                  | _, _ => c :: e :: py t'
                  end
              | _ => c :: e :: py t'
              end
            else c :: e :: py t'
        | EmptyString => [c]
        end
      else c :: py t
  end.
Arguments py s%_string.

Fixpoint str_eqb (a b : str) : bool :=
  match a, b with
  | [], [] => true
  | x :: a', y :: b' => Ascii.eqb x y && str_eqb a' b'
  | _, _ => false
  end.

(** [s.startswith(p)] *)
Fixpoint startswith (p s : str) : bool :=
  match p, s with
  | [], _ => true
  | x :: p', y :: s' => Ascii.eqb x y && startswith p' s'
  | _ :: _, [] => false
  end.

(** [s.endswith(p)] *)
Definition endswith (p s : str) : bool := startswith (rev p) (rev s).

(** [p in s] for strings. *)
Fixpoint contains (p s : str) : bool :=
  startswith p s ||
  match s with
  | [] => false
  | _ :: s' => contains p s'
  end.

Fixpoint lstrip (s : str) : str :=
  match s with
  | c :: s' => if is_space c then lstrip s' else s
  | [] => []
  end.

Definition rstrip (s : str) : str := rev (lstrip (rev s)).

Definition strip (s : str) : str := rstrip (lstrip s).

(** [sep.join(parts)] *)
Fixpoint join (sep : str) (parts : list str) : str :=
  match parts with
  | [] => []
  | [p] => p
  | p :: rest => p ++ sep ++ join sep rest
  end.

(** [s.split(c)] for a one-character separator: the pieces between the
    occurrences of [c]; never an empty list. *)
Fixpoint split_aux (c : ascii) (s : str) (cur : str) : list str :=
  match s with
  | [] => [rev cur]
  | x :: s' =>
      if Ascii.eqb x c then rev cur :: split_aux c s' []
      else split_aux c s' (x :: cur)
  end.

Definition str_split (c : ascii) (s : str) : list str := split_aux c s [].

(** [s.replace(old, new)]: the occurrences of [old] are found from left to
    right and do not overlap. [skip] counts the characters of an occurrence
    still to be passed over. An empty [old] matches between all characters. *)
Fixpoint replace_aux (old new : str) (s : str) (skip : nat) : str :=
  match s with
  | [] => []
  | c :: s' =>
      match skip with
      | S k => replace_aux old new s' k
      | 0 =>
          if startswith old s
          then new ++ replace_aux old new s' (length old - 1)
          else c :: replace_aux old new s' 0
      end
  end.

Definition str_replace (old new : str) (s : str) : str :=
  match old with
  | [] => new ++ flat_map (fun c => c :: new) s
  | _ :: _ => replace_aux old new s 0
  end.

(** [s.splitlines()]: a line ends at a line boundary; [\r\n] is one
    boundary; no empty last line is produced after a final boundary. *)
Fixpoint splitlines_aux (s : str) (cur : str) : list str :=
  match s with
  | [] => match cur with [] => [] | _ :: _ => [rev cur] end
  | c :: s' =>
      if Ascii.eqb c CR then
        match s' with
        | d :: s'' =>
            if Ascii.eqb d LF then rev cur :: splitlines_aux s'' []
            else rev cur :: splitlines_aux s' []
        | [] => rev cur :: splitlines_aux s' []
        end
      else if is_linebreak c then rev cur :: splitlines_aux s' []
      else splitlines_aux s' (c :: cur)
  end.

Definition splitlines (s : str) : list str := splitlines_aux s [].

(** [str(n)] for a natural number. *)
Definition str_of_nat (n : nat) : str :=
  list_ascii_of_string (NilEmpty.string_of_uint (Nat.to_uint n)).

(* ------------------------------------------------------------------ *)
(** ** Exceptions *)
(* ------------------------------------------------------------------ *)

Definition M (A : Type) : Type := option A.
Definition ret {A} (a : A) : M A := Some a.
Definition raise {A} : M A := None.
Definition bind {A B} (x : M A) (f : A -> M B) : M B :=
  match x with Some a => f a | None => None end.

Notation "x <- e ;; f" := (bind e (fun x => f))
  (at level 61, e at next level, right associativity).
Notation "' p <- e ;; f" := (bind e (fun x => let p := x in f))
  (at level 61, p pattern, e at next level, right associativity).

(** [s[i]] on a list or a string: [IndexError] out of range. *)
Definition index {A} (l : list A) (i : nat) : M A := nth_error l i.

(** [l[i] = v]: [IndexError] out of range. *)
Fixpoint list_set {A} (l : list A) (i : nat) (v : A) : M (list A) :=
  match l, i with
  | [], _ => raise
  | _ :: t, 0 => ret (v :: t)
  | x :: t, S j => t' <- list_set t j v ;; ret (x :: t')
  end.

(** [l.pop()]: [IndexError] on an empty list. *)
Definition pop {A} (l : list A) : M (list A) :=
  match l with
  | [] => raise
  | _ :: _ => ret (removelast l)
  end.

(* ------------------------------------------------------------------ *)
(** ** Dictionaries *)
(* ------------------------------------------------------------------ *)

Definition dict := list (str * str).

(** [d[k] = v]: an existing key keeps its place, a new one goes last. *)
Fixpoint dict_set (k v : str) (d : dict) : dict :=
  match d with
  | [] => [(k, v)]
  | (k', v') :: d' =>
      if str_eqb k' k then (k', v) :: d' else (k', v') :: dict_set k v d'
  end.

(* ------------------------------------------------------------------ *)
(** ** Regular expressions ([re]) *)
(* ------------------------------------------------------------------ *)

(** The fragment of [re] syntax that the patterns of the converter use.
    Every quantifier of the source applies to a single character or
    character class, which is what [Rep] holds. *)
Inductive regex : Type :=
| Eps
| Lit (c : ascii)                         (* a literal character *)
| Cls (p : ascii -> bool)                 (* a character class *)
| Cat (r1 r2 : regex)                     (* r1 r2 *)
| Alt (r1 r2 : regex)                     (* r1|r2 *)
| Rep (greedy : bool) (p : ascii -> bool) (lo : nat) (hi : option nat)
                                          (* p{lo,hi}, p{lo,hi}? *)
| Grp (n : nat) (r : regex)               (* capturing group number n *)
| Ref (n : nat)                           (* backreference \n *)
| Bol                                     (* ^ *)
| Eol                                     (* $ *)
| NotBehind (c : ascii)                   (* (?<!c) *)
| NotAhead (c : ascii).                   (* (?!c) *)

Notation "r1 +++ r2" := (Cat r1 r2) (at level 60, right associativity).

Definition groups := list (nat * str).

Fixpoint lookup (n : nat) (g : groups) : option str :=
  match g with
  | [] => None
  | (i, s) :: g' => if Nat.eqb i n then Some s else lookup n g'
  end.

(** A continuation receives the text before the position (reversed), the
    text from the position on, and the groups set so far. *)
Definition cont := str -> str -> groups -> option (groups * str).

Definition below (hi : option nat) (n : nat) : bool :=
  match hi with Some h => n <? h | None => true end.

(** Greedy repetition: as many characters as possible first, then fewer. *)
Fixpoint rep_greedy (p : ascii -> bool) (lo : nat) (hi : option nat)
    (rest : str) (n : nat) (before : str) (g : groups) (k : cont)
    : option (groups * str) :=
  let stop := if lo <=? n then k before rest g else None in
  match rest with
  | c :: t =>
      if p c && below hi n then
        match rep_greedy p lo hi t (S n) (c :: before) g k with
        | Some r => Some r
        | None => stop
        end
      else stop
  | [] => stop
  end.

(** Lazy repetition: as few characters as possible first, then more. *)
Fixpoint rep_lazy (p : ascii -> bool) (lo : nat) (hi : option nat)
    (rest : str) (n : nat) (before : str) (g : groups) (k : cont)
    : option (groups * str) :=
  let more :=
    match rest with
    | c :: t =>
        if p c && below hi n
        then rep_lazy p lo hi t (S n) (c :: before) g k
        else None
    | [] => None
    end in
  if lo <=? n then
    match k before rest g with
    | Some r => Some r
    | None => more
    end
  else more.

(** The backtracking matcher. It returns the groups and the text left
    after the first way of matching [r] for which [k] succeeds. *)
Fixpoint rmatch (r : regex) (before rest : str) (g : groups) (k : cont)
    : option (groups * str) :=
  match r with
  | Eps => k before rest g
  | Lit c =>
      match rest with
      | x :: t => if Ascii.eqb x c then k (x :: before) t g else None
      | [] => None
      end
  | Cls p =>
      match rest with
      | x :: t => if p x then k (x :: before) t g else None
      | [] => None
      end
  | Cat r1 r2 => rmatch r1 before rest g (fun b t g' => rmatch r2 b t g' k)
  | Alt r1 r2 =>
      match rmatch r1 before rest g k with
      | Some x => Some x
      | None => rmatch r2 before rest g k
      end
  | Rep true p lo hi => rep_greedy p lo hi rest 0 before g k
  | Rep false p lo hi => rep_lazy p lo hi rest 0 before g k
  | Grp n r1 =>
      rmatch r1 before rest g
        (fun b t g' => k b t ((n, firstn (length rest - length t) rest) :: g'))
  | Ref n =>
      match lookup n g with
      | Some s =>
          if startswith s rest
          then k (rev s ++ before) (skipn (length s) rest) g
          else None
      | None => None
      end
  | Bol => match before with [] => k before rest g | _ :: _ => None end
  | Eol =>
      match rest with
      | [] => k before rest g
      | [c] => if Ascii.eqb c LF then k before rest g else None
      | _ :: _ :: _ => None
      end
  | NotBehind c =>
      match before with
      | x :: _ => if Ascii.eqb x c then None else k before rest g
      | [] => k before rest g
      end
  | NotAhead c =>
      match rest with
      | x :: _ => if Ascii.eqb x c then None else k before rest g
      | [] => k before rest g
      end
  end.

(** A match object: its groups and the number of characters matched. *)
Record match_obj : Type := { m_groups : groups; m_len : nat }.

(** The match of [r] at the position between [before] and [rest]. *)
Definition match_at (r : regex) (before rest : str) : option match_obj :=
  match rmatch r before rest [] (fun _ t g => Some (g, t)) with
  | Some (g, t) => Some {| m_groups := g; m_len := length rest - length t |}
  | None => None
  end.

(** [pattern.match(s)] *)
Definition re_match (r : regex) (s : str) : option match_obj :=
  match_at r [] s.

(** [m.group(n)]: [None] for a group that took no part in the match. *)
Definition group (m : match_obj) (n : nat) : option str :=
  lookup n (m_groups m).

(** A method call or [len] on [m.group(n)]: an exception on [None]. *)
Definition group_str (m : match_obj) (n : nat) : M str := group m n.

(** [m.group(n)] inside an f-string. *)
Definition fmt (o : option str) : str :=
  match o with Some s => s | None => py "None" end.

(** [pattern.search(s)]: the first position with a match, from the left. *)
Fixpoint search_from (r : regex) (before rest : str) : option match_obj :=
  match match_at r before rest with
  | Some m => Some m
  | None =>
      match rest with
      | [] => None
      | c :: t => search_from r (c :: before) t
      end
  end.

Definition re_search (r : regex) (s : str) : option match_obj :=
  search_from r [] s.

(** [pattern.sub(repl, s)] with a function [repl] that may read and
    change the variables of its enclosing function (state [S]) and may
    raise. Matches are found from left to right and do not overlap; the
    text between them is copied. [skip] counts the characters of the
    current match still to be passed over. *)
Fixpoint sub_loop {S : Type} (r : regex)
    (repl : match_obj -> S -> M (str * S))
    (before rest : str) (skip : nat) (st : S) : M (str * S) :=
  match skip with
  | Datatypes.S k =>
      match rest with
      | c :: t => sub_loop r repl (c :: before) t k st
      | [] => ret ([], st)
      end
  | 0 =>
      match match_at r before rest with
      | Some m =>
          ' (out, st1) <- repl m st ;;
          match rest with
          | c :: t =>
              match m_len m with
              | 0 =>
                  ' (o2, st2) <- sub_loop r repl (c :: before) t 0 st1 ;;
                  ret (out ++ c :: o2, st2)
              | Datatypes.S k =>
                  ' (o2, st2) <- sub_loop r repl (c :: before) t k st1 ;;
                  ret (out ++ o2, st2)
              end
          | [] => ret (out, st1)
          end
      | None =>
          match rest with
          | c :: t =>
              ' (o2, st2) <- sub_loop r repl (c :: before) t 0 st ;;
              ret (c :: o2, st2)
          | [] => ret ([], st)
          end
      end
  end.

Definition re_sub_st {S : Type} (r : regex)
    (repl : match_obj -> S -> M (str * S)) (s : str) (st : S)
    : M (str * S) :=
  sub_loop r repl [] s 0 st.

(** [pattern.sub(repl, s)] with a function [repl] without effects. *)
Definition re_sub (r : regex) (repl : match_obj -> M str) (s : str) : M str :=
  ' (out, _) <- re_sub_st r (fun m (_ : unit) => o <- repl m ;; ret (o, tt)) s tt ;;
  ret out.

(* ------------------------------------------------------------------ *)
(** ** The patterns of [ConfluenceConverter] *)
(* ------------------------------------------------------------------ *)

(** Each pattern is preceded by its source text, written with blanks
    between its parts as under [re.VERBOSE]. *)

Definition ch (c : ascii) : ascii -> bool := fun x => Ascii.eqb x c.
Definition not_ch (c : ascii) : ascii -> bool := fun x => negb (Ascii.eqb x c).
Definition one_of (s : str) : ascii -> bool :=
  fun x => existsb (Ascii.eqb x) s.
(** [.] matches every character but the newline. *)
Definition dot : ascii -> bool := not_ch LF.

Definition many (p : ascii -> bool) : regex := Rep true p 0 None.
Definition many1 (p : ascii -> bool) : regex := Rep true p 1 None.
Definition few1 (p : ascii -> bool) : regex := Rep false p 1 None.
Definition at_least (n : nat) (p : ascii -> bool) : regex := Rep true p n None.
Definition exactly (n : nat) (p : ascii -> bool) : regex :=
  Rep true p n (Some n).

(** Placeholder tags. *)
Definition _PH_CB : str := py "\x00CB".
Definition _PH_IC : str := py "\x00IC".
Definition _PH_LK : str := py "\x00LK".
Definition _PH_BD : str := py "\x00BD".
Definition _PH_END : str := py "\x00".

(** [f'{tag}\x01{n}{_PH_END}'] *)
Definition _ph (tag : str) (n : nat) : str :=
  tag ++ py "\x01" ++ str_of_nat n ++ _PH_END.

(** [^ ( `{3,} | ~{3,} ) ( [\w+-]* ) $] *)
Definition _FENCE_START : regex :=
  Bol +++ Grp 1 (Alt (at_least 3 (ch "`")) (at_least 3 (ch "~")))
      +++ Grp 2 (many (fun c => is_word c || ch "+" c || ch "-" c)) +++ Eol.

(** [` ( [^`]+ ) `] *)
Definition _INLINE_CODE : regex :=
  Lit "`" +++ Grp 1 (many1 (not_ch "`")) +++ Lit "`".

(** [! \[ ( [^\]]* ) \] \( ( [^)]+ ) \)] *)
Definition _IMAGE : regex :=
  Lit "!" +++ Lit "[" +++ Grp 1 (many (not_ch "]")) +++ Lit "]" +++ Lit "("
          +++ Grp 2 (many1 (not_ch ")")) +++ Lit ")".

(** [\[ ( [^\]]* ) \] \( ( [^)]+ ) \)] *)
Definition _LINK : regex :=
  Lit "[" +++ Grp 1 (many (not_ch "]")) +++ Lit "]" +++ Lit "("
          +++ Grp 2 (many1 (not_ch ")")) +++ Lit ")".

(** [( \*{3} | _{3} ) ( .+? ) \1] *)
Definition _BOLD_ITALIC : regex :=
  Grp 1 (Alt (exactly 3 (ch "*")) (exactly 3 (ch "_")))
    +++ Grp 2 (few1 dot) +++ Ref 1.

(** [( \*{2} | _{2} ) ( .+? ) \1] *)
Definition _BOLD : regex :=
  Grp 1 (Alt (exactly 2 (ch "*")) (exactly 2 (ch "_")))
    +++ Grp 2 (few1 dot) +++ Ref 1.

(** [(?<! \* ) \* (?! \* ) ( .+? ) (?<! \* ) \* (?! \* )
    | (?<! _ ) _ (?! _ ) ( .+? ) (?<! _ ) _ (?! _ )] *)
Definition _ITALIC : regex :=
  Alt (NotBehind "*" +++ Lit "*" +++ NotAhead "*" +++ Grp 1 (few1 dot)
         +++ NotBehind "*" +++ Lit "*" +++ NotAhead "*")
      (NotBehind "_" +++ Lit "_" +++ NotAhead "_" +++ Grp 2 (few1 dot)
         +++ NotBehind "_" +++ Lit "_" +++ NotAhead "_").

(** [~~ ( .+? ) ~~] *)
Definition _STRIKE : regex :=
  Lit "~" +++ Lit "~" +++ Grp 1 (few1 dot) +++ Lit "~" +++ Lit "~".

(** [^ ( #{1,6} ) \s+ ( .* )] *)
Definition _HEADING : regex :=
  Bol +++ Grp 1 (Rep true (ch "#") 1 (Some 6)) +++ many1 is_space
      +++ Grp 2 (many dot).

(** [^ ( \*{3,} | -{3,} | _{3,} ) \s* $] *)
Definition _HR : regex :=
  Bol +++ Grp 1 (Alt (at_least 3 (ch "*"))
                   (Alt (at_least 3 (ch "-")) (at_least 3 (ch "_"))))
      +++ many is_space +++ Eol.

(** [^ > \s? ( .* )] *)
Definition _BLOCKQUOTE : regex :=
  Bol +++ Lit ">" +++ Rep true is_space 0 (Some 1) +++ Grp 1 (many dot).

(** [^ ( \s* ) ( [-*+] ) \s+ ( .* )] *)
Definition _UL_ITEM : regex :=
  Bol +++ Grp 1 (many is_space) +++ Grp 2 (Cls (one_of (py "-*+")))
      +++ many1 is_space +++ Grp 3 (many dot).

(** [^ ( \s* ) ( \d+ ) \. \s+ ( .* )] *)
Definition _OL_ITEM : regex :=
  Bol +++ Grp 1 (many is_space) +++ Grp 2 (many1 is_digit) +++ Lit "."
      +++ many1 is_space +++ Grp 3 (many dot).

(** [^ \[ x \] \s+] with [re.IGNORECASE] *)
Definition _TASK_CHECKED : regex :=
  Bol +++ Lit "[" +++ Cls (one_of (py "xX")) +++ Lit "]" +++ many1 is_space.

(** [^ \[ [ ] \] \s+] *)
Definition _TASK_UNCHECKED : regex :=
  Bol +++ Lit "[" +++ Lit " " +++ Lit "]" +++ many1 is_space.

(** [^ \| ( .+ ) \| $] *)
Definition _TABLE_ROW : regex :=
  Bol +++ Lit "|" +++ Grp 1 (many1 dot) +++ Lit "|" +++ Eol.

(** [^ \| [-| :]+ \| $] *)
Definition _TABLE_SEP : regex :=
  Bol +++ Lit "|" +++ many1 (one_of (py "-| :")) +++ Lit "|" +++ Eol.

(** Truth value of a match result ([if m:]). *)
Definition is_match (o : option match_obj) : bool :=
  match o with Some _ => true | None => false end.

(* ------------------------------------------------------------------ *)
(** ** Pass 1: fenced code blocks *)
(* ------------------------------------------------------------------ *)

(** [^ fence_char{3,} \s* $], built with [re.escape] *)
Definition close_fence (fence_char : ascii) : regex :=
  Bol +++ at_least 3 (ch fence_char) +++ many is_space +++ Eol.

(** The inner [while] of [_extract_code_blocks], on the lines from [idx]
    on: it returns the body and the lines after the closing fence. *)
Fixpoint collect_body (fence_char : ascii) (lines body_lines : list str)
    : list str * list str :=
  match lines with
  | [] => (body_lines, [])
  | l :: rest =>
      if is_match (re_match (close_fence fence_char) l)
      then (body_lines, rest)
      else collect_body fence_char rest (body_lines ++ [l])
  end.

(** The outer [while idx < len(lines)]; [lines] is [lines[idx:]]. *)
Fixpoint extract_loop (fuel : nat) (lines result : list str)
    (code_map : dict) (counter : nat) : M (list str * dict) :=
  match lines with
  | [] => ret (result, code_map)
  | line :: rest =>
      match fuel with
      | 0 => raise
      | S fuel' =>
          match re_match _FENCE_START line with
          | Some m =>
              g1 <- group_str m 1 ;;
              fence_char <- index g1 0 ;;
              g2 <- group_str m 2 ;;
              let lang := strip g2 in
              let (body_lines, rest') := collect_body fence_char rest [] in
              let header :=
                match lang with
                | _ :: _ => py "{code:language=" ++ lang ++ py "}"
                | [] => py "{code}"
                end in
              let body := join (py "\n") body_lines in
              let confluence_block := header ++ py "\n" ++ body ++ py "\n{code}" in
              let key := _ph _PH_CB counter in
              extract_loop fuel' rest' (result ++ [key])
                (dict_set key confluence_block code_map) (S counter)
          | None => extract_loop fuel' rest (result ++ [line]) code_map counter
          end
      end
  end.

Definition _extract_code_blocks (lines : list str) : M (list str * dict) :=
  extract_loop (length lines) lines [] [] 0.

(* ------------------------------------------------------------------ *)
(** ** Pass 2: block structure *)
(* ------------------------------------------------------------------ *)

(** The entries of the list stack, ['ul'] and ['ol']. *)
Inductive list_type : Type := ul | ol.

Definition _list_prefix (stack : list list_type) : str :=
  concat (map (fun t => match t with ul => py "*" | ol => py "#" end) stack).

Definition _format_table_row (row : str) (header : bool) : str :=
  let inner := strip row in
  let inner := if startswith (py "|") inner then skipn 1 inner else inner in
  let inner := if endswith (py "|") inner then removelast inner else inner in
  let cells := map strip (str_split "|" inner) in
  let sep := if header then py "||" else py "|" in
  sep ++ join sep cells ++ sep.

Fixpoint enumerate_from {A} (i : nat) (l : list A) : list (nat * A) :=
  match l with
  | [] => []
  | x :: l' => (i, x) :: enumerate_from (S i) l'
  end.

Definition is_sep (row : str) : bool := is_match (re_match _TABLE_SEP row).

Definition _process_table (rows : list str) : M (list str) :=
  let sep_indices :=
    map fst (filter (fun ir => is_sep (snd ir)) (enumerate_from 0 rows)) in
  match sep_indices with
  | [] => ret (map (fun row => _format_table_row row false) rows)
  | _ :: _ =>
      sep_idx <- index sep_indices 0 ;;
      let result :=
        map (fun row => _format_table_row row true) (firstn sep_idx rows) in
      ret (result ++
           map (fun row => _format_table_row row false)
             (filter (fun row => negb (is_sep row)) (skipn (sep_idx + 1) rows)))
  end.

(** [flush_table]: the buffered rows are converted and the buffer emptied. *)
Definition flush_table (result table_buffer : list str)
    : M (list str * list str) :=
  match table_buffer with
  | [] => ret (result, table_buffer)
  | _ :: _ =>
      rows <- _process_table table_buffer ;;
      ret (result ++ rows, [])
  end.

(** [while self._BLOCKQUOTE.match(content): content = ....group(1)] *)
Fixpoint flatten_blockquote (fuel : nat) (content : str) : M str :=
  match re_match _BLOCKQUOTE content with
  | Some m =>
      match fuel with
      | 0 => raise
      | S fuel' => c <- group_str m 1 ;; flatten_blockquote fuel' c
      end
  | None => ret content
  end.

(** [while len(list_stack) > depth: list_stack.pop()] *)
Fixpoint pop_while (fuel : nat) (list_stack : list list_type) (depth : nat)
    : M (list list_type) :=
  if depth <? length list_stack then
    match fuel with
    | 0 => raise
    | S fuel' => st <- pop list_stack ;; pop_while fuel' st depth
    end
  else ret list_stack.

(** [while len(list_stack) < depth: list_stack.append(t)] *)
Fixpoint push_while (fuel : nat) (list_stack : list list_type) (depth : nat)
    (t : list_type) : M (list list_type) :=
  if length list_stack <? depth then
    match fuel with
    | 0 => raise
    | S fuel' => push_while fuel' (list_stack ++ [t]) depth t
    end
  else ret list_stack.

(** The stack update shared by the two list branches; it returns the new
    stack and the prefix of the item. *)
Definition list_item (list_stack : list list_type) (indent : nat)
    (t : list_type) : M (list list_type * str) :=
  let depth := indent / 2 + 1 in
  list_stack <- pop_while (length list_stack) list_stack depth ;;
  list_stack <- push_while depth list_stack depth t ;;
  list_stack <- list_set list_stack (depth - 1) t ;;
  ret (list_stack, _list_prefix (firstn depth list_stack)).

(** The line emitted for an unordered item. *)
Definition ul_line (prefix content : str) : M str :=
  if is_match (re_match _TASK_CHECKED content) then
    content <- re_sub _TASK_CHECKED (fun _ => ret []) content ;;
    ret (prefix ++ py " (/) " ++ content)
  else if is_match (re_match _TASK_UNCHECKED content) then
    content <- re_sub _TASK_UNCHECKED (fun _ => ret []) content ;;
    ret (prefix ++ py " ( ) " ++ content)
  else ret (prefix ++ py " " ++ content).

(** The state of the loop of [_process_block_structure]: [result],
    [list_stack] and [table_buffer]. *)
Definition block_state : Type :=
  (list str * list list_type * list str)%type.

(** One turn of the [while i < len(lines)] of [_process_block_structure],
    on the line [lines[i]]. *)
Definition block_step (line : str) (st : block_state) : M block_state :=
  let '(result, list_stack, table_buffer) := st in
  if contains _PH_CB line then
    ' (result, table_buffer) <- flush_table result table_buffer ;;
    ret (result ++ [line], [], table_buffer)
  else if is_match (re_match _TABLE_ROW line) then
    ret (result, list_stack, table_buffer ++ [line])
  else
    ' (result, table_buffer) <- flush_table result table_buffer ;;
    match re_match _HEADING line with
    | Some m =>
        g1 <- group_str m 1 ;;
        g2 <- group_str m 2 ;;
        let level := length g1 in
        let content := rstrip g2 in
        ret (result ++ [py "h" ++ str_of_nat level ++ py ". " ++ content],
             [], table_buffer)
    | None =>
    if is_match (re_match _HR line)
       && negb (is_match (re_match _UL_ITEM line))
       && negb (is_match (re_match _OL_ITEM line))
    then ret (result ++ [py "----"], [], table_buffer)
    else
    match re_match _BLOCKQUOTE line with
    | Some m =>
        content <- group_str m 1 ;;
        content <- flatten_blockquote (length content) content ;;
        ret (result ++ [py "bq. " ++ content], [], table_buffer)
    | None =>
    match re_match _UL_ITEM line with
    | Some m =>
        g1 <- group_str m 1 ;;
        content <- group_str m 3 ;;
        ' (list_stack, prefix) <- list_item list_stack (length g1) ul ;;
        out <- ul_line prefix content ;;
        ret (result ++ [out], list_stack, table_buffer)
    | None =>
    match re_match _OL_ITEM line with
    | Some m =>
        g1 <- group_str m 1 ;;
        content <- group_str m 3 ;;
        ' (list_stack, prefix) <- list_item list_stack (length g1) ol ;;
        ret (result ++ [prefix ++ py " " ++ content], list_stack, table_buffer)
    | None => ret (result ++ [line], [], table_buffer)
    end end end end.

(** The [while] loop: [i] grows by one in every turn, so the loop is a
    recursion on [lines[i:]]; the table is flushed after the last line. *)
Fixpoint block_loop (lines : list str) (st : block_state) : M (list str) :=
  match lines with
  | [] =>
      let '(result, _, table_buffer) := st in
      ' (result, _) <- flush_table result table_buffer ;;
      ret result
  | line :: rest => st' <- block_step line st ;; block_loop rest st'
  end.

Definition _process_block_structure (lines : list str) : M (list str) :=
  block_loop lines ([], [], []).

(* ------------------------------------------------------------------ *)
(** ** Passes 3 to 6: inline processing of one line *)
(* ------------------------------------------------------------------ *)

(** The replacement functions are closures over a counter and a map
    ([nonlocal counter], the mutated dictionary): the state of [re_sub_st]. *)
Definition ph_state : Type := (nat * dict)%type.

(** [replacer] of [_extract_inline_code] *)
Definition replacer (m : match_obj) (st : ph_state) : M (str * ph_state) :=
  let (counter, inline_map) := st in
  let key := _ph _PH_IC counter in
  content <- group_str m 1 ;;
  let content :=
    if contains (py "{") content || contains (py "}") content
    then str_replace (py "}") (py "&#125;")
           (str_replace (py "{") (py "&#123;") content)
    else content in
  ret (key, (S counter, dict_set key (py "{{" ++ content ++ py "}}") inline_map)).

Definition _extract_inline_code (line : str) (inline_map : dict)
    : M (str * dict) :=
  let counter := length inline_map in
  ' (line, (_, inline_map)) <-
      re_sub_st _INLINE_CODE replacer line (counter, inline_map) ;;
  ret (line, inline_map).

(** [img_replacer] of [_extract_links] *)
Definition img_replacer (m : match_obj) (st : ph_state) : M (str * ph_state) :=
  let (counter, link_map) := st in
  let key := _ph _PH_LK counter in
  ret (key, (S counter,
             dict_set key (py "!" ++ fmt (group m 2) ++ py "!") link_map)).

(** [link_replacer] of [_extract_links] *)
Definition link_replacer (m : match_obj) (st : ph_state) : M (str * ph_state) :=
  let (counter, link_map) := st in
  let key := _ph _PH_LK counter in
  ret (key, (S counter,
             dict_set key
               (py "[" ++ fmt (group m 1) ++ py "|" ++ fmt (group m 2) ++ py "]")
               link_map)).

Definition _extract_links (line : str) (link_map : dict) : M (str * dict) :=
  let counter := length link_map in
  ' (line, st) <- re_sub_st _IMAGE img_replacer line (counter, link_map) ;;
  ' (line, (_, link_map)) <- re_sub_st _LINK link_replacer line st ;;
  ret (line, link_map).

(** [_restore_placeholders]: the keys are replaced one after the other,
    in the order of the dictionary. *)
Definition _restore_placeholders (text : str) (placeholder_map : dict) : str :=
  fold_left (fun text kv => str_replace (fst kv) (snd kv) text)
    placeholder_map text.

(** [store_bold] under a replacement function that builds [wiki]. *)
Definition store_bold (wiki : match_obj -> str) (m : match_obj)
    (st : ph_state) : M (str * ph_state) :=
  let (bd_counter, bold_map) := st in
  let key := _ph _PH_BD bd_counter in
  ret (key, (S bd_counter, dict_set key (wiki m) bold_map)).

(** [italic_repl] *)
Definition italic_repl (m : match_obj) : M str :=
  let content :=
    match group m 1 with
    | Some c => Some c
    | None => group m 2
    end in
  ret (py "_" ++ fmt content ++ py "_").

Definition _process_inline_formatting (line : str) : M str :=
  ' (line, st) <-
      re_sub_st _BOLD_ITALIC
        (store_bold (fun m => py "*_" ++ fmt (group m 2) ++ py "_*"))
        line (0, []) ;;
  ' (line, (_, bold_map)) <-
      re_sub_st _BOLD
        (store_bold (fun m => py "*" ++ fmt (group m 2) ++ py "*")) line st ;;
  line <- re_sub _ITALIC italic_repl line ;;
  line <- re_sub _STRIKE
            (fun m => ret (py "-" ++ fmt (group m 1) ++ py "-")) line ;;
  ret (_restore_placeholders line bold_map).

(** The body of the [for line in lines] of [convert], for a line without
    a code block placeholder. *)
Definition inline_line (line : str) (inline_map link_map : dict)
    : M (str * dict * dict) :=
  ' (line, inline_map) <- _extract_inline_code line inline_map ;;
  ' (line, link_map) <- _extract_links line link_map ;;
  line <- _process_inline_formatting line ;;
  let line := _restore_placeholders line link_map in
  let line := _restore_placeholders line inline_map in
  ret (line, inline_map, link_map).

Fixpoint inline_loop (lines result_lines : list str)
    (inline_map link_map : dict) : M (list str) :=
  match lines with
  | [] => ret result_lines
  | line :: rest =>
      if contains _PH_CB line then
        inline_loop rest (result_lines ++ [line]) inline_map link_map
      else
        ' (line, inline_map, link_map) <- inline_line line inline_map link_map ;;
        inline_loop rest (result_lines ++ [line]) inline_map link_map
  end.

(* ------------------------------------------------------------------ *)
(** ** [convert] *)
(* ------------------------------------------------------------------ *)

Definition convert (text : str) : M str :=
  let trailing_newline := endswith (py "\n") text in
  let lines := splitlines text in
  ' (lines, code_map) <- _extract_code_blocks lines ;;
  lines <- _process_block_structure lines ;;
  result_lines <- inline_loop lines [] [] [] ;;
  let output := join (py "\n") result_lines in
  let output := _restore_placeholders output code_map in
  ret (if trailing_newline then output ++ py "\n" else output).

(* ------------------------------------------------------------------ *)
(** ** What a pattern can match *)
(* ------------------------------------------------------------------ *)

(** [reach r b t g b' t' g']: from the position between [b] (reversed)
    and [t], with groups [g], the pattern [r] can match up to the
    position between [b'] and [t'], leaving the groups [g']. The matcher
    is sound and complete for it; the order in which it tries the
    possible matches is not part of this relation. *)
Fixpoint reach (r : regex) (b t : str) (g : groups) (b' t' : str)
    (g' : groups) : Prop :=
  match r with
  | Eps => b' = b /\ t' = t /\ g' = g
  | Lit c => t = c :: t' /\ b' = c :: b /\ g' = g
  | Cls p => exists x, p x = true /\ t = x :: t' /\ b' = x :: b /\ g' = g
  | Cat r1 r2 =>
      exists b1 t1 g1, reach r1 b t g b1 t1 g1 /\ reach r2 b1 t1 g1 b' t' g'
  | Alt r1 r2 => reach r1 b t g b' t' g' \/ reach r2 b t g b' t' g'
  | Rep _ p lo hi =>
      exists u, t = u ++ t' /\ forallb p u = true /\ lo <= length u
        /\ (forall h, hi = Some h -> length u <= h)
        /\ b' = rev u ++ b /\ g' = g
  | Grp n r1 =>
      exists g1, reach r1 b t g b' t' g1
        /\ g' = (n, firstn (length t - length t') t) :: g1
  | Ref n =>
      exists s, lookup n g = Some s /\ t = s ++ t'
        /\ b' = rev s ++ b /\ g' = g
  | Bol => b = [] /\ b' = b /\ t' = t /\ g' = g
  | Eol => (t = [] \/ t = [LF]) /\ b' = b /\ t' = t /\ g' = g
  | NotBehind c => hd_error b <> Some c /\ b' = b /\ t' = t /\ g' = g
  | NotAhead c => hd_error t <> Some c /\ b' = b /\ t' = t /\ g' = g
  end.

(* ------------------------------------------------------------------ *)
(** * Notions of the statements *)
(* ------------------------------------------------------------------ *)

Unset Implicit Arguments.

Definition PIPE : ascii := "|"%char.

(** The row rendered from its cells: the cells between separators, with a
    separator at both ends. *)
Definition wrap_cells (header : bool) (cells : list str) : str :=
  let sep := if header then py "||" else py "|" in
  sep ++ join sep cells ++ sep.

(** The cells of the text between the outer pipes of a row. *)
Definition cells_of (mid : str) : list str := map strip (str_split PIPE mid).

(** A line that goes to the table buffer. *)
Definition buffered (line : str) : bool :=
  negb (contains _PH_CB line) && is_match (re_match _TABLE_ROW line).

(** The characters of a language word, [[\w+-]]. *)
Definition lang_char (c : ascii) : bool := is_word c || ch "+" c || ch "-" c.

(** A closing fence for [fence_char]: three or more of it, then
    whitespace only. *)
Definition closes (fence_char : ascii) (line : str) : Prop :=
  exists n ws, 3 <= n /\ line = repeat fence_char n ++ ws
               /\ forallb is_space ws = true.

(** The replacement of a block with language word [lang] and body lines
    [body]. *)
Definition code_block (lang : str) (body : list str) : str :=
  (match lang with
   | _ :: _ => py "{code:language=" ++ lang ++ py "}"
   | [] => py "{code}"
   end) ++ py "\n" ++ join (py "\n") body ++ py "\n{code}".

(** The list stack after an item of type [t] at zero-based level [d]: the
    entries above the item are kept, missing levels are filled with [t],
    and the entry of the item is [t]. *)
Definition stack_after (list_stack : list list_type) (d : nat) (t : list_type)
    : list list_type :=
  firstn d list_stack ++ repeat t (d - length list_stack) ++ [t].

(** The number of leading blanks (U+0020) of a line. *)
Fixpoint leading_spaces (s : str) : nat :=
  match s with
  | c :: s' => if Ascii.eqb c SP then S (leading_spaces s') else 0
  | [] => 0
  end.

(** The characters that introduce an unordered item, [[-*+]]. *)
Definition ul_marker (c : ascii) : bool := one_of (py "-*+") c.

(** The first character of [s], if any, is not whitespace. *)
Definition starts_nonspace (s : str) : Prop :=
  match s with c :: _ => is_space c = false | [] => True end.

(** A first character that rules out a table row, a heading and a
    blockquote. *)
Definition plain_start (x : ascii) : bool :=
  negb (Ascii.eqb x "|") && negb (Ascii.eqb x "#") && negb (Ascii.eqb x ">").

(** The character of the prefix for a stack entry. *)
Definition prefix_char (t : list_type) : ascii :=
  match t with ul => "*"%char | ol => "#"%char end.

(** No NUL character in [s]. *)
Definition nul_free (s : str) : bool := forallb (fun c => negb (Ascii.eqb c NUL)) s.

(** The text of a placeholder key between its two NUL characters. *)
Definition ph_body (tag : str) (n : nat) : str := tl tag ++ SOH :: str_of_nat n.

(** The four tags of the converter. *)
Definition is_tag (tag : str) : Prop :=
  tag = _PH_CB \/ tag = _PH_IC \/ tag = _PH_LK \/ tag = _PH_BD.

(** The characters with which a match of one of the inline patterns can
    begin: a backtick, [!], [[], [*], [_] and [~]. *)
Definition special (c : ascii) : bool := one_of (py "`![*_~") c.

(** A text that no inline pattern can match in. *)
Definition plain_text (s : str) : bool := forallb (fun c => negb (special c)) s.

(** The text of an inline code span with its braces escaped. *)
Definition escape_braces (content : str) : str :=
  flat_map (fun c => if Ascii.eqb c "{" then py "&#123;"
                     else if Ascii.eqb c "}" then py "&#125;"
                     else [c]) content.

(** The keys of a placeholder map of the converter: the keys of [tag]
    numbered from 0 in the order of insertion. *)
Definition keys_of (tag : str) (m : dict) : Prop :=
  map fst m = map (_ph tag) (seq 0 (length m)).

(** ** Lines as sequences of pieces *)

(** A line is read as a sequence of pieces: texts, the three elements
    that the passes 3 and 4 replace, and the placeholder keys that they
    write. *)
Inductive piece : Type :=
| Text (t : str)
| Code (content : str)
| Image (alt url : str)
| Link (text url : str)
| Key (tag : str) (n : nat).

(** A piece as it is written in Markdown. *)
Definition markdown (p : piece) : str :=
  match p with
  | Text t => t
  | Code content => py "`" ++ content ++ py "`"
  | Image alt url => py "![" ++ alt ++ py "](" ++ url ++ py ")"
  | Link text url => py "[" ++ text ++ py "](" ++ url ++ py ")"
  | Key tag n => _ph tag n
  end.

(** A piece as it is written in Confluence wiki markup. *)
Definition wiki (p : piece) : str :=
  match p with
  | Text t => t
  | Code content => py "{{" ++ escape_braces content ++ py "}}"
  | Image alt url => py "!" ++ url ++ py "!"
  | Link text url => py "[" ++ text ++ py "|" ++ url ++ py "]"
  | Key tag n => _ph tag n
  end.

Definition line_of (ps : list piece) : str := flat_map markdown ps.
Definition wiki_of (ps : list piece) : str := flat_map wiki ps.

Definition is_code (p : piece) : bool :=
  match p with Code _ => true | _ => false end.
Definition is_image (p : piece) : bool :=
  match p with Image _ _ => true | _ => false end.
Definition is_link (p : piece) : bool :=
  match p with Link _ _ => true | _ => false end.

(** The pieces after a pass: the selected pieces are replaced by the
    keys numbered from [n], from left to right. *)
Fixpoint number (sel : piece -> bool) (tag : str) (n : nat) (ps : list piece)
    : list piece :=
  match ps with
  | [] => []
  | p :: ps' =>
      if sel p then Key tag n :: number sel tag (S n) ps'
      else p :: number sel tag n ps'
  end.

(** The entries that the pass adds to its map. *)
Fixpoint stored (sel : piece -> bool) (tag : str) (n : nat) (ps : list piece)
    : dict :=
  match ps with
  | [] => []
  | p :: ps' =>
      if sel p then (_ph tag n, wiki p) :: stored sel tag (S n) ps'
      else stored sel tag n ps'
  end.

Definition count (sel : piece -> bool) (ps : list piece) : nat :=
  length (filter sel ps).

(** The elements that the patterns accept: a code span has a content of
    one or more characters other than the backtick; the text of an image
    or link has no []], its URL is not empty and has no [)]. *)
Definition well_formed (p : piece) : Prop :=
  match p with
  | Code content => content <> [] /\ forallb (not_ch "`") content = true
  | Image text url | Link text url =>
      forallb (not_ch "]") text = true
      /\ url <> [] /\ forallb (not_ch ")") url = true
  | _ => True
  end.

(** A selected element begins the text [s]. *)
Definition begins (sel : piece -> bool) (s : str) : Prop :=
  exists p rest, sel p = true /\ well_formed p /\ s = markdown p ++ rest.

(** No selected element begins inside a piece that is not selected. *)
Fixpoint quiet (sel : piece -> bool) (ps : list piece) : Prop :=
  match ps with
  | [] => True
  | p :: ps' =>
      (sel p = false ->
       forall p1 p2, markdown p = p1 ++ p2 -> p2 <> [] ->
         ~ begins sel (p2 ++ line_of ps'))
      /\ quiet sel ps'
  end.

(** The pieces are texts and well-formed selected elements. *)
Definition elements (sel : piece -> bool) (ps : list piece) : Prop :=
  Forall (fun p => if sel p then well_formed p else exists t, p = Text t) ps.

(** ** Lines in which the elements stand between plain texts *)

(** Neither of the two control characters that frame a placeholder key. *)
Definition clean (s : str) : bool :=
  forallb (fun c => negb (Ascii.eqb c NUL) && negb (Ascii.eqb c SOH)) s.

(** None of the characters of [chars]. *)
Definition without (chars : str) (s : str) : bool :=
  forallb (fun c => negb (one_of chars c)) s.

(** A text without inline marker and control character; an element that
    holds no other element and no control character in what it gives to
    the output. *)
Definition simple (p : piece) : Prop :=
  match p with
  | Text t => plain_text t = true /\ clean t = true
  | Code content =>
      content <> [] /\ without (py "`") content = true /\ clean content = true
  | Image alt url =>
      without (py "`]") alt = true
      /\ url <> [] /\ without (py "`)") url = true /\ clean url = true
  | Link text url =>
      without (py "`!]") text = true /\ clean text = true
      /\ url <> [] /\ without (py "`!)") url = true /\ clean url = true
  | Key _ _ => False
  end.

(** The value of a key in a map, [None] for a key that is not in it. *)
Fixpoint value_of (k : str) (d : dict) : option str :=
  match d with
  | [] => None
  | (k', v) :: d' => if str_eqb k' k then Some v else value_of k d'
  end.

(** A key piece read in a map. *)
Definition resolve (d : dict) (p : piece) : piece :=
  match p with
  | Key tag n =>
      match value_of (_ph tag n) d with
      | Some v => Text v
      | None => p
      end
  | _ => p
  end.

(** A text piece or a key piece. *)
Definition settled (p : piece) : Prop :=
  match p with
  | Text t => clean t = true
  | Key tag _ => is_tag tag
  | _ => False
  end.

(** One step of [_restore_placeholders] seen on the pieces: the key [k]
    becomes the text [v]. *)
Definition swap (k v : str) (p : piece) : piece :=
  match p with
  | Key tag n => if str_eqb k (_ph tag n) then Text v else p
  | _ => p
  end.

(** What the restoring needs of the pieces of a line: no control
    character in a text and in what an element gives to the output. *)
Definition sound (p : piece) : Prop :=
  match p with
  | Text t => clean t = true
  | Code content => well_formed p /\ clean content = true
  | Image alt url => well_formed p /\ clean url = true
  | Link text url => well_formed p /\ clean text = true /\ clean url = true
  | Key _ _ => False
  end.

(** The pieces of a line after the passes 3 and 4: the code spans are
    the keys of [_PH_IC] from [a], the images the keys of [_PH_LK] from
    [b] and the links the keys of [_PH_LK] from [c]. *)
Definition keyed (a b c : nat) (ps : list piece) : list piece :=
  number is_link _PH_LK c (number is_image _PH_LK b (number is_code _PH_IC a ps)).

(** The same element, or two texts. *)
Definition retexted (p q : piece) : Prop :=
  match p, q with
  | Text _, Text _ => True
  | _, _ => p = q
  end.

(** [sets r n]: every match of [r] sets group [n]. *)
Fixpoint sets (r : regex) (n : nat) : bool :=
  match r with
  | Grp m r1 => Nat.eqb m n || sets r1 n
  | Cat r1 r2 => sets r1 n || sets r2 n
  | Alt r1 r2 => sets r1 n && sets r2 n
  | _ => false
  end.

(** The characters of the literals that the converter writes: printable
    ASCII, and the NUL and SOH of the placeholder keys. *)
Definition literal (c : ascii) : bool :=
  between 32 126 c || Ascii.eqb c NUL || Ascii.eqb c SOH.

(** The strings of the groups satisfy [p]. *)
Definition groups_ok (p : ascii -> bool) (g : groups) : Prop :=
  forall n s, In (n, s) g -> forallb p s = true.

(** The values of a dictionary satisfy [p]. *)
Definition vals_ok (p : ascii -> bool) (m : dict) : Prop :=
  forall kv, In kv m -> forallb p (snd kv) = true.

(** The strings of a list satisfy [p]. *)
Definition oks (p : ascii -> bool) (ls : list str) : Prop :=
  Forall (fun x : str => forallb p x = true) ls.

Definition state_ok (p : ascii -> bool) (st : block_state) : Prop :=
  let '(result, _, tb) := st in oks p result /\ oks p tb.

(** The values of the code block map are blocks built from a language
    word and body lines that satisfy [p]. *)
Definition blocks_ok (p : ascii -> bool) (m : dict) : Prop :=
  forall kv, In kv m ->
    exists lang body, snd kv = code_block lang body
                      /\ forallb lang_char lang = true
                      /\ forallb p lang = true /\ oks p body.

(** The invariant of the loop of [_extract_code_blocks]. *)
Definition extract_inv (p : ascii -> bool) (result : list str) (code_map : dict)
    (counter : nat) : Prop :=
  counter = length code_map /\ keys_of _PH_CB code_map
  /\ (forall kv, In kv code_map -> In (fst kv) result)
  /\ blocks_ok p code_map /\ oks p result.

(** A character that is not a line boundary. *)
Definition no_break (c : ascii) : bool := negb (is_linebreak c).

(** A character that is not a line boundary, or is the newline. *)
Definition lf_or_no_break (c : ascii) : bool := no_break c || Ascii.eqb c LF.

(** A line that no pattern of the converter matches, at the start for the
    block patterns, anywhere for the inline patterns, and that holds no
    code block placeholder tag. *)
Definition plain_line (l : str) : bool :=
  negb (is_match (re_match _FENCE_START l))
  && negb (contains _PH_CB l)
  && negb (is_match (re_match _TABLE_ROW l))
  && negb (is_match (re_match _HEADING l))
  && negb (is_match (re_match _HR l))
  && negb (is_match (re_match _BLOCKQUOTE l))
  && negb (is_match (re_match _UL_ITEM l))
  && negb (is_match (re_match _OL_ITEM l))
  && negb (is_match (re_search _INLINE_CODE l))
  && negb (is_match (re_search _IMAGE l))
  && negb (is_match (re_search _LINK l))
  && negb (is_match (re_search _BOLD_ITALIC l))
  && negb (is_match (re_search _BOLD l))
  && negb (is_match (re_search _ITALIC l))
  && negb (is_match (re_search _STRIKE l)).

(** The text of [convert] before the final newline is added. *)
Definition rendered (result_lines : list str) (code_map : dict) : str :=
  _restore_placeholders (join (py "\n") result_lines) code_map.

(** [text] ends with a character at which [splitlines] ends a line. *)
Definition ends_with_break (text : str) : bool := is_linebreak (last text SP).

(** [v in out] for strings, as a proposition. *)
Definition occurs_in (v out : str) : Prop := exists a b, out = a ++ v ++ b.

(** The values of a dictionary are not empty. *)
Definition vals_ne (m : dict) : Prop := forall kv, In kv m -> snd kv <> [].

(** [text] is not empty and its last character is not the newline. *)
Definition no_final_newline (text : str) : Prop := last text LF <> LF.

(** The characters of a horizontal rule, [*], [-] and [_]. *)
Definition hr_char (c : ascii) : bool := one_of (py "*-_") c.

(** A quote marker is [>] with the whitespace character that follows
    it, if there is one: [levels] holds the whitespace of each marker,
    outermost first, and [quoted levels content] is the line. *)
Fixpoint quoted (levels : list str) (content : str) : str :=
  match levels with
  | [] => content
  | sp :: levels' => ">"%char :: sp ++ quoted levels' content
  end.

(** The whitespace of a quote marker: nothing, or one whitespace
    character that is not a newline. *)
Definition quote_space (sp : str) : Prop :=
  sp = [] \/ exists w, sp = [w] /\ is_space w = true /\ dot w = true.

(** The two characters that mark bold and italic text, [*] and [_]. *)
Definition emph_char (c : ascii) : bool := ch "*" c || ch "_" c.

(** A text that can stand between two inline markers: it is not empty
    and holds no newline, no NUL and none of the characters with which
    an inline pattern can begin. *)
Definition marked_text (s : str) : Prop :=
  s <> [] /\ plain_text s = true /\ nul_free s = true /\ forallb dot s = true.

(** A text around the marked text: no NUL and none of the characters
    with which an inline pattern can begin. *)
Definition context_text (s : str) : Prop :=
  plain_text s = true /\ nul_free s = true.

(** The pattern [( \*{n} | _{n} ) ( .+? ) \1]; [_BOLD_ITALIC] is
    [emphasis 3] and [_BOLD] is [emphasis 2]. *)
Definition emphasis (n : nat) : regex :=
  Grp 1 (Alt (exactly n (ch "*")) (exactly n (ch "_")))
    +++ Grp 2 (few1 dot) +++ Ref 1.

(** The number of [*] and [_] at the beginning of a text. *)
Fixpoint lead (s : str) : nat :=
  match s with
  | c :: t => if emph_char c then S (lead t) else 0
  | [] => 0
  end.

(** The length of the longest run of [*] and [_] in a text. *)
Fixpoint maxrun (s : str) : nat :=
  match s with
  | [] => 0
  | c :: t => Nat.max (lead (c :: t)) (maxrun t)
  end.

(* ------------------------------------------------------------------ *)
(** * Strings *)
(* ------------------------------------------------------------------ *)

Lemma startswith_app : forall p s, startswith p s = true -> s = p ++ skipn (length p) s.
Proof.
  induction p as [|x p IH]; intros [|y s] H; simpl in *; try congruence.
  apply andb_true_iff in H as [H1 H2]. apply Ascii.eqb_eq in H1. subst.
  f_equal. auto.
Qed.

Lemma startswith_prefix : forall p s, startswith p (p ++ s) = true.
Proof.
  induction p as [|x p IH]; intros s; simpl; auto.
  rewrite Ascii.eqb_refl. simpl. auto.
Qed.

Lemma startswith_iff : forall p s, startswith p s = true <-> exists t, s = p ++ t.
Proof.
  split.
  - intros H. eexists. apply startswith_app. exact H.
  - intros [t ->]. apply startswith_prefix.
Qed.

Lemma skipn_length_app : forall (A : Type) (u t : list A), skipn (length u) (u ++ t) = t.
Proof. induction u; simpl; auto. Qed.

Lemma firstn_length_app : forall (A : Type) (u t : list A), firstn (length u) (u ++ t) = u.
Proof. induction u; simpl; intros; f_equal; auto. Qed.

Lemma rev_cons_app : forall (A : Type) (c : A) u b, rev (c :: u) ++ b = rev u ++ c :: b.
Proof. intros. simpl. rewrite <- app_assoc. reflexivity. Qed.

(* ------------------------------------------------------------------ *)
(** * The matcher and [reach] *)
(* ------------------------------------------------------------------ *)

Lemma rep_greedy_sound p lo hi : forall rest n b g k res,
  rep_greedy p lo hi rest n b g k = Some res ->
  exists u t', rest = u ++ t' /\ forallb p u = true /\ lo <= n + length u /\
    (forall h, hi = Some h -> n <= h -> n + length u <= h) /\
    k (rev u ++ b) t' g = Some res.
Proof.
  induction rest as [|c t IH]; intros n b g k res H; simpl in H.
  - destruct (lo <=? n) eqn:E; [|discriminate].
    apply Nat.leb_le in E. exists [], []. simpl. repeat split; auto; lia.
  - assert (Stop : (if lo <=? n then k b (c :: t) g else None) = Some res ->
       exists u t', c :: t = u ++ t' /\ forallb p u = true /\ lo <= n + length u /\
         (forall h, hi = Some h -> n <= h -> n + length u <= h) /\
         k (rev u ++ b) t' g = Some res).
    { intros H0. destruct (lo <=? n) eqn:E; [|discriminate].
      apply Nat.leb_le in E. exists [], (c :: t). simpl. repeat split; auto; lia. }
    destruct (p c && below hi n) eqn:C; [|auto].
    destruct (rep_greedy p lo hi t (S n) (c :: b) g k) as [r|] eqn:R; [|auto].
    inversion H; subst r. apply IH in R as (u & t' & -> & Hp & Hlo & Hhi & Hk).
    apply andb_true_iff in C as [Pc Bl].
    exists (c :: u), t'. simpl. rewrite Pc, Hp. rewrite <- app_assoc. simpl.
    repeat split; auto; try lia.
    intros h Hh Hn. subst hi. simpl in Bl. apply Nat.ltb_lt in Bl.
    specialize (Hhi h eq_refl). lia.
Qed.

Lemma rep_lazy_sound p lo hi : forall rest n b g k res,
  rep_lazy p lo hi rest n b g k = Some res ->
  exists u t', rest = u ++ t' /\ forallb p u = true /\ lo <= n + length u /\
    (forall h, hi = Some h -> n <= h -> n + length u <= h) /\
    k (rev u ++ b) t' g = Some res.
Proof.
  induction rest as [|c t IH]; intros n b g k res H; simpl in H.
  - destruct (lo <=? n) eqn:E; [|discriminate].
    destruct (k b [] g) eqn:K; [|discriminate]. inversion H; subst.
    apply Nat.leb_le in E. exists [], []. simpl. repeat split; auto; lia.
  - assert (More : (if p c && below hi n then rep_lazy p lo hi t (S n) (c :: b) g k else None) = Some res ->
       exists u t', c :: t = u ++ t' /\ forallb p u = true /\ lo <= n + length u /\
         (forall h, hi = Some h -> n <= h -> n + length u <= h) /\
         k (rev u ++ b) t' g = Some res).
    { intros H0. destruct (p c && below hi n) eqn:C; [|discriminate].
      apply IH in H0 as (u & t' & -> & Hp & Hlo & Hhi & Hk).
      apply andb_true_iff in C as [Pc Bl].
      exists (c :: u), t'. simpl. rewrite Pc, Hp. rewrite <- app_assoc. simpl.
      repeat split; auto; try lia.
      intros h Hh Hn. subst hi. simpl in Bl. apply Nat.ltb_lt in Bl.
      specialize (Hhi h eq_refl). lia. }
    destruct (lo <=? n) eqn:E; [|auto].
    destruct (k b (c :: t) g) eqn:K; [|auto].
    inversion H; subst. apply Nat.leb_le in E.
    exists [], (c :: t). simpl. repeat split; auto; lia.
Qed.

Lemma rep_greedy_complete p lo hi : forall rest n b g k,
  rep_greedy p lo hi rest n b g k = None ->
  forall u t', rest = u ++ t' -> forallb p u = true -> lo <= n + length u ->
    (forall h, hi = Some h -> n + length u <= h) -> k (rev u ++ b) t' g = None.
Proof.
  induction rest as [|c t IH]; intros n b g k H u t' Hr Hp Hlo Hhi; simpl in H.
  - destruct u; [|discriminate]. simpl in *. subst t'.
    replace (lo <=? n) with true in H by (symmetry; apply Nat.leb_le; lia). exact H.
  - destruct u as [|c' u]; simpl in *.
    + subst t'. replace (lo <=? n) with true in H by (symmetry; apply Nat.leb_le; lia).
      destruct (p c && below hi n); [|exact H].
      destruct (rep_greedy p lo hi t (S n) (c :: b) g k); [discriminate|exact H].
    + inversion Hr; subst c' t. apply andb_true_iff in Hp as [Pc Hp].
      assert (Bl : below hi n = true).
      { destruct hi as [h|]; simpl; auto. apply Nat.ltb_lt. specialize (Hhi h eq_refl). lia. }
      rewrite Pc, Bl in H. simpl in H.
      destruct (rep_greedy p lo hi (u ++ t') (S n) (c :: b) g k) eqn:R; [discriminate|].
      rewrite <- app_assoc. simpl.
      eapply IH; eauto; try lia. intros h Hh. specialize (Hhi h Hh). lia.
Qed.

Lemma rep_lazy_complete p lo hi : forall rest n b g k,
  rep_lazy p lo hi rest n b g k = None ->
  forall u t', rest = u ++ t' -> forallb p u = true -> lo <= n + length u ->
    (forall h, hi = Some h -> n + length u <= h) -> k (rev u ++ b) t' g = None.
Proof.
  induction rest as [|c t IH]; intros n b g k H u t' Hr Hp Hlo Hhi; simpl in H.
  - destruct u; [|discriminate]. simpl in *. subst t'.
    replace (lo <=? n) with true in H by (symmetry; apply Nat.leb_le; lia).
    destruct (k b [] g); [discriminate|reflexivity].
  - destruct u as [|c' u]; simpl in *.
    + subst t'. replace (lo <=? n) with true in H by (symmetry; apply Nat.leb_le; lia).
      destruct (k b (c :: t) g); [discriminate|reflexivity].
    + inversion Hr; subst c' t. apply andb_true_iff in Hp as [Pc Hp].
      assert (Bl : below hi n = true).
      { destruct hi as [h|]; simpl; auto. apply Nat.ltb_lt. specialize (Hhi h eq_refl). lia. }
      rewrite Pc, Bl in H. simpl in H.
      assert (R : rep_lazy p lo hi (u ++ t') (S n) (c :: b) g k = None).
      { destruct (lo <=? n); [destruct (k b (c :: u ++ t') g); [discriminate|]|]; exact H. }
      rewrite <- app_assoc. simpl.
      eapply IH; eauto; try lia. intros h Hh. specialize (Hhi h Hh). lia.
Qed.

Theorem rmatch_sound : forall r b t g k res,
  rmatch r b t g k = Some res ->
  exists b' t' g', reach r b t g b' t' g' /\ k b' t' g' = Some res.
Proof.
  induction r; intros b t g k res H; simpl in H |- *.
  - eauto 8.
  - destruct t as [|x t]; [discriminate|]. destruct (Ascii.eqb x c) eqn:E; [|discriminate].
    apply Ascii.eqb_eq in E. subst. eauto 8.
  - destruct t as [|x t]; [discriminate|]. destruct (p x) eqn:E; [|discriminate].
    exists (x :: b), t, g. split; eauto 8.
  - apply IHr1 in H as (b1 & t1 & g1 & R1 & H).
    apply IHr2 in H as (b2 & t2 & g2 & R2 & H). eauto 10.
  - destruct (rmatch r1 b t g k) eqn:E.
    + inversion H; subst. apply IHr1 in E as (b1 & t1 & g1 & R1 & E). eauto 8.
    + apply IHr2 in H as (b1 & t1 & g1 & R1 & E'). eauto 8.
  - assert (exists u t', t = u ++ t' /\ forallb p u = true /\ lo <= 0 + length u /\
      (forall h, hi = Some h -> 0 <= h -> 0 + length u <= h) /\
      k (rev u ++ b) t' g = Some res) as (u & t' & -> & Hp & Hlo & Hhi & Hk).
    { destruct greedy; [eapply rep_greedy_sound|eapply rep_lazy_sound]; eauto. }
    exists (rev u ++ b), t', g. split; auto.
    exists u. repeat split; auto. intros h Hh. specialize (Hhi h Hh). lia.
  - apply IHr in H as (b1 & t1 & g1 & R1 & H). eauto 8.
  - destruct (lookup n g) as [s|] eqn:L; [|discriminate].
    destruct (startswith s t) eqn:S; [|discriminate].
    apply startswith_app in S. eexists _, _, _. split; [|exact H].
    exists s. repeat split; auto.
  - destruct b; [|discriminate]. eauto 8.
  - destruct t as [|c [|d t]]; try discriminate.
    + exists b, [], g. repeat split; auto.
    + destruct (Ascii.eqb c LF) eqn:E; [|discriminate]. apply Ascii.eqb_eq in E. subst.
      exists b, [LF], g. repeat split; auto.
  - destruct b as [|x b].
    + exists [], t, g. repeat split; auto. simpl. discriminate.
    + destruct (Ascii.eqb x c) eqn:E; [discriminate|]. apply Ascii.eqb_neq in E.
      exists (x :: b), t, g. repeat split; auto. simpl. congruence.
  - destruct t as [|x t].
    + exists b, [], g. repeat split; auto. simpl. discriminate.
    + destruct (Ascii.eqb x c) eqn:E; [discriminate|]. apply Ascii.eqb_neq in E.
      exists b, (x :: t), g. repeat split; auto. simpl. congruence.
Qed.

Theorem rmatch_complete : forall r b t g k,
  rmatch r b t g k = None ->
  forall b' t' g', reach r b t g b' t' g' -> k b' t' g' = None.
Proof.
  induction r; intros b t g k H b' t' g' R; simpl in H, R.
  - destruct R as (-> & -> & ->). exact H.
  - destruct R as (-> & -> & ->). rewrite Ascii.eqb_refl in H. exact H.
  - destruct R as (x & Px & -> & -> & ->). rewrite Px in H. exact H.
  - destruct R as (b1 & t1 & g1 & R1 & R2).
    eapply IHr2; [|exact R2]. eapply (IHr1 _ _ _ _ H). exact R1.
  - destruct (rmatch r1 b t g k) eqn:E; [discriminate|].
    destruct R as [R|R]; [eapply IHr1|eapply IHr2]; eauto.
  - destruct R as (u & -> & Hp & Hlo & Hhi & -> & ->).
    destruct greedy; [eapply rep_greedy_complete|eapply rep_lazy_complete]; eauto.
  - destruct R as (g1 & R & ->). eapply (IHr _ _ _ _ H) in R. exact R.
  - destruct R as (s & L & -> & -> & ->). rewrite L, startswith_prefix in H.
    rewrite skipn_length_app in H. exact H.
  - destruct R as (-> & -> & -> & ->). exact H.
  - destruct R as ([-> | ->] & -> & -> & ->); [exact H|].
    rewrite Ascii.eqb_refl in H. exact H.
  - destruct R as (Hb & -> & -> & ->). destruct b as [|x b]; [exact H|].
    destruct (Ascii.eqb x c) eqn:E; [|exact H]. apply Ascii.eqb_eq in E. subst.
    simpl in Hb. congruence.
  - destruct R as (Hb & -> & -> & ->). destruct t as [|x t]; [exact H|].
    destruct (Ascii.eqb x c) eqn:E; [|exact H]. apply Ascii.eqb_eq in E. subst.
    simpl in Hb. congruence.
Qed.

(** What a pattern matches is a prefix of the text at the position. *)
Lemma reach_suffix : forall r b t g b' t' g',
  reach r b t g b' t' g' -> exists u, t = u ++ t' /\ b' = rev u ++ b.
Proof.
  induction r; intros b t g b' t' g' R; simpl in R.
  - destruct R as (-> & -> & ->). exists []. auto.
  - destruct R as (-> & -> & ->). exists [c]. auto.
  - destruct R as (x & _ & -> & -> & ->). exists [x]. auto.
  - destruct R as (b1 & t1 & g1 & R1 & R2).
    apply IHr1 in R1 as (u1 & -> & ->). apply IHr2 in R2 as (u2 & -> & ->).
    exists (u1 ++ u2). rewrite rev_app_distr, <- !app_assoc. auto.
  - destruct R as [R|R]; eauto.
  - destruct R as (u & -> & _ & _ & _ & -> & ->). eauto.
  - destruct R as (g1 & R & ->). eauto.
  - destruct R as (s & _ & -> & -> & ->). eauto.
  - destruct R as (-> & -> & -> & ->). exists []. auto.
  - destruct R as (_ & -> & -> & ->). exists []. auto.
  - destruct R as (_ & -> & -> & ->). exists []. auto.
  - destruct R as (_ & -> & -> & ->). exists []. auto.
Qed.

Lemma length_app_sub : forall (A : Type) (u t : list A), length (u ++ t) - length t = length u.
Proof. intros. rewrite length_app. lia. Qed.

Lemma firstn_app_sub : forall (A : Type) (u t : list A),
  firstn (length (u ++ t) - length t) (u ++ t) = u.
Proof. intros. rewrite length_app_sub. apply firstn_length_app. Qed.

(** ** Priority: which match the matcher returns *)

(** A greedy repetition followed by something that accepts the longest
    run stops there. *)
Lemma rep_greedy_longest p lo hi : forall u t' n b g k res,
  forallb p u = true ->
  (forall h, hi = Some h -> n + length u <= h) ->
  lo <= n + length u ->
  match t' with
  | c :: _ => p c = false \/ hi = Some (n + length u)
  | [] => True
  end ->
  k (rev u ++ b) t' g = Some res ->
  rep_greedy p lo hi (u ++ t') n b g k = Some res.
Proof.
  induction u as [|c u IH]; intros t' n b g k res Hp Hhi Hlo Hstop Hk; simpl in *.
  - rewrite Nat.add_0_r in *.
    assert (L : (lo <=? n) = true) by (apply Nat.leb_le; lia).
    destruct t' as [|c t']; simpl; rewrite L.
    + exact Hk.
    + destruct Hstop as [Pc | Hh].
      * rewrite Pc. simpl. auto.
      * subst hi. simpl. rewrite Nat.ltb_irrefl, andb_false_r. auto.
  - apply andb_true_iff in Hp as [Pc Hp]. rewrite Pc. simpl.
    replace (below hi n) with true.
    2:{ destruct hi as [h|]; simpl; auto. symmetry. apply Nat.ltb_lt.
        specialize (Hhi h eq_refl). lia. }
    rewrite (IH t' (S n) (c :: b) g k res); auto.
    + intros h Hh. specialize (Hhi h Hh). lia.
    + lia.
    + destruct t'; auto. destruct Hstop; auto. right. rewrite H. f_equal. lia.
    + rewrite <- app_assoc in Hk. exact Hk.
Qed.

Lemma rep_greedy_all p lo hi : forall u n b g k res,
  forallb p u = true ->
  (forall h, hi = Some h -> n + length u <= h) ->
  lo <= n + length u ->
  k (rev u ++ b) [] g = Some res ->
  rep_greedy p lo hi u n b g k = Some res.
Proof.
  intros. rewrite <- (app_nil_r u) at 1. apply rep_greedy_longest; auto.
Qed.

(** A lazy repetition stops at the first length that what follows accepts. *)
Lemma rep_lazy_first p lo hi : forall u t' n b g k res,
  forallb p u = true ->
  (forall h, hi = Some h -> n + length u <= h) ->
  lo <= n + length u ->
  k (rev u ++ b) t' g = Some res ->
  (forall u1 u2, u = u1 ++ u2 -> u2 <> [] -> lo <= n + length u1 ->
     k (rev u1 ++ b) (u2 ++ t') g = None) ->
  rep_lazy p lo hi (u ++ t') n b g k = Some res.
Proof.
  induction u as [|c u IH]; intros t' n b g k res Hp Hhi Hlo Hk Hearly; simpl in *.
  - rewrite Nat.add_0_r in *.
    assert (L : (lo <=? n) = true) by (apply Nat.leb_le; lia).
    destruct t'; simpl; rewrite L, Hk; reflexivity.
  - apply andb_true_iff in Hp as [Pc Hp]. rewrite Pc. simpl.
    replace (below hi n) with true.
    2:{ destruct hi as [h|]; simpl; auto. symmetry. apply Nat.ltb_lt.
        specialize (Hhi h eq_refl). lia. }
    assert (R : rep_lazy p lo hi (u ++ t') (S n) (c :: b) g k = Some res).
    { apply IH; auto.
      - intros h Hh. specialize (Hhi h Hh). lia.
      - lia.
      - rewrite <- app_assoc in Hk. exact Hk.
      - intros u1 u2 E Hne Hl. specialize (Hearly (c :: u1) u2).
        simpl in Hearly. rewrite <- app_assoc in Hearly. simpl in Hearly.
        apply Hearly; auto; try lia. rewrite E. reflexivity. }
    destruct (lo <=? n) eqn:E; auto.
    apply Nat.leb_le in E.
    assert (K0 : k b (c :: u ++ t') g = None).
    { apply (Hearly [] (c :: u) eq_refl); [discriminate|simpl; lia]. }
    rewrite K0. exact R.
Qed.

(** ** [match_at], [re_match], [re_search] *)

Lemma match_at_sound : forall r b t m,
  match_at r b t = Some m ->
  exists b' t' g', reach r b t [] b' t' g'
    /\ m = {| m_groups := g'; m_len := length t - length t' |}.
Proof.
  unfold match_at. intros r b t m H.
  destruct (rmatch r b t [] (fun _ t0 g => Some (g, t0))) as [[g t']|] eqn:E; [|discriminate].
  inversion H; subst. apply rmatch_sound in E as (b' & t1 & g' & R & K).
  inversion K; subst. eauto 8.
Qed.

Lemma match_at_complete : forall r b t,
  match_at r b t = None -> forall b' t' g', ~ reach r b t [] b' t' g'.
Proof.
  unfold match_at. intros r b t H b' t' g' R.
  destruct (rmatch r b t [] (fun _ t0 g => Some (g, t0))) as [[g t1]|] eqn:E; [discriminate|].
  eapply rmatch_complete in E; [|exact R]. discriminate.
Qed.

Lemma is_match_iff : forall r b t,
  is_match (match_at r b t) = true <-> exists b' t' g', reach r b t [] b' t' g'.
Proof.
  intros. split.
  - destruct (match_at r b t) eqn:E; [|discriminate]. intros _.
    apply match_at_sound in E as (b' & t' & g' & R & _). eauto.
  - intros (b' & t' & g' & R). destruct (match_at r b t) eqn:E; auto.
    exfalso. eapply match_at_complete; eauto.
Qed.

Lemma m_len_le : forall r b t m, match_at r b t = Some m -> m_len m <= length t.
Proof.
  intros r b t m H. apply match_at_sound in H as (b' & t' & g' & _ & ->). simpl. lia.
Qed.

(** ** [sub_loop] *)

Section Sub.
Context {S : Type}.
Variable r : regex.
Variable repl : match_obj -> S -> M (str * S).

Lemma sub_loop_skip : forall u t before st,
  sub_loop r repl before (u ++ t) (length u) st
  = sub_loop r repl (rev u ++ before) t 0 st.
Proof.
  induction u as [|c u IH]; intros; simpl; auto.
  rewrite IH, <- app_assoc. reflexivity.
Qed.

(** No match begins in [pre]: it is copied. *)
Lemma sub_loop_prefix : forall pre t before st,
  (forall p1 p2, pre = p1 ++ p2 -> p2 <> [] ->
     match_at r (rev p1 ++ before) (p2 ++ t) = None) ->
  sub_loop r repl before (pre ++ t) 0 st
  = (' (o, st') <- sub_loop r repl (rev pre ++ before) t 0 st ;; ret (pre ++ o, st')).
Proof.
  induction pre as [|c pre IH]; intros t before st H.
  - simpl. destruct (sub_loop r repl before t 0 st) as [[o st']|]; reflexivity.
  - simpl app. cbn [sub_loop].
    assert (H0 : match_at r before (c :: pre ++ t) = None).
    { apply (H [] (c :: pre) eq_refl). discriminate. }
    rewrite H0.
    rewrite IH.
    + rewrite <- app_assoc. simpl.
      destruct (sub_loop r repl (rev pre ++ c :: before) t 0 st) as [[o st']|]; reflexivity.
    + intros p1 p2 E Hne. specialize (H (c :: p1) p2). simpl in H.
      rewrite <- app_assoc in H. simpl in H. apply H; auto. rewrite E. reflexivity.
Qed.

(** No match anywhere: the text is returned as it is. *)
Lemma sub_loop_nomatch : forall t before st,
  (forall p1 p2, t = p1 ++ p2 -> match_at r (rev p1 ++ before) p2 = None) ->
  sub_loop r repl before t 0 st = Some (t, st).
Proof.
  induction t as [|c t IH]; intros before st H.
  - simpl. assert (H0 : match_at r before [] = None) by apply (H [] [] eq_refl).
    rewrite H0. reflexivity.
  - cbn [sub_loop].
    assert (H0 : match_at r before (c :: t) = None) by apply (H [] (c :: t) eq_refl).
    rewrite H0.
    rewrite IH; [reflexivity|].
    intros p1 p2 E. specialize (H (c :: p1) p2). simpl in H.
    rewrite <- app_assoc in H. simpl in H. apply H. rewrite E. reflexivity.
Qed.

(** A match of [S (length u)] characters at the position: it is
    replaced and the loop goes on after it. *)
Lemma sub_loop_match : forall c u t before st m,
  match_at r before (c :: u ++ t) = Some m ->
  m_len m = Datatypes.S (length u) ->
  sub_loop r repl before (c :: u ++ t) 0 st
  = (' (out, st1) <- repl m st ;;
     ' (o2, st2) <- sub_loop r repl (rev u ++ c :: before) t 0 st1 ;;
     ret (out ++ o2, st2)).
Proof.
  intros c u t before st m Hm Hl. cbn [sub_loop]. rewrite Hm.
  destruct (repl m st) as [[out st1]|]; [|reflexivity]. simpl.
  rewrite Hl. rewrite sub_loop_skip. reflexivity.
Qed.

(** The loop raises only if [repl] does. *)
Lemma sub_loop_total :
  (forall b t m st, match_at r b t = Some m -> exists res, repl m st = Some res) ->
  forall rest before skip st, exists res, sub_loop r repl before rest skip st = Some res.
Proof.
  intros Hrepl. induction rest as [|c rest IH]; intros before skip st.
  - destruct skip; simpl; eauto.
    destruct (match_at r before []) eqn:E; simpl; eauto.
    destruct (Hrepl _ _ _ st E) as [[out st1] ->]. simpl. eauto.
  - destruct skip; cbn [sub_loop]; [|apply IH].
    destruct (match_at r before (c :: rest)) eqn:E.
    + destruct (Hrepl _ _ _ st E) as [[out st1] ->]. simpl.
      destruct (m_len m).
      * destruct (IH (c :: before) 0 st1) as [[o2 st2] ->]. simpl. eauto.
      * destruct (IH (c :: before) n st1) as [[o2 st2] ->]. simpl. eauto.
    + destruct (IH (c :: before) 0 st) as [[o2 st2] ->]. simpl. eauto.
Qed.
End Sub.

(* ------------------------------------------------------------------ *)
(** * Whitespace stripping *)
(* ------------------------------------------------------------------ *)

Lemma lstrip_id : forall c s, is_space c = false -> lstrip (c :: s) = c :: s.
Proof. intros c s H. simpl. rewrite H. reflexivity. Qed.

Lemma lstrip_spaces : forall ws s, forallb is_space ws = true -> lstrip (ws ++ s) = lstrip s.
Proof.
  induction ws as [|c ws IH]; intros s H; simpl in *; auto.
  apply andb_true_iff in H as [H1 H2]. rewrite H1. auto.
Qed.

Lemma rstrip_id : forall s c, is_space c = false -> rstrip (s ++ [c]) = s ++ [c].
Proof.
  intros s c H. unfold rstrip. rewrite rev_app_distr. simpl. rewrite H.
  simpl. rewrite rev_involutive. reflexivity.
Qed.

Lemma rstrip_spaces : forall s ws, forallb is_space ws = true -> rstrip (s ++ ws) = rstrip s.
Proof.
  intros s ws H. unfold rstrip. rewrite rev_app_distr. rewrite lstrip_spaces; auto.
  rewrite forallb_forall in *. intros x Hx. apply H. apply in_rev. exact Hx.
Qed.

Lemma lstrip_forall : forall s, forallb (fun c => negb (is_space c)) s = true -> lstrip s = s.
Proof. intros [|c s] H; simpl in *; auto. apply andb_true_iff in H as [H _].
  apply negb_true_iff in H. rewrite H. reflexivity. Qed.

Lemma strip_forall : forall s, forallb (fun c => negb (is_space c)) s = true -> strip s = s.
Proof.
  intros s H. unfold strip. rewrite lstrip_forall by auto. unfold rstrip.
  rewrite lstrip_forall; [apply rev_involutive|].
  rewrite forallb_forall in *. intros x Hx. apply H. apply in_rev. exact Hx.
Qed.

(* ------------------------------------------------------------------ *)
(** * Tables *)
(* ------------------------------------------------------------------ *)

Lemma format_row_stripped : forall row mid header,
  strip row = PIPE :: mid ++ [PIPE] ->
  _format_table_row row header = wrap_cells header (cells_of mid).
Proof.
  intros row mid header E. unfold _format_table_row. rewrite E.
  change (py "|") with [PIPE].
  replace (startswith [PIPE] (PIPE :: mid ++ [PIPE])) with true by reflexivity.
  cbn [skipn].
  replace (endswith [PIPE] (mid ++ [PIPE])) with true.
  2:{ unfold endswith. rewrite rev_app_distr. reflexivity. }
  rewrite removelast_last. reflexivity.
Qed.

Lemma format_row_shape : forall mid header,
  _format_table_row (PIPE :: mid ++ [PIPE]) header = wrap_cells header (cells_of mid).
Proof.
  intros mid header. apply format_row_stripped. unfold strip.
  rewrite lstrip_id by reflexivity.
  change (PIPE :: mid ++ [PIPE]) with ((PIPE :: mid) ++ [PIPE]).
  apply rstrip_id. reflexivity.
Qed.

Lemma format_row_shape_lf : forall mid header,
  _format_table_row (PIPE :: mid ++ [PIPE; LF]) header = wrap_cells header (cells_of mid).
Proof.
  intros mid header. apply format_row_stripped. unfold strip.
  rewrite lstrip_id by reflexivity.
  replace (PIPE :: mid ++ [PIPE; LF]) with (((PIPE :: mid) ++ [PIPE]) ++ [LF])
    by (rewrite <- app_assoc; reflexivity).
  rewrite rstrip_spaces by reflexivity.
  apply rstrip_id. reflexivity.
Qed.

(** A line that the table-row pattern matches lies between two pipes. *)
Lemma table_row_shape : forall row,
  is_match (re_match _TABLE_ROW row) = true ->
  exists mid, mid <> [] /\ (row = PIPE :: mid ++ [PIPE] \/ row = PIPE :: mid ++ [PIPE; LF]).
Proof.
  intros row H. apply is_match_iff in H as (b' & t' & g' & R).
  unfold _TABLE_ROW in R. simpl in R.
  destruct R as (b1 & t1 & g1 & (_ & -> & -> & ->) & R).
  destruct R as (b2 & t2 & g2 & (-> & -> & ->) & R).
  destruct R as (b3 & t3 & g3 & (g4 & (u & -> & Hu & Hl & _ & -> & ->) & ->) & R).
  destruct R as (b4 & t4 & g5 & (-> & -> & ->) & (He & -> & -> & ->)).
  exists u. split.
  - destruct u; simpl in Hl; [lia|discriminate].
  - destruct He as [-> | ->]; auto.
Qed.

Lemma enumerate_no_sep : forall rows i,
  Forall (fun r => is_sep r = false) rows ->
  filter (fun ir : nat * str => is_sep (snd ir)) (enumerate_from i rows) = [].
Proof.
  induction rows as [|r rows IH]; intros i H; simpl; auto.
  inversion H; subst. rewrite H2. auto.
Qed.

Lemma enumerate_first_sep : forall hdr sep rest i,
  Forall (fun r => is_sep r = false) hdr -> is_sep sep = true ->
  exists l,
    map fst (filter (fun ir : nat * str => is_sep (snd ir))
               (enumerate_from i (hdr ++ sep :: rest)))
    = (i + length hdr) :: l.
Proof.
  induction hdr as [|r hdr IH]; intros sep rest i H Hs; simpl.
  - rewrite Hs. simpl. rewrite Nat.add_0_r. eauto.
  - inversion H; subst. rewrite H2.
    destruct (IH sep rest (S i) H3 Hs) as [l E]. rewrite E.
    exists l. f_equal. lia.
Qed.

Lemma process_table_no_sep : forall rows,
  Forall (fun r => is_sep r = false) rows ->
  _process_table rows = Some (map (fun row => _format_table_row row false) rows).
Proof.
  intros rows H. unfold _process_table. rewrite enumerate_no_sep by auto. reflexivity.
Qed.

Lemma process_table_sep : forall hdr sep rest,
  Forall (fun r => is_sep r = false) hdr -> is_sep sep = true ->
  _process_table (hdr ++ sep :: rest)
  = Some (map (fun row => _format_table_row row true) hdr
          ++ map (fun row => _format_table_row row false)
               (filter (fun row => negb (is_sep row)) rest)).
Proof.
  intros hdr sep rest H Hs. unfold _process_table.
  destruct (enumerate_first_sep hdr sep rest 0 H Hs) as [l E]. rewrite E.
  simpl. rewrite firstn_length_app.
  replace (length hdr + 1) with (length (hdr ++ [sep])) by (rewrite length_app; reflexivity).
  replace (hdr ++ sep :: rest) with ((hdr ++ [sep]) ++ rest) by (rewrite <- app_assoc; reflexivity).
  rewrite skipn_length_app. reflexivity.
Qed.

Lemma block_loop_buffer : forall rows rest result stack tb,
  Forall (fun l => buffered l = true) rows ->
  block_loop (rows ++ rest) (result, stack, tb)
  = block_loop rest (result, stack, tb ++ rows).
Proof.
  induction rows as [|l rows IH]; intros rest result stack tb H.
  - rewrite app_nil_r. reflexivity.
  - inversion H; subst. unfold buffered in H2. apply andb_true_iff in H2 as [P R].
    apply negb_true_iff in P. simpl. rewrite P, R. simpl.
    rewrite IH by auto. rewrite <- app_assoc. reflexivity.
Qed.

Lemma block_step_flush : forall l rows result stack,
  rows <> [] -> buffered l = false ->
  block_step l (result, stack, rows)
  = (out <- _process_table rows ;; block_step l (result ++ out, stack, [])).
Proof.
  intros l rows result stack Hne Hb. unfold block_step.
  unfold buffered in Hb.
  destruct (contains _PH_CB l) eqn:P; simpl in Hb.
  - destruct rows; [congruence|]. unfold flush_table.
    destruct (_process_table (s :: rows)); reflexivity.
  - rewrite Hb. destruct rows; [congruence|]. unfold flush_table.
    destruct (_process_table (s :: rows)); reflexivity.
Qed.

Lemma block_loop_flush : forall rows rest result stack,
  rows <> [] ->
  Forall (fun l => buffered l = true) rows ->
  match rest with [] => True | l :: _ => buffered l = false end ->
  block_loop (rows ++ rest) (result, stack, [])
  = (out <- _process_table rows ;; block_loop rest (result ++ out, stack, [])).
Proof.
  intros rows rest result stack Hne Hrows Hrest.
  rewrite block_loop_buffer by auto. simpl app.
  destruct rest as [|l rest].
  - simpl. destruct rows; [congruence|]. unfold flush_table.
    destruct (_process_table (s :: rows)); reflexivity.
  - cbn [block_loop]. rewrite block_step_flush by auto.
    destruct (_process_table rows); reflexivity.
Qed.

(** C5. A run of consecutive table rows is buffered and rendered by
    [_process_table] when the run ends. With a separator row in the run,
    the rows before the first separator are header rows (cells joined and
    wrapped by [||]), the rows after it that are not separators are body
    rows (joined and wrapped by [|]), and no separator row is emitted;
    without a separator row every row is a body row. A row is rendered
    from the text between its first and last pipe, split on pipes, each
    cell stripped of surrounding whitespace. *)
Theorem C5_table_rows :
  forall rows,
    rows <> [] ->
    Forall (fun l => buffered l = true) rows ->
    (forall rest result stack,
        match rest with [] => True | l :: _ => buffered l = false end ->
        block_loop (rows ++ rest) (result, stack, [])
        = (out <- _process_table rows ;; block_loop rest (result ++ out, stack, [])))
    /\ (forall hdr sep rest,
        rows = hdr ++ sep :: rest ->
        Forall (fun r => is_sep r = false) hdr -> is_sep sep = true ->
        _process_table rows
        = Some (map (fun row => _format_table_row row true) hdr
                ++ map (fun row => _format_table_row row false)
                     (filter (fun row => negb (is_sep row)) rest)))
    /\ (Forall (fun r => is_sep r = false) rows ->
        _process_table rows
        = Some (map (fun row => _format_table_row row false) rows))
    /\ (forall row, In row rows ->
        exists mid,
          (row = PIPE :: mid ++ [PIPE] \/ row = PIPE :: mid ++ [PIPE; LF])
          /\ forall header,
               _format_table_row row header = wrap_cells header (cells_of mid)).
Proof.
  intros rows Hne Hrows. repeat split.
  - intros. apply block_loop_flush; auto.
  - intros hdr sep rest -> H Hs. apply process_table_sep; auto.
  - apply process_table_no_sep.
  - intros row Hin. rewrite Forall_forall in Hrows. specialize (Hrows row Hin).
    unfold buffered in Hrows. apply andb_true_iff in Hrows as [_ R].
    apply table_row_shape in R as (mid & _ & [-> | ->]); exists mid; split; auto; intros.
    + apply format_row_shape.
    + apply format_row_shape_lf.
Qed.

Lemma C5_table_rows_witness :
  _process_table [py "| A | B |"; py "|---|---|"; py "| 1 | 2 |"]
  = Some [py "||A||B||"; py "|1|2|"].
Proof.
  assert (Hne : [py "| A | B |"; py "|---|---|"; py "| 1 | 2 |"] <> []) by discriminate.
  assert (Hrows : Forall (fun l => buffered l = true)
                    [py "| A | B |"; py "|---|---|"; py "| 1 | 2 |"])
    by (repeat constructor).
  destruct (C5_table_rows _ Hne Hrows) as (_ & H & _).
  apply (H [py "| A | B |"] (py "|---|---|") [py "| 1 | 2 |"]).
  - reflexivity.
  - repeat constructor.
  - reflexivity.
Defined.

(* ------------------------------------------------------------------ *)
(** * Fenced code blocks *)
(* ------------------------------------------------------------------ *)

Lemma forallb_repeat : forall (p : ascii -> bool) c n, p c = true -> forallb p (repeat c n) = true.
Proof. induction n; simpl; intros; auto. rewrite H. auto. Qed.

Lemma forallb_ch_repeat : forall c u, forallb (ch c) u = true -> u = repeat c (length u).
Proof.
  induction u as [|x u IH]; simpl; intros H; auto.
  apply andb_true_iff in H as [H1 H2]. apply Ascii.eqb_eq in H1. subst. f_equal. auto.
Qed.

Lemma ch_refl : forall c, ch c c = true.
Proof. intros. apply Ascii.eqb_refl. Qed.

Lemma closes_match : forall c l,
  is_match (re_match (close_fence c) l) = true -> closes c l.
Proof.
  intros c l H. apply is_match_iff in H as (b' & t' & g' & R).
  unfold close_fence in R. simpl in R.
  destruct R as (b1 & t1 & g1 & (_ & -> & -> & ->) & R).
  destruct R as (b2 & t2 & g2 & (u & -> & Hu & Hl & _ & -> & ->) & R).
  destruct R as (b3 & t3 & g3 & (ws & -> & Hws & _ & _ & -> & ->) & (He & E1 & E2 & E3)).
  subst. exists (length u), (ws ++ t3). repeat split; auto.
  - rewrite <- forallb_ch_repeat; auto.
  - rewrite forallb_app, Hws. destruct He as [-> | ->]; reflexivity.
Qed.

Lemma match_closes : forall c l,
  closes c l -> is_match (re_match (close_fence c) l) = true.
Proof.
  intros c l (n & ws & Hn & -> & Hws). apply is_match_iff.
  exists (rev ws ++ rev (repeat c n) ++ []), [], []. unfold close_fence. simpl.
  exists [], (repeat c n ++ ws), []. split; [auto|].
  exists (rev (repeat c n) ++ []), ws, []. split.
  - exists (repeat c n). repeat split; auto.
    + apply forallb_repeat. apply ch_refl.
    + rewrite repeat_length. exact Hn.
    + discriminate.
  - exists (rev ws ++ rev (repeat c n) ++ []), [], []. split.
    + exists ws. rewrite app_nil_r. repeat split; auto; try lia. discriminate.
    + repeat split; auto.
Qed.

Lemma collect_body_closed : forall c body closing rest acc,
  Forall (fun l => ~ closes c l) body -> closes c closing ->
  collect_body c (body ++ closing :: rest) acc = (acc ++ body, rest).
Proof.
  induction body as [|l body IH]; intros closing rest acc Hb Hc; simpl.
  - rewrite match_closes by auto. rewrite app_nil_r. reflexivity.
  - inversion Hb; subst.
    destruct (is_match (re_match (close_fence c) l)) eqn:E.
    + exfalso. apply H1. apply closes_match. exact E.
    + rewrite IH by auto. rewrite <- app_assoc. reflexivity.
Qed.

Lemma collect_body_open : forall c body acc,
  Forall (fun l => ~ closes c l) body ->
  collect_body c body acc = (acc ++ body, []).
Proof.
  induction body as [|l body IH]; intros acc Hb; simpl.
  - rewrite app_nil_r. reflexivity.
  - inversion Hb; subst.
    destruct (is_match (re_match (close_fence c) l)) eqn:E.
    + exfalso. apply H1. apply closes_match. exact E.
    + rewrite IH by auto. rewrite <- app_assoc. reflexivity.
Qed.

Lemma lang_char_not_space : forall c, lang_char c = true -> is_space c = false.
Proof.
  intros c. destruct c as [[] [] [] [] [] [] [] []]; vm_compute; congruence.
Qed.

Lemma lang_char_not_fence : forall c, lang_char c = true -> c <> "`"%char /\ c <> "~"%char.
Proof.
  intros c H. split; intros ->; vm_compute in H; discriminate.
Qed.

Lemma strip_lang : forall lang, forallb lang_char lang = true -> strip lang = lang.
Proof.
  intros lang H. apply strip_forall. rewrite forallb_forall in *.
  intros x Hx. rewrite (lang_char_not_space _ (H x Hx)). reflexivity.
Qed.

(** The opening line of a block: its groups are the fence and the word. *)
Lemma fence_start_match : forall c n lang,
  c = "`"%char \/ c = "~"%char -> 3 <= n -> forallb lang_char lang = true ->
  re_match _FENCE_START (repeat c n ++ lang)
  = Some {| m_groups := [(2, lang); (1, repeat c n)]; m_len := n + length lang |}.
Proof.
  intros c n lang Hc Hn Hl.
  assert (Hstop : match lang with x :: _ => ch c x = false \/ @None nat = Some (0 + length (repeat c n)) | [] => True end).
  { destruct lang as [|x lang]; auto. left. simpl in Hl. apply andb_true_iff in Hl as [Hx _].
    apply lang_char_not_fence in Hx as [H1 H2]. unfold ch. apply Ascii.eqb_neq.
    destruct Hc; subst; auto. }
  assert (Inner : forall b g,
    rep_greedy lang_char 0 None lang 0 b g
      (fun b0 t0 g0 => match t0 with
                       | [] => Some ((2, firstn (length lang - length t0) lang) :: g0, t0)
                       | [c0] => if Ascii.eqb c0 LF then Some ((2, firstn (length lang - length t0) lang) :: g0, t0) else None
                       | _ :: _ :: _ => None end)
    = Some ((2, lang) :: g, [])).
  { intros b g. rewrite <- (app_nil_r lang) at 1.
    apply rep_greedy_longest; auto; try discriminate; try lia.
    simpl. rewrite Nat.sub_0_r, firstn_all. reflexivity. }
  unfold re_match, match_at, _FENCE_START, at_least, many. cbn [rmatch].
  assert (G : forall b,
    rep_greedy (ch c) 3 None (repeat c n ++ lang) 0 b []
      (fun b0 t0 g' =>
         rep_greedy (fun c0 => is_word c0 || ch "+" c0 || ch "-" c0) 0 None t0 0 b0
           ((1, firstn (length (repeat c n ++ lang) - length t0) (repeat c n ++ lang)) :: g')
           (fun b1 t1 g'0 =>
              match t1 with
              | [] => Some ((2, firstn (length t0 - length t1) t0) :: g'0, t1)
              | [c0] => if Ascii.eqb c0 LF then Some ((2, firstn (length t0 - length t1) t0) :: g'0, t1) else None
              | _ :: _ :: _ => None
              end))
    = Some ([(2, lang); (1, repeat c n)], [])).
  { intros b. apply rep_greedy_longest; auto; try discriminate.
    - apply forallb_repeat, ch_refl.
    - rewrite repeat_length. lia.
    - rewrite firstn_app_sub. apply Inner. }
  destruct Hc; subst c.
  - rewrite G. simpl. rewrite length_app, repeat_length. do 2 f_equal. lia.
  - replace (rep_greedy (ch "`") 3 None (repeat "~"%char n ++ lang) 0 [] [] _) with (@None (groups * str)).
    + rewrite G. simpl. rewrite length_app, repeat_length. do 2 f_equal. lia.
    + destruct n as [|n]; [lia|]. reflexivity.
Qed.

(** C4. A line of three or more backticks or tildes followed by a
    language word (possibly empty) opens a block. The following lines are
    collected as they are up to the first line of three or more of the
    same fence character followed by whitespace only; that line is
    consumed and is not part of the body. Without such a line the body
    runs to the end of the input. The block is replaced by one placeholder
    line whose text is [{code:language=<lang>}] (or [{code}] for an empty
    word), a newline, the body lines joined by newlines, a newline and
    [{code}]. *)
Theorem C4_fenced_block :
  forall c n lang body fuel result code_map counter,
    c = "`"%char \/ c = "~"%char -> 3 <= n ->
    forallb lang_char lang = true ->
    Forall (fun l => ~ closes c l) body ->
    let key := _ph _PH_CB counter in
    let block := code_block lang body in
    (forall closing rest, closes c closing ->
       extract_loop (S fuel) ((repeat c n ++ lang) :: body ++ closing :: rest)
         result code_map counter
       = extract_loop fuel rest (result ++ [key])
           (dict_set key block code_map) (S counter))
    /\ extract_loop (S fuel) ((repeat c n ++ lang) :: body) result code_map counter
       = Some (result ++ [key], dict_set key block code_map).
Proof.
  intros c n lang body fuel result code_map counter Hc Hn Hl Hb key block.
  assert (Hidx : index (repeat c n) 0 = Some c).
  { destruct n; [lia|reflexivity]. }
  split.
  - intros closing rest Hcl. cbn [extract_loop].
    rewrite fence_start_match by auto.
    unfold group_str, group. cbn [m_groups lookup Nat.eqb bind].
    rewrite Hidx. cbn [bind]. rewrite strip_lang by auto.
    rewrite collect_body_closed by auto. reflexivity.
  - cbn [extract_loop].
    rewrite fence_start_match by auto.
    unfold group_str, group. cbn [m_groups lookup Nat.eqb bind].
    rewrite Hidx. cbn [bind]. rewrite strip_lang by auto.
    rewrite collect_body_open by auto. destruct fuel; reflexivity.
Qed.

Lemma C4_fenced_block_witness :
  extract_loop 4 [py "```python"; py "print(1)"; py "```  "; py "after"] [] [] 0
  = extract_loop 3 [py "after"] [_ph _PH_CB 0]
      [(_ph _PH_CB 0, py "{code:language=python}\nprint(1)\n{code}")] 1
  /\ extract_loop 4 [py "~~~"; py "a"; py "```"] [] [] 0
     = Some ([_ph _PH_CB 0], [(_ph _PH_CB 0, py "{code}\na\n```\n{code}")]).
Proof.
  split.
  - refine (proj1 (C4_fenced_block "`"%char 3 (py "python") [py "print(1)"] 3 [] [] 0
                     (or_introl eq_refl) (le_n 3) eq_refl _)
              (py "```  ") [py "after"] _).
    + repeat constructor. intros (n & ws & Hn & E & _).
      destruct n as [|[|[|n]]]; try lia; discriminate E.
    + exists 3, (py "  "). split; [lia|]. split; reflexivity.
  - refine (proj2 (C4_fenced_block "~"%char 3 [] [py "a"; py "```"] 3 [] [] 0
                     (or_intror eq_refl) (le_n 3) eq_refl _)).
    repeat constructor; intros (n & ws & Hn & E & _);
      destruct n as [|[|[|n]]]; try lia; discriminate E.
Defined.

(* ------------------------------------------------------------------ *)
(** * Lists *)
(* ------------------------------------------------------------------ *)

Lemma pop_while_spec : forall fuel st depth,
  length st - depth <= fuel -> pop_while fuel st depth = Some (firstn depth st).
Proof.
  induction fuel as [|fuel IH]; intros st depth H; simpl.
  - destruct (depth <? length st) eqn:E.
    + apply Nat.ltb_lt in E. lia.
    + apply Nat.ltb_ge in E. rewrite firstn_all2 by lia. reflexivity.
  - destruct (depth <? length st) eqn:E.
    + apply Nat.ltb_lt in E. destruct st as [|x st]; [simpl in E; lia|].
      cbn [pop bind ret]. rewrite IH.
      * rewrite removelast_firstn_len. rewrite firstn_firstn. f_equal. f_equal.
        simpl length in *. lia.
      * rewrite removelast_firstn_len, length_firstn. simpl length in *. lia.
    + apply Nat.ltb_ge in E. rewrite firstn_all2 by lia. reflexivity.
Qed.

Lemma push_while_spec : forall fuel st depth t,
  depth - length st <= fuel ->
  push_while fuel st depth t = Some (st ++ repeat t (depth - length st)).
Proof.
  induction fuel as [|fuel IH]; intros st depth t H; simpl.
  - destruct (length st <? depth) eqn:E.
    + apply Nat.ltb_lt in E. lia.
    + apply Nat.ltb_ge in E. replace (depth - length st) with 0 by lia.
      simpl. rewrite app_nil_r. reflexivity.
  - destruct (length st <? depth) eqn:E.
    + apply Nat.ltb_lt in E. rewrite IH by (rewrite length_app; simpl; lia).
      rewrite length_app. simpl length.
      replace (depth - length st) with (S (depth - (length st + 1))) by lia.
      simpl. rewrite <- app_assoc. reflexivity.
    + apply Nat.ltb_ge in E. replace (depth - length st) with 0 by lia.
      simpl. rewrite app_nil_r. reflexivity.
Qed.

Lemma list_set_last : forall (A : Type) (l : list A) x v,
  list_set (l ++ [x]) (length l) v = Some (l ++ [v]).
Proof.
  induction l as [|y l IH]; intros x v; simpl; auto.
  rewrite IH. reflexivity.
Qed.

Lemma stack_after_length : forall st d t, length (stack_after st d t) = d + 1.
Proof.
  intros. unfold stack_after. rewrite !length_app, length_firstn, repeat_length. simpl. lia.
Qed.

(** The stack update of a list item. *)
Lemma list_item_spec : forall st indent t,
  list_item st indent t
  = Some (stack_after st (indent / 2) t, _list_prefix (stack_after st (indent / 2) t)).
Proof.
  intros st indent t. unfold list_item. set (d := indent / 2).
  rewrite pop_while_spec by lia. cbn [bind ret].
  rewrite push_while_spec by lia. cbn [bind ret].
  replace (d + 1 - 1) with d by lia.
  assert (E : exists x, firstn (d + 1) st ++ repeat t (d + 1 - length (firstn (d + 1) st))
              = (firstn d st ++ repeat t (d - length st)) ++ [x]).
  { rewrite length_firstn. destruct (Nat.le_gt_cases (length st) d) as [L|L].
    - exists t. rewrite !firstn_all2 by lia. rewrite Nat.min_r by lia.
      replace (d + 1 - length st) with (S (d - length st)) by lia.
      cbn [repeat]. rewrite repeat_cons, app_assoc. reflexivity.
    - rewrite Nat.min_l by lia. replace (d + 1 - (d + 1)) with 0 by lia.
      replace (d - length st) with 0 by lia. simpl. rewrite !app_nil_r.
      assert (exists x, nth_error st d = Some x) as [x Hx].
      { destruct (nth_error st d) eqn:N; eauto. apply nth_error_None in N. lia. }
      exists x. replace (d + 1) with (S d) by lia.
      symmetry. clear - Hx. revert st Hx. induction d; intros [|y st] Hx; simpl in *; try discriminate.
      + inversion Hx. reflexivity.
      + f_equal. auto. }
  destruct E as [x E]. rewrite E.
  assert (Hlen : length (firstn d st ++ repeat t (d - length st)) = d).
  { rewrite length_app, length_firstn, repeat_length. lia. }
  rewrite <- Hlen at 3. rewrite list_set_last. cbn [bind ret].
  rewrite <- app_assoc. fold (stack_after st d t).
  assert (F : firstn (d + 1) (stack_after st d t) = stack_after st d t).
  { apply firstn_all2. rewrite stack_after_length. lia. }
  rewrite F. reflexivity.
Qed.

(** ** The list item patterns *)

Lemma ul_marker_not_space : forall c, ul_marker c = true -> is_space c = false.
Proof. intros c. destruct c as [[] [] [] [] [] [] [] []]; vm_compute; congruence. Qed.

Lemma is_digit_not_space : forall c, is_digit c = true -> is_space c = false.
Proof. intros c. destruct c as [[] [] [] [] [] [] [] []]; vm_compute; congruence. Qed.

Lemma is_digit_not_marker : forall c, is_digit c = true -> ul_marker c = false.
Proof. intros c. destruct c as [[] [] [] [] [] [] [] []]; vm_compute; congruence. Qed.

Lemma stop_nonspace : forall (s : str) (n : nat),
  starts_nonspace s ->
  match s with c :: _ => is_space c = false \/ @None nat = Some n | [] => True end.
Proof. intros [|c s] n H; simpl in *; auto. Qed.

Lemma ul_item_match : forall ws m sp content,
  forallb is_space ws = true -> ul_marker m = true ->
  sp <> [] -> forallb is_space sp = true ->
  forallb dot content = true -> starts_nonspace content ->
  re_match _UL_ITEM (ws ++ m :: sp ++ content)
  = Some {| m_groups := [(3, content); (2, [m]); (1, ws)];
            m_len := length (ws ++ m :: sp ++ content) |}.
Proof.
  intros ws m sp content Hws Hm Hne Hsp Hc Hs.
  assert (R : rmatch _UL_ITEM [] (ws ++ m :: sp ++ content) [] (fun _ t g => Some (g, t))
              = Some ([(3, content); (2, [m]); (1, ws)], [])).
  { unfold _UL_ITEM, many, many1. cbn [rmatch].
    apply rep_greedy_longest; auto; try discriminate; try lia.
    { left. apply ul_marker_not_space. exact Hm. }
    cbn [rmatch]. unfold ul_marker in Hm. rewrite Hm.
    apply rep_greedy_longest; auto; try discriminate.
    { destruct sp; [congruence|simpl; lia]. }
    { apply stop_nonspace. exact Hs. }
    cbn beta.
    apply rep_greedy_all; auto; try discriminate; try lia.
    rewrite (firstn_app_sub _ ws (m :: sp ++ content)).
    change (m :: sp ++ content) with ([m] ++ sp ++ content).
    rewrite (firstn_app_sub _ [m] (sp ++ content)).
    cbn [length]. rewrite Nat.sub_0_r, firstn_all. reflexivity. }
  unfold re_match, match_at. rewrite R. simpl length. rewrite Nat.sub_0_r. reflexivity.
Qed.

Lemma ol_item_match : forall ws ds sp content,
  forallb is_space ws = true -> ds <> [] -> forallb is_digit ds = true ->
  sp <> [] -> forallb is_space sp = true ->
  forallb dot content = true -> starts_nonspace content ->
  re_match _OL_ITEM (ws ++ ds ++ "."%char :: sp ++ content)
  = Some {| m_groups := [(3, content); (2, ds); (1, ws)];
            m_len := length (ws ++ ds ++ "."%char :: sp ++ content) |}.
Proof.
  intros ws ds sp content Hws Hdne Hds Hne Hsp Hc Hs.
  assert (R : rmatch _OL_ITEM [] (ws ++ ds ++ "."%char :: sp ++ content) []
                (fun _ t g => Some (g, t))
              = Some ([(3, content); (2, ds); (1, ws)], [])).
  { unfold _OL_ITEM, many, many1. cbn [rmatch].
    apply rep_greedy_longest; auto; try discriminate; try lia.
    { destruct ds as [|d ds]; [congruence|]. left. simpl in Hds.
      apply andb_true_iff in Hds as [Hd _]. apply is_digit_not_space. exact Hd. }
    cbn [rmatch].
    apply rep_greedy_longest; auto; try discriminate.
    { destruct ds; [congruence|simpl; lia]. }
    cbn [rmatch]. rewrite Ascii.eqb_refl.
    apply rep_greedy_longest; auto; try discriminate.
    { destruct sp; [congruence|simpl; lia]. }
    { apply stop_nonspace. exact Hs. }
    cbn beta.
    apply rep_greedy_all; auto; try discriminate; try lia.
    rewrite (firstn_app_sub _ ws (ds ++ "."%char :: sp ++ content)).
    rewrite (firstn_app_sub _ ds ("."%char :: sp ++ content)).
    cbn [length]. rewrite Nat.sub_0_r, firstn_all. reflexivity. }
  unfold re_match, match_at. rewrite R. simpl length. rewrite Nat.sub_0_r. reflexivity.
Qed.

(** ** Dispatch of a list item line *)

Lemma list_prefix_map : forall st, _list_prefix st = map prefix_char st.
Proof.
  unfold _list_prefix. induction st as [|t st IH]; cbn [concat map]; auto.
  rewrite IH. destruct t; reflexivity.
Qed.

Lemma table_row_head : forall x t, Ascii.eqb x "|" = false -> re_match _TABLE_ROW (x :: t) = None.
Proof.
  intros x t H. unfold re_match, match_at, _TABLE_ROW. cbn [rmatch]. rewrite H. reflexivity.
Qed.

Lemma heading_head : forall x t, Ascii.eqb x "#" = false -> re_match _HEADING (x :: t) = None.
Proof.
  intros x t H. unfold re_match, match_at, _HEADING. cbn [rmatch rep_greedy].
  unfold ch. rewrite H. reflexivity.
Qed.

Lemma blockquote_head : forall x t, Ascii.eqb x ">" = false -> re_match _BLOCKQUOTE (x :: t) = None.
Proof.
  intros x t H. unfold re_match, match_at, _BLOCKQUOTE. cbn [rmatch]. rewrite H. reflexivity.
Qed.

Lemma space_plain_start : forall x, is_space x = true -> plain_start x = true.
Proof. intros x. destruct x as [[] [] [] [] [] [] [] []]; vm_compute; congruence. Qed.

Lemma marker_plain_start : forall x, ul_marker x = true -> plain_start x = true.
Proof. intros x. destruct x as [[] [] [] [] [] [] [] []]; vm_compute; congruence. Qed.

Lemma digit_plain_start : forall x, is_digit x = true -> plain_start x = true.
Proof. intros x. destruct x as [[] [] [] [] [] [] [] []]; vm_compute; congruence. Qed.

Lemma head_after_spaces : forall ws (x : ascii) rest,
  forallb is_space ws = true ->
  exists y t, ws ++ x :: rest = y :: t /\ (is_space y = true \/ y = x).
Proof.
  intros [|w ws] x rest H; simpl in *.
  - eauto.
  - apply andb_true_iff in H as [H _]. eauto.
Qed.

(** The leading whitespace of a line is determined by the line. *)
Lemma leading_unique : forall u v (x y : ascii) s t,
  forallb is_space u = true -> forallb is_space v = true ->
  is_space x = false -> is_space y = false ->
  u ++ x :: s = v ++ y :: t -> u = v /\ x = y /\ s = t.
Proof.
  induction u as [|a u IH]; intros [|c v] x y s t Hu Hv Hx Hy E; simpl in *.
  - inversion E. auto.
  - inversion E; subst. apply andb_true_iff in Hv as [Hv _]. congruence.
  - inversion E; subst. apply andb_true_iff in Hu as [Hu _]. congruence.
  - inversion E; subst. apply andb_true_iff in Hu as [_ Hu]. apply andb_true_iff in Hv as [_ Hv].
    destruct (IH v x y s t Hu Hv Hx Hy H1) as (-> & -> & ->). auto.
Qed.

(** A line whose first character after the leading whitespace is a digit
    is not an unordered item. *)
Lemma ul_item_digit : forall ws d rest,
  forallb is_space ws = true -> is_digit d = true ->
  re_match _UL_ITEM (ws ++ d :: rest) = None.
Proof.
  intros ws d rest Hws Hd.
  destruct (re_match _UL_ITEM (ws ++ d :: rest)) eqn:E; auto. exfalso.
  apply match_at_sound in E as (b' & t' & g' & R & _).
  unfold _UL_ITEM, many, many1 in R. simpl in R.
  destruct R as (b1 & t1 & g1 & (_ & -> & -> & ->) & R).
  destruct R as (b2 & t2 & g2 & (g3 & (u & E & Hu & _ & _ & -> & ->) & ->) & R).
  destruct R as (b3 & t3 & g4 & (g5 & (x & Hx & -> & -> & ->) & ->) & _).
  apply leading_unique in E as (_ & <- & _); auto.
  - pose proof (is_digit_not_marker _ Hd) as Hd'.
    assert (Hx' : ul_marker d = true) by exact Hx. congruence.
  - apply is_digit_not_space. exact Hd.
  - apply ul_marker_not_space. exact Hx.
Qed.

Lemma plain_start_split : forall x, plain_start x = true ->
  Ascii.eqb x "|" = false /\ Ascii.eqb x "#" = false /\ Ascii.eqb x ">" = false.
Proof.
  intros x H. unfold plain_start in H.
  apply andb_true_iff in H as [H H3]. apply andb_true_iff in H as [H1 H2].
  rewrite negb_true_iff in *. auto.
Qed.

(** The turn of the loop on an unordered item. *)
Lemma block_step_ul : forall ws m sp content result stack,
  forallb is_space ws = true -> ul_marker m = true ->
  sp <> [] -> forallb is_space sp = true ->
  forallb dot content = true -> starts_nonspace content ->
  contains _PH_CB (ws ++ m :: sp ++ content) = false ->
  block_step (ws ++ m :: sp ++ content) (result, stack, [])
  = (out <- ul_line (_list_prefix (stack_after stack (length ws / 2) ul)) content ;;
     ret (result ++ [out], stack_after stack (length ws / 2) ul, [])).
Proof.
  intros ws m sp content result stack Hws Hm Hne Hsp Hc Hs Hph.
  pose proof (ul_item_match ws m sp content Hws Hm Hne Hsp Hc Hs) as U.
  destruct (head_after_spaces ws m (sp ++ content) Hws) as (y & t & E & Hy).
  assert (P : plain_start y = true).
  { destruct Hy as [Hy | ->]; [apply space_plain_start|apply marker_plain_start]; auto. }
  apply plain_start_split in P as (P1 & P2 & P3).
  unfold block_step. rewrite Hph.
  rewrite U. rewrite E.
  rewrite table_row_head, heading_head, blockquote_head by auto.
  cbn [is_match negb andb flush_table bind ret]. rewrite andb_false_r. cbn [andb].
  unfold group_str, group. cbn [m_groups lookup Nat.eqb bind].
  rewrite list_item_spec. cbn [bind ret].
  destruct (ul_line _ content); reflexivity.
Qed.

(** The turn of the loop on an ordered item. *)
Lemma block_step_ol : forall ws ds sp content result stack,
  forallb is_space ws = true -> ds <> [] -> forallb is_digit ds = true ->
  sp <> [] -> forallb is_space sp = true ->
  forallb dot content = true -> starts_nonspace content ->
  contains _PH_CB (ws ++ ds ++ "."%char :: sp ++ content) = false ->
  block_step (ws ++ ds ++ "."%char :: sp ++ content) (result, stack, [])
  = Some (result ++ [_list_prefix (stack_after stack (length ws / 2) ol)
                       ++ py " " ++ content],
          stack_after stack (length ws / 2) ol, []).
Proof.
  intros ws ds sp content result stack Hws Hdne Hds Hne Hsp Hc Hs Hph.
  pose proof (ol_item_match ws ds sp content Hws Hdne Hds Hne Hsp Hc Hs) as O.
  destruct ds as [|d ds]; [congruence|]. simpl in Hds. apply andb_true_iff in Hds as [Hd Hds].
  pose proof (ul_item_digit ws d (ds ++ "."%char :: sp ++ content) Hws Hd) as U.
  destruct (head_after_spaces ws d (ds ++ "."%char :: sp ++ content) Hws) as (y & t & E & Hy).
  assert (P : plain_start y = true).
  { destruct Hy as [Hy | ->]; [apply space_plain_start|apply digit_plain_start]; auto. }
  apply plain_start_split in P as (P1 & P2 & P3).
  unfold block_step. rewrite Hph.
  simpl app in *. rewrite O, U. rewrite E.
  rewrite table_row_head, heading_head, blockquote_head by auto.
  cbn [is_match negb andb flush_table bind ret]. rewrite andb_false_r.
  unfold group_str, group. cbn [m_groups lookup Nat.eqb bind].
  rewrite list_item_spec. reflexivity.
Qed.

(** ** Task markers *)

Lemma bol_fails : forall r x b t, match_at (Bol +++ r) (x :: b) t = None.
Proof. intros. reflexivity. Qed.

Lemma sub_loop_bol : forall (S : Type) r (repl : match_obj -> S -> M (str * S)) t x b st,
  sub_loop (Bol +++ r) repl (x :: b) t 0 st = Some (t, st).
Proof.
  intros. apply sub_loop_nomatch. intros p1 p2 _.
  destruct (rev p1 ++ x :: b) eqn:E.
  - destruct (rev p1); discriminate.
  - apply bol_fails.
Qed.

(** A marker [[c]] followed by whitespace and then [rest]; [mid] is the
    part of the pattern for [c]. *)
Lemma task_sub : forall (mid : regex) c sp rest,
  (forall b t g k, rmatch mid b (c :: t) g k = k (c :: b) t g) ->
  sp <> [] -> forallb is_space sp = true -> starts_nonspace rest ->
  let r := Bol +++ Lit "[" +++ mid +++ Lit "]" +++ many1 is_space in
  is_match (re_match r ("["%char :: c :: "]"%char :: sp ++ rest)) = true
  /\ re_sub r (fun _ => ret []) ("["%char :: c :: "]"%char :: sp ++ rest) = Some rest.
Proof.
  intros mid c sp rest Hc Hne Hsp Hs r.
  assert (R : match_at r [] ("["%char :: c :: "]"%char :: sp ++ rest)
              = Some {| m_groups := []; m_len := S (length ([c; "]"%char] ++ sp)) |}).
  { unfold match_at, r, many1. cbn [rmatch]. rewrite Ascii.eqb_refl, Hc. cbn [rmatch].
    rewrite Ascii.eqb_refl.
    rewrite (rep_greedy_longest is_space 1 None sp rest 0 _ _ _ ([], rest)); auto.
    - f_equal. f_equal. cbn [length]. rewrite !length_app. cbn [length]. lia.
    - discriminate.
    - destruct sp; [congruence|simpl; lia].
    - apply stop_nonspace; exact Hs. }
  split.
  - unfold re_match. rewrite R. reflexivity.
  - unfold re_sub, re_sub_st.
    change ("["%char :: c :: "]"%char :: sp ++ rest)
      with ("["%char :: ([c; "]"%char] ++ sp) ++ rest) in *.
    rewrite (sub_loop_match _ _ _ _ _ _ _ _ R) by reflexivity.
    cbn [bind ret]. unfold r. rewrite rev_app_distr.
    destruct (rev sp ++ rev [c; "]"%char]) eqn:E.
    + destruct (rev sp); discriminate.
    + cbn [app]. rewrite sub_loop_bol. reflexivity.
Qed.

Lemma ul_line_unchecked : forall prefix sp rest,
  sp <> [] -> forallb is_space sp = true -> starts_nonspace rest ->
  ul_line prefix (py "[ ]" ++ sp ++ rest) = Some (prefix ++ py " ( ) " ++ rest).
Proof.
  intros prefix sp rest Hne Hsp Hs. unfold ul_line.
  replace (re_match _TASK_CHECKED (py "[ ]" ++ sp ++ rest)) with (@None match_obj) by reflexivity.
  destruct (task_sub (Lit " ") " "%char sp rest (fun b t g k => eq_refl) Hne Hsp Hs) as [H1 H2].
  cbn [is_match].
  change (is_match (re_match _TASK_UNCHECKED (py "[ ]" ++ sp ++ rest)) = true) in H1.
  rewrite H1.
  change (re_sub _TASK_UNCHECKED (fun _ => ret []) (py "[ ]" ++ sp ++ rest) = Some rest) in H2.
  rewrite H2. reflexivity.
Qed.

Lemma ul_line_checked : forall prefix c sp rest,
  c = "x"%char \/ c = "X"%char ->
  sp <> [] -> forallb is_space sp = true -> starts_nonspace rest ->
  ul_line prefix ("["%char :: c :: "]"%char :: sp ++ rest) = Some (prefix ++ py " (/) " ++ rest).
Proof.
  intros prefix c sp rest Hc Hne Hsp Hs. unfold ul_line.
  assert (Hm : forall b t g k, rmatch (Cls (one_of (py "xX"))) b (c :: t) g k = k (c :: b) t g).
  { intros. destruct Hc; subst; reflexivity. }
  destruct (task_sub (Cls (one_of (py "xX"))) c sp rest Hm Hne Hsp Hs) as [H1 H2].
  change (is_match (re_match _TASK_CHECKED ("["%char :: c :: "]"%char :: sp ++ rest)) = true) in H1.
  rewrite H1.
  change (re_sub _TASK_CHECKED (fun _ => ret []) ("["%char :: c :: "]"%char :: sp ++ rest) = Some rest) in H2.
  rewrite H2. reflexivity.
Qed.

Lemma ul_line_plain : forall prefix content,
  hd_error content <> Some "["%char ->
  ul_line prefix content = Some (prefix ++ py " " ++ content).
Proof.
  intros prefix [|x t] H; [reflexivity|].
  assert (E : Ascii.eqb x "[" = false).
  { apply Ascii.eqb_neq. intros ->. apply H. reflexivity. }
  unfold ul_line, re_match, match_at, _TASK_CHECKED, _TASK_UNCHECKED.
  cbn [rmatch]. rewrite E. reflexivity.
Qed.

Lemma stack_after_nth : forall st d t, nth_error (stack_after st d t) d = Some t.
Proof.
  intros st d t. unfold stack_after. rewrite app_assoc.
  assert (L : length (firstn d st ++ repeat t (d - length st)) = d).
  { rewrite length_app, length_firstn, repeat_length. lia. }
  rewrite nth_error_app2 by lia. rewrite L, Nat.sub_diag. reflexivity.
Qed.

Lemma stack_after_keeps : forall st d t i,
  i < d -> i < length st -> nth_error (stack_after st d t) i = nth_error st i.
Proof.
  intros st d t i Hd Hl. unfold stack_after.
  rewrite nth_error_app1 by (rewrite length_firstn; lia).
  rewrite nth_error_firstn. apply Nat.ltb_lt in Hd. rewrite Hd. reflexivity.
Qed.

(** C6 (amended). The nesting depth of a list item is the number of
    leading whitespace characters of its line (blanks, tabs and the other
    characters of [\s]) divided by 2, plus 1. The list stack is cut or
    filled up to that depth, its entry at that depth becomes the type of
    the item, the entries above are kept, and the prefix of the emitted
    line has one character for each entry, [*] for an unordered and [#]
    for an ordered one. Hence an item indented by 2 blanks under an
    unindented unordered item gets the prefix [**], and [*#] if it is
    an ordered item. *)
Theorem C6_list_nesting :
  forall ws sp content result stack,
    forallb is_space ws = true ->
    sp <> [] -> forallb is_space sp = true ->
    forallb dot content = true -> starts_nonspace content ->
    let d := length ws / 2 in
    (forall m,
        ul_marker m = true ->
        contains _PH_CB (ws ++ m :: sp ++ content) = false ->
        block_step (ws ++ m :: sp ++ content) (result, stack, [])
        = (out <- ul_line (map prefix_char (stack_after stack d ul)) content ;;
           ret (result ++ [out], stack_after stack d ul, [])))
    /\ (forall ds,
        ds <> [] -> forallb is_digit ds = true ->
        contains _PH_CB (ws ++ ds ++ "."%char :: sp ++ content) = false ->
        block_step (ws ++ ds ++ "."%char :: sp ++ content) (result, stack, [])
        = Some (result ++ [map prefix_char (stack_after stack d ol)
                             ++ py " " ++ content],
                stack_after stack d ol, []))
    /\ (forall t,
        length (stack_after stack d t) = d + 1
        /\ nth_error (stack_after stack d t) d = Some t
        /\ forall i, i < d -> i < length stack ->
             nth_error (stack_after stack d t) i = nth_error stack i)
    /\ (hd_error content <> Some "["%char ->
        forall prefix, ul_line prefix content = Some (prefix ++ py " " ++ content))
    /\ map prefix_char (stack_after (stack_after stack 0 ul) (2 / 2) ul) = py "**"
    /\ map prefix_char (stack_after (stack_after stack 0 ul) (2 / 2) ol) = py "*#".
Proof.
  intros ws sp content result stack Hws Hne Hsp Hc Hs d.
  split; [|split; [|split; [|split; [|split]]]].
  - intros m Hm Hph. rewrite <- list_prefix_map. apply block_step_ul; auto.
  - intros ds Hd1 Hd2 Hph. rewrite <- list_prefix_map. apply block_step_ol; auto.
  - intros t. split; [apply stack_after_length|].
    split; [apply stack_after_nth|]. intros. apply stack_after_keeps; auto.
  - intros H prefix. apply ul_line_plain. exact H.
  - reflexivity.
  - reflexivity.
Qed.

Lemma C6_list_nesting_witness :
  block_step (py "  1. numbered") ([py "* bullet"], [ul], [])
  = Some ([py "* bullet"; py "*# numbered"], [ul; ol], []).
Proof.
  assert (H := C6_list_nesting (py "  ") (py " ") (py "numbered")
                 [py "* bullet"] [ul] eq_refl ltac:(discriminate) eq_refl eq_refl eq_refl).
  destruct H as (_ & H & _).
  apply (H (py "1")); [discriminate|reflexivity|reflexivity].
Defined.

(** C6, as stated, fails on an item indented with tabs: the line has no
    leading blank, so the stated depth is 1, and the item is emitted at
    depth 2. *)
Lemma C6_counterexample :
  leading_spaces (py "\t\t- x") / 2 + 1 = 1
  /\ block_step (py "\t\t- x") ([], [], []) = Some ([py "** x"], [ul; ul], []).
Proof. split; reflexivity. Qed.

(** C7 (amended). An unordered item whose content is [[ ]], one or more
    whitespace characters and [rest] is emitted as [<prefix> ( ) <rest>];
    with [[x]] or [[X]] in place of [[ ]] it is emitted as
    [<prefix> (/) <rest>]: [rest] is what follows the marker and all the
    whitespace after it. An ordered item is emitted as
    [<prefix> <content>] whatever its content is, task markers included. *)
Theorem C7_task_items :
  forall ws sp0 sp rest result stack,
    forallb is_space ws = true ->
    sp0 <> [] -> forallb is_space sp0 = true ->
    sp <> [] -> forallb is_space sp = true ->
    forallb dot (sp ++ rest) = true -> starts_nonspace rest ->
    let d := length ws / 2 in
    (forall m box,
        ul_marker m = true ->
        box = py "[ ]" \/ box = py "[x]" \/ box = py "[X]" ->
        contains _PH_CB (ws ++ m :: sp0 ++ box ++ sp ++ rest) = false ->
        block_step (ws ++ m :: sp0 ++ box ++ sp ++ rest) (result, stack, [])
        = Some (result ++ [map prefix_char (stack_after stack d ul)
                             ++ (if str_eqb box (py "[ ]") then py " ( ) " else py " (/) ")
                             ++ rest],
                stack_after stack d ul, []))
    /\ (forall ds box,
        ds <> [] -> forallb is_digit ds = true ->
        box = py "[ ]" \/ box = py "[x]" \/ box = py "[X]" ->
        contains _PH_CB (ws ++ ds ++ "."%char :: sp0 ++ box ++ sp ++ rest) = false ->
        block_step (ws ++ ds ++ "."%char :: sp0 ++ box ++ sp ++ rest) (result, stack, [])
        = Some (result ++ [map prefix_char (stack_after stack d ol)
                             ++ py " " ++ box ++ sp ++ rest],
                stack_after stack d ol, [])).
Proof.
  intros ws sp0 sp rest result stack Hws Hne0 Hsp0 Hne Hsp Hd Hs d.
  assert (Hbox : forall box, box = py "[ ]" \/ box = py "[x]" \/ box = py "[X]" ->
            forallb dot (box ++ sp ++ rest) = true /\ starts_nonspace (box ++ sp ++ rest)).
  { intros box [-> | [-> | ->]]; simpl; rewrite Hd; auto. }
  split.
  - intros m box Hm Hb Hph. destruct (Hbox box Hb) as [B1 B2].
    rewrite block_step_ul by auto. rewrite <- list_prefix_map.
    destruct Hb as [-> | [-> | ->]].
    + rewrite ul_line_unchecked by auto. reflexivity.
    + change (py "[x]" ++ sp ++ rest) with ("["%char :: "x"%char :: "]"%char :: sp ++ rest).
      rewrite ul_line_checked by auto. reflexivity.
    + change (py "[X]" ++ sp ++ rest) with ("["%char :: "X"%char :: "]"%char :: sp ++ rest).
      rewrite ul_line_checked by auto. reflexivity.
  - intros ds box Hd1 Hd2 Hb Hph. destruct (Hbox box Hb) as [B1 B2].
    rewrite block_step_ol by auto. rewrite <- list_prefix_map. reflexivity.
Qed.

Lemma C7_task_items_witness :
  block_step (py "- [X] done") ([], [], []) = Some ([py "* (/) done"], [ul], [])
  /\ block_step (py "1. [ ] todo") ([], [], []) = Some ([py "# [ ] todo"], [ol], []).
Proof.
  assert (H := C7_task_items [] (py " ") (py " ") (py "done") [] []
                 eq_refl ltac:(discriminate) eq_refl ltac:(discriminate) eq_refl eq_refl eq_refl).
  assert (H' := C7_task_items [] (py " ") (py " ") (py "todo") [] []
                 eq_refl ltac:(discriminate) eq_refl ltac:(discriminate) eq_refl eq_refl eq_refl).
  destruct H as (H & _). destruct H' as (_ & H').
  split.
  - apply (H "-"%char (py "[X]")); [reflexivity|auto|reflexivity].
  - apply (H' (py "1") (py "[ ]")); [discriminate|reflexivity|auto|reflexivity].
Defined.

(** C7, as stated, fails when more whitespace follows the marker [[ ] ]:
    the content of the item is [[ ] ] followed by [ x], and the emitted
    line is not [* ( ) ] followed by [ x]. *)
Lemma C7_counterexample :
  block_step (py "- [ ]  x") ([], [], []) = Some ([py "* ( ) x"], [ul], [])
  /\ py "[ ]  x" = py "[ ] " ++ py " x"
  /\ py "* ( ) x" <> py "*" ++ py " ( ) " ++ py " x".
Proof. split; [reflexivity|split; [reflexivity|discriminate]]. Qed.

(* ------------------------------------------------------------------ *)
(** * Placeholder keys and [str.replace] *)
(* ------------------------------------------------------------------ *)

Lemma string_of_uint_digits : forall d,
  forallb is_digit (list_ascii_of_string (NilEmpty.string_of_uint d)) = true.
Proof. induction d; simpl; auto. Qed.

Lemma str_of_nat_digits : forall n, forallb is_digit (str_of_nat n) = true.
Proof. intros. apply string_of_uint_digits. Qed.

Lemma list_ascii_of_string_inj : forall a b,
  list_ascii_of_string a = list_ascii_of_string b -> a = b.
Proof.
  intros a b H. rewrite <- (string_of_list_ascii_of_string a), <- (string_of_list_ascii_of_string b).
  rewrite H. reflexivity.
Qed.

Lemma str_of_nat_inj : forall a b, str_of_nat a = str_of_nat b -> a = b.
Proof.
  intros a b H. apply list_ascii_of_string_inj in H.
  apply Unsigned.to_uint_inj.
  assert (E : NilEmpty.uint_of_string (NilEmpty.string_of_uint (Nat.to_uint a))
              = NilEmpty.uint_of_string (NilEmpty.string_of_uint (Nat.to_uint b))) by (rewrite H; reflexivity).
  rewrite !NilEmpty.usu in E. congruence.
Qed.

Lemma digit_not_nul : forall c, is_digit c = true -> negb (Ascii.eqb c NUL) = true.
Proof. intros c. destruct c as [[] [] [] [] [] [] [] []]; vm_compute; congruence. Qed.

Lemma forallb_impl : forall (A : Type) (p q : A -> bool) l,
  (forall x, p x = true -> q x = true) -> forallb p l = true -> forallb q l = true.
Proof.
  intros A p q l H. induction l; simpl; auto. intros E.
  apply andb_true_iff in E as [E1 E2]. rewrite (H _ E1). auto.
Qed.

Lemma ph_shape : forall tag n, is_tag tag -> _ph tag n = NUL :: ph_body tag n ++ [NUL].
Proof.
  intros tag n [-> | [-> | [-> | ->]]]; unfold _ph, ph_body; simpl;
    rewrite <- ?app_assoc; reflexivity.
Qed.

Lemma ph_body_nul_free : forall tag n, is_tag tag -> nul_free (ph_body tag n) = true.
Proof.
  intros tag n H. unfold ph_body, nul_free. rewrite forallb_app.
  replace (forallb (fun c => negb (Ascii.eqb c NUL)) (tl tag)) with true
    by (destruct H as [-> | [-> | [-> | ->]]]; reflexivity).
  simpl. apply (forallb_impl _ is_digit); [apply digit_not_nul|apply str_of_nat_digits].
Qed.

Lemma ph_body_inj : forall tag tag' n n', is_tag tag -> is_tag tag' ->
  ph_body tag n = ph_body tag' n' -> tag = tag' /\ n = n'.
Proof.
  intros tag tag' n n' H H' E.
  destruct H as [-> | [-> | [-> | ->]]]; destruct H' as [-> | [-> | [-> | ->]]];
    unfold ph_body in E; simpl in E; try discriminate;
    (split; [reflexivity|]); inversion E; apply str_of_nat_inj; assumption.
Qed.

(** ** [startswith] on keys *)

Lemma startswith_In : forall p s c, startswith p s = true -> In c p -> In c s.
Proof.
  intros p s c H. apply startswith_app in H. rewrite H. intros. apply in_or_app. auto.
Qed.

Lemma nul_free_In : forall s, nul_free s = true -> ~ In NUL s.
Proof.
  intros s H Hin. unfold nul_free in H. rewrite forallb_forall in H.
  specialize (H _ Hin). rewrite Ascii.eqb_refl in H. discriminate.
Qed.

Lemma nul_free_app : forall a b, nul_free (a ++ b) = nul_free a && nul_free b.
Proof. intros. apply forallb_app. Qed.

Lemma startswith_nul_free : forall body post,
  nul_free post = true -> startswith (body ++ [NUL]) post = false.
Proof.
  intros body post H. destruct (startswith (body ++ [NUL]) post) eqn:E; auto.
  exfalso. apply (nul_free_In _ H). eapply startswith_In; eauto.
  apply in_or_app. right. left. reflexivity.
Qed.

Lemma startswith_other_body : forall body body' t,
  nul_free body = true -> nul_free body' = true -> body <> body' ->
  startswith (body ++ [NUL]) (body' ++ NUL :: t) = false.
Proof.
  unfold nul_free.
  induction body as [|x body IH]; intros [|y body'] t H H' Hne;
    cbn [startswith app forallb] in *.
  - congruence.
  - apply andb_true_iff in H' as [H' _]. apply negb_true_iff in H'.
    rewrite Ascii.eqb_sym, H'. reflexivity.
  - apply andb_true_iff in H as [H _]. apply negb_true_iff in H. rewrite H. reflexivity.
  - apply andb_true_iff in H as [_ H]. apply andb_true_iff in H' as [_ H'].
    destruct (Ascii.eqb x y) eqn:E; auto. apply Ascii.eqb_eq in E. subst.
    cbn [andb]. apply IH; auto. congruence.
Qed.

(** ** [replace_aux] *)

Lemma replace_aux_skip : forall old new u t,
  replace_aux old new (u ++ t) (length u) = replace_aux old new t 0.
Proof.
  intros old new. induction u as [|c u IH]; intros t; simpl.
  - destruct t; reflexivity.
  - apply IH.
Qed.

Lemma replace_aux_at : forall old new t,
  old <> [] -> replace_aux old new (old ++ t) 0 = new ++ replace_aux old new t 0.
Proof.
  intros [|c o] new t H; [congruence|].
  simpl app. cbn [replace_aux].
  replace (startswith (c :: o) (c :: o ++ t)) with true
    by (symmetry; apply (startswith_prefix (c :: o))).
  replace (length (c :: o) - 1) with (length o) by (simpl; lia).
  rewrite replace_aux_skip. reflexivity.
Qed.

Section Replace.
Variables old new : str.

Lemma replace_aux_step : forall c t,
  startswith old (c :: t) = false ->
  replace_aux old new (c :: t) 0 = c :: replace_aux old new t 0.
Proof. intros c t H. cbn [replace_aux]. rewrite H. reflexivity. Qed.

Hypothesis old_nul : exists o, old = NUL :: o.

Lemma startswith_old_non_nul : forall c t,
  negb (Ascii.eqb c NUL) = true -> startswith old (c :: t) = false.
Proof.
  intros c t H. destruct old_nul as [o ->]. cbn [startswith].
  apply negb_true_iff in H. rewrite Ascii.eqb_sym, H. reflexivity.
Qed.

(** Text without NUL is copied. *)
Lemma replace_aux_nul_free : forall u t,
  nul_free u = true ->
  replace_aux old new (u ++ t) 0 = u ++ replace_aux old new t 0.
Proof.
  induction u as [|c u IH]; intros t H; simpl in H; auto.
  apply andb_true_iff in H as [H1 H2]. simpl app.
  rewrite replace_aux_step by (apply startswith_old_non_nul; exact H1).
  rewrite IH by auto. reflexivity.
Qed.

Lemma replace_aux_nul_free_all : forall u,
  nul_free u = true -> replace_aux old new u 0 = u.
Proof.
  intros u H. rewrite <- (app_nil_r u) at 1. rewrite replace_aux_nul_free by auto.
  simpl. apply app_nil_r.
Qed.
End Replace.

Lemma str_replace_aux : forall old new s, old <> [] -> str_replace old new s = replace_aux old new s 0.
Proof. intros [|c o] new s H; [congruence|reflexivity]. Qed.

(** ** Replacing a key in a text that holds one key *)

Section OneKey.
Variables body body' : str.
Hypothesis Hb : nul_free body = true.
Hypothesis Hb' : nul_free body' = true.

Let key := NUL :: body ++ [NUL].
Let key' := NUL :: body' ++ [NUL].

Lemma str_replace_nul_free : forall v s,
  nul_free s = true -> str_replace key v s = s.
Proof.
  intros v s H. rewrite str_replace_aux by discriminate.
  apply replace_aux_nul_free_all; eauto. unfold key. eauto.
Qed.

Lemma str_replace_key : forall v pre post,
  nul_free pre = true -> nul_free post = true ->
  str_replace key v (pre ++ key ++ post) = pre ++ v ++ post.
Proof.
  intros v pre post H1 H2. rewrite str_replace_aux by discriminate.
  rewrite replace_aux_nul_free by (unfold key; eauto).
  rewrite replace_aux_at by discriminate.
  rewrite replace_aux_nul_free_all by (unfold key; eauto). reflexivity.
Qed.

Lemma str_replace_other_key : forall v pre post,
  body <> body' -> nul_free pre = true -> nul_free post = true ->
  str_replace key v (pre ++ key' ++ post) = pre ++ key' ++ post.
Proof.
  intros v pre post Hne H1 H2. rewrite str_replace_aux by discriminate.
  assert (Hk : exists o, key = NUL :: o) by (unfold key; eauto).
  rewrite replace_aux_nul_free by auto. f_equal.
  unfold key'. simpl app. rewrite <- app_assoc. simpl app.
  rewrite replace_aux_step.
  2:{ unfold key. simpl. apply startswith_other_body; auto. }
  f_equal. rewrite replace_aux_nul_free by auto. f_equal.
  rewrite replace_aux_step.
  2:{ unfold key. simpl. apply startswith_nul_free; auto. }
  f_equal. apply replace_aux_nul_free_all; auto.
Qed.
End OneKey.

(** ** [str.replace] and [join] *)

Lemma startswith_lf : forall old a b,
  ~ In LF old -> old <> [] ->
  startswith old (a ++ LF :: b) = startswith old a.
Proof.
  induction old as [|x old IH]; intros a b H Hne; [congruence|].
  destruct a as [|y a]; simpl.
  - destruct (Ascii.eqb x LF) eqn:E; auto. apply Ascii.eqb_eq in E. subst.
    exfalso. apply H. left. reflexivity.
  - destruct (Ascii.eqb x y); auto. simpl.
    destruct old as [|z old']; [reflexivity|].
    apply IH; [|discriminate]. intros Hin. apply H. right. exact Hin.
Qed.

Lemma startswith_length : forall p s, startswith p s = true -> length p <= length s.
Proof.
  intros p s H. apply startswith_app in H. rewrite H, length_app. lia.
Qed.

Lemma replace_aux_lf : forall old new a b skip,
  ~ In LF old -> old <> [] -> skip <= length a ->
  replace_aux old new (a ++ LF :: b) skip
  = replace_aux old new a skip ++ LF :: replace_aux old new b 0.
Proof.
  intros old new a. induction a as [|c a IH]; intros b skip H Hne Hs.
  - simpl in Hs. replace skip with 0 by lia. simpl app. cbn [replace_aux].
    replace (startswith old (LF :: b)) with false; [reflexivity|].
    symmetry. change (LF :: b) with ([] ++ LF :: b).
    rewrite (startswith_lf old [] b H Hne). destruct old; [congruence|reflexivity].
  - simpl app. cbn [replace_aux]. destruct skip as [|k].
    + change (c :: a ++ LF :: b) with ((c :: a) ++ LF :: b).
      rewrite startswith_lf by auto.
      destruct (startswith old (c :: a)) eqn:E.
      * apply startswith_length in E. simpl in E.
        rewrite IH by (auto; lia). rewrite app_assoc. reflexivity.
      * rewrite IH by (auto; lia). reflexivity.
    + apply IH; auto. simpl in Hs. lia.
Qed.

Lemma str_replace_join : forall old new ls,
  ~ In LF old -> old <> [] ->
  str_replace old new (join [LF] ls) = join [LF] (map (str_replace old new) ls).
Proof.
  intros old new ls H Hne. rewrite str_replace_aux by auto.
  induction ls as [|l ls IH]; [reflexivity|].
  destruct ls as [|l' ls].
  - simpl. rewrite str_replace_aux by auto. reflexivity.
  - change (join [LF] (l :: l' :: ls)) with (l ++ LF :: join [LF] (l' :: ls)).
    rewrite replace_aux_lf by (auto; lia). rewrite IH.
    cbn [map join]. rewrite !str_replace_aux by auto. reflexivity.
Qed.

Lemma restore_join : forall m ls,
  Forall (fun kv => ~ In LF (fst kv) /\ fst kv <> []) m ->
  _restore_placeholders (join [LF] ls) m
  = join [LF] (map (fun l => _restore_placeholders l m) ls).
Proof.
  unfold _restore_placeholders.
  induction m as [|[k v] m IH]; intros ls H; simpl.
  - rewrite map_id. reflexivity.
  - inversion H; subst. destruct H2 as [H2 H2']. simpl in H2, H2'.
    rewrite str_replace_join by auto. rewrite IH by auto. rewrite map_map. reflexivity.
Qed.

(* ------------------------------------------------------------------ *)
(** * Inline passes *)
(* ------------------------------------------------------------------ *)

(** ** Patterns that cannot match at a character *)

Section FirstChar.
Context {S : Type}.
Variable r : regex.
Variable first : ascii -> bool.
Variable repl : match_obj -> S -> M (str * S).
Hypothesis Hhead : forall b x t, first x = false -> match_at r b (x :: t) = None.
Hypothesis Hnil : forall b, match_at r b [] = None.

Lemma match_at_free : forall b t,
  match t with x :: _ => first x = false | [] => True end -> match_at r b t = None.
Proof. intros b [|x t] H; auto. Qed.

Lemma sub_loop_free_prefix : forall pre t before st,
  forallb (fun c => negb (first c)) pre = true ->
  sub_loop r repl before (pre ++ t) 0 st
  = (' (o, st') <- sub_loop r repl (rev pre ++ before) t 0 st ;; ret (pre ++ o, st')).
Proof.
  intros pre t before st H. apply sub_loop_prefix.
  intros p1 p2 E Hne. destruct p2 as [|x p2]; [congruence|].
  simpl. apply Hhead. subst pre. rewrite forallb_app in H.
  apply andb_true_iff in H as [_ H]. simpl in H. apply andb_true_iff in H as [H _].
  apply negb_true_iff in H. exact H.
Qed.

Lemma sub_loop_free : forall t before st,
  forallb (fun c => negb (first c)) t = true ->
  sub_loop r repl before t 0 st = Some (t, st).
Proof.
  intros t before st H. apply sub_loop_nomatch.
  intros p1 p2 E. apply match_at_free. destruct p2 as [|x p2]; auto.
  subst t. rewrite forallb_app in H.
  apply andb_true_iff in H as [_ H]. simpl in H. apply andb_true_iff in H as [H _].
  apply negb_true_iff in H. exact H.
Qed.

Lemma search_free : forall t before,
  forallb (fun c => negb (first c)) t = true -> search_from r before t = None.
Proof.
  induction t as [|x t IH]; intros before H; simpl.
  - rewrite Hnil. reflexivity.
  - simpl in H. apply andb_true_iff in H as [H1 H2]. apply negb_true_iff in H1.
    rewrite Hhead by auto. apply IH. exact H2.
Qed.
End FirstChar.

Lemma inline_code_head : forall b x t, ch "`" x = false -> match_at _INLINE_CODE b (x :: t) = None.
Proof. intros b x t H. unfold match_at, _INLINE_CODE. cbn [rmatch]. unfold ch in H. rewrite H. reflexivity. Qed.

Lemma image_head : forall b x t, ch "!" x = false -> match_at _IMAGE b (x :: t) = None.
Proof. intros b x t H. unfold match_at, _IMAGE. cbn [rmatch]. unfold ch in H. rewrite H. reflexivity. Qed.

Lemma link_head : forall b x t, ch "[" x = false -> match_at _LINK b (x :: t) = None.
Proof. intros b x t H. unfold match_at, _LINK. cbn [rmatch]. unfold ch in H. rewrite H. reflexivity. Qed.

Lemma strike_head : forall b x t, ch "~" x = false -> match_at _STRIKE b (x :: t) = None.
Proof. intros b x t H. unfold match_at, _STRIKE. cbn [rmatch]. unfold ch in H. rewrite H. reflexivity. Qed.

Lemma bold_italic_head : forall b x t,
  (ch "*" x || ch "_" x) = false -> match_at _BOLD_ITALIC b (x :: t) = None.
Proof.
  intros b x t H. apply orb_false_iff in H as [H1 H2].
  unfold match_at, _BOLD_ITALIC, exactly. cbn [rmatch rep_greedy].
  rewrite H1, H2. reflexivity.
Qed.

Lemma bold_head : forall b x t,
  (ch "*" x || ch "_" x) = false -> match_at _BOLD b (x :: t) = None.
Proof.
  intros b x t H. apply orb_false_iff in H as [H1 H2].
  unfold match_at, _BOLD, exactly. cbn [rmatch rep_greedy].
  rewrite H1, H2. reflexivity.
Qed.

Lemma italic_head : forall b x t,
  (ch "*" x || ch "_" x) = false -> match_at _ITALIC b (x :: t) = None.
Proof.
  intros b x t H. apply orb_false_iff in H as [H1 H2]. unfold ch in H1, H2.
  unfold match_at, _ITALIC. cbn [rmatch]. rewrite H1, H2.
  destruct b as [|y b]; [reflexivity|].
  destruct (Ascii.eqb y "*"), (Ascii.eqb y "_"); reflexivity.
Qed.

Lemma italic_nil : forall b, match_at _ITALIC b [] = None.
Proof.
  intros [|y b]; [reflexivity|]. unfold match_at, _ITALIC. cbn [rmatch].
  destruct (Ascii.eqb y "*"), (Ascii.eqb y "_"); reflexivity.
Qed.

(** The consequences of [special c = false]. *)
Lemma special_false : forall c, special c = false ->
  ch "`" c = false /\ ch "!" c = false /\ ch "[" c = false
  /\ (ch "*" c || ch "_" c) = false /\ ch "~" c = false.
Proof.
  intros c. destruct c as [[] [] [] [] [] [] [] []]; vm_compute; intros; repeat split; congruence.
Qed.

Lemma plain_text_forall : forall (p : ascii -> bool) s,
  (forall c, special c = false -> p c = false) ->
  plain_text s = true -> forallb (fun c => negb (p c)) s = true.
Proof.
  intros p s H. unfold plain_text. apply forallb_impl.
  intros x Hx. apply negb_true_iff in Hx. rewrite (H x Hx). reflexivity.
Qed.

Lemma plain_text_app : forall a b, plain_text (a ++ b) = plain_text a && plain_text b.
Proof. intros. apply forallb_app. Qed.

(** Formatting leaves a text without [*], [_] and [~] as it is. *)
Lemma formatting_plain : forall s,
  forallb (fun c => negb (ch "*" c || ch "_" c)) s = true ->
  forallb (fun c => negb (ch "~" c)) s = true ->
  _process_inline_formatting s = Some s.
Proof.
  intros s H1 H2. unfold _process_inline_formatting, re_sub, re_sub_st.
  rewrite (sub_loop_free _ (fun c => ch "*" c || ch "_" c)); auto using bold_italic_head.
  cbn [bind ret].
  rewrite (sub_loop_free _ (fun c => ch "*" c || ch "_" c)); auto using bold_head.
  cbn [bind ret].
  rewrite (sub_loop_free _ (fun c => ch "*" c || ch "_" c)); auto using italic_head, italic_nil.
  cbn [bind ret].
  rewrite (sub_loop_free _ (ch "~")); auto using strike_head.
Qed.

(** ** Pass 3: inline code *)

Lemma stop_at : forall (p : ascii -> bool) (c : ascii) (t : str) (n : nat),
  p c = false ->
  match c :: t with x :: _ => p x = false \/ @None nat = Some n | [] => True end.
Proof. intros. left. assumption. Qed.

Lemma not_ch_refl : forall c, not_ch c c = false.
Proof. intros. unfold not_ch. rewrite Ascii.eqb_refl. reflexivity. Qed.

Lemma nonempty_length : forall (A : Type) (l : list A), l <> [] -> 1 <= length l.
Proof. intros A [|x l] H; [congruence|simpl; lia]. Qed.

Lemma inline_code_match : forall b content post,
  content <> [] -> forallb (not_ch "`") content = true ->
  match_at _INLINE_CODE b ("`"%char :: content ++ "`"%char :: post)
  = Some {| m_groups := [(1, content)]; m_len := S (length (content ++ ["`"%char])) |}.
Proof.
  intros b content post Hne Hc.
  unfold match_at, _INLINE_CODE, many1. cbn [rmatch]. rewrite Ascii.eqb_refl.
  rewrite (rep_greedy_longest (not_ch "`") 1 None content ("`"%char :: post) 0 _ _ _
             ([(1, content)], post)).
  - f_equal. f_equal. cbn [length]. rewrite !length_app. cbn [length]. lia.
  - exact Hc.
  - discriminate.
  - apply nonempty_length. exact Hne.
  - left. apply not_ch_refl.
  - cbn [rmatch]. rewrite Ascii.eqb_refl, firstn_app_sub. reflexivity.
Qed.

(** [s.replace(c, new)] for a one-character [c]. *)
Lemma replace_char : forall c new s,
  str_replace [c] new s = flat_map (fun x => if Ascii.eqb x c then new else [x]) s.
Proof.
  intros c new s. unfold str_replace. induction s as [|x s IH]; [reflexivity|].
  cbn [replace_aux flat_map startswith length Nat.sub].
  rewrite Ascii.eqb_sym. destruct (Ascii.eqb x c); simpl; rewrite IH; reflexivity.
Qed.

Lemma flat_map_flat_map : forall (A B C : Type) (f : A -> list B) (g : B -> list C) l,
  flat_map g (flat_map f l) = flat_map (fun x => flat_map g (f x)) l.
Proof.
  intros. induction l; simpl; auto. rewrite flat_map_app. f_equal. auto.
Qed.

Lemma contains_char : forall c s,
  contains [c] s = false -> forallb (not_ch c) s = true.
Proof.
  intros c. induction s as [|x s IH]; simpl; auto.
  intros H. apply orb_false_iff in H as [H1 H2].
  rewrite andb_true_r in H1. unfold not_ch. rewrite Ascii.eqb_sym, H1. simpl. auto.
Qed.

Lemma flat_map_id : forall (f : ascii -> str) s,
  (forall x, In x s -> f x = [x]) -> flat_map f s = s.
Proof.
  intros f. induction s as [|x s IH]; intros H; simpl; auto.
  rewrite H by (left; reflexivity). simpl. f_equal. apply IH. intros. apply H. right. auto.
Qed.

(** The content stored for a code span. *)
Lemma escaped_content : forall content,
  (if contains (py "{") content || contains (py "}") content
   then str_replace (py "}") (py "&#125;") (str_replace (py "{") (py "&#123;") content)
   else content)
  = escape_braces content.
Proof.
  intros content.
  assert (E : str_replace (py "}") (py "&#125;") (str_replace (py "{") (py "&#123;") content)
              = escape_braces content).
  { change (py "}") with ["}"%char]. change (py "{") with ["{"%char].
    rewrite !replace_char, flat_map_flat_map. unfold escape_braces.
    apply flat_map_ext. intros x.
    destruct (Ascii.eqb x "{") eqn:E1; [reflexivity|].
    simpl. destruct (Ascii.eqb x "}"); simpl; auto. }
  destruct (contains (py "{") content || contains (py "}") content) eqn:C; [exact E|].
  apply orb_false_iff in C as [C1 C2].
  apply contains_char in C1, C2. unfold escape_braces. symmetry. apply flat_map_id.
  intros x Hx. rewrite forallb_forall in C1, C2.
  specialize (C1 x Hx). specialize (C2 x Hx). unfold not_ch in C1, C2.
  apply negb_true_iff in C1, C2. rewrite C1, C2. reflexivity.
Qed.

Lemma escape_no_braces : forall content,
  forallb (fun c => negb (Ascii.eqb c "{") && negb (Ascii.eqb c "}")) content = true ->
  escape_braces content = content.
Proof.
  intros content H. apply flat_map_id. intros x Hx.
  rewrite forallb_forall in H. specialize (H x Hx).
  apply andb_true_iff in H as [H1 H2]. apply negb_true_iff in H1, H2.
  rewrite H1, H2. reflexivity.
Qed.

Lemma extract_inline_code_span : forall pre content post inline_map,
  forallb (not_ch "`") pre = true ->
  content <> [] -> forallb (not_ch "`") content = true ->
  forallb (not_ch "`") post = true ->
  let key := _ph _PH_IC (length inline_map) in
  _extract_inline_code (pre ++ "`"%char :: content ++ "`"%char :: post) inline_map
  = Some (pre ++ key ++ post,
          dict_set key (py "{{" ++ escape_braces content ++ py "}}") inline_map).
Proof.
  intros pre content post inline_map Hpre Hne Hc Hpost key.
  unfold _extract_inline_code, re_sub_st.
  rewrite (sub_loop_free_prefix _ (ch "`")); auto using inline_code_head.
  replace ("`"%char :: content ++ "`"%char :: post)
    with ("`"%char :: (content ++ ["`"%char]) ++ post)
    by (rewrite <- app_assoc; reflexivity).
  erewrite sub_loop_match.
  2:{ rewrite <- app_assoc. apply inline_code_match; auto. }
  2:{ reflexivity. }
  unfold replacer at 1. unfold group_str, group. cbn [m_groups lookup Nat.eqb bind ret].
  rewrite escaped_content.
  rewrite (sub_loop_free _ (ch "`")); auto using inline_code_head.
Qed.

(** ** Pass 4: links and images *)

Lemma link_rmatch : forall b g text url post,
  forallb (not_ch "]") text = true ->
  url <> [] -> forallb (not_ch ")") url = true ->
  rmatch (Grp 1 (many (not_ch "]")) +++ Lit "]" +++ Lit "("
            +++ Grp 2 (many1 (not_ch ")")) +++ Lit ")")
    b (text ++ "]"%char :: "("%char :: url ++ ")"%char :: post) g
    (fun _ t g' => Some (g', t))
  = Some ((2, url) :: (1, text) :: g, post).
Proof.
  intros b g text url post Ht Hne Hu. unfold many, many1. cbn [rmatch].
  apply rep_greedy_longest.
  - exact Ht.
  - discriminate.
  - lia.
  - left. apply not_ch_refl.
  - cbn [rmatch]. rewrite !Ascii.eqb_refl.
    apply rep_greedy_longest.
    + exact Hu.
    + discriminate.
    + apply nonempty_length. exact Hne.
    + left. apply not_ch_refl.
    + cbn [rmatch]. rewrite Ascii.eqb_refl. rewrite !firstn_app_sub. reflexivity.
Qed.

Lemma link_match : forall b text url post,
  forallb (not_ch "]") text = true ->
  url <> [] -> forallb (not_ch ")") url = true ->
  match_at _LINK b ("["%char :: (text ++ "]"%char :: "("%char :: url ++ [")"%char]) ++ post)
  = Some {| m_groups := [(2, url); (1, text)];
            m_len := S (length (text ++ "]"%char :: "("%char :: url ++ [")"%char])) |}.
Proof.
  intros b text url post Ht Hne Hu.
  unfold match_at, _LINK. cbn [rmatch]. rewrite Ascii.eqb_refl.
  replace ((text ++ "]"%char :: "("%char :: url ++ [")"%char]) ++ post)
    with (text ++ "]"%char :: "("%char :: url ++ ")"%char :: post)
    by (rewrite <- !app_assoc; simpl; rewrite <- app_assoc; reflexivity).
  pose proof (link_rmatch ("["%char :: b) [] text url post Ht Hne Hu) as R.
  cbn [rmatch] in R. rewrite R.
  f_equal. f_equal. cbn [length]. rewrite !length_app. cbn [length].
  rewrite !length_app. cbn [length]. lia.
Qed.

Lemma image_match : forall b alt url post,
  forallb (not_ch "]") alt = true ->
  url <> [] -> forallb (not_ch ")") url = true ->
  match_at _IMAGE b
    ("!"%char :: ("["%char :: alt ++ "]"%char :: "("%char :: url ++ [")"%char]) ++ post)
  = Some {| m_groups := [(2, url); (1, alt)];
            m_len := S (length ("["%char :: alt ++ "]"%char :: "("%char :: url ++ [")"%char])) |}.
Proof.
  intros b alt url post Ht Hne Hu.
  unfold match_at, _IMAGE. cbn [rmatch app]. rewrite !Ascii.eqb_refl.
  replace ((alt ++ "]"%char :: "("%char :: url ++ [")"%char]) ++ post)
    with (alt ++ "]"%char :: "("%char :: url ++ ")"%char :: post)
    by (rewrite <- !app_assoc; simpl; rewrite <- app_assoc; reflexivity).
  pose proof (link_rmatch ("["%char :: "!"%char :: b) [] alt url post Ht Hne Hu) as R.
  cbn [rmatch] in R. rewrite R.
  f_equal. f_equal. cbn [length]. rewrite !length_app. cbn [length].
  rewrite !length_app. cbn [length]. lia.
Qed.

Lemma digit_not_special : forall c, is_digit c = true -> negb (special c) = true.
Proof. intros c. destruct c as [[] [] [] [] [] [] [] []]; vm_compute; congruence. Qed.

Lemma key_plain : forall tag n, is_tag tag -> plain_text (_ph tag n) = true.
Proof.
  intros tag n H. unfold _ph, plain_text. rewrite !forallb_app.
  replace (forallb (fun c => negb (special c)) tag) with true
    by (destruct H as [-> | [-> | [-> | ->]]]; reflexivity).
  rewrite (forallb_impl _ is_digit _ _ digit_not_special (str_of_nat_digits n)).
  reflexivity.
Qed.

Lemma not_ch_of_plain : forall c s,
  special c = true -> plain_text s = true -> forallb (fun x => negb (ch c x)) s = true.
Proof.
  intros c s Hc. unfold plain_text. apply forallb_impl. intros x Hx.
  unfold ch. destruct (Ascii.eqb x c) eqn:E; auto.
  apply Ascii.eqb_eq in E. subst. rewrite Hc in Hx. discriminate.
Qed.

Lemma forallb_not_ch : forall c s,
  forallb (not_ch c) s = forallb (fun x => negb (ch c x)) s.
Proof. reflexivity. Qed.

Lemma extract_links_image : forall pre alt url post link_map,
  forallb (not_ch "!") pre = true -> forallb (not_ch "[") pre = true ->
  forallb (not_ch "]") alt = true ->
  url <> [] -> forallb (not_ch ")") url = true ->
  forallb (not_ch "!") post = true -> forallb (not_ch "[") post = true ->
  let key := _ph _PH_LK (length link_map) in
  _extract_links (pre ++ py "![" ++ alt ++ py "](" ++ url ++ py ")" ++ post) link_map
  = Some (pre ++ key ++ post, dict_set key (py "!" ++ url ++ py "!") link_map).
Proof.
  intros pre alt url post link_map P1 P2 Ha Hne Hu Q1 Q2 key.
  unfold _extract_links, re_sub_st.
  rewrite (sub_loop_free_prefix _ (ch "!")); auto using image_head.
  replace (py "![" ++ alt ++ py "](" ++ url ++ py ")" ++ post)
    with ("!"%char :: ("["%char :: alt ++ "]"%char :: "("%char :: url ++ [")"%char]) ++ post).
  2:{ simpl. rewrite <- !app_assoc. simpl. rewrite <- !app_assoc. reflexivity. }
  erewrite sub_loop_match; [|apply image_match; auto|reflexivity].
  unfold img_replacer at 1. unfold group. cbn [m_groups lookup Nat.eqb bind ret fmt].
  rewrite (sub_loop_free _ (ch "!")); auto using image_head.
  cbn [bind ret].
  assert (F : forallb (fun c => negb (ch "[" c)) (pre ++ key ++ post) = true).
  { rewrite !forallb_app. rewrite <- !forallb_not_ch. rewrite P2, Q2.
    rewrite (not_ch_of_plain "["%char); auto. apply key_plain. right. right. left. reflexivity. }
  rewrite (sub_loop_free _ (ch "[")); auto using link_head.
Qed.

Lemma extract_links_link : forall pre text url post link_map,
  forallb (not_ch "!") (pre ++ text ++ url ++ post) = true ->
  forallb (not_ch "[") pre = true ->
  forallb (not_ch "]") text = true ->
  url <> [] -> forallb (not_ch ")") url = true ->
  forallb (not_ch "[") post = true ->
  let key := _ph _PH_LK (length link_map) in
  _extract_links (pre ++ py "[" ++ text ++ py "](" ++ url ++ py ")" ++ post) link_map
  = Some (pre ++ key ++ post,
          dict_set key (py "[" ++ text ++ py "|" ++ url ++ py "]") link_map).
Proof.
  intros pre text url post link_map P1 P2 Ht Hne Hu Q2 key.
  unfold _extract_links, re_sub_st.
  rewrite (sub_loop_free _ (ch "!")); auto using image_head.
  2:{ rewrite !forallb_app in *. apply andb_true_iff in P1 as [A P1].
      apply andb_true_iff in P1 as [B P1]. apply andb_true_iff in P1 as [C D].
      rewrite <- !forallb_not_ch. rewrite A, B, C, D. reflexivity. }
  cbn [bind ret].
  rewrite (sub_loop_free_prefix _ (ch "[")); auto using link_head.
  replace (py "[" ++ text ++ py "](" ++ url ++ py ")" ++ post)
    with ("["%char :: (text ++ "]"%char :: "("%char :: url ++ [")"%char]) ++ post).
  2:{ simpl. rewrite <- !app_assoc. simpl. rewrite <- !app_assoc. reflexivity. }
  erewrite sub_loop_match; [|apply link_match; auto|reflexivity].
  unfold link_replacer at 1. unfold group. cbn [m_groups lookup Nat.eqb bind ret fmt].
  rewrite (sub_loop_free _ (ch "[")); auto using link_head.
Qed.

(** ** Pass 6: restoring *)

Lemma str_eqb_eq : forall a b, str_eqb a b = true <-> a = b.
Proof.
  induction a as [|x a IH]; intros [|y b]; simpl; split; intros H; try congruence; auto.
  - apply andb_true_iff in H as [H1 H2]. apply Ascii.eqb_eq in H1. apply IH in H2. congruence.
  - inversion H; subst. rewrite Ascii.eqb_refl. simpl. apply IH. reflexivity.
Qed.

Lemma dict_set_fresh : forall k v m,
  (forall kv, In kv m -> fst kv <> k) -> dict_set k v m = m ++ [(k, v)].
Proof.
  intros k v. induction m as [|[k' v'] m IH]; intros H; simpl; auto.
  destruct (str_eqb k' k) eqn:E.
  - apply str_eqb_eq in E. exfalso. apply (H (k', v')); auto. left. reflexivity.
  - rewrite IH; auto. intros kv Hin. apply H. right. exact Hin.
Qed.

Lemma ph_inj : forall tag tag' n n', is_tag tag -> is_tag tag' ->
  _ph tag n = _ph tag' n' -> tag = tag' /\ n = n'.
Proof.
  intros tag tag' n n' H H' E. rewrite !ph_shape in E by auto.
  inversion E. apply app_inj_tail in H1 as [H1 _]. apply ph_body_inj; auto.
Qed.

Lemma keys_of_In : forall tag m kv,
  keys_of tag m -> In kv m -> exists j, j < length m /\ fst kv = _ph tag j.
Proof.
  intros tag m kv K Hin. unfold keys_of in K.
  apply (in_map fst) in Hin. rewrite K in Hin. apply in_map_iff in Hin as (j & E & Hj).
  apply in_seq in Hj. exists j. split; [lia|auto].
Qed.

Lemma keys_of_snoc : forall tag m v,
  keys_of tag m -> keys_of tag (m ++ [(_ph tag (length m), v)]).
Proof.
  intros tag m v K. unfold keys_of in *. rewrite map_app, length_app. simpl.
  rewrite Nat.add_1_r, seq_S, map_app, K. reflexivity.
Qed.

Lemma dict_set_new : forall tag m v,
  is_tag tag -> keys_of tag m ->
  dict_set (_ph tag (length m)) v m = m ++ [(_ph tag (length m), v)].
Proof.
  intros tag m v T K. apply dict_set_fresh. intros kv Hin E.
  destruct (keys_of_In _ _ _ K Hin) as (j & Hj & Ej). rewrite Ej in E.
  apply ph_inj in E as [_ E]; auto. lia.
Qed.

Lemma restore_app : forall s m1 m2,
  _restore_placeholders s (m1 ++ m2)
  = _restore_placeholders (_restore_placeholders s m1) m2.
Proof. intros. unfold _restore_placeholders. apply fold_left_app. Qed.

(** Keys that are not the key of the text are not found in it. *)
Lemma restore_other : forall tag tag' n m pre post,
  is_tag tag -> is_tag tag' -> keys_of tag m ->
  tag <> tag' \/ length m <= n ->
  nul_free pre = true -> nul_free post = true ->
  _restore_placeholders (pre ++ _ph tag' n ++ post) m = pre ++ _ph tag' n ++ post.
Proof.
  intros tag tag' n m pre post T T' K Hd Hpre Hpost.
  assert (H : forall kv, In kv m -> exists j, fst kv = _ph tag j /\ ph_body tag j <> ph_body tag' n).
  { intros kv Hin. destruct (keys_of_In _ _ _ K Hin) as (j & Hj & Ej).
    exists j. split; auto. intros E. apply ph_body_inj in E as [E1 E2]; auto.
    destruct Hd; [congruence|lia]. }
  clear K Hd. unfold _restore_placeholders.
  induction m as [|[k v] m IH]; simpl; auto.
  destruct (H (k, v) (or_introl eq_refl)) as (j & Ej & Hne). simpl in Ej. subst k.
  rewrite (ph_shape tag j T), (ph_shape tag' n T').
  rewrite str_replace_other_key; auto using ph_body_nul_free.
  rewrite <- (ph_shape tag' n T'). apply IH. intros kv Hin. apply H. right. exact Hin.
Qed.

Lemma restore_nul_free : forall tag m s,
  is_tag tag -> keys_of tag m -> nul_free s = true -> _restore_placeholders s m = s.
Proof.
  intros tag m s T K Hs.
  assert (H : forall kv, In kv m -> exists j, fst kv = _ph tag j).
  { intros kv Hin. destruct (keys_of_In _ _ _ K Hin) as (j & _ & Ej). eauto. }
  clear K. unfold _restore_placeholders.
  induction m as [|[k v] m IH]; simpl; auto.
  destruct (H (k, v) (or_introl eq_refl)) as (j & Ej). simpl in Ej. subst k.
  rewrite (ph_shape tag j T). rewrite str_replace_nul_free; auto using ph_body_nul_free.
  apply IH. intros kv Hin. apply H. right. exact Hin.
Qed.

(** The last key of a map is replaced by its value. *)
Lemma restore_last : forall tag m v pre post,
  is_tag tag -> keys_of tag m ->
  nul_free pre = true -> nul_free post = true ->
  _restore_placeholders (pre ++ _ph tag (length m) ++ post) (m ++ [(_ph tag (length m), v)])
  = pre ++ v ++ post.
Proof.
  intros tag m v pre post T K Hpre Hpost.
  rewrite restore_app. rewrite (restore_other tag tag); auto.
  unfold _restore_placeholders. simpl. rewrite (ph_shape tag _ T).
  apply str_replace_key; auto using ph_body_nul_free.
Qed.

Lemma tag_IC : is_tag _PH_IC. Proof. right. left. reflexivity. Qed.
Lemma tag_LK : is_tag _PH_LK. Proof. right. right. left. reflexivity. Qed.
Lemma tag_CB : is_tag _PH_CB. Proof. left. reflexivity. Qed.

Lemma plain_not_ch : forall c s,
  special c = true -> plain_text s = true -> forallb (not_ch c) s = true.
Proof. intros. rewrite forallb_not_ch. apply not_ch_of_plain; auto. Qed.

(** A text without special characters holds no link and no image. *)
Lemma extract_links_plain : forall s link_map,
  plain_text s = true -> _extract_links s link_map = Some (s, link_map).
Proof.
  intros s link_map H. unfold _extract_links, re_sub_st.
  rewrite (sub_loop_free _ (ch "!")); auto using image_head.
  2:{ apply not_ch_of_plain; auto. }
  cbn [bind ret].
  rewrite (sub_loop_free _ (ch "[")); auto using link_head.
  apply not_ch_of_plain; auto.
Qed.

Lemma extract_inline_code_plain : forall s inline_map,
  forallb (not_ch "`") s = true -> _extract_inline_code s inline_map = Some (s, inline_map).
Proof.
  intros s inline_map H. unfold _extract_inline_code, re_sub_st.
  rewrite (sub_loop_free _ (ch "`")); auto using inline_code_head.
Qed.

Lemma formatting_plain_text : forall s,
  plain_text s = true -> _process_inline_formatting s = Some s.
Proof.
  intros s H. apply formatting_plain.
  - revert H. unfold plain_text. apply forallb_impl. intros x Hx.
    apply negb_true_iff in Hx. apply special_false in Hx as (_ & _ & _ & Hx & _).
    rewrite Hx. reflexivity.
  - revert H. unfold plain_text. apply forallb_impl. intros x Hx.
    apply negb_true_iff in Hx. apply special_false in Hx as (_ & _ & _ & _ & Hx).
    rewrite Hx. reflexivity.
Qed.

(** The whole inline processing of a line with one code span. *)
Lemma inline_line_code_span : forall pre content post inline_map link_map,
  plain_text pre = true -> nul_free pre = true ->
  content <> [] -> forallb (not_ch "`") content = true ->
  plain_text post = true -> nul_free post = true ->
  keys_of _PH_IC inline_map -> keys_of _PH_LK link_map ->
  let value := py "{{" ++ escape_braces content ++ py "}}" in
  inline_line (pre ++ "`"%char :: content ++ "`"%char :: post) inline_map link_map
  = Some (pre ++ value ++ post,
          inline_map ++ [(_ph _PH_IC (length inline_map), value)], link_map).
Proof.
  intros pre content post inline_map link_map P1 P2 Hne Hc Q1 Q2 KI KL value.
  unfold inline_line.
  rewrite extract_inline_code_span; auto using plain_not_ch.
  cbn [bind ret].
  assert (PL : plain_text (pre ++ _ph _PH_IC (length inline_map) ++ post) = true).
  { rewrite !plain_text_app, P1, Q1, (key_plain _ _ tag_IC). reflexivity. }
  rewrite extract_links_plain by exact PL. cbn [bind ret].
  rewrite formatting_plain_text by exact PL. cbn [bind ret].
  rewrite (restore_other _PH_LK _PH_IC); auto using tag_IC, tag_LK.
  2:{ left. discriminate. }
  rewrite dict_set_new; auto using tag_IC.
  rewrite restore_last; auto using tag_IC.
Qed.

(** The whole inline processing of a line with one link. *)
Lemma inline_line_link : forall pre text url post inline_map link_map,
  plain_text pre = true -> nul_free pre = true ->
  forallb (fun c => negb (one_of (py "`![]") c)) text = true -> nul_free text = true ->
  url <> [] ->
  forallb (fun c => negb (one_of (py "`![)") c)) url = true -> nul_free url = true ->
  plain_text post = true -> nul_free post = true ->
  keys_of _PH_IC inline_map -> keys_of _PH_LK link_map ->
  let value := py "[" ++ text ++ py "|" ++ url ++ py "]" in
  inline_line (pre ++ py "[" ++ text ++ py "](" ++ url ++ py ")" ++ post)
    inline_map link_map
  = Some (pre ++ value ++ post, inline_map,
          link_map ++ [(_ph _PH_LK (length link_map), value)]).
Proof.
  intros pre text url post inline_map link_map P1 P2 T1 T2 Hne U1 U2 Q1 Q2 KI KL value.
  assert (TT : forall c, one_of (py "`![]") c = false ->
             not_ch "`" c = true /\ not_ch "!" c = true /\ not_ch "]" c = true).
  { intros c. destruct c as [[] [] [] [] [] [] [] []]; vm_compute; intros; repeat split; congruence. }
  assert (UU : forall c, one_of (py "`![)") c = false ->
             not_ch "`" c = true /\ not_ch "!" c = true /\ not_ch ")" c = true).
  { intros c. destruct c as [[] [] [] [] [] [] [] []]; vm_compute; intros; repeat split; congruence. }
  assert (T3 : forall p, (forall c, one_of (py "`![]") c = false -> p c = true) -> forallb p text = true).
  { intros p Hp. revert T1. apply forallb_impl. intros x Hx. apply negb_true_iff in Hx. auto. }
  assert (U3 : forall p, (forall c, one_of (py "`![)") c = false -> p c = true) -> forallb p url = true).
  { intros p Hp. revert U1. apply forallb_impl. intros x Hx. apply negb_true_iff in Hx. auto. }
  unfold inline_line.
  rewrite extract_inline_code_plain.
  2:{ rewrite !forallb_app. rewrite (plain_not_ch "`"%char pre), (plain_not_ch "`"%char post) by auto.
      rewrite (T3 (not_ch "`")) by (intros c Hc; apply (TT c Hc)).
      rewrite (U3 (not_ch "`")) by (intros c Hc; apply (UU c Hc)). reflexivity. }
  cbn [bind ret].
  rewrite extract_links_link; auto using plain_not_ch.
  2:{ rewrite !forallb_app. rewrite (plain_not_ch "!"%char pre), (plain_not_ch "!"%char post) by auto.
      rewrite (T3 (not_ch "!")) by (intros c Hc; apply (TT c Hc)).
      rewrite (U3 (not_ch "!")) by (intros c Hc; apply (UU c Hc)). reflexivity. }
  2:{ apply T3. intros c Hc; apply (TT c Hc). }
  2:{ apply U3. intros c Hc; apply (UU c Hc). }
  cbn [bind ret].
  assert (PL : plain_text (pre ++ _ph _PH_LK (length link_map) ++ post) = true).
  { rewrite !plain_text_app, P1, Q1, (key_plain _ _ tag_LK). reflexivity. }
  rewrite formatting_plain_text by exact PL. cbn [bind ret].
  rewrite dict_set_new; auto using tag_LK.
  rewrite restore_last; auto using tag_LK.
  rewrite (restore_nul_free _PH_IC); auto using tag_IC.
  unfold value. rewrite !nul_free_app, P2, T2, U2, Q2. reflexivity.
Qed.

(** The whole inline processing of a line with one image. *)
Lemma inline_line_image : forall pre alt url post inline_map link_map,
  plain_text pre = true -> nul_free pre = true ->
  forallb (fun c => negb (one_of (py "`![]") c)) alt = true ->
  url <> [] ->
  forallb (fun c => negb (one_of (py "`![)") c)) url = true -> nul_free url = true ->
  plain_text post = true -> nul_free post = true ->
  keys_of _PH_IC inline_map -> keys_of _PH_LK link_map ->
  let value := py "!" ++ url ++ py "!" in
  inline_line (pre ++ py "![" ++ alt ++ py "](" ++ url ++ py ")" ++ post)
    inline_map link_map
  = Some (pre ++ value ++ post, inline_map,
          link_map ++ [(_ph _PH_LK (length link_map), value)]).
Proof.
  intros pre alt url post inline_map link_map P1 P2 T1 Hne U1 U2 Q1 Q2 KI KL value.
  assert (TT : forall c, one_of (py "`![]") c = false ->
             not_ch "`" c = true /\ not_ch "!" c = true /\ not_ch "]" c = true).
  { intros c. destruct c as [[] [] [] [] [] [] [] []]; vm_compute; intros; repeat split; congruence. }
  assert (UU : forall c, one_of (py "`![)") c = false ->
             not_ch "`" c = true /\ not_ch "!" c = true /\ not_ch ")" c = true).
  { intros c. destruct c as [[] [] [] [] [] [] [] []]; vm_compute; intros; repeat split; congruence. }
  assert (T3 : forall p, (forall c, one_of (py "`![]") c = false -> p c = true) -> forallb p alt = true).
  { intros p Hp. revert T1. apply forallb_impl. intros x Hx. apply negb_true_iff in Hx. auto. }
  assert (U3 : forall p, (forall c, one_of (py "`![)") c = false -> p c = true) -> forallb p url = true).
  { intros p Hp. revert U1. apply forallb_impl. intros x Hx. apply negb_true_iff in Hx. auto. }
  unfold inline_line.
  rewrite extract_inline_code_plain.
  2:{ rewrite !forallb_app. rewrite (plain_not_ch "`"%char pre), (plain_not_ch "`"%char post) by auto.
      rewrite (T3 (not_ch "`")) by (intros c Hc; apply (TT c Hc)).
      rewrite (U3 (not_ch "`")) by (intros c Hc; apply (UU c Hc)). reflexivity. }
  cbn [bind ret].
  rewrite extract_links_image; auto using plain_not_ch.
  2:{ apply T3. intros c Hc; apply (TT c Hc). }
  2:{ apply U3. intros c Hc; apply (UU c Hc). }
  cbn [bind ret].
  assert (PL : plain_text (pre ++ _ph _PH_LK (length link_map) ++ post) = true).
  { rewrite !plain_text_app, P1, Q1, (key_plain _ _ tag_LK). reflexivity. }
  rewrite formatting_plain_text by exact PL. cbn [bind ret].
  rewrite dict_set_new; auto using tag_LK.
  rewrite restore_last; auto using tag_LK.
  rewrite (restore_nul_free _PH_IC); auto using tag_IC.
  unfold value. rewrite !nul_free_app, P2, U2, Q2. reflexivity.
Qed.

(* ------------------------------------------------------------------ *)
(** * Lines with several code spans, images and links *)
(* ------------------------------------------------------------------ *)

(** ** A pass over the pieces of a line *)

Lemma line_of_cons : forall p ps, line_of (p :: ps) = markdown p ++ line_of ps.
Proof. reflexivity. Qed.

Section Pass.
Variable r : regex.
Variable repl : match_obj -> ph_state -> M (str * ph_state).
Variable sel : piece -> bool.
Variable tag : str.
Hypothesis Htag : is_tag tag.
Hypothesis Htext : forall t, sel (Text t) = false.
Hypothesis Hinv : forall b t m, match_at r b t = Some m -> begins sel t.
Hypothesis Hhit : forall p b t n d, sel p = true -> well_formed p ->
  exists c u mo, markdown p = c :: u
    /\ match_at r b (c :: u ++ t) = Some mo /\ m_len mo = S (length u)
    /\ repl mo (n, d) = Some (_ph tag n, (S n, dict_set (_ph tag n) (wiki p) d)).

Lemma begins_match : forall b t, begins sel t -> match_at r b t <> None.
Proof.
  intros b t (p & rest & Hs & Hw & ->).
  destruct (Hhit p b rest 0 [] Hs Hw) as (c & u & mo & E & Hm & _).
  rewrite E. simpl app. rewrite Hm. discriminate.
Qed.

Lemma not_begins : forall b t, ~ begins sel t -> match_at r b t = None.
Proof.
  intros b t H. destruct (match_at r b t) eqn:E; auto.
  exfalso. apply H. eapply Hinv. exact E.
Qed.

Lemma begins_nil : ~ begins sel [].
Proof.
  intros (p & rest & Hs & Hw & E).
  destruct (Hhit p [] rest 0 [] Hs Hw) as (c & u & mo & E' & _).
  rewrite E' in E. discriminate.
Qed.

(** The pass replaces the selected pieces by keys, from left to right,
    and stores their values in this order. *)
Lemma pass_pieces : forall ps b d,
  Forall (fun p => sel p = true -> well_formed p) ps -> quiet sel ps ->
  keys_of tag d ->
  sub_loop r repl b (line_of ps) 0 (length d, d)
  = Some (line_of (number sel tag (length d) ps),
          (length d + count sel ps, d ++ stored sel tag (length d) ps)).
Proof.
  induction ps as [|p ps IH]; intros b d W Q K.
  - cbn [line_of flat_map number stored]. unfold count. cbn [filter length].
    cbn [sub_loop]. rewrite (not_begins b [] begins_nil).
    rewrite Nat.add_0_r, app_nil_r. reflexivity.
  - rewrite line_of_cons. inversion W as [|? ? W1 W2]; subst.
    destruct Q as [Q1 Q2]. cbn [number stored]. unfold count. cbn [filter].
    destruct (sel p) eqn:Hs.
    + destruct (Hhit p b (line_of ps) (length d) d Hs (W1 eq_refl))
        as (c & u & mo & E & Hm & Hl & Hr).
      rewrite E. simpl app. rewrite (sub_loop_match _ _ _ _ _ _ _ _ Hm Hl).
      rewrite Hr. cbn [bind].
      rewrite (dict_set_new tag d (wiki p) Htag K).
      pose proof (IH (rev u ++ c :: b) (d ++ [(_ph tag (length d), wiki p)]) W2 Q2
                    (keys_of_snoc tag d (wiki p) K)) as R.
      rewrite length_app in R. cbn [length] in R. rewrite Nat.add_1_r in R.
      rewrite R. cbn [bind ret]. rewrite line_of_cons. cbn [markdown length].
      fold (count sel ps). rewrite <- app_assoc. cbn [app].
      rewrite Nat.add_succ_r. reflexivity.
    + rewrite sub_loop_prefix.
      * rewrite (IH _ d W2 Q2 K). cbn [bind ret]. rewrite line_of_cons. reflexivity.
      * intros p1 p2 E Hne. apply not_begins. apply (Q1 eq_refl p1 p2 E Hne).
Qed.

(** Every line is made of texts and selected elements, with no
    selected element that begins inside a text. *)
Lemma pieces_exist : forall s,
  exists ps, s = line_of ps /\ elements sel ps /\ quiet sel ps.
Proof.
  intros s. remember (length s) as n eqn:Hn. revert s Hn.
  induction n as [n IH] using lt_wf_ind. intros s Hn.
  destruct (match_at r [] s) as [m|] eqn:E.
  - destruct (Hinv _ _ _ E) as (p & rest & Hs & Hw & ->).
    destruct (Hhit p [] rest 0 [] Hs Hw) as (c & u & mo & E' & _).
    destruct (IH (length rest)) with (s := rest) as (ps & -> & El & Q).
    { subst n. rewrite length_app, E'. simpl. lia. }
    { reflexivity. }
    exists (p :: ps). split; [reflexivity|]. split.
    + constructor; [rewrite Hs; exact Hw|exact El].
    + split; [congruence|exact Q].
  - destruct s as [|c s].
    + exists []. split; [reflexivity|]. split; [constructor|exact I].
    + destruct (IH (length s)) with (s := s) as (ps & -> & El & Q).
      { subst n. simpl. lia. }
      { reflexivity. }
      exists (Text [c] :: ps). split; [reflexivity|]. split.
      * constructor; [rewrite Htext; eauto|exact El].
      * split; [|exact Q]. intros _ p1 p2 E2 Hne B.
        destruct p1 as [|x p1].
        -- simpl in E2. subst p2. apply (begins_match [] _ B). exact E.
        -- simpl in E2. inversion E2 as [[E3 E4]].
           destruct p1; destruct p2; simpl in E4; congruence.
Qed.
End Pass.

(** ** The three patterns *)

Lemma code_inv : forall b t m,
  match_at _INLINE_CODE b t = Some m -> begins is_code t.
Proof.
  intros b t m H. apply match_at_sound in H as (b' & t' & g' & R & _).
  unfold _INLINE_CODE, many1 in R. cbn [reach] in R.
  destruct R as (b1 & t1 & g1 & (-> & _ & _) & b2 & t2 & g2 & (g3 & R & _) & (-> & _ & _)).
  destruct R as (u & -> & Hp & Hl & _).
  exists (Code u), t'. split; [reflexivity|]. split.
  - split; [|exact Hp]. intros ->. simpl in Hl. lia.
  - cbn [markdown]. simpl. rewrite <- app_assoc. reflexivity.
Qed.

Lemma bracket_text : forall b t g b' t' g',
  reach (Lit "[" +++ Grp 1 (many (not_ch "]")) +++ Lit "]" +++ Lit "("
           +++ Grp 2 (many1 (not_ch ")")) +++ Lit ")") b t g b' t' g' ->
  exists text url,
    well_formed (Link text url) /\ t = markdown (Link text url) ++ t'.
Proof.
  intros b t g b' t' g' R. unfold many, many1 in R. cbn [reach] in R.
  destruct R as (b1 & t1 & g1 & (-> & _ & _) & b2 & t2 & g2 & (g3 & R1 & _)
                 & b3 & t3 & g4 & (-> & _ & _) & b4 & t4 & g5 & (-> & _ & _)
                 & b5 & t5 & g6 & (g7 & R2 & _) & (-> & _ & _)).
  destruct R1 as (text & -> & Ht & _). destruct R2 as (url & -> & Hu & Hl & _).
  exists text, url. split.
  - split; [exact Ht|]. split; [|exact Hu]. intros ->. simpl in Hl. lia.
  - cbn [markdown]. simpl. repeat (rewrite <- app_assoc; cbn [app]). reflexivity.
Qed.

Lemma link_inv : forall b t m,
  match_at _LINK b t = Some m -> begins is_link t.
Proof.
  intros b t m H. apply match_at_sound in H as (b' & t' & g' & R & _).
  apply bracket_text in R as (text & url & W & ->).
  exists (Link text url), t'. auto.
Qed.

Lemma image_inv : forall b t m,
  match_at _IMAGE b t = Some m -> begins is_image t.
Proof.
  intros b t m H. apply match_at_sound in H as (b' & t' & g' & R & _).
  unfold _IMAGE in R. cbn [reach] in R.
  destruct R as (b1 & t1 & g1 & (-> & _ & _) & R).
  apply bracket_text in R as (text & url & W & ->).
  exists (Image text url), t'. split; [reflexivity|]. split; [exact W|reflexivity].
Qed.

Lemma code_hit : forall p b t n d, is_code p = true -> well_formed p ->
  exists c u mo, markdown p = c :: u
    /\ match_at _INLINE_CODE b (c :: u ++ t) = Some mo /\ m_len mo = S (length u)
    /\ replacer mo (n, d) = Some (_ph _PH_IC n, (S n, dict_set (_ph _PH_IC n) (wiki p) d)).
Proof.
  intros p b t n d Hs W. destruct p as [x|content|x y|x y|x y]; try discriminate. destruct W as [Hne Hc].
  exists "`"%char, (content ++ ["`"%char]),
    {| m_groups := [(1, content)]; m_len := S (length (content ++ ["`"%char])) |}.
  split; [reflexivity|]. split; [|split; [reflexivity|]].
  - rewrite <- app_assoc. apply inline_code_match; assumption.
  - unfold replacer, group_str, group. cbn [m_groups lookup Nat.eqb bind ret].
    rewrite escaped_content. reflexivity.
Qed.

Lemma image_hit : forall p b t n d, is_image p = true -> well_formed p ->
  exists c u mo, markdown p = c :: u
    /\ match_at _IMAGE b (c :: u ++ t) = Some mo /\ m_len mo = S (length u)
    /\ img_replacer mo (n, d) = Some (_ph _PH_LK n, (S n, dict_set (_ph _PH_LK n) (wiki p) d)).
Proof.
  intros p b t n d Hs W. destruct p as [x|x|alt url|x y|x y]; try discriminate. destruct W as (Ha & Hne & Hu).
  exists "!"%char, ("["%char :: alt ++ "]"%char :: "("%char :: url ++ [")"%char]),
    {| m_groups := [(2, url); (1, alt)];
       m_len := S (length ("["%char :: alt ++ "]"%char :: "("%char :: url ++ [")"%char])) |}.
  split; [|split; [|split; [reflexivity|]]].
  - cbn [markdown]. simpl. repeat (rewrite <- app_assoc; cbn [app]). reflexivity.
  - apply image_match; assumption.
  - reflexivity.
Qed.

Lemma link_hit : forall p b t n d, is_link p = true -> well_formed p ->
  exists c u mo, markdown p = c :: u
    /\ match_at _LINK b (c :: u ++ t) = Some mo /\ m_len mo = S (length u)
    /\ link_replacer mo (n, d) = Some (_ph _PH_LK n, (S n, dict_set (_ph _PH_LK n) (wiki p) d)).
Proof.
  intros p b t n d Hs W. destruct p as [x|x|x y|text url|x y]; try discriminate. destruct W as (Ha & Hne & Hu).
  exists "["%char, (text ++ "]"%char :: "("%char :: url ++ [")"%char]),
    {| m_groups := [(2, url); (1, text)];
       m_len := S (length (text ++ "]"%char :: "("%char :: url ++ [")"%char])) |}.
  split; [|split; [|split; [reflexivity|]]].
  - cbn [markdown]. simpl. repeat (rewrite <- app_assoc; cbn [app]). reflexivity.
  - apply link_match; assumption.
  - reflexivity.
Qed.

Lemma elements_well_formed : forall sel ps,
  elements sel ps -> Forall (fun p => sel p = true -> well_formed p) ps.
Proof.
  intros sel ps H. unfold elements in H. rewrite Forall_forall in *.
  intros p Hin Hs. specialize (H p Hin). rewrite Hs in H. exact H.
Qed.

(** ** Pass 3 on every line *)

Lemma extract_inline_code_pieces : forall ps inline_map,
  Forall (fun p => is_code p = true -> well_formed p) ps -> quiet is_code ps ->
  keys_of _PH_IC inline_map ->
  _extract_inline_code (line_of ps) inline_map
  = Some (line_of (number is_code _PH_IC (length inline_map) ps),
          inline_map ++ stored is_code _PH_IC (length inline_map) ps).
Proof.
  intros ps inline_map W Q K. unfold _extract_inline_code, re_sub_st.
  rewrite (pass_pieces _INLINE_CODE replacer is_code _PH_IC tag_IC code_inv code_hit
             ps [] inline_map W Q K).
  reflexivity.
Qed.

(** ** Pass 4 on every line *)

Lemma stored_length : forall sel tag n ps, length (stored sel tag n ps) = count sel ps.
Proof.
  intros sel tag n ps. revert n. unfold count.
  induction ps as [|p ps IH]; intros n; simpl; auto.
  destruct (sel p); simpl; rewrite IH; reflexivity.
Qed.

Lemma keys_of_stored : forall sel tag ps d,
  keys_of tag d -> keys_of tag (d ++ stored sel tag (length d) ps).
Proof.
  intros sel tag. induction ps as [|p ps IH]; intros d K; cbn [stored].
  - rewrite app_nil_r. exact K.
  - destruct (sel p); [|apply IH; exact K].
    pose proof (IH _ (keys_of_snoc tag d (wiki p) K)) as R.
    rewrite length_app in R. cbn [length] in R. rewrite Nat.add_1_r in R.
    rewrite <- app_assoc in R. exact R.
Qed.

Lemma extract_links_pieces : forall ps qs link_map,
  Forall (fun p => is_image p = true -> well_formed p) ps -> quiet is_image ps ->
  line_of (number is_image _PH_LK (length link_map) ps) = line_of qs ->
  Forall (fun p => is_link p = true -> well_formed p) qs -> quiet is_link qs ->
  keys_of _PH_LK link_map ->
  let n := length link_map + count is_image ps in
  _extract_links (line_of ps) link_map
  = Some (line_of (number is_link _PH_LK n qs),
          link_map ++ stored is_image _PH_LK (length link_map) ps
                   ++ stored is_link _PH_LK n qs).
Proof.
  intros ps qs link_map W1 Q1 E W2 Q2 K n. subst n. unfold _extract_links, re_sub_st.
  rewrite (pass_pieces _IMAGE img_replacer is_image _PH_LK tag_LK image_inv image_hit
             ps [] link_map W1 Q1 K).
  cbn [bind]. rewrite E.
  pose proof (pass_pieces _LINK link_replacer is_link _PH_LK tag_LK link_inv link_hit
                qs [] _ W2 Q2 (keys_of_stored is_image _PH_LK ps link_map K)) as R.
  rewrite length_app, stored_length in R.
  match goal with |- bind ?x _ = _ => replace x with (Some (line_of (number is_link _PH_LK (length link_map + count is_image ps) qs), (length link_map + count is_image ps + count is_link qs, (link_map ++ stored is_image _PH_LK (length link_map) ps) ++ stored is_link _PH_LK (length link_map + count is_image ps) qs))) by (symmetry; exact R) end.
  cbn [bind ret]. rewrite <- app_assoc. reflexivity.
Qed.

(** ** Restoring the keys of a line *)

Lemma clean_nul_free : forall s, clean s = true -> nul_free s = true.
Proof.
  intros s. unfold clean, nul_free. apply forallb_impl. intros x Hx.
  apply andb_true_iff in Hx as [Hx _]. exact Hx.
Qed.

Lemma clean_app : forall a b, clean (a ++ b) = clean a && clean b.
Proof. intros. apply forallb_app. Qed.

Lemma ph_body_frame : forall tag n, In SOH (ph_body tag n).
Proof. intros. unfold ph_body. apply in_or_app. right. left. reflexivity. Qed.

(** The text after the closing NUL of a key does not complete another
    key: a text piece has no SOH, a key piece begins with NUL. *)
Lemma startswith_body_pieces : forall ps body,
  Forall settled ps -> nul_free body = true -> In SOH body ->
  startswith (body ++ [NUL]) (line_of ps) = false.
Proof.
  induction ps as [|p ps IH]; intros body S N Hin.
  - destruct body; [destruct Hin|reflexivity].
  - inversion S as [|? ? S1 S2]; subst. rewrite line_of_cons.
    destruct p as [t|x|x y|x y|tag n]; cbn [settled] in S1; try contradiction.
    + cbn [markdown].
      assert (G : forall t' body', clean t' = true -> nul_free body' = true ->
                    In SOH body' -> startswith (body' ++ [NUL]) (t' ++ line_of ps) = false).
      { induction t' as [|a t' IHt]; intros body' C N' Hin'.
        - simpl. apply IH; auto.
        - destruct body' as [|x body']; [destruct Hin'|]. cbn [app startswith].
          destruct (Ascii.eqb x a) eqn:E; [|reflexivity]. cbn [andb].
          apply Ascii.eqb_eq in E. subst x. unfold clean in C. cbn [forallb] in C.
          apply andb_true_iff in C as [C1 C2]. apply andb_true_iff in C1 as [_ C1].
          unfold nul_free in N'. cbn [forallb] in N'. apply andb_true_iff in N' as [_ N'].
          apply IHt; auto. destruct Hin' as [Hin'|Hin']; auto.
          subst a. rewrite Ascii.eqb_refl in C1. discriminate. }
      apply G; auto.
    + cbn [markdown]. rewrite (ph_shape tag n S1).
      destruct body as [|x body]; [destruct Hin|]. cbn [app startswith].
      unfold nul_free in N. cbn [forallb] in N. apply andb_true_iff in N as [N _].
      apply negb_true_iff in N. rewrite N. reflexivity.
Qed.

Lemma str_eqb_refl : forall a, str_eqb a a = true.
Proof. intros. apply str_eqb_eq. reflexivity. Qed.

Lemma str_eqb_neq : forall a b, a <> b -> str_eqb a b = false.
Proof.
  intros a b H. destruct (str_eqb a b) eqn:E; auto. apply str_eqb_eq in E. congruence.
Qed.

(** [str.replace] of a key in a line of texts and keys replaces the
    pieces that are this key, and nothing else. *)
Lemma str_replace_pieces : forall tag n v ps,
  is_tag tag -> Forall settled ps ->
  str_replace (_ph tag n) v (line_of ps) = line_of (map (swap (_ph tag n) v) ps).
Proof.
  intros tag n v ps T S. rewrite (ph_shape tag n T) at 1.
  rewrite str_replace_aux by discriminate.
  assert (O : exists o, NUL :: ph_body tag n ++ [NUL] = NUL :: o) by eauto.
  induction ps as [|p ps IH]; [reflexivity|].
  inversion S as [|? ? S1 S2]; subst. rewrite line_of_cons. cbn [map].
  rewrite line_of_cons.
  destruct p as [t|x|x y|x y|tag' n']; cbn [settled] in S1; try contradiction.
  - cbn [markdown swap]. rewrite replace_aux_nul_free by auto using clean_nul_free.
    rewrite IH by exact S2. reflexivity.
  - cbn [markdown swap]. destruct (str_eqb (_ph tag n) (_ph tag' n')) eqn:E.
    + apply str_eqb_eq in E. rewrite <- E. rewrite (ph_shape tag n T) at 1.
      rewrite replace_aux_at by discriminate. rewrite IH by exact S2. reflexivity.
    + assert (Hne : ph_body tag n <> ph_body tag' n').
      { intros Eb. apply ph_body_inj in Eb as [-> ->]; auto.
        rewrite str_eqb_refl in E. discriminate. }
      cbn [markdown]. rewrite (ph_shape tag' n' S1).
      cbn [app]. rewrite <- app_assoc. cbn [app].
      rewrite replace_aux_step.
      2:{ cbn [startswith]. rewrite Ascii.eqb_refl. cbn [andb].
          apply startswith_other_body; auto using ph_body_nul_free. }
      rewrite replace_aux_nul_free by auto using ph_body_nul_free.
      rewrite replace_aux_step.
      2:{ cbn [startswith]. rewrite Ascii.eqb_refl. cbn [andb].
          apply startswith_body_pieces; auto using ph_body_nul_free, ph_body_frame. }
      rewrite IH by exact S2. cbn [app]. rewrite <- app_assoc. reflexivity.
Qed.

Lemma resolve_swap : forall k v d p,
  resolve d (swap k v p) = resolve ((k, v) :: d) p.
Proof.
  intros k v d p. destruct p as [t|x|x y|x y|tag n]; try reflexivity.
  cbn [swap resolve value_of]. destruct (str_eqb k (_ph tag n)); reflexivity.
Qed.

(** [_restore_placeholders] on a line of texts and keys: every key is
    read in the map, when the values read are texts without control
    characters. *)
Lemma restore_pieces : forall d ps,
  (forall kv, In kv d -> exists tag j, is_tag tag /\ fst kv = _ph tag j) ->
  Forall settled ps -> Forall settled (map (resolve d) ps) ->
  _restore_placeholders (line_of ps) d = line_of (map (resolve d) ps).
Proof.
  induction d as [|[k v] d IH]; intros ps H S R.
  - unfold _restore_placeholders. cbn [fold_left]. f_equal.
    rewrite <- (map_id ps) at 1. apply map_ext.
    intros p. destruct p; reflexivity.
  - destruct (H (k, v) (or_introl eq_refl)) as (tag & j & T & E). cbn [fst] in E. subst k.
    assert (RS : map (resolve d) (map (swap (_ph tag j) v) ps)
                 = map (resolve ((_ph tag j, v) :: d)) ps).
    { rewrite map_map. apply map_ext. intros p. apply resolve_swap. }
    unfold _restore_placeholders. cbn [fold_left fst snd].
    rewrite str_replace_pieces by assumption.
    fold (_restore_placeholders (line_of (map (swap (_ph tag j) v) ps)) d).
    rewrite IH.
    + rewrite RS. reflexivity.
    + intros kv Hin. apply H. right. exact Hin.
    + rewrite Forall_forall in *. intros q Hq. apply in_map_iff in Hq as (p & <- & Hp).
      destruct p as [t|x|x y|x y|tag' n']; try (apply (S _ Hp)).
      cbn [swap]. destruct (str_eqb (_ph tag j) (_ph tag' n')) eqn:E; [|apply (S _ Hp)].
      specialize (R (resolve ((_ph tag j, v) :: d) (Key tag' n'))
                    (in_map _ _ _ Hp)).
      cbn [resolve value_of] in R. rewrite E in R. exact R.
    + rewrite RS. exact R.
Qed.

(** ** Reading the keys that a pass wrote *)

Lemma value_of_skip : forall k pre d,
  (forall kv, In kv pre -> fst kv <> k) -> value_of k (pre ++ d) = value_of k d.
Proof.
  intros k. induction pre as [|[k' v'] pre IH]; intros d H; [reflexivity|].
  cbn [app value_of]. rewrite str_eqb_neq by (apply (H (k', v')); left; reflexivity).
  apply IH. intros kv Hin. apply H. right. exact Hin.
Qed.

Lemma value_of_none : forall k d,
  (forall kv, In kv d -> fst kv <> k) -> value_of k d = None.
Proof.
  intros k d H. rewrite <- (app_nil_r d). rewrite value_of_skip by exact H. reflexivity.
Qed.

Lemma resolve_number : forall sel tag (G : piece -> piece) ps n pre post,
  is_tag tag ->
  (forall kv, In kv pre -> exists j, j < n /\ fst kv = _ph tag j) ->
  (forall k, G (Key tag k) = resolve (pre ++ stored sel tag n ps ++ post) (Key tag k)) ->
  map G (number sel tag n ps) = map (fun p => if sel p then Text (wiki p) else G p) ps.
Proof.
  intros sel tag G. induction ps as [|p ps IH]; intros n pre post T B HG; [reflexivity|].
  cbn [number stored] in *. destruct (sel p) eqn:Hs.
  - cbn [map]. rewrite Hs. f_equal.
    + rewrite HG. cbn [resolve]. rewrite value_of_skip.
      * cbn [app value_of]. rewrite str_eqb_refl. reflexivity.
      * intros kv Hin E. destruct (B kv Hin) as (j & Hj & Ej). rewrite Ej in E.
        apply ph_inj in E as [_ E]; auto. lia.
    + apply (IH (S n) (pre ++ [(_ph tag n, wiki p)]) post T).
      * intros kv Hin. apply in_app_or in Hin as [Hin|[<-|[]]].
        -- destruct (B kv Hin) as (j & Hj & Ej). exists j. split; [lia|exact Ej].
        -- exists n. split; [lia|reflexivity].
      * intros k. rewrite HG. rewrite <- app_assoc. reflexivity.
  - cbn [map]. rewrite Hs. f_equal. apply (IH n pre post T B HG).
Qed.

(** ** Lines of simple pieces *)

Lemma without_not_ch : forall chars c s,
  In c chars -> without chars s = true -> forallb (not_ch c) s = true.
Proof.
  intros chars c s Hin. unfold without. apply forallb_impl. intros x Hx.
  unfold not_ch. destruct (Ascii.eqb x c) eqn:E; auto.
  apply Ascii.eqb_eq in E. subst x. apply negb_true_iff in Hx.
  unfold one_of in Hx. assert (X : existsb (Ascii.eqb c) chars = true).
  { apply existsb_exists. exists c. split; [exact Hin|apply Ascii.eqb_refl]. }
  congruence.
Qed.

Lemma begins_code_head : forall s, begins is_code s -> exists t, s = "`"%char :: t.
Proof.
  intros s (p & rest & Hs & _ & ->). destruct p; try discriminate.
  cbn [markdown]. simpl. eauto.
Qed.

Lemma begins_image_head : forall s, begins is_image s -> exists t, s = "!"%char :: t.
Proof.
  intros s (p & rest & Hs & _ & ->). destruct p; try discriminate.
  cbn [markdown]. simpl. eauto.
Qed.

Lemma begins_link_head : forall s, begins is_link s -> exists t, s = "["%char :: t.
Proof.
  intros s (p & rest & Hs & _ & ->). destruct p; try discriminate.
  cbn [markdown]. simpl. eauto.
Qed.

(** No element begins in pieces that do not hold its first character. *)
Lemma quiet_free : forall sel (c0 : ascii) ps,
  (forall s, begins sel s -> exists t, s = c0 :: t) ->
  Forall (fun p => sel p = false -> forallb (not_ch c0) (markdown p) = true) ps ->
  quiet sel ps.
Proof.
  intros sel c0 ps H. induction 1 as [|p ps F _ IH]; [exact I|].
  split; [|exact IH]. intros Hs p1 p2 E Hne B.
  destruct p2 as [|x p2]; [congruence|].
  destruct (H _ B) as (t & Et). inversion Et; subst x.
  specialize (F Hs). rewrite E, forallb_app in F.
  apply andb_true_iff in F as [_ F]. cbn [forallb] in F.
  rewrite not_ch_refl in F. discriminate.
Qed.

Lemma Forall_number : forall (P : piece -> Prop) sel tag ps n,
  Forall (fun p => sel p = false -> P p) ps -> (forall k, P (Key tag k)) ->
  Forall P (number sel tag n ps).
Proof.
  intros P sel tag ps n H HK. revert n.
  induction H as [|p ps F _ IH]; intros n; cbn [number]; [constructor|].
  destruct (sel p) eqn:Hs; constructor; auto.
Qed.

Lemma stored_number : forall sel sel' tag tag' ps n n',
  (forall p, sel p = true -> sel' p = false) ->
  (forall k, sel' (Key tag k) = false) ->
  stored sel' tag' n' (number sel tag n ps) = stored sel' tag' n' ps.
Proof.
  intros sel sel' tag tag' ps n n' H HK. revert n n'.
  induction ps as [|p ps IH]; intros n n'; cbn [number stored]; [reflexivity|].
  destruct (sel p) eqn:Hs.
  - cbn [stored]. rewrite HK, (H p Hs). apply IH.
  - cbn [stored]. destruct (sel' p); [f_equal|]; apply IH.
Qed.

Lemma count_number : forall sel sel' tag ps n,
  (forall p, sel p = true -> sel' p = false) ->
  (forall k, sel' (Key tag k) = false) ->
  count sel' (number sel tag n ps) = count sel' ps.
Proof.
  intros sel sel' tag ps n H HK.
  rewrite <- (stored_length sel' tag 0), <- (stored_length sel' tag 0 ps).
  rewrite (stored_number sel sel' tag tag ps n 0 H HK). reflexivity.
Qed.

Lemma wiki_of_texts : forall ps, line_of (map (fun p => Text (wiki p)) ps) = wiki_of ps.
Proof.
  induction ps as [|p ps IH]; [reflexivity|].
  cbn [map]. rewrite line_of_cons, IH. reflexivity.
Qed.

Lemma clean_escape_braces : forall s, clean s = true -> clean (escape_braces s) = true.
Proof.
  induction s as [|c s IH]; intros H; [reflexivity|].
  unfold clean in H. cbn [forallb] in H. apply andb_true_iff in H as [H1 H2].
  unfold escape_braces. cbn [flat_map]. rewrite clean_app.
  fold (escape_braces s). rewrite (IH H2), andb_true_r.
  destruct (Ascii.eqb c "{"); [reflexivity|].
  destruct (Ascii.eqb c "}"); [reflexivity|].
  unfold clean. cbn [forallb]. rewrite H1. reflexivity.
Qed.

Lemma simple_well_formed : forall p, simple p -> well_formed p.
Proof.
  intros p H. destruct p as [t|c|a u|t u|tag n]; cbn [simple well_formed] in *; auto.
  - destruct H as (H1 & H2 & _). split; [exact H1|].
    apply (without_not_ch (py "`")); [left; reflexivity|exact H2].
  - destruct H as (H1 & H2 & H3 & _). split; [|split; [exact H2|]].
    + apply (without_not_ch (py "`]")); [right; left; reflexivity|exact H1].
    + apply (without_not_ch (py "`)")); [right; left; reflexivity|exact H3].
  - destruct H as (H1 & _ & H2 & H3 & _). split; [|split; [exact H2|]].
    + apply (without_not_ch (py "`!]")); [right; right; left; reflexivity|exact H1].
    + apply (without_not_ch (py "`!)")); [right; right; left; reflexivity|exact H3].
Qed.

(** The first characters of the patterns in the simple pieces. *)
Lemma simple_no_backtick : forall p,
  simple p -> is_code p = false -> forallb (not_ch "`") (markdown p) = true.
Proof.
  intros p H Hs. destruct p as [t|c|a u|t u|tag n]; cbn [simple markdown] in *;
    try discriminate; try contradiction.
  - apply plain_not_ch; [reflexivity|apply H].
  - destruct H as (H1 & _ & H3 & _). rewrite !forallb_app.
    rewrite (without_not_ch (py "`]") "`"%char a), (without_not_ch (py "`)") "`"%char u);
      auto; left; reflexivity.
  - destruct H as (H1 & _ & _ & H3 & _). rewrite !forallb_app.
    rewrite (without_not_ch (py "`!]") "`"%char t), (without_not_ch (py "`!)") "`"%char u);
      auto; left; reflexivity.
Qed.

Lemma key_not_ch : forall c tag n,
  special c = true -> is_tag tag -> forallb (not_ch c) (_ph tag n) = true.
Proof. intros. apply plain_not_ch; auto using key_plain. Qed.

Lemma simple_no_bang : forall p,
  simple p -> is_code p = false -> is_image p = false ->
  forallb (not_ch "!") (markdown p) = true.
Proof.
  intros p H Hc Hs. destruct p as [t|c|a u|t u|tag n]; cbn [simple markdown] in *;
    try discriminate; try contradiction.
  - apply plain_not_ch; [reflexivity|apply H].
  - destruct H as (H1 & _ & _ & H3 & _). rewrite !forallb_app.
    rewrite (without_not_ch (py "`!]") "!"%char t), (without_not_ch (py "`!)") "!"%char u);
      auto; right; left; reflexivity.
Qed.

Lemma simple_no_bracket : forall p,
  simple p -> is_code p = false -> is_image p = false -> is_link p = false ->
  forallb (not_ch "[") (markdown p) = true.
Proof.
  intros p H Hc Hs Hl. destruct p as [t|c|a u|t u|tag n]; cbn [simple markdown] in *;
    try discriminate; try contradiction.
  apply plain_not_ch; [reflexivity|apply H].
Qed.

Lemma keys_of_tagged : forall tag d kv,
  is_tag tag -> keys_of tag d -> In kv d -> exists tag' j, is_tag tag' /\ fst kv = _ph tag' j.
Proof.
  intros tag d kv T K Hin. destruct (keys_of_In _ _ _ K Hin) as (j & _ & E). eauto.
Qed.

Lemma resolve_other_tag : forall tag tag' d k,
  is_tag tag -> is_tag tag' -> tag <> tag' -> keys_of tag d ->
  resolve d (Key tag' k) = Key tag' k.
Proof.
  intros tag tag' d k T T' Hne K. cbn [resolve]. rewrite value_of_none; [reflexivity|].
  intros kv Hin E. destruct (keys_of_In _ _ _ K Hin) as (j & _ & Ej).
  rewrite Ej in E. apply ph_inj in E as [E _]; auto.
Qed.

Lemma plain_line_of : forall ps,
  Forall (fun p => plain_text (markdown p) = true) ps -> plain_text (line_of ps) = true.
Proof.
  induction 1 as [|p ps F _ IH]; [reflexivity|].
  rewrite line_of_cons, plain_text_app, F, IH. reflexivity.
Qed.

(** ** The line after the passes 3 and 4 and its restoring *)

Lemma sound_well_formed : forall p, sound p -> well_formed p.
Proof. intros p H. destruct p; cbn [sound] in H; try apply H; exact I. Qed.

Lemma sound_wiki_clean : forall p, sound p -> clean (wiki p) = true.
Proof.
  intros p H. destruct p as [t|c|a u|t u|tag n]; cbn [sound wiki] in *.
  - exact H.
  - destruct H as (_ & H). rewrite !clean_app, (clean_escape_braces _ H). reflexivity.
  - destruct H as (_ & H). rewrite !clean_app, H. reflexivity.
  - destruct H as (_ & H1 & H2). rewrite !clean_app, H1, H2. reflexivity.
  - contradiction.
Qed.

Lemma simple_sound : forall p, simple p -> sound p.
Proof.
  intros p H. pose proof (simple_well_formed p H) as W.
  destruct p as [t|c|a u|t u|tag n]; cbn [simple sound] in *.
  - apply H.
  - split; [exact W|apply H].
  - split; [exact W|apply H].
  - split; [exact W|]. split; apply H.
  - contradiction.
Qed.

Lemma retexted_refl : forall ps, Forall2 retexted ps ps.
Proof. induction ps as [|p ps IH]; constructor; auto. destruct p; simpl; auto. Qed.

Lemma retexted_well_formed : forall ps ps',
  Forall2 retexted ps ps' -> Forall sound ps' -> Forall well_formed ps.
Proof.
  induction 1 as [|p q ps ps' R _ IH]; intros S; constructor.
  - inversion S as [|? ? S1 _]; subst.
    assert (E : (exists t, p = Text t) \/ p = q).
    { destruct p; destruct q; cbn [retexted] in R; try discriminate; eauto. }
    destruct E as [(t & ->)| ->]; [exact I|apply sound_well_formed; exact S1].
  - apply IH. inversion S; assumption.
Qed.

Lemma stored_retexted : forall sel tag ps ps',
  (forall t, sel (Text t) = false) -> Forall2 retexted ps ps' ->
  forall n, stored sel tag n ps = stored sel tag n ps'.
Proof.
  intros sel tag ps ps' HT. induction 1 as [|p q ps ps' R _ IH]; intros n; [reflexivity|].
  assert (E : (exists t t', p = Text t /\ q = Text t') \/ p = q).
  { destruct p; destruct q; cbn [retexted] in R; try discriminate; eauto. }
  cbn [stored]. destruct E as [(t & t' & -> & ->)| ->].
  - rewrite !HT. apply IH.
  - destruct (sel q); [f_equal|]; apply IH.
Qed.

Lemma count_retexted : forall sel ps ps',
  (forall t, sel (Text t) = false) -> Forall2 retexted ps ps' ->
  count sel ps = count sel ps'.
Proof.
  intros sel ps ps' HT R.
  rewrite <- (stored_length sel [] 0), <- (stored_length sel [] 0 ps').
  rewrite (stored_retexted sel [] ps ps' HT R). reflexivity.
Qed.

(** What holds of the texts and of the keys holds of the pieces after
    the passes. *)
Lemma Forall_keyed : forall (P : piece -> Prop) ps a b c,
  Forall sound ps ->
  (forall t, sound (Text t) -> P (Text t)) ->
  (forall k, P (Key _PH_IC k)) -> (forall k, P (Key _PH_LK k)) ->
  Forall P (keyed a b c ps).
Proof.
  intros P ps a b c S HT HI HL. unfold keyed.
  apply Forall_number; [|exact HL]. apply Forall_number; [|intros; apply HL].
  apply Forall_number; [|intros; apply HI].
  revert S. apply Forall_impl. intros p Hp Hc Hi Hl.
  destruct p; try discriminate; [apply HT; exact Hp|contradiction].
Qed.

(** The two restorings of pass 6 write the value of every key, when the
    texts around the keys and the values hold no control character. *)
Lemma restore_keyed : forall ps inline_map link_map,
  Forall sound ps -> keys_of _PH_IC inline_map -> keys_of _PH_LK link_map ->
  let a := length inline_map in
  let b := length link_map in
  let c := b + count is_image ps in
  _restore_placeholders
    (_restore_placeholders (line_of (keyed a b c ps))
       (link_map ++ stored is_image _PH_LK b ps ++ stored is_link _PH_LK c ps))
    (inline_map ++ stored is_code _PH_IC a ps)
  = wiki_of ps.
Proof.
  intros ps im lm S KI KL a b c.
  set (ps1 := number is_code _PH_IC a ps).
  set (ps2 := number is_image _PH_LK b ps1).
  set (ps3 := keyed a b c ps).
  set (im1 := im ++ stored is_code _PH_IC a ps).
  set (lm3 := lm ++ stored is_image _PH_LK b ps ++ stored is_link _PH_LK c ps).
  assert (CI : forall p, is_code p = true -> is_image p = false)
    by (intros p; destruct p; simpl; congruence).
  assert (CL : forall p, is_code p = true -> is_link p = false)
    by (intros p; destruct p; simpl; congruence).
  assert (IL : forall p, is_image p = true -> is_link p = false)
    by (intros p; destruct p; simpl; congruence).
  assert (I1 : stored is_image _PH_LK b ps1 = stored is_image _PH_LK b ps)
    by (apply stored_number; auto).
  assert (L2 : stored is_link _PH_LK c ps2 = stored is_link _PH_LK c ps).
  { unfold ps2, ps1. rewrite !stored_number; auto. }
  assert (KL1 : keys_of _PH_LK (lm ++ stored is_image _PH_LK b ps))
    by (apply keys_of_stored; exact KL).
  assert (Lc : length (lm ++ stored is_image _PH_LK b ps) = c)
    by (rewrite length_app, stored_length; reflexivity).
  assert (KL3 : keys_of _PH_LK lm3).
  { unfold lm3. rewrite app_assoc. rewrite <- Lc. apply keys_of_stored. exact KL1. }
  assert (KI1 : keys_of _PH_IC im1) by (apply keys_of_stored; exact KI).
  assert (S3 : Forall settled ps3).
  { apply Forall_keyed; auto.
    - intros k. apply tag_IC.
    - intros k. apply tag_LK. }
  set (G3 := fun p => if is_link p then Text (wiki p) else resolve lm3 p).
  set (G2 := fun p => if is_image p then Text (wiki p) else G3 p).
  assert (M3 : map (resolve lm3) ps3 = map G3 ps2).
  { apply (resolve_number is_link _PH_LK (resolve lm3) ps2 c
             (lm ++ stored is_image _PH_LK b ps) [] tag_LK).
    - intros kv Hin. rewrite <- Lc. apply (keys_of_In _ _ _ KL1 Hin).
    - intros k. rewrite L2, app_nil_r, <- app_assoc. reflexivity. }
  assert (M2 : map G3 ps2 = map G2 ps1).
  { apply (resolve_number is_image _PH_LK G3 ps1 b lm
             (stored is_link _PH_LK c ps) tag_LK).
    - intros kv Hin. apply (keys_of_In _ _ _ KL Hin).
    - intros k. rewrite I1. reflexivity. }
  assert (GK : forall k, G2 (Key _PH_IC k) = Key _PH_IC k).
  { intros k. unfold G2, G3. cbn [is_image is_link].
    apply (resolve_other_tag _PH_LK _PH_IC); auto using tag_IC, tag_LK. discriminate. }
  assert (S2 : Forall settled (map G2 ps1)).
  { apply Forall_map. apply Forall_number.
    - revert S. apply Forall_impl. intros p Hp Hc.
      destruct p as [t|x|x y|x y|tag n]; try discriminate.
      + exact Hp.
      + apply (sound_wiki_clean _ Hp).
      + apply (sound_wiki_clean _ Hp).
      + contradiction.
    - intros k. rewrite GK. apply tag_IC. }
  assert (RL : _restore_placeholders (line_of ps3) lm3 = line_of (map G2 ps1)).
  { rewrite restore_pieces.
    - rewrite M3, M2. reflexivity.
    - intros kv Hin. apply (keys_of_tagged _PH_LK lm3); auto using tag_LK.
    - exact S3.
    - rewrite M3, M2. exact S2. }
  assert (M1 : map (resolve im1) (map G2 ps1) = map (fun p => Text (wiki p)) ps).
  { rewrite map_map. unfold ps1.
    rewrite (resolve_number is_code _PH_IC (fun p => resolve im1 (G2 p)) ps a im []
               tag_IC).
    - apply map_ext_in. intros p Hp. rewrite Forall_forall in S. specialize (S p Hp).
      destruct p as [t|x|x y|x y|tag n]; try reflexivity. contradiction.
    - intros kv Hin. apply (keys_of_In _ _ _ KI Hin).
    - intros k. rewrite GK, app_nil_r. reflexivity. }
  rewrite RL. rewrite restore_pieces.
  - rewrite M1. apply wiki_of_texts.
  - intros kv Hin. apply (keys_of_tagged _PH_IC im1); auto using tag_IC.
  - exact S2.
  - rewrite M1. apply Forall_map. revert S. apply Forall_impl.
    intros p Hp. apply (sound_wiki_clean _ Hp).
Qed.

(** The inline processing of a line in which no element begins inside
    another piece, when the formatting pass rewrites the texts between
    the keys and keeps the keys: every code span, image and link comes
    out in wiki markup between the rewritten texts. *)
Lemma inline_line_keyed : forall ps ps' inline_map link_map,
  keys_of _PH_IC inline_map -> keys_of _PH_LK link_map ->
  let a := length inline_map in
  let b := length link_map in
  let c := b + count is_image ps in
  Forall2 retexted ps ps' -> Forall sound ps' ->
  quiet is_code ps ->
  quiet is_image (number is_code _PH_IC a ps) ->
  quiet is_link (number is_image _PH_LK b (number is_code _PH_IC a ps)) ->
  _process_inline_formatting (line_of (keyed a b c ps))
  = Some (line_of (keyed a b c ps')) ->
  inline_line (line_of ps) inline_map link_map
  = Some (wiki_of ps',
          inline_map ++ stored is_code _PH_IC a ps,
          link_map ++ stored is_image _PH_LK b ps ++ stored is_link _PH_LK c ps).
Proof.
  intros ps ps' im lm KI KL a b c R S Q1 Q2 Q3 E5.
  pose proof (retexted_well_formed _ _ R S) as W.
  set (ps1 := number is_code _PH_IC a ps) in *.
  set (ps2 := number is_image _PH_LK b ps1) in *.
  assert (CI : forall p, is_code p = true -> is_image p = false)
    by (intros p; destruct p; simpl; congruence).
  assert (CL : forall p, is_code p = true -> is_link p = false)
    by (intros p; destruct p; simpl; congruence).
  assert (IL : forall p, is_image p = true -> is_link p = false)
    by (intros p; destruct p; simpl; congruence).
  assert (I1 : stored is_image _PH_LK b ps1 = stored is_image _PH_LK b ps)
    by (apply stored_number; auto).
  assert (C1 : count is_image ps1 = count is_image ps)
    by (apply count_number; auto).
  assert (L2 : stored is_link _PH_LK c ps2 = stored is_link _PH_LK c ps).
  { unfold ps2, ps1. rewrite !stored_number; auto. }
  assert (E3 : _extract_inline_code (line_of ps) im
               = Some (line_of ps1, im ++ stored is_code _PH_IC a ps)).
  { apply extract_inline_code_pieces; auto.
    revert W. apply Forall_impl. auto. }
  assert (E4 : _extract_links (line_of ps1) lm
               = Some (line_of (keyed a b c ps),
                       lm ++ stored is_image _PH_LK b ps ++ stored is_link _PH_LK c ps)).
  { pose proof (extract_links_pieces ps1 ps2 lm) as X. cbn zeta in X.
    fold b in X. rewrite C1, I1 in X. fold c in X. rewrite L2 in X. apply X; auto.
    - apply Forall_number; [|discriminate]. revert W. apply Forall_impl. auto.
    - apply Forall_number; [|discriminate]. apply Forall_number; [|discriminate].
      revert W. apply Forall_impl. auto. }
  unfold inline_line. rewrite E3. cbn [bind]. rewrite E4. cbn [bind].
  rewrite E5. cbn [bind ret].
  assert (T1 : forall t, is_code (Text t) = false) by reflexivity.
  assert (T2 : forall t, is_image (Text t) = false) by reflexivity.
  assert (T3 : forall t, is_link (Text t) = false) by reflexivity.
  unfold c, b, a. rewrite (count_retexted is_image ps ps' T2 R).
  rewrite (stored_retexted is_code _PH_IC ps ps' T1 R),
    (stored_retexted is_image _PH_LK ps ps' T2 R),
    (stored_retexted is_link _PH_LK ps ps' T3 R).
  rewrite (restore_keyed ps' im lm S KI KL). reflexivity.
Qed.

(** The inline processing of a line of simple pieces: every code span,
    image and link comes out in wiki markup, the texts as they are. *)
Lemma inline_line_pieces : forall ps inline_map link_map,
  Forall simple ps -> keys_of _PH_IC inline_map -> keys_of _PH_LK link_map ->
  inline_line (line_of ps) inline_map link_map
  = Some (wiki_of ps,
          inline_map ++ stored is_code _PH_IC (length inline_map) ps,
          link_map ++ stored is_image _PH_LK (length link_map) ps
                   ++ stored is_link _PH_LK (length link_map + count is_image ps) ps).
Proof.
  intros ps im lm S KI KL.
  assert (SS : Forall sound ps).
  { revert S. apply Forall_impl. apply simple_sound. }
  apply (inline_line_keyed ps ps im lm KI KL (retexted_refl ps) SS).
  - apply (quiet_free is_code "`"%char); [apply begins_code_head|].
    revert S. apply Forall_impl. intros p Hp Hs. apply simple_no_backtick; auto.
  - apply (quiet_free is_image "!"%char); [apply begins_image_head|].
    apply Forall_number.
    + revert S. apply Forall_impl. intros p Hp Hc Hs. apply simple_no_bang; auto.
    + intros k _. apply key_not_ch; [reflexivity|apply tag_IC].
  - apply (quiet_free is_link "["%char); [apply begins_link_head|].
    apply Forall_number; [apply Forall_number|].
    + revert S. apply Forall_impl. intros p Hp Hc Hi Hs. apply simple_no_bracket; auto.
    + intros k _ _. apply key_not_ch; [reflexivity|apply tag_IC].
    + intros k _. apply key_not_ch; [reflexivity|apply tag_LK].
  - apply formatting_plain_text. apply plain_line_of. unfold keyed.
    apply Forall_number; [|intros; apply key_plain, tag_LK].
    apply Forall_number; [|intros; apply key_plain, tag_LK].
    apply Forall_number; [|intros; apply key_plain, tag_IC].
    revert S. apply Forall_impl. intros p Hp Hc Hi Hl.
    destruct p; try discriminate; [apply Hp|contradiction].
Qed.

(* ------------------------------------------------------------------ *)
(** * Inline code, links and images *)
(* ------------------------------------------------------------------ *)







(* ------------------------------------------------------------------ *)
(** * The whole pipeline: no exception, and where characters come from *)
(* ------------------------------------------------------------------ *)

(** ** Groups that a match sets *)

Lemma lookup_cons_set : forall n m s g, lookup n g <> None -> lookup n ((m, s) :: g) <> None.
Proof. intros. simpl. destruct (Nat.eqb m n); [discriminate|assumption]. Qed.

Lemma reach_sets : forall r n b t g b' t' g',
  reach r b t g b' t' g' ->
  sets r n = true \/ lookup n g <> None -> lookup n g' <> None.
Proof.
  induction r; intros k b t g b' t' g' R H; simpl in R, H;
    try (destruct H as [H|H]; [discriminate|]).
  - destruct R as (-> & -> & ->). exact H.
  - destruct R as (-> & -> & ->). exact H.
  - destruct R as (x & _ & -> & -> & ->). exact H.
  - destruct R as (b1 & t1 & g1 & R1 & R2).
    eapply IHr2; [exact R2|].
    destruct H as [H|H].
    + apply orb_true_iff in H as [H|H]; [right|left; exact H].
      eapply IHr1; [exact R1|left; exact H].
    + right. eapply IHr1; [exact R1|right; exact H].
  - destruct H as [H|H].
    + apply andb_true_iff in H as [H1 H2].
      destruct R as [R|R]; [eapply IHr1|eapply IHr2]; eauto.
    + destruct R as [R|R]; [eapply IHr1|eapply IHr2]; eauto.
  - destruct R as (u & -> & _ & _ & _ & -> & ->). exact H.
  - destruct R as (g1 & R & ->). simpl.
    destruct (Nat.eqb n k) eqn:E; [discriminate|].
    eapply IHr; [exact R|]. destruct H as [H|H]; [|right; exact H].
    simpl in H. left. exact H.
  - destruct R as (s & _ & -> & -> & ->). exact H.
  - destruct R as (_ & _ & _ & ->). exact H.
  - destruct R as (_ & _ & _ & ->). exact H.
  - destruct R as (_ & _ & _ & ->). exact H.
  - destruct R as (_ & _ & _ & ->). exact H.
Qed.

Lemma match_group_set : forall r b t m n,
  match_at r b t = Some m -> sets r n = true -> exists s, group m n = Some s.
Proof.
  intros r b t m n H S. apply match_at_sound in H as (b' & t' & g' & R & ->).
  unfold group. simpl. destruct (lookup n g') eqn:L; eauto.
  exfalso. eapply reach_sets; eauto.
Qed.

Lemma lookup_In : forall n g s, lookup n g = Some s -> In (n, s) g.
Proof.
  induction g as [|[i x] g IH]; simpl; intros s H; [discriminate|].
  destruct (Nat.eqb i n) eqn:E.
  - apply Nat.eqb_eq in E. inversion H. subst. left. reflexivity.
  - right. auto.
Qed.

(** ** Characters *)

Section Closure.
Variable p : ascii -> bool.
Hypothesis Hlit : forall c, literal c = true -> p c = true.

Lemma lit_ok : forall s, forallb literal s = true -> forallb p s = true.
Proof. intros s. apply forallb_impl. exact Hlit. Qed.

Lemma firstn_ok : forall n (s : str), forallb p s = true -> forallb p (firstn n s) = true.
Proof.
  induction n; intros [|c s] H; simpl in *; auto.
  apply andb_true_iff in H as [H1 H2]. rewrite H1. simpl. auto.
Qed.

Lemma app_ok : forall a b : str,
  forallb p a = true -> forallb p b = true -> forallb p (a ++ b) = true.
Proof. intros. rewrite forallb_app, H, H0. reflexivity. Qed.

Lemma app_ok_r : forall a b : str, forallb p (a ++ b) = true -> forallb p b = true.
Proof. intros a b H. rewrite forallb_app in H. apply andb_true_iff in H. tauto. Qed.

Lemma app_ok_l : forall a b : str, forallb p (a ++ b) = true -> forallb p a = true.
Proof. intros a b H. rewrite forallb_app in H. apply andb_true_iff in H. tauto. Qed.

Lemma rev_ok : forall s : str, forallb p s = true -> forallb p (rev s) = true.
Proof.
  intros s H. rewrite forallb_forall in *. intros x Hx. apply H. apply in_rev. exact Hx.
Qed.

Lemma reach_ok : forall r b t g b' t' g',
  reach r b t g b' t' g' ->
  forallb p t = true -> groups_ok p g -> groups_ok p g' /\ forallb p t' = true.
Proof.
  induction r; intros b t g b' t' g' R Ht Hg; simpl in R.
  - destruct R as (-> & -> & ->). auto.
  - destruct R as (-> & -> & ->). simpl in Ht. apply andb_true_iff in Ht. tauto.
  - destruct R as (x & _ & -> & -> & ->). simpl in Ht. apply andb_true_iff in Ht. tauto.
  - destruct R as (b1 & t1 & g1 & R1 & R2).
    destruct (IHr1 _ _ _ _ _ _ R1 Ht Hg) as [G1 T1]. eapply IHr2; eauto.
  - destruct R as [R|R]; eauto.
  - destruct R as (u & -> & _ & _ & _ & -> & ->). split; auto. eapply app_ok_r; eauto.
  - destruct R as (g1 & R & ->). destruct (IHr _ _ _ _ _ _ R Ht Hg) as [G1 T1].
    split; auto. intros k s [E|Hin].
    + inversion E; subst. apply firstn_ok. exact Ht.
    + eapply G1; eauto.
  - destruct R as (s & _ & -> & -> & ->). split; auto. eapply app_ok_r; eauto.
  - destruct R as (_ & _ & -> & ->). auto.
  - destruct R as (_ & _ & -> & ->). auto.
  - destruct R as (_ & _ & -> & ->). auto.
  - destruct R as (_ & _ & -> & ->). auto.
Qed.

Lemma match_at_ok : forall r b t m,
  match_at r b t = Some m -> forallb p t = true -> groups_ok p (m_groups m).
Proof.
  intros r b t m H Ht. apply match_at_sound in H as (b' & t' & g' & R & ->).
  simpl. eapply reach_ok; eauto. intros n s [].
Qed.

Lemma group_ok : forall m n s,
  groups_ok p (m_groups m) -> group m n = Some s -> forallb p s = true.
Proof. intros m n s G H. apply lookup_In in H. eapply G; eauto. Qed.

Lemma fmt_ok : forall m n, groups_ok p (m_groups m) -> forallb p (fmt (group m n)) = true.
Proof.
  intros m n G. unfold fmt. destruct (group m n) eqn:E.
  - eapply group_ok; eauto.
  - apply lit_ok. reflexivity.
Qed.

Lemma replace_aux_ok : forall old new s skip,
  forallb p new = true -> forallb p s = true ->
  forallb p (replace_aux old new s skip) = true.
Proof.
  intros old new s. induction s as [|c s IH]; intros skip Hn Hs; [reflexivity|].
  simpl in Hs. apply andb_true_iff in Hs as [H1 H2].
  cbn [replace_aux]. destruct skip; [|apply IH; auto].
  destruct (startswith old (c :: s)).
  - apply app_ok; auto.
  - cbn [forallb]. rewrite H1. apply IH; auto.
Qed.

Lemma str_replace_ok : forall old new s,
  forallb p new = true -> forallb p s = true -> forallb p (str_replace old new s) = true.
Proof.
  intros [|o old] new s Hn Hs; simpl.
  - apply app_ok; auto. induction s as [|c s IH]; simpl; auto.
    simpl in Hs. apply andb_true_iff in Hs as [H1 H2]. rewrite H1. simpl.
    apply app_ok; auto.
  - apply replace_aux_ok; auto.
Qed.

Lemma restore_ok : forall m s,
  vals_ok p m -> forallb p s = true -> forallb p (_restore_placeholders s m) = true.
Proof.
  unfold _restore_placeholders. induction m as [|kv m IH]; intros s V H; simpl; auto.
  apply IH.
  - intros x Hx. apply V. right. exact Hx.
  - apply str_replace_ok; auto. apply V. left. reflexivity.
Qed.

Lemma dict_set_ok : forall k v m,
  vals_ok p m -> forallb p v = true -> vals_ok p (dict_set k v m).
Proof.
  intros k v. induction m as [|[k' v'] m IH]; intros V H kv Hin; simpl in Hin.
  - destruct Hin as [<-|[]]. exact H.
  - destruct (str_eqb k' k).
    + destruct Hin as [<-|Hin]; [exact H|]. apply V. right. exact Hin.
    + destruct Hin as [<-|Hin]; [apply (V (k', v')); left; reflexivity|].
      apply IH; auto. intros x Hx. apply V. right. exact Hx.
Qed.

Lemma digit_literal : forall c, is_digit c = true -> literal c = true.
Proof. intros c. destruct c as [[] [] [] [] [] [] [] []]; vm_compute; congruence. Qed.

Lemma str_of_nat_ok : forall n, forallb p (str_of_nat n) = true.
Proof.
  intros n. apply lit_ok. apply (forallb_impl _ is_digit); [apply digit_literal|].
  apply str_of_nat_digits.
Qed.

Lemma ph_ok : forall tag n, is_tag tag -> forallb p (_ph tag n) = true.
Proof.
  intros tag n T. unfold _ph. repeat apply app_ok.
  - apply lit_ok. destruct T as [-> | [-> | [-> | ->]]]; reflexivity.
  - apply lit_ok. reflexivity.
  - apply str_of_nat_ok.
  - apply lit_ok. reflexivity.
Qed.

(** [sub_loop] with a replacement that keeps an invariant of the state. *)
Lemma sub_loop_ok : forall (S : Type) (Inv : S -> Prop) r
    (repl : match_obj -> S -> M (str * S)),
  (forall b t m st, forallb p t = true -> match_at r b t = Some m -> Inv st ->
     exists out st', repl m st = Some (out, st') /\ forallb p out = true /\ Inv st') ->
  forall rest before skip st, forallb p rest = true -> Inv st ->
    exists out st', sub_loop r repl before rest skip st = Some (out, st')
                    /\ forallb p out = true /\ Inv st'.
Proof.
  intros S Inv r repl Hrepl. induction rest as [|c rest IH]; intros before skip st Hr Hi.
  - destruct skip; simpl; [|eauto].
    destruct (match_at r before []) eqn:E; simpl; eauto.
    destruct (Hrepl _ _ _ st Hr E Hi) as (out & st' & -> & Ho & Hi'). simpl. eauto.
  - simpl in Hr. apply andb_true_iff in Hr as [Hc Hr'].
    destruct skip; cbn [sub_loop]; [|apply IH; auto].
    destruct (match_at r before (c :: rest)) eqn:E.
    + assert (Hcr : forallb p (c :: rest) = true) by (simpl; rewrite Hc; auto).
      destruct (Hrepl _ _ _ st Hcr E Hi) as (out & st1 & -> & Ho & Hi1). simpl.
      destruct (m_len m).
      * destruct (IH (c :: before) 0 st1 Hr' Hi1) as (o2 & st2 & -> & Ho2 & Hi2). simpl.
        exists (out ++ c :: o2), st2. repeat split; auto.
        apply app_ok; auto. simpl. rewrite Hc. auto.
      * destruct (IH (c :: before) n st1 Hr' Hi1) as (o2 & st2 & -> & Ho2 & Hi2). simpl.
        exists (out ++ o2), st2. repeat split; auto. apply app_ok; auto.
    + destruct (IH (c :: before) 0 st Hr' Hi) as (o2 & st2 & -> & Ho2 & Hi2). simpl.
      exists (c :: o2), st2. repeat split; auto. simpl. rewrite Hc. auto.
Qed.

Lemma re_sub_ok : forall r (repl : match_obj -> M str) s,
  (forall b t m, forallb p t = true -> match_at r b t = Some m ->
     exists out, repl m = Some out /\ forallb p out = true) ->
  forallb p s = true ->
  exists out, re_sub r repl s = Some out /\ forallb p out = true.
Proof.
  intros r repl s Hrepl Hs. unfold re_sub, re_sub_st.
  assert (H0 : forall b t m (st : unit), forallb p t = true -> match_at r b t = Some m -> True ->
            exists out st', (o <- repl m ;; ret (o, tt)) = Some (out, st')
                            /\ forallb p out = true /\ True).
  { intros b t m st Ht Hm _. destruct (Hrepl b t m Ht Hm) as (out & -> & Ho).
    simpl. eauto. }
  destruct (sub_loop_ok unit (fun _ => True) r
              (fun m (_ : unit) => o <- repl m ;; ret (o, tt)) H0 s [] 0 tt Hs I)
    as (out & st' & E & Ho & _).
  rewrite E. simpl. eauto.
Qed.

(** ** String operations *)

Lemma lstrip_ok : forall s, forallb p s = true -> forallb p (lstrip s) = true.
Proof.
  induction s as [|c s IH]; intros H; simpl; auto.
  destruct (is_space c); auto. simpl in H. apply andb_true_iff in H as [_ H]. auto.
Qed.

Lemma rstrip_ok : forall s, forallb p s = true -> forallb p (rstrip s) = true.
Proof. intros. unfold rstrip. apply rev_ok, lstrip_ok, rev_ok. assumption. Qed.

Lemma strip_ok : forall s, forallb p s = true -> forallb p (strip s) = true.
Proof. intros. unfold strip. apply rstrip_ok, lstrip_ok. assumption. Qed.

Lemma split_aux_ok : forall c s cur,
  forallb p s = true -> forallb p cur = true ->
  oks p (split_aux c s cur).
Proof.
  intros c. induction s as [|x s IH]; intros cur Hs Hc; simpl.
  - constructor; auto. apply rev_ok. exact Hc.
  - simpl in Hs. apply andb_true_iff in Hs as [Hx Hs].
    destruct (Ascii.eqb x c).
    + constructor; [apply rev_ok; exact Hc|]. apply IH; auto.
    + apply IH; auto. simpl. rewrite Hx. exact Hc.
Qed.

Lemma join_ok : forall sep ls,
  forallb p sep = true -> oks p ls ->
  forallb p (join sep ls) = true.
Proof.
  intros sep. induction ls as [|l ls IH]; intros Hs H; [reflexivity|].
  inversion H; subst. destruct ls as [|l' ls]; [exact H2|].
  change (join sep (l :: l' :: ls)) with (l ++ sep ++ join sep (l' :: ls)).
  repeat apply app_ok; auto.
Qed.

Lemma skipn_ok : forall n (s : str), forallb p s = true -> forallb p (skipn n s) = true.
Proof.
  induction n; intros [|c s] H; simpl in *; auto.
  apply andb_true_iff in H as [_ H]. auto.
Qed.

Lemma removelast_ok : forall s : str, forallb p s = true -> forallb p (removelast s) = true.
Proof.
  induction s as [|c s IH]; intros H; simpl; auto.
  simpl in H. apply andb_true_iff in H as [H1 H2].
  destruct s; auto. cbn [forallb]. rewrite H1. auto.
Qed.

Lemma oks_firstn : forall n ls, oks p ls -> oks p (firstn n ls).
Proof.
  unfold oks. induction n; intros [|l ls] H; simpl; auto. inversion H; subst. constructor; auto.
Qed.

Lemma oks_skipn : forall n ls, oks p ls -> oks p (skipn n ls).
Proof.
  unfold oks. induction n; intros [|l ls] H; simpl; auto. inversion H; subst. auto.
Qed.

Lemma oks_app : forall a b, oks p a -> oks p b -> oks p (a ++ b).
Proof. intros. apply Forall_app. auto. Qed.

Lemma oks_one : forall x, forallb p x = true -> oks p [x].
Proof. intros. constructor; auto. Qed.

(** ** Pass 2 *)

Lemma format_table_row_ok : forall row header,
  forallb p row = true -> forallb p (_format_table_row row header) = true.
Proof.
  intros row header H. unfold _format_table_row.
  set (i1 := strip row). assert (H1 : forallb p i1 = true) by (apply strip_ok; exact H).
  set (i2 := if startswith (py "|") i1 then skipn 1 i1 else i1).
  assert (H2 : forallb p i2 = true).
  { unfold i2. destruct (startswith (py "|") i1); auto. apply skipn_ok. exact H1. }
  set (i3 := if endswith (py "|") i2 then removelast i2 else i2).
  assert (H3 : forallb p i3 = true).
  { unfold i3. destruct (endswith (py "|") i2); auto. apply removelast_ok. exact H2. }
  assert (Hs : forallb p (if header then py "||" else py "|") = true).
  { apply lit_ok. destruct header; reflexivity. }
  repeat apply app_ok; auto. apply join_ok; auto.
  apply Forall_map. eapply Forall_impl; [|apply split_aux_ok; [exact H3|reflexivity]].
  intros a Ha. apply strip_ok. exact Ha.
Qed.

Lemma process_table_ok : forall rows,
  oks p rows -> exists out, _process_table rows = Some out /\ oks p out.
Proof.
  intros rows H. unfold _process_table.
  destruct (map fst (filter (fun ir : nat * str => is_sep (snd ir)) (enumerate_from 0 rows)))
    as [|i l] eqn:E.
  - eexists. split; [reflexivity|]. apply Forall_map.
    eapply Forall_impl; [|exact H]. intros. apply format_table_row_ok. assumption.
  - cbn [index nth_error bind ret]. eexists. split; [reflexivity|].
    apply oks_app; apply Forall_map.
    + eapply Forall_impl; [|apply oks_firstn; exact H].
      intros. apply format_table_row_ok. assumption.
    + eapply Forall_impl; [|apply incl_Forall with (l1 := skipn (i + 1) rows)].
      * intros. apply format_table_row_ok. exact H0.
      * intros x Hx. apply filter_In in Hx. tauto.
      * apply oks_skipn. exact H.
Qed.

Lemma flush_table_ok : forall result tb,
  oks p result -> oks p tb ->
  exists result', flush_table result tb = Some (result', []) /\ oks p result'.
Proof.
  intros result tb Hr Ht. unfold flush_table. destruct tb as [|r tb].
  - eexists. split; [reflexivity|]. exact Hr.
  - destruct (process_table_ok (r :: tb) Ht) as (out & -> & Ho).
    cbn [bind ret]. eexists. split; [reflexivity|]. apply oks_app; auto.
Qed.

Lemma blockquote_group : forall content m,
  re_match _BLOCKQUOTE content = Some m ->
  exists c, group m 1 = Some c /\ length c < length content
            /\ (forallb p content = true -> forallb p c = true).
Proof.
  intros content m H.
  destruct (match_group_set _ _ _ _ 1 H eq_refl) as [c Hc].
  exists c. split; auto. split.
  - apply match_at_sound in H as (b' & t' & g' & R & ->).
    unfold _BLOCKQUOTE, many in R. simpl in R.
    destruct R as (b1 & t1 & g1 & (_ & -> & -> & ->) & R).
    destruct R as (b2 & t2 & g2 & (-> & -> & ->) & R).
    destruct R as (b3 & t3 & g3 & (u & -> & _ & _ & _ & -> & ->) & R).
    destruct R as (g4 & (v & -> & _ & _ & _ & -> & ->) & ->).
    unfold group in Hc. simpl in Hc. inversion Hc.
    rewrite length_firstn. simpl. rewrite !length_app. lia.
  - intros Hp. eapply group_ok; [|exact Hc]. eapply match_at_ok; eauto.
Qed.

Lemma flatten_blockquote_ok : forall fuel content,
  length content <= fuel -> forallb p content = true ->
  exists out, flatten_blockquote fuel content = Some out /\ forallb p out = true.
Proof.
  induction fuel as [|fuel IH]; intros content Hl Hp.
  - destruct content; [|simpl in Hl; lia]. simpl. eauto.
  - simpl. destruct (re_match _BLOCKQUOTE content) as [m|] eqn:E; [|eauto].
    destruct (blockquote_group _ _ E) as (c & Hc & Hlen & Hok).
    unfold group_str. rewrite Hc. cbn [bind]. apply IH; [lia|auto].
Qed.

Lemma ul_line_ok : forall prefix content,
  forallb p prefix = true -> forallb p content = true ->
  exists out, ul_line prefix content = Some out /\ forallb p out = true.
Proof.
  intros prefix content Hp Hc. unfold ul_line.
  assert (S1 : forall r, exists out, re_sub r (fun _ => ret []) content = Some out
                              /\ forallb p out = true).
  { intros r. apply re_sub_ok; auto. intros. exists []. split; reflexivity. }
  destruct (is_match (re_match _TASK_CHECKED content)).
  - destruct (S1 _TASK_CHECKED) as (out & -> & Ho). cbn [bind ret].
    eexists. split; [reflexivity|]. repeat apply app_ok; auto. apply lit_ok. reflexivity.
  - destruct (is_match (re_match _TASK_UNCHECKED content)).
    + destruct (S1 _TASK_UNCHECKED) as (out & -> & Ho). cbn [bind ret].
      eexists. split; [reflexivity|]. repeat apply app_ok; auto. apply lit_ok. reflexivity.
    + eexists. split; [reflexivity|]. repeat apply app_ok; auto. apply lit_ok. reflexivity.
Qed.

Lemma list_prefix_ok : forall st, forallb p (_list_prefix st) = true.
Proof.
  intros st. rewrite list_prefix_map. apply lit_ok.
  induction st as [|t st IH]; simpl; auto. destruct t; simpl; auto.
Qed.

Lemma block_step_ok : forall line st,
  forallb p line = true -> state_ok p st ->
  exists st', block_step line st = Some st' /\ state_ok p st'.
Proof.
  intros line [[result stack] tb] Hl [Hr Ht]. unfold block_step.
  destruct (flush_table_ok result tb Hr Ht) as (res1 & F & Hr1).
  destruct (contains _PH_CB line).
  { rewrite F. cbn [bind ret]. eexists. split; [reflexivity|].
    split; [apply oks_app; auto; apply oks_one; auto|constructor]. }
  destruct (is_match (re_match _TABLE_ROW line)).
  { eexists. split; [reflexivity|]. split; auto. apply oks_app; auto. apply oks_one; auto. }
  rewrite F. cbn [bind ret].
  destruct (re_match _HEADING line) as [m|] eqn:EH.
  { destruct (match_group_set _ _ _ _ 1 EH eq_refl) as [g1 H1].
    destruct (match_group_set _ _ _ _ 2 EH eq_refl) as [g2 H2].
    unfold group_str. rewrite H1, H2. cbn [bind ret]. eexists. split; [reflexivity|].
    split; [|constructor]. apply oks_app; auto. apply oks_one.
    repeat apply app_ok; try (apply lit_ok; reflexivity).
    - apply str_of_nat_ok.
    - apply rstrip_ok. eapply group_ok; [|exact H2]. eapply match_at_ok; eauto. }
  destruct (is_match (re_match _HR line) && negb (is_match (re_match _UL_ITEM line))
            && negb (is_match (re_match _OL_ITEM line))).
  { eexists. split; [reflexivity|]. split; [|constructor].
    apply oks_app; auto. apply oks_one. apply lit_ok. reflexivity. }
  destruct (re_match _BLOCKQUOTE line) as [m|] eqn:EB.
  { destruct (blockquote_group _ _ EB) as (c & Hc & Hlen & Hok).
    unfold group_str. rewrite Hc. cbn [bind ret].
    destruct (flatten_blockquote_ok (length c) c (le_n _) (Hok Hl)) as (out & -> & Ho).
    cbn [bind ret]. eexists. split; [reflexivity|]. split; [|constructor].
    apply oks_app; auto. apply oks_one. apply app_ok; auto. apply lit_ok. reflexivity. }
  destruct (re_match _UL_ITEM line) as [m|] eqn:EU.
  { destruct (match_group_set _ _ _ _ 1 EU eq_refl) as [g1 H1].
    destruct (match_group_set _ _ _ _ 3 EU eq_refl) as [g3 H3].
    unfold group_str. rewrite H1, H3. cbn [bind ret].
    rewrite list_item_spec. cbn [bind ret].
    assert (Hg3 : forallb p g3 = true).
    { eapply group_ok; [|exact H3]. eapply match_at_ok; eauto. }
    destruct (ul_line_ok (_list_prefix (stack_after stack (length g1 / 2) ul)) g3
                (list_prefix_ok _) Hg3) as (out & -> & Ho).
    cbn [bind ret]. eexists. split; [reflexivity|]. split; [|constructor].
    apply oks_app; auto. apply oks_one. exact Ho. }
  destruct (re_match _OL_ITEM line) as [m|] eqn:EO.
  { destruct (match_group_set _ _ _ _ 1 EO eq_refl) as [g1 H1].
    destruct (match_group_set _ _ _ _ 3 EO eq_refl) as [g3 H3].
    unfold group_str. rewrite H1, H3. cbn [bind ret].
    rewrite list_item_spec. cbn [bind ret].
    assert (Hg3 : forallb p g3 = true).
    { eapply group_ok; [|exact H3]. eapply match_at_ok; eauto. }
    eexists. split; [reflexivity|]. split; [|constructor].
    apply oks_app; auto. apply oks_one. repeat apply app_ok; auto.
    - apply list_prefix_ok.
    - apply lit_ok. reflexivity. }
  eexists. split; [reflexivity|]. split; [|constructor].
  apply oks_app; auto. apply oks_one. exact Hl.
Qed.

Lemma block_loop_ok : forall lines st,
  oks p lines -> state_ok p st ->
  exists out, block_loop lines st = Some out /\ oks p out.
Proof.
  induction lines as [|l lines IH]; intros st Hl Hs.
  - destruct st as [[result stack] tb]. destruct Hs as [Hr Ht]. simpl.
    destruct (flush_table_ok result tb Hr Ht) as (res1 & -> & Hr1).
    cbn [bind ret]. eauto.
  - inversion Hl; subst. cbn [block_loop].
    destruct (block_step_ok l st H1 Hs) as (st' & -> & Hs'). cbn [bind]. apply IH; auto.
Qed.

(** ** Pass 1 *)

Lemma fence_start_groups : forall l m,
  re_match _FENCE_START l = Some m ->
  exists c g1 g2, group m 1 = Some (c :: g1) /\ group m 2 = Some g2
                  /\ forallb lang_char g2 = true
                  /\ (forallb p l = true -> forallb p g2 = true).
Proof.
  intros l m H.
  destruct (match_group_set _ _ _ _ 2 H eq_refl) as [g2 H2].
  assert (H1 : (exists c g1, group m 1 = Some (c :: g1)) /\ forallb lang_char g2 = true).
  { pose proof H as H0.
    apply match_at_sound in H0 as (b' & t' & g' & R & ->).
    unfold _FENCE_START, at_least, many in R. simpl in R.
    destruct R as (b1 & t1 & g1 & (_ & -> & -> & ->) & R).
    destruct R as (b2 & t2 & g2' & (g3 & R1 & ->) & R).
    destruct R as (b3 & t3 & g4 & (g5 & (v & -> & Hv & _ & _ & -> & ->) & ->) & (_ & _ & _ & ->)).
    unfold group in *. simpl in *.
    assert (exists u, l = u ++ v ++ t3 /\ 3 <= length u) as (u & -> & Hu).
    { destruct R1 as [(u & -> & _ & Hu & _ & _ & _)|(u & -> & _ & Hu & _ & _ & _)]; eauto. }
    rewrite firstn_app_sub in H2. inversion H2; subst g2.
    split; [|exact Hv].
    rewrite firstn_app_sub. destruct u as [|c u]; [simpl in Hu; lia|]. eauto. }
  destruct H1 as ((c & g1 & H1) & HL). exists c, g1, g2. repeat split; auto.
  intros Hp. eapply group_ok; [|exact H2]. eapply match_at_ok; eauto.
Qed.

Lemma collect_body_ok : forall c lines acc body rest,
  collect_body c lines acc = (body, rest) ->
  oks p lines -> oks p acc ->
  oks p body /\ oks p rest /\ length rest <= length lines.
Proof.
  intros c. induction lines as [|l lines IH]; intros acc body rest H Hl Ha; simpl in H.
  - inversion H; subst. split; [auto|split; [constructor|auto]].
  - inversion Hl; subst. destruct (is_match (re_match (close_fence c) l)).
    + inversion H; subst. split; [auto|split; [auto|simpl; lia]].
    + apply IH in H; auto.
      * destruct H as (? & ? & ?). split; [auto|split; [auto|simpl; lia]].
      * apply oks_app; auto. apply oks_one; auto.
Qed.

Lemma code_block_parts : forall lang body,
  forallb p lang = true -> oks p body -> p LF = true ->
  forallb p (code_block lang body) = true.
Proof.
  intros lang body Hl Hb Hlf. unfold code_block.
  assert (L : forallb p (py "\n") = true) by (simpl; rewrite Hlf; reflexivity).
  repeat apply app_ok; auto.
  - destruct lang; [apply lit_ok; reflexivity|].
    repeat apply app_ok; auto; apply lit_ok; reflexivity.
  - apply join_ok; auto.
  - change (py "\n{code}") with (py "\n" ++ py "{code}"). apply app_ok; auto.
    apply lit_ok. reflexivity.
Qed.

Lemma extract_loop_ok : forall fuel lines result code_map counter,
  length lines <= fuel -> oks p lines ->
  extract_inv p result code_map counter ->
  exists res m, extract_loop fuel lines result code_map counter = Some (res, m)
                /\ extract_inv p res m (length m).
Proof.
  induction fuel as [|fuel IH]; intros lines result code_map counter Hf Hl Inv.
  - destruct lines; [|simpl in Hf; lia]. simpl. exists result, code_map.
    split; auto. destruct Inv as (-> & ?). split; auto.
  - destruct lines as [|l lines].
    { simpl. exists result, code_map. split; auto. destruct Inv as (-> & ?). split; auto. }
    inversion Hl; subst. cbn [extract_loop].
    destruct Inv as (Hc & K & Hin & B & R).
    destruct (re_match _FENCE_START l) as [m|] eqn:E.
    + destruct (fence_start_groups _ _ E) as (c & g1 & g2 & G1 & G2 & HL & Hg2).
      unfold group_str. rewrite G1, G2. cbn [bind index nth_error].
      destruct (collect_body c lines []) as [body rest] eqn:C.
      destruct (collect_body_ok _ _ _ _ _ C H2 (Forall_nil _)) as (Hb & Hr & Hlen).
      simpl in Hf.
      apply IH; [lia|auto|].
      subst counter. rewrite dict_set_new by (auto using tag_CB).
      split; [rewrite length_app; simpl; lia|].
      split; [apply keys_of_snoc; exact K|].
      split; [|split].
      * intros kv Hkv. apply in_app_or in Hkv as [Hkv|[<-|[]]].
        -- apply in_or_app. left. auto.
        -- apply in_or_app. right. left. reflexivity.
      * intros kv Hkv. apply in_app_or in Hkv as [Hkv|[<-|[]]]; [auto|].
        exists (strip g2), body. repeat split; auto.
        -- rewrite strip_lang by exact HL. exact HL.
        -- apply strip_ok. auto.
      * apply oks_app; auto. apply oks_one. apply ph_ok. apply tag_CB.
    + simpl in Hf. apply IH; [lia|auto|].
      split; [auto|]. split; [auto|]. split; [|split; auto].
      * intros kv Hkv. apply in_or_app. left. auto.
      * apply oks_app; auto. apply oks_one. auto.
Qed.

(** ** Passes 3 to 6 *)

Lemma replacer_ok : forall b t m st,
  forallb p t = true -> match_at _INLINE_CODE b t = Some m -> vals_ok p (snd st) ->
  exists out st', replacer m st = Some (out, st')
                  /\ forallb p out = true /\ vals_ok p (snd st').
Proof.
  intros b t m [counter imap] Ht Hm V. unfold replacer.
  destruct (match_group_set _ _ _ _ 1 Hm eq_refl) as [c Hc].
  unfold group_str. rewrite Hc. cbn [bind ret].
  eexists _, _. split; [reflexivity|]. split; [apply ph_ok, tag_IC|].
  cbn [snd]. apply dict_set_ok; auto.
  assert (C : forallb p c = true).
  { eapply group_ok; [|exact Hc]. eapply match_at_ok; eauto. }
  repeat apply app_ok; try (apply lit_ok; reflexivity).
  destruct (contains (py "{") c || contains (py "}") c); auto.
  repeat apply str_replace_ok; auto; apply lit_ok; reflexivity.
Qed.

Lemma extract_inline_code_ok : forall line imap,
  forallb p line = true -> vals_ok p imap ->
  exists l m, _extract_inline_code line imap = Some (l, m)
              /\ forallb p l = true /\ vals_ok p m.
Proof.
  intros line imap Hl V. unfold _extract_inline_code, re_sub_st.
  destruct (sub_loop_ok ph_state (fun st => vals_ok p (snd st)) _INLINE_CODE replacer
              replacer_ok line [] 0 (length imap, imap) Hl V)
    as (out & [c m] & -> & Ho & Hm).
  cbn [bind ret]. eauto.
Qed.

Lemma img_replacer_ok : forall b t m st,
  forallb p t = true -> match_at _IMAGE b t = Some m -> vals_ok p (snd st) ->
  exists out st', img_replacer m st = Some (out, st')
                  /\ forallb p out = true /\ vals_ok p (snd st').
Proof.
  intros b t m [counter lmap] Ht Hm V. unfold img_replacer. cbn [ret].
  eexists _, _. split; [reflexivity|]. split; [apply ph_ok, tag_LK|].
  cbn [snd]. apply dict_set_ok; auto.
  assert (G : groups_ok p (m_groups m)) by (eapply match_at_ok; eauto).
  repeat apply app_ok; try (apply lit_ok; reflexivity); apply fmt_ok; auto.
Qed.

Lemma link_replacer_ok : forall b t m st,
  forallb p t = true -> match_at _LINK b t = Some m -> vals_ok p (snd st) ->
  exists out st', link_replacer m st = Some (out, st')
                  /\ forallb p out = true /\ vals_ok p (snd st').
Proof.
  intros b t m [counter lmap] Ht Hm V. unfold link_replacer. cbn [ret].
  eexists _, _. split; [reflexivity|]. split; [apply ph_ok, tag_LK|].
  cbn [snd]. apply dict_set_ok; auto.
  assert (G : groups_ok p (m_groups m)) by (eapply match_at_ok; eauto).
  repeat apply app_ok; try (apply lit_ok; reflexivity); apply fmt_ok; auto.
Qed.

Lemma extract_links_ok : forall line lmap,
  forallb p line = true -> vals_ok p lmap ->
  exists l m, _extract_links line lmap = Some (l, m)
              /\ forallb p l = true /\ vals_ok p m.
Proof.
  intros line lmap Hl V. unfold _extract_links, re_sub_st.
  destruct (sub_loop_ok ph_state (fun st => vals_ok p (snd st)) _IMAGE img_replacer
              img_replacer_ok line [] 0 (length lmap, lmap) Hl V)
    as (l1 & st1 & -> & Ho1 & V1).
  cbn [bind ret].
  destruct (sub_loop_ok ph_state (fun st => vals_ok p (snd st)) _LINK link_replacer
              link_replacer_ok l1 [] 0 st1 Ho1 V1)
    as (l2 & [c m] & -> & Ho2 & V2).
  cbn [bind ret]. eauto.
Qed.

Lemma store_bold_ok : forall r (wiki : match_obj -> str),
  (forall m, groups_ok p (m_groups m) -> forallb p (wiki m) = true) ->
  forall b t m st,
  forallb p t = true -> match_at r b t = Some m -> vals_ok p (snd st) ->
  exists out st', store_bold wiki m st = Some (out, st')
                  /\ forallb p out = true /\ vals_ok p (snd st').
Proof.
  intros r wiki Hw b t m [counter bmap] Ht Hm V. unfold store_bold. cbn [ret].
  eexists _, _. split; [reflexivity|]. split; [apply ph_ok; right; right; right; reflexivity|].
  cbn [snd]. apply dict_set_ok; auto. apply Hw. eapply match_at_ok; eauto.
Qed.

Lemma formatting_ok : forall line,
  forallb p line = true ->
  exists l, _process_inline_formatting line = Some l /\ forallb p l = true.
Proof.
  intros line Hl. unfold _process_inline_formatting, re_sub_st.
  assert (W1 : forall m, groups_ok p (m_groups m) ->
             forallb p (py "*_" ++ fmt (group m 2) ++ py "_*") = true).
  { intros m G. repeat apply app_ok; try (apply lit_ok; reflexivity). apply fmt_ok. exact G. }
  assert (W2 : forall m, groups_ok p (m_groups m) ->
             forallb p (py "*" ++ fmt (group m 2) ++ py "*") = true).
  { intros m G. repeat apply app_ok; try (apply lit_ok; reflexivity). apply fmt_ok. exact G. }
  assert (V0 : vals_ok p (snd (0, @nil (str * str)))) by (intros kv []).
  destruct (sub_loop_ok ph_state (fun st => vals_ok p (snd st)) _BOLD_ITALIC _
              (store_bold_ok _BOLD_ITALIC _ W1) line [] 0 (0, []) Hl V0)
    as (l1 & st1 & -> & Ho1 & V1).
  cbn [bind ret].
  destruct (sub_loop_ok ph_state (fun st => vals_ok p (snd st)) _BOLD _
              (store_bold_ok _BOLD _ W2) l1 [] 0 st1 Ho1 V1)
    as (l2 & [c bmap] & -> & Ho2 & V2).
  cbn [bind ret].
  destruct (re_sub_ok _ITALIC italic_repl l2) as (l3 & -> & Ho3); auto.
  { intros b t m Ht Hm. unfold italic_repl. eexists. split; [reflexivity|].
    assert (G : groups_ok p (m_groups m)) by (eapply match_at_ok; eauto).
    repeat apply app_ok; try (apply lit_ok; reflexivity).
    destruct (group m 1) eqn:E1.
    - simpl. eapply group_ok; eauto.
    - apply fmt_ok. exact G. }
  cbn [bind ret].
  destruct (re_sub_ok _STRIKE (fun m => ret (py "-" ++ fmt (group m 1) ++ py "-")) l3)
    as (l4 & -> & Ho4); auto.
  { intros b t m Ht Hm. eexists. split; [reflexivity|].
    assert (G : groups_ok p (m_groups m)) by (eapply match_at_ok; eauto).
    repeat apply app_ok; try (apply lit_ok; reflexivity). apply fmt_ok. exact G. }
  cbn [bind ret]. eexists. split; [reflexivity|]. apply restore_ok; auto.
Qed.

Lemma inline_line_ok : forall line imap lmap,
  forallb p line = true -> vals_ok p imap -> vals_ok p lmap ->
  exists l im lm, inline_line line imap lmap = Some (l, im, lm)
                  /\ forallb p l = true /\ vals_ok p im /\ vals_ok p lm.
Proof.
  intros line imap lmap Hl Vi Vl. unfold inline_line.
  destruct (extract_inline_code_ok line imap Hl Vi) as (l1 & im & -> & H1 & Vi').
  cbn [bind ret].
  destruct (extract_links_ok l1 lmap H1 Vl) as (l2 & lm & -> & H2 & Vl').
  cbn [bind ret].
  destruct (formatting_ok l2 H2) as (l3 & -> & H3).
  cbn [bind ret]. eexists _, _, _. split; [reflexivity|].
  repeat split; auto. repeat apply restore_ok; auto.
Qed.

Lemma inline_loop_ok : forall lines acc imap lmap,
  oks p lines -> oks p acc -> vals_ok p imap -> vals_ok p lmap ->
  exists out, inline_loop lines acc imap lmap = Some out /\ oks p out.
Proof.
  induction lines as [|l lines IH]; intros acc imap lmap Hl Ha Vi Vl.
  - simpl. eauto.
  - inversion Hl; subst. cbn [inline_loop].
    destruct (contains _PH_CB l).
    + apply IH; auto. apply oks_app; auto. apply oks_one; auto.
    + destruct (inline_line_ok l imap lmap H1 Vi Vl) as (l' & im & lm & -> & H' & Vi' & Vl').
      cbn [bind ret]. apply IH; auto. apply oks_app; auto. apply oks_one; auto.
Qed.
End Closure.

(* ------------------------------------------------------------------ *)
(** * [convert] *)
(* ------------------------------------------------------------------ *)

Lemma splitlines_aux_ok : forall s cur,
  forallb no_break cur = true -> oks no_break (splitlines_aux s cur).
Proof.
  assert (R : forall cur, forallb no_break cur = true -> forallb no_break (rev cur) = true).
  { intros cur H. rewrite forallb_forall in *. intros x Hx. apply H. apply in_rev. exact Hx. }
  assert (G : forall n s cur, length s <= n -> forallb no_break cur = true ->
            oks no_break (splitlines_aux s cur)).
  { induction n as [|n IH]; intros s cur Hn Hc.
    - destruct s; [|simpl in Hn; lia]. simpl.
      destruct cur; [constructor|constructor; [apply R; exact Hc|constructor]].
    - destruct s as [|c s]; simpl.
      + destruct cur; [constructor|constructor; [apply R; exact Hc|constructor]].
      + simpl in Hn. destruct (Ascii.eqb c CR).
        * destruct s as [|d s].
          -- constructor; [apply R; exact Hc|]. apply IH; [simpl; lia|reflexivity].
          -- simpl in Hn.
             destruct (Ascii.eqb d LF);
               (constructor; [apply R; exact Hc|]; apply IH; [simpl; lia|reflexivity]).
        * destruct (is_linebreak c) eqn:E.
          -- constructor; [apply R; exact Hc|]. apply IH; [simpl; lia|reflexivity].
          -- apply IH; [lia|]. simpl. unfold no_break at 1. rewrite E. simpl. exact Hc. }
  intros s cur. apply (G (length s)). lia.
Qed.

Lemma splitlines_ok : forall s, oks no_break (splitlines s).
Proof. intros. apply splitlines_aux_ok. reflexivity. Qed.

Lemma literal_no_break : forall c, literal c = true -> no_break c = true.
Proof. intros c. destruct c as [[] [] [] [] [] [] [] []]; vm_compute; congruence. Qed.

Lemma literal_lf_or : forall c, literal c = true -> lf_or_no_break c = true.
Proof. intros c H. unfold lf_or_no_break. rewrite literal_no_break; auto. Qed.

(** The stages of [convert] on any input. *)
Lemma convert_stages : forall (p : ascii -> bool) s,
  (forall c, literal c = true -> p c = true) ->
  oks p (splitlines s) ->
  exists lines1 code_map lines2 result_lines,
    _extract_code_blocks (splitlines s) = Some (lines1, code_map)
    /\ _process_block_structure lines1 = Some lines2
    /\ inline_loop lines2 [] [] [] = Some result_lines
    /\ extract_inv p lines1 code_map (length code_map)
    /\ oks p result_lines
    /\ convert s = Some (if endswith (py "\n") s
                         then rendered result_lines code_map ++ py "\n"
                         else rendered result_lines code_map).
Proof.
  intros p s Hlit Hs.
  assert (I0 : extract_inv p [] [] 0).
  { split; [reflexivity|]. split; [reflexivity|]. split; [intros kv []|].
    split; [intros kv []|constructor]. }
  destruct (extract_loop_ok p Hlit (length (splitlines s)) (splitlines s) [] [] 0
              (le_n _) Hs I0) as (lines1 & code_map & E1 & Inv).
  assert (O1 : oks p lines1) by (destruct Inv as (_ & _ & _ & _ & O); exact O).
  destruct (block_loop_ok p Hlit lines1 ([], [], []) O1) as (lines2 & E2 & O2).
  { split; constructor. }
  destruct (inline_loop_ok p Hlit lines2 [] [] [] O2) as (result_lines & E3 & O3).
  { constructor. } { intros kv []. } { intros kv []. }
  exists lines1, code_map, lines2, result_lines.
  repeat split; auto; try (destruct Inv as (A & B & C & D & F); auto).
  unfold convert. unfold _extract_code_blocks in *. rewrite E1. cbn [bind ret].
  unfold _process_block_structure in *. rewrite E2. cbn [bind ret].
  rewrite E3. cbn [bind ret]. reflexivity.
Qed.

Lemma oks_true : forall ls, oks (fun _ => true) ls.
Proof. induction ls; constructor; auto. induction a; auto. Qed.

Lemma convert_total : forall s, exists out, convert s = Some out.
Proof.
  intros s.
  destruct (convert_stages (fun _ => true) s (fun _ _ => eq_refl) (oks_true _))
    as (l1 & cm & l2 & rl & _ & _ & _ & _ & _ & E).
  eauto.
Qed.

(** ** Lines that match nothing *)

Lemma search_none : forall r t before,
  search_from r before t = None ->
  forall p1 p2, t = p1 ++ p2 -> match_at r (rev p1 ++ before) p2 = None.
Proof.
  induction t as [|c t IH]; intros before H p1 p2 E.
  - destruct p1; [|discriminate]. simpl in E. subst p2. simpl in *.
    destruct (match_at r before []); [discriminate|reflexivity].
  - simpl in H. destruct (match_at r before (c :: t)) eqn:M; [discriminate|].
    destruct p1 as [|x p1]; simpl in E.
    + subst p2. exact M.
    + inversion E; subst. simpl. rewrite <- app_assoc. simpl. apply IH; auto.
Qed.

Lemma sub_search_none : forall (S : Type) r (repl : match_obj -> S -> M (str * S)) t st,
  is_match (re_search r t) = false -> sub_loop r repl [] t 0 st = Some (t, st).
Proof.
  intros S r repl t st H. apply sub_loop_nomatch. intros p1 p2 E.
  unfold re_search in H. destruct (search_from r [] t) eqn:F; [discriminate|].
  eapply search_none; eauto.
Qed.

Lemma re_sub_search_none : forall r (repl : match_obj -> M str) t,
  is_match (re_search r t) = false -> re_sub r repl t = Some t.
Proof.
  intros r repl t H. unfold re_sub, re_sub_st. rewrite sub_search_none by exact H. reflexivity.
Qed.

Lemma is_match_false : forall o, negb (is_match o) = true -> o = None.
Proof. intros [m|] H; [discriminate|reflexivity]. Qed.

Lemma plain_line_parts : forall l, plain_line l = true ->
  re_match _FENCE_START l = None /\ contains _PH_CB l = false
  /\ re_match _TABLE_ROW l = None /\ re_match _HEADING l = None
  /\ re_match _HR l = None /\ re_match _BLOCKQUOTE l = None
  /\ re_match _UL_ITEM l = None /\ re_match _OL_ITEM l = None
  /\ is_match (re_search _INLINE_CODE l) = false
  /\ is_match (re_search _IMAGE l) = false
  /\ is_match (re_search _LINK l) = false
  /\ is_match (re_search _BOLD_ITALIC l) = false
  /\ is_match (re_search _BOLD l) = false
  /\ is_match (re_search _ITALIC l) = false
  /\ is_match (re_search _STRIKE l) = false.
Proof.
  intros l H. unfold plain_line in H.
  repeat (apply andb_true_iff in H; destruct H as [H ?]).
  repeat split; try (apply is_match_false; assumption);
    try (apply negb_true_iff; assumption).
Qed.

Lemma extract_loop_plain : forall lines fuel result code_map counter,
  length lines <= fuel -> forallb plain_line lines = true ->
  extract_loop fuel lines result code_map counter = Some (result ++ lines, code_map).
Proof.
  induction lines as [|l lines IH]; intros fuel result code_map counter Hf H.
  - destruct fuel; simpl; rewrite app_nil_r; reflexivity.
  - cbn [forallb] in H. apply andb_true_iff in H as [Hl H].
    destruct fuel; [simpl in Hf; lia|]. simpl in Hf. cbn [extract_loop].
    apply plain_line_parts in Hl as (-> & _). rewrite IH by (auto; lia).
    rewrite <- app_assoc. reflexivity.
Qed.

Lemma block_step_plain : forall l result stack,
  plain_line l = true ->
  block_step l (result, stack, []) = Some (result ++ [l], [], []).
Proof.
  intros l result stack H.
  apply plain_line_parts in H as (_ & P & T & Hd & Hr & B & U & O & _).
  unfold block_step. rewrite P, T, Hd, Hr, B, U, O. reflexivity.
Qed.

Lemma block_loop_plain : forall lines result stack,
  forallb plain_line lines = true ->
  block_loop lines (result, stack, []) = Some (result ++ lines).
Proof.
  induction lines as [|l lines IH]; intros result stack H.
  - simpl. rewrite app_nil_r. reflexivity.
  - cbn [forallb] in H. apply andb_true_iff in H as [Hl H]. cbn [block_loop].
    rewrite block_step_plain by exact Hl. cbn [bind]. rewrite IH by exact H.
    rewrite <- app_assoc. reflexivity.
Qed.

Lemma inline_line_plain : forall l,
  plain_line l = true -> inline_line l [] [] = Some (l, [], []).
Proof.
  intros l H.
  apply plain_line_parts in H as (_ & _ & _ & _ & _ & _ & _ & _ & C & I & L & BI & B & It & S).
  unfold inline_line, _extract_inline_code, _extract_links, _process_inline_formatting, re_sub_st.
  rewrite sub_search_none by exact C. cbn [bind ret].
  rewrite sub_search_none by exact I. cbn [bind ret].
  rewrite sub_search_none by exact L. cbn [bind ret].
  rewrite sub_search_none by exact BI. cbn [bind ret].
  rewrite sub_search_none by exact B. cbn [bind ret].
  rewrite re_sub_search_none by exact It. cbn [bind ret].
  rewrite re_sub_search_none by exact S. reflexivity.
Qed.

Lemma inline_loop_plain : forall lines acc,
  forallb plain_line lines = true ->
  inline_loop lines acc [] [] = Some (acc ++ lines).
Proof.
  induction lines as [|l lines IH]; intros acc H.
  - simpl. rewrite app_nil_r. reflexivity.
  - cbn [forallb] in H. apply andb_true_iff in H as [Hl H]. cbn [inline_loop].
    pose proof (plain_line_parts _ Hl) as (_ & P & _). rewrite P.
    rewrite inline_line_plain by exact Hl. cbn [bind ret]. rewrite IH by exact H.
    rewrite <- app_assoc. reflexivity.
Qed.

(** C1. [convert] returns a string for every input: no index is out of
    range, no group is missing where it is used and every loop ends. And
    a text none of whose lines matches a pattern is returned as it is,
    line by line. *)
Theorem C1_total_and_passthrough :
  (forall s, exists out, convert s = Some out)
  /\ (forall s,
        forallb plain_line (splitlines s) = true ->
        convert s
        = Some (join (py "\n") (splitlines s)
                ++ (if endswith (py "\n") s then py "\n" else []))).
Proof.
  split; [exact convert_total|].
  intros s H. unfold convert, _extract_code_blocks, _process_block_structure.
  rewrite extract_loop_plain by auto. cbn [bind ret app].
  rewrite block_loop_plain by auto. cbn [bind ret app].
  rewrite inline_loop_plain by auto. cbn [bind ret app].
  unfold _restore_placeholders. cbn [fold_left].
  destruct (endswith (py "\n") s); [reflexivity|rewrite app_nil_r; reflexivity].
Qed.

Lemma C1_total_and_passthrough_witness :
  convert (py "Hello, world.\r\n  2 + 2 = 4\n") = Some (py "Hello, world.\n  2 + 2 = 4\n").
Proof.
  apply (proj2 C1_total_and_passthrough (py "Hello, world.\r\n  2 + 2 = 4\n")).
  reflexivity.
Defined.

(** ** Line breaks of the output *)

Lemma oks_weaken : forall (p q : ascii -> bool) ls,
  (forall c, p c = true -> q c = true) -> oks p ls -> oks q ls.
Proof.
  intros p q ls H. unfold oks. apply Forall_impl. intros a. apply forallb_impl. exact H.
Qed.

Lemma rendered_ok : forall result_lines code_map,
  oks no_break result_lines -> blocks_ok no_break code_map ->
  forallb lf_or_no_break (rendered result_lines code_map) = true.
Proof.
  intros rl cm O B. unfold rendered.
  assert (W : forall c, no_break c = true -> lf_or_no_break c = true).
  { intros c H. unfold lf_or_no_break. rewrite H. reflexivity. }
  apply (restore_ok lf_or_no_break).
  - intros kv Hin. destruct (B kv Hin) as (lang & body & -> & _ & Hl & Hb).
    apply (code_block_parts lf_or_no_break literal_lf_or).
    + revert Hl. apply forallb_impl. exact W.
    + eapply oks_weaken; eauto.
    + reflexivity.
  - apply (join_ok lf_or_no_break); [reflexivity|]. eapply oks_weaken; eauto.
Qed.

(** C10. The lines of the input, as [splitlines] cuts them, hold no line
    boundary character, and every line boundary character of the output
    is the newline [\n]: the carriage returns and the other boundary
    characters of the input, those inside fenced blocks included, are not
    in the output. *)
Theorem C10_line_breaks :
  forall s,
    oks no_break (splitlines s)
    /\ exists out,
         convert s = Some out
         /\ forall c, In c out -> is_linebreak c = true -> c = LF.
Proof.
  intros s. split; [apply splitlines_ok|].
  destruct (convert_stages no_break s literal_no_break (splitlines_ok s))
    as (l1 & cm & l2 & rl & _ & _ & _ & Inv & O & E).
  destruct Inv as (_ & _ & _ & B & _).
  pose proof (rendered_ok rl cm O B) as R.
  eexists. split; [exact E|].
  intros c Hin Hb.
  assert (Q : lf_or_no_break c = true).
  { rewrite forallb_forall in R. destruct (endswith (py "\n") s).
    - apply in_app_or in Hin as [Hin|[<-|[]]]; [apply R; exact Hin|reflexivity].
    - apply R. exact Hin. }
  unfold lf_or_no_break, no_break in Q. rewrite Hb in Q. simpl in Q.
  apply Ascii.eqb_eq. exact Q.
Qed.

(* ------------------------------------------------------------------ *)
(** * The final newline *)
(* ------------------------------------------------------------------ *)

Lemma endswith_snoc : forall s c, endswith [c] (s ++ [c]) = true.
Proof.
  intros s c. unfold endswith. rewrite rev_app_distr. simpl.
  rewrite Ascii.eqb_refl. reflexivity.
Qed.

Lemma endswith_last : forall s c, endswith [c] s = true -> last s SP = c.
Proof.
  intros s c H. unfold endswith in H. simpl in H.
  destruct (rev s) as [|x r] eqn:E; [discriminate|].
  apply andb_true_iff in H as [H _]. apply Ascii.eqb_eq in H. subst x.
  rewrite <- (rev_involutive s), E. simpl. apply last_last.
Qed.

Lemma endswith_no_break : forall s, ends_with_break s = false -> endswith (py "\n") s = false.
Proof.
  intros s H. destruct (endswith (py "\n") s) eqn:E; [|reflexivity].
  apply endswith_last in E. unfold ends_with_break in H. rewrite E in H. discriminate.
Qed.

Lemma last_cons2 : forall (c d : ascii) s, last (c :: d :: s) SP = last (d :: s) SP.
Proof. reflexivity. Qed.

(** A newline added to a text that does not end with a line boundary adds
    no line. *)
Lemma splitlines_aux_lf : forall n s cur,
  length s <= n -> s <> [] \/ cur <> [] -> ends_with_break s = false ->
  splitlines_aux (s ++ [LF]) cur = splitlines_aux s cur.
Proof.
  induction n as [|n IH]; intros s cur Hn Hne Hb.
  - destruct s; [|simpl in Hn; lia]. destruct Hne as [Hne|Hne]; [congruence|].
    destruct cur; [congruence|]. reflexivity.
  - destruct s as [|c s].
    + destruct Hne as [Hne|Hne]; [congruence|]. destruct cur; [congruence|]. reflexivity.
    + simpl in Hn. destruct s as [|d s].
      * unfold ends_with_break in Hb. simpl in Hb. simpl app. cbn [splitlines_aux].
        destruct (Ascii.eqb c CR) eqn:Ec.
        { apply Ascii.eqb_eq in Ec. subst c. discriminate. }
        rewrite Hb. reflexivity.
      * assert (Hb' : ends_with_break (d :: s) = false).
        { unfold ends_with_break in *. rewrite last_cons2 in Hb. exact Hb. }
        change ((c :: d :: s) ++ [LF]) with (c :: d :: (s ++ [LF])).
        cbn [splitlines_aux].
        destruct (Ascii.eqb c CR) eqn:Ec.
        -- destruct (Ascii.eqb d LF) eqn:Ed.
           ++ f_equal. destruct s as [|e s].
              { apply Ascii.eqb_eq in Ed. subst d. discriminate. }
              apply IH; [simpl in *; lia|left; discriminate|].
              unfold ends_with_break in *. rewrite last_cons2 in Hb'. exact Hb'.
           ++ f_equal. apply (IH (d :: s)); [simpl in *; lia|left; discriminate|exact Hb'].
        -- destruct (is_linebreak c).
           ++ f_equal. apply (IH (d :: s)); [simpl in *; lia|left; discriminate|exact Hb'].
           ++ apply (IH (d :: s)); [simpl in *; lia|left; discriminate|exact Hb'].
Qed.

Lemma splitlines_lf : forall s,
  s <> [] -> ends_with_break s = false -> splitlines (s ++ py "\n") = splitlines s.
Proof.
  intros s Hne Hb. unfold splitlines. apply (splitlines_aux_lf (length s)); auto.
Qed.

(** The text of [convert] is the rendered text, with a newline when the
    input ends with one. *)
Lemma convert_rendered : forall s,
  exists lines1 code_map lines2 result_lines,
    _extract_code_blocks (splitlines s) = Some (lines1, code_map)
    /\ _process_block_structure lines1 = Some lines2
    /\ inline_loop lines2 [] [] [] = Some result_lines
    /\ extract_inv (fun _ => true) lines1 code_map (length code_map)
    /\ convert s = Some (if endswith (py "\n") s
                         then rendered result_lines code_map ++ py "\n"
                         else rendered result_lines code_map).
Proof.
  intros s.
  destruct (convert_stages (fun _ => true) s (fun _ _ => eq_refl) (oks_true _))
    as (l1 & cm & l2 & rl & E1 & E2 & E3 & Inv & _ & E).
  exists l1, cm, l2, rl. auto.
Qed.

(** [convert] depends on its text through [splitlines] and the final
    newline only. *)
Lemma convert_lf : forall s,
  ends_with_break s = false ->
  convert (s ++ py "\n") = (out <- convert s ;; ret (out ++ py "\n")).
Proof.
  intros s Hb. destruct s as [|c s]; [reflexivity|].
  unfold convert at 1.
  rewrite splitlines_lf by (auto; discriminate).
  change (py "\n") with [LF]. rewrite endswith_snoc.
  destruct (convert_rendered (c :: s)) as (l1 & cm & l2 & rl & E1 & E2 & E3 & _ & E).
  rewrite E. rewrite E1. cbn [bind ret]. rewrite E2. cbn [bind ret]. rewrite E3.
  cbn [bind ret]. pose proof (endswith_no_break _ Hb) as Hf.
  change (py "\n") with [LF] in *. rewrite Hf. reflexivity.
Qed.

(** C3. The code misses the mirror of the final newline on an input
    without a final line break whose last line is a table separator row
    after an empty line: [convert] reads that the input does not end with
    a newline and appends none, but [_process_table] drops the separator
    row, so the joined lines end with the newline that was written after
    the empty line. The input ends with no line boundary of any kind and
    the output ends with a newline. *)
Theorem C3_final_newline_missed :
  convert (py "a\n\n|---|") = Some (py "a\n")
  /\ endswith (py "\n") (py "a\n\n|---|") = false
  /\ ends_with_break (py "a\n\n|---|") = false
  /\ endswith (py "\n") (py "a\n") = true.
Proof. repeat split; vm_compute; reflexivity. Qed.

(** The direction of the final newline rule that holds on every input:
    when the input ends with a newline, so does the output; and adding a
    newline to an input that does not end with a line boundary adds
    exactly that newline to the output. *)
Lemma final_newline_kept : forall s,
  (endswith (py "\n") s = true ->
     exists out, convert s = Some out /\ endswith (py "\n") out = true)
  /\ (ends_with_break s = false ->
     exists out, convert s = Some out /\ convert (s ++ py "\n") = Some (out ++ py "\n")).
Proof.
  intros s. destruct (convert_rendered s) as (l1 & cm & l2 & rl & _ & _ & _ & _ & E).
  split.
  - intros H. rewrite H in E. eexists. split; [exact E|].
    change (py "\n") with [LF]. apply endswith_snoc.
  - intros H. eexists. split; [exact E|].
    rewrite convert_lf by exact H. rewrite E. reflexivity.
Qed.

(* ------------------------------------------------------------------ *)
(** * Fenced blocks in the output *)
(* ------------------------------------------------------------------ *)

(** ** The key of a block is restored to the block *)

Lemma app_inv_length : forall (A : Type) (a a' b b' : list A),
  length a = length a' -> a ++ b = a' ++ b' -> a = a' /\ b = b'.
Proof.
  induction a as [|x a IH]; intros [|y a'] b b' Hl H; simpl in *; try discriminate; auto.
  inversion H; subst. destruct (IH a' b b') as [-> ->]; auto.
Qed.

Lemma keys_of_split : forall tag m1 k v m2,
  keys_of tag (m1 ++ (k, v) :: m2) ->
  keys_of tag m1 /\ k = _ph tag (length m1)
  /\ forall kv, In kv m2 -> exists j, fst kv = _ph tag j.
Proof.
  unfold keys_of. intros tag m1 k v m2 K.
  rewrite map_app, length_app in K. cbn [map length fst] in K.
  rewrite seq_app, map_app in K. cbn [seq map Nat.add] in K.
  apply app_inv_length in K as [K1 K2]; [|rewrite !length_map, length_seq; reflexivity].
  inversion K2 as [[Ek Em]]. repeat split; auto.
  intros kv Hin. apply (in_map fst) in Hin. rewrite Em in Hin.
  apply in_map_iff in Hin as (j & E & _). eauto.
Qed.

Lemma restore_cons : forall s kv m,
  _restore_placeholders s (kv :: m)
  = _restore_placeholders (str_replace (fst kv) (snd kv) s) m.
Proof. reflexivity. Qed.

Lemma restore_keys_nul_free : forall tag m s,
  is_tag tag -> (forall kv, In kv m -> exists j, fst kv = _ph tag j) ->
  nul_free s = true -> _restore_placeholders s m = s.
Proof.
  intros tag m s T H Hs. unfold _restore_placeholders.
  induction m as [|[k v] m IH]; simpl; auto.
  destruct (H (k, v) (or_introl eq_refl)) as (j & Ej). simpl in Ej. subst k.
  rewrite (ph_shape tag j T). rewrite str_replace_nul_free; auto using ph_body_nul_free.
  apply IH. intros kv Hin. apply H. right. exact Hin.
Qed.

Lemma restore_key : forall tag m k v,
  is_tag tag -> keys_of tag m -> In (k, v) m -> nul_free v = true ->
  _restore_placeholders k m = v.
Proof.
  intros tag m k v T K Hin Hv.
  apply in_split in Hin as (m1 & m2 & ->).
  apply keys_of_split in K as (K1 & -> & K2).
  rewrite restore_app.
  pose proof (restore_other tag tag (length m1) m1 [] [] T T K1
                (or_intror (le_n _)) eq_refl eq_refl) as R.
  simpl app in R. rewrite app_nil_r in R. rewrite R.
  rewrite restore_cons. cbn [fst snd].
  pose proof (str_replace_key (ph_body tag (length m1)) v [] [] eq_refl eq_refl) as Q.
  simpl app in Q. rewrite app_nil_r in Q. rewrite app_nil_r in Q.
  rewrite (ph_shape tag _ T). rewrite Q.
  apply (restore_keys_nul_free tag); auto.
Qed.

Lemma ph_no_lf : forall tag n, is_tag tag -> ~ In LF (_ph tag n) /\ _ph tag n <> [].
Proof.
  intros tag n T. split.
  - intros Hin. pose proof (key_plain tag n T) as P.
    pose proof (str_of_nat_digits n) as D. rewrite forallb_forall in D.
    unfold _ph in Hin. rewrite !in_app_iff in Hin.
    destruct Hin as [Hin|[Hin|[Hin|Hin]]].
    + destruct T as [-> | [-> | [-> | ->]]]; simpl in Hin;
        repeat (destruct Hin as [Hin|Hin]; [discriminate|]); contradiction.
    + simpl in Hin. destruct Hin as [Hin|Hin]; [discriminate|contradiction].
    + apply D in Hin. discriminate.
    + simpl in Hin. destruct Hin as [Hin|Hin]; [discriminate|contradiction].
  - rewrite (ph_shape tag n T). discriminate.
Qed.

Lemma keys_of_no_lf : forall tag m,
  is_tag tag -> keys_of tag m ->
  Forall (fun kv => ~ In LF (fst kv) /\ fst kv <> []) m.
Proof.
  intros tag m T K. apply Forall_forall. intros kv Hin.
  destruct (keys_of_In _ _ _ K Hin) as (j & _ & Ej).
  pose proof (ph_no_lf tag j T) as P. rewrite <- Ej in P. exact P.
Qed.

(** ** Lines that hold a block key pass the later stages *)

Lemma flush_table_keeps : forall result tb r' tb',
  flush_table result tb = Some (r', tb') -> exists extra, r' = result ++ extra.
Proof.
  intros result [|r tb] r' tb' H; unfold flush_table in H.
  - inversion H. exists []. rewrite app_nil_r. reflexivity.
  - destruct (_process_table (r :: tb)); simpl in H; inversion H. eauto.
Qed.

Ltac split_step H :=
  repeat match type of H with
    | bind ?x _ = Some _ => destruct x eqn:?; cbn [bind ret] in H; [|discriminate H]
    | (let '(_, _) := ?x in _) = Some _ => destruct x
    | (if ?c then _ else _) = Some _ => destruct c eqn:?
    | match ?x with Some _ => _ | None => _ end = Some _ => destruct x eqn:?
    end.

Lemma block_step_keeps : forall line result stack tb result' stack' tb',
  block_step line (result, stack, tb) = Some (result', stack', tb') ->
  exists extra, result' = result ++ extra
                /\ (contains _PH_CB line = true -> In line extra).
Proof.
  intros line result stack tb result' stack' tb' H. unfold block_step in H.
  destruct (contains _PH_CB line).
  - destruct (flush_table result tb) as [[r1 t1]|] eqn:F; cbn [bind ret] in H; [|discriminate].
    inversion H; subst. apply flush_table_keeps in F as [e ->].
    exists (e ++ [line]). rewrite app_assoc. split; auto.
    intros _. apply in_or_app. right. left. reflexivity.
  - destruct (is_match (re_match _TABLE_ROW line)).
    { inversion H; subst. exists []. rewrite app_nil_r. split; [reflexivity|discriminate]. }
    destruct (flush_table result tb) as [[r1 t1]|] eqn:F; cbn [bind ret] in H; [|discriminate].
    apply flush_table_keeps in F as [e ->].
    split_step H;
      inversion H; subst; eexists; rewrite <- app_assoc; (split; [reflexivity|discriminate]).
Qed.

Lemma block_loop_keeps : forall lines result stack tb out k,
  block_loop lines (result, stack, tb) = Some out ->
  In k result \/ (In k lines /\ contains _PH_CB k = true) ->
  In k out.
Proof.
  induction lines as [|l lines IH]; intros result stack tb out k H Hk.
  - cbn [block_loop] in H.
    destruct (flush_table result tb) as [[r1 t1]|] eqn:F; cbn [bind ret] in H; [|discriminate].
    inversion H; subst. apply flush_table_keeps in F as [e ->].
    destruct Hk as [Hk|[[] _]]. apply in_or_app. left. exact Hk.
  - cbn [block_loop] in H.
    destruct (block_step l (result, stack, tb)) as [[[r1 s1] t1]|] eqn:S;
      cbn [bind ret] in H; [|discriminate].
    apply block_step_keeps in S as (e & -> & He).
    apply (IH _ _ _ _ _ H).
    destruct Hk as [Hk|[[Hk|Hk] Hc]].
    + left. apply in_or_app. left. exact Hk.
    + subst l. left. apply in_or_app. right. apply He. exact Hc.
    + right. split; assumption.
Qed.

Lemma inline_loop_keeps : forall lines acc im lm out k,
  inline_loop lines acc im lm = Some out ->
  In k acc \/ (In k lines /\ contains _PH_CB k = true) ->
  In k out.
Proof.
  induction lines as [|l lines IH]; intros acc im lm out k H Hk.
  - simpl in H. inversion H; subst. destruct Hk as [Hk|[[] _]]. exact Hk.
  - cbn [inline_loop] in H. destruct (contains _PH_CB l) eqn:C.
    + apply (IH _ _ _ _ _ H). destruct Hk as [Hk|[[Hk|Hk] Hc]].
      * left. apply in_or_app. left. exact Hk.
      * subst l. left. apply in_or_app. right. left. reflexivity.
      * right. split; assumption.
    + destruct (inline_line l im lm) as [[[l' im'] lm']|]; cbn [bind ret] in H; [|discriminate].
      apply (IH _ _ _ _ _ H). destruct Hk as [Hk|[[Hk|Hk] Hc]].
      * left. apply in_or_app. left. exact Hk.
      * subst l. congruence.
      * right. split; assumption.
Qed.

(** ** The text of a block *)

Lemma join_occurs : forall sep ls x, In x ls -> occurs_in x (join sep ls).
Proof.
  intros sep. induction ls as [|p ls IH]; intros x Hin; [destruct Hin|].
  destruct ls as [|q ls].
  - destruct Hin as [->|[]]. exists [], []. simpl. rewrite app_nil_r. reflexivity.
  - change (join sep (p :: q :: ls)) with (p ++ sep ++ join sep (q :: ls)).
    destruct Hin as [->|Hin].
    + exists [], (sep ++ join sep (q :: ls)). reflexivity.
    + destruct (IH x Hin) as (a & b & ->). exists (p ++ sep ++ a), b.
      rewrite <- !app_assoc. reflexivity.
Qed.

Lemma occurs_in_app : forall x a s b, occurs_in x s -> occurs_in x (a ++ s ++ b).
Proof.
  intros x a s b (u & w & ->). exists (a ++ u), (w ++ b). rewrite <- !app_assoc. reflexivity.
Qed.

Lemma lang_char_not_nul : forall c, lang_char c = true -> negb (Ascii.eqb c NUL) = true.
Proof. intros c H. destruct (Ascii.eqb c NUL) eqn:E; [|reflexivity].
  apply Ascii.eqb_eq in E. subst c. discriminate. Qed.

Lemma join_nul_free : forall body,
  forallb nul_free body = true -> nul_free (join (py "\n") body) = true.
Proof.
  induction body as [|l body IH]; intros H; [reflexivity|].
  simpl in H. apply andb_true_iff in H as [Hl Hb].
  destruct body as [|l' body]; [exact Hl|].
  change (join (py "\n") (l :: l' :: body)) with (l ++ py "\n" ++ join (py "\n") (l' :: body)).
  rewrite !nul_free_app, Hl, (IH Hb). reflexivity.
Qed.

Lemma code_block_nul_free : forall lang body,
  forallb lang_char lang = true -> forallb nul_free body = true ->
  nul_free (code_block lang body) = true.
Proof.
  intros lang body Hl Hb. unfold code_block.
  rewrite !nul_free_app, (join_nul_free _ Hb).
  assert (Hn : nul_free lang = true).
  { unfold nul_free. eapply forallb_impl; [|exact Hl]. apply lang_char_not_nul. }
  destruct lang; [reflexivity|]. rewrite !nul_free_app, Hn. reflexivity.
Qed.

(** C2, the input for which the claim fails: the body of the first block
    holds the text of the key that [_extract_code_blocks] gives to the
    second block, and [_restore_placeholders] replaces it there. *)
Lemma C2_counterexample :
  _extract_code_blocks (splitlines (py "```\n**a** \x00CB\x011\x00\n```\n```\nX\n```"))
  = Some ([_ph _PH_CB 0; _ph _PH_CB 1],
          [(_ph _PH_CB 0, code_block [] [py "**a** \x00CB\x011\x00"]);
           (_ph _PH_CB 1, code_block [] [py "X"])])
  /\ convert (py "```\n**a** \x00CB\x011\x00\n```\n```\nX\n```")
     = Some (py "{code}\n**a** {code}\nX\n{code}\n{code}\n{code}\nX\n{code}")
  /\ contains (py "**a** \x00CB\x011\x00")
       (py "{code}\n**a** {code}\nX\n{code}\n{code}\n{code}\nX\n{code}") = false.
Proof. repeat split; vm_compute; reflexivity. Qed.

(** C2, amended: a fenced block whose body lines hold no NUL character
    appears unchanged in the output of [convert]. The line that holds
    the key of the block passes [_process_block_structure] and the
    inline loop as it is, and the key is restored to the text of the
    block, which holds the body lines joined by newlines. *)
Theorem C2_code_blocks_preserved : forall s lines code_map key lang body,
  _extract_code_blocks (splitlines s) = Some (lines, code_map) ->
  In (key, code_block lang body) code_map ->
  forallb lang_char lang = true ->
  forallb nul_free body = true ->
  exists lines2 result_lines out,
    In key lines
    /\ _process_block_structure lines = Some lines2 /\ In key lines2
    /\ inline_loop lines2 [] [] [] = Some result_lines /\ In key result_lines
    /\ convert s = Some out
    /\ occurs_in (code_block lang body) out
    /\ occurs_in (join (py "\n") body) out.
Proof.
  intros s lines code_map key lang body H Hin Hl Hb.
  destruct (convert_rendered s) as (l1 & cm & l2 & rl & E1 & E2 & E3 & Inv & E).
  rewrite E1 in H. inversion H; subst l1 cm. clear H.
  destruct Inv as (_ & K & Hk & _ & _).
  pose proof (Hk _ Hin) as Hk1. cbn [fst] in Hk1.
  assert (Hc : contains _PH_CB key = true).
  { destruct (keys_of_In _ _ _ K Hin) as (j & _ & Ej). cbn [fst] in Ej. subst key.
    reflexivity. }
  assert (Hk2 : In key l2).
  { unfold _process_block_structure in E2. apply (block_loop_keeps _ _ _ _ _ _ E2). auto. }
  assert (Hk3 : In key rl).
  { apply (inline_loop_keeps _ _ _ _ _ _ E3). auto. }
  assert (Hv : nul_free (code_block lang body) = true) by (apply code_block_nul_free; auto).
  assert (Ho : occurs_in (code_block lang body) (rendered rl code_map)).
  { unfold rendered. change (py "\n") with [LF].
    rewrite restore_join by (apply (keys_of_no_lf _PH_CB); auto using tag_CB).
    apply join_occurs. rewrite <- (restore_key _PH_CB code_map key _ tag_CB K Hin Hv).
    apply (in_map (fun l => _restore_placeholders l code_map)). exact Hk3. }
  assert (Ho' : exists out, convert s = Some out /\ occurs_in (code_block lang body) out).
  { rewrite E. destruct (endswith (py "\n") s); eexists; (split; [reflexivity|]).
    - apply (occurs_in_app _ [] _ (py "\n")) in Ho. exact Ho.
    - exact Ho. }
  destruct Ho' as (out & Eo & Oo).
  exists l2, rl, out. repeat split; auto.
  destruct Oo as (a & b & ->). unfold code_block.
  set (header := match lang with
                 | _ :: _ => py "{code:language=" ++ lang ++ py "}"
                 | [] => py "{code}"
                 end).
  exists (a ++ header ++ py "\n"), (py "\n{code}" ++ b).
  rewrite <- !app_assoc. reflexivity.
Qed.

Lemma C2_code_blocks_preserved_witness :
  exists lines2 result_lines out,
    In (_ph _PH_CB 0) [_ph _PH_CB 0]
    /\ _process_block_structure [_ph _PH_CB 0] = Some lines2 /\ In (_ph _PH_CB 0) lines2
    /\ inline_loop lines2 [] [] [] = Some result_lines /\ In (_ph _PH_CB 0) result_lines
    /\ convert (py "```\n**not bold**\n```") = Some out
    /\ occurs_in (code_block [] [py "**not bold**"]) out
    /\ occurs_in (join (py "\n") [py "**not bold**"]) out.
Proof.
  apply (C2_code_blocks_preserved (py "```\n**not bold**\n```") [_ph _PH_CB 0]
           [(_ph _PH_CB 0, code_block [] [py "**not bold**"])]
           (_ph _PH_CB 0) [] [py "**not bold**"]).
  - reflexivity.
  - left. reflexivity.
  - reflexivity.
  - reflexivity.
Defined.

(* ------------------------------------------------------------------ *)
(** * The last line of the output *)
(* ------------------------------------------------------------------ *)

Ltac lit_ne := let E := fresh "E" in intro E; vm_compute in E; discriminate E.

Lemma last_app_ne : forall (A : Type) (a b : list A) d, b <> [] -> last (a ++ b) d = last b d.
Proof.
  induction a as [|x a IH]; intros b d H; [reflexivity|].
  rewrite <- (IH b d H). simpl app.
  destruct (a ++ b) eqn:E; [|reflexivity].
  apply app_eq_nil in E as [_ ->]. congruence.
Qed.

Lemma last_cons_ne : forall (A : Type) (x : A) l d, l <> [] -> last (x :: l) d = last l d.
Proof. intros A x [|y l] d H; [congruence|reflexivity]. Qed.

Lemma last_ne_list : forall (l : list str), last l [] <> [] -> l <> [].
Proof. intros l H ->. apply H. reflexivity. Qed.

Lemma app_ne_l : forall (A : Type) (a b : list A), a <> [] -> a ++ b <> [].
Proof. intros A a b H E. apply app_eq_nil in E as [E _]. auto. Qed.

Lemma app_ne_r : forall (A : Type) (a b : list A), b <> [] -> a ++ b <> [].
Proof. intros A a b H E. apply app_eq_nil in E as [_ E]. auto. Qed.

Ltac solve_ne :=
  solve [ assumption | discriminate | lit_ne
        | apply app_ne_l; solve_ne | apply app_ne_r; solve_ne ].

Lemma rev_ne : forall (A : Type) (l : list A), l <> [] -> rev l <> [].
Proof. intros A [|x l] H; [congruence|]. simpl. apply app_ne_r. discriminate. Qed.

(** ** [splitlines] *)

Lemma splitlines_aux_last : forall n s cur,
  length s <= n -> s <> [] \/ cur <> [] -> ends_with_break s = false ->
  last (splitlines_aux s cur) [] <> [].
Proof.
  assert (Hnil : forall cur : str, (@nil ascii) <> [] \/ cur <> [] ->
            last (splitlines_aux [] cur) [] <> []).
  { intros cur [Hne|Hne]; [congruence|]. destruct cur as [|x cur]; [congruence|].
    cbn [splitlines_aux last]. apply rev_ne. discriminate. }
  induction n as [|n IH]; intros s cur Hn Hne Hb.
  - destruct s; [|simpl in Hn; lia]. apply Hnil. exact Hne.
  - destruct s as [|c s]; [apply Hnil; exact Hne|].
    simpl in Hn. destruct s as [|d s].
    + unfold ends_with_break in Hb. simpl in Hb. cbn [splitlines_aux].
      destruct (Ascii.eqb c CR) eqn:Ec.
      { apply Ascii.eqb_eq in Ec. subst c. discriminate. }
      rewrite Hb. cbn [last]. apply rev_ne. discriminate.
    + assert (Hb' : ends_with_break (d :: s) = false).
      { unfold ends_with_break in *. rewrite last_cons2 in Hb. exact Hb. }
      assert (R : forall x : str, last (x :: splitlines_aux (d :: s) []) [] <> []).
      { intros x. rewrite last_cons_ne.
        - apply IH; [simpl in *; lia|left; discriminate|exact Hb'].
        - apply last_ne_list. apply IH; [simpl in *; lia|left; discriminate|exact Hb']. }
      change (splitlines_aux (c :: d :: s) cur)
        with (if Ascii.eqb c CR then
                if Ascii.eqb d LF then rev cur :: splitlines_aux s []
                else rev cur :: splitlines_aux (d :: s) []
              else if is_linebreak c then rev cur :: splitlines_aux (d :: s) []
              else splitlines_aux (d :: s) (c :: cur)).
      destruct (Ascii.eqb c CR) eqn:Ec.
      * destruct (Ascii.eqb d LF) eqn:Ed; [|apply R].
        destruct s as [|e s].
        { apply Ascii.eqb_eq in Ed. subst d. discriminate. }
        assert (Hb2 : ends_with_break (e :: s) = false).
        { unfold ends_with_break in *. rewrite last_cons2 in Hb'. exact Hb'. }
        rewrite last_cons_ne.
        -- apply IH; [simpl in *; lia|left; discriminate|exact Hb2].
        -- apply last_ne_list. apply IH; [simpl in *; lia|left; discriminate|exact Hb2].
      * destruct (is_linebreak c); [apply R|].
        apply IH; [simpl in *; lia|left; discriminate|exact Hb'].
Qed.

Lemma splitlines_last : forall s,
  s <> [] -> ends_with_break s = false -> last (splitlines s) [] <> [].
Proof.
  intros s Hne Hb. unfold splitlines. apply (splitlines_aux_last (length s)); auto.
Qed.

(** ** [_extract_code_blocks] *)

Lemma collect_body_last : forall c lines acc body rest,
  collect_body c lines acc = (body, rest) -> rest <> [] ->
  last rest [] = last lines [].
Proof.
  induction lines as [|l lines IH]; intros acc body rest H Hne; simpl in H.
  - inversion H; subst. congruence.
  - destruct (is_match (re_match (close_fence c) l)).
    + inversion H; subst. symmetry. apply last_cons_ne. exact Hne.
    + rewrite (IH _ _ _ H Hne). symmetry. apply last_cons_ne.
      intros ->. simpl in H. inversion H; subst. congruence.
Qed.

Lemma extract_loop_nil : forall fuel result code_map counter,
  extract_loop fuel [] result code_map counter = Some (result, code_map).
Proof. intros [|fuel]; reflexivity. Qed.

(** The last line after the extraction is the last line of the input or
    the key of a block. *)
Lemma extract_loop_last : forall fuel lines result code_map counter r cm,
  extract_loop fuel lines result code_map counter = Some (r, cm) ->
  lines <> [] ->
  last r [] = last lines [] \/ exists k, last r [] = _ph _PH_CB k.
Proof.
  induction fuel as [|fuel IH]; intros lines result code_map counter r cm H Hne;
    destruct lines as [|line rest]; try congruence.
  - simpl in H. discriminate.
  - cbn [extract_loop] in H. destruct (re_match _FENCE_START line) as [m|].
    + destruct (group_str m 1) as [g1|]; cbn [bind] in H; [|discriminate].
      destruct (index g1 0) as [fc|]; cbn [bind] in H; [|discriminate].
      destruct (group_str m 2) as [g2|]; cbn [bind] in H; [|discriminate].
      destruct (collect_body fc rest []) as [body rest'] eqn:C.
      destruct rest' as [|x rest'].
      * rewrite extract_loop_nil in H. inversion H; subst.
        right. exists counter. apply last_last.
      * apply IH in H; [|discriminate]. destruct H as [H|H]; [left|right; exact H].
        rewrite H. rewrite (collect_body_last _ _ _ _ _ C) by discriminate.
        symmetry. apply last_cons_ne. intros ->. simpl in C. inversion C.
    + destruct rest as [|x rest].
      * rewrite extract_loop_nil in H. inversion H; subst. left. apply last_last.
      * apply IH in H; [|discriminate]. destruct H as [H|H]; [left|right; exact H].
        rewrite H. reflexivity.
Qed.

(** ** [_process_block_structure] *)

Lemma ul_line_ne : forall prefix content out, ul_line prefix content = Some out -> out <> [].
Proof.
  intros prefix content out H. unfold ul_line in H.
  destruct (is_match (re_match _TASK_CHECKED content)).
  { destruct (re_sub _TASK_CHECKED (fun _ => ret []) content); cbn [bind ret] in H;
      inversion H; subst. solve_ne. }
  destruct (is_match (re_match _TASK_UNCHECKED content)).
  { destruct (re_sub _TASK_UNCHECKED (fun _ => ret []) content); cbn [bind ret] in H;
      inversion H; subst. solve_ne. }
  inversion H; subst. solve_ne.
Qed.

Lemma format_row_ne : forall row header, _format_table_row row header <> [].
Proof.
  intros row header. unfold _format_table_row. cbv zeta.
  apply app_ne_l. destruct header; lit_ne.
Qed.

Lemma first_sep_split : forall rows,
  Forall (fun r => is_sep r = false) rows
  \/ exists hdr sep rest, rows = hdr ++ sep :: rest
       /\ Forall (fun r => is_sep r = false) hdr /\ is_sep sep = true.
Proof.
  induction rows as [|r rows IH]; [left; constructor|].
  destruct (is_sep r) eqn:E.
  - right. exists [], r, rows. repeat split; auto.
  - destruct IH as [IH|(hdr & sep & rest & -> & Hh & Hs)].
    + left. constructor; auto.
    + right. exists (r :: hdr), sep, rest. repeat split; auto.
Qed.

(** The last row of a table that is not a separator row is rendered
    last. *)
Lemma process_table_last : forall tb l rows,
  _process_table (tb ++ [l]) = Some rows -> is_sep l = false -> last rows [] <> [].
Proof.
  intros tb l rows H Hl.
  destruct (first_sep_split (tb ++ [l])) as [F|(hdr & sep & rest & E & Hh & Hs)].
  - rewrite process_table_no_sep in H by exact F. inversion H; subst.
    rewrite map_app. simpl map. rewrite last_last. apply format_row_ne.
  - rewrite E in H. rewrite process_table_sep in H by auto. inversion H; subst.
    assert (Hr : exists rest', rest = rest' ++ [l]).
    { destruct rest as [|x rest] using rev_ind.
      - change (hdr ++ [sep]) with (hdr ++ [sep]) in E.
        apply app_inj_tail in E as [_ E]. congruence.
      - exists rest. f_equal.
        change (hdr ++ sep :: rest ++ [x]) with (hdr ++ (sep :: rest) ++ [x]) in E.
        rewrite app_assoc in E. apply app_inj_tail in E as [_ E]. congruence. }
    destruct Hr as (rest' & ->).
    rewrite filter_app, map_app. cbn [filter]. rewrite Hl. cbn [negb map].
    rewrite app_assoc, last_last. apply format_row_ne.
Qed.

Lemma flush_table_nil : forall result tb r t,
  flush_table result tb = Some (r, t) -> t = [].
Proof.
  intros result [|x tb] r t H; unfold flush_table in H.
  - inversion H. reflexivity.
  - destruct (_process_table (x :: tb)); cbn [bind ret] in H; inversion H. reflexivity.
Qed.

(** A line that is not empty is buffered as a table row or gives a last
    line that is not empty. *)
Lemma block_step_last : forall l result stack tb result' stack' tb',
  block_step l (result, stack, tb) = Some (result', stack', tb') ->
  l <> [] ->
  (tb' = [] /\ last result' [] <> [])
  \/ (contains _PH_CB l = false /\ result' = result /\ tb' = tb ++ [l]).
Proof.
  intros l result stack tb result' stack' tb' H Hne. unfold block_step in H.
  destruct (contains _PH_CB l) eqn:C.
  - destruct (flush_table result tb) as [[r1 t1]|] eqn:F; cbn [bind ret] in H; [|discriminate].
    apply flush_table_nil in F. inversion H; subst. left. split; [reflexivity|].
    rewrite last_last. exact Hne.
  - destruct (is_match (re_match _TABLE_ROW l)).
    { inversion H; subst. right. auto. }
    destruct (flush_table result tb) as [[r1 t1]|] eqn:F; cbn [bind ret] in H; [|discriminate].
    apply flush_table_nil in F. subst t1. left.
    split_step H; inversion H; subst; (split; [reflexivity|]); rewrite last_last;
      first [ exact Hne | eapply ul_line_ne; eassumption | solve_ne ].
Qed.

Lemma block_loop_last : forall lines result stack tb out,
  block_loop lines (result, stack, tb) = Some out ->
  last lines [] <> [] ->
  contains _PH_CB (last lines []) = true \/ is_sep (last lines []) = false ->
  last out [] <> [].
Proof.
  induction lines as [|l lines IH]; intros result stack tb out H Hl Hs;
    [simpl in Hl; congruence|].
  cbn [block_loop] in H.
  destruct (block_step l (result, stack, tb)) as [[[r1 s1] t1]|] eqn:S;
    cbn [bind] in H; [|discriminate].
  destruct lines as [|l' lines].
  - cbn [last] in Hl, Hs. cbn [block_loop] in H.
    apply block_step_last in S; [|exact Hl].
    destruct S as [[-> Hr]|(C & -> & ->)].
    + cbn [flush_table bind ret] in H. inversion H; subst. exact Hr.
    + destruct Hs as [Hs|Hs]; [congruence|].
      unfold flush_table in H. destruct (tb ++ [l]) as [|x t] eqn:E.
      { apply app_eq_nil in E as [_ E]. discriminate. }
      rewrite <- E in H.
      destruct (_process_table (tb ++ [l])) as [rows|] eqn:P; cbn [bind ret] in H;
        [|discriminate].
      inversion H; subst. pose proof (process_table_last _ _ _ P Hs) as R.
      rewrite last_app_ne; [exact R|]. apply last_ne_list. exact R.
  - apply (IH _ _ _ _ H); [exact Hl|exact Hs].
Qed.

(** ** The inline passes *)

Lemma replace_aux_ne : forall old new s,
  new <> [] -> s <> [] -> replace_aux old new s 0 <> [].
Proof.
  intros old new [|c s] Hn Hs; [congruence|]. cbn [replace_aux].
  destruct (startswith old (c :: s)); [apply app_ne_l; exact Hn|discriminate].
Qed.

Lemma str_replace_ne : forall old new s,
  new <> [] -> s <> [] -> str_replace old new s <> [].
Proof.
  intros [|o old] new s Hn Hs; unfold str_replace.
  - apply app_ne_l. exact Hn.
  - apply replace_aux_ne; auto.
Qed.

Lemma restore_ne : forall m s, vals_ne m -> s <> [] -> _restore_placeholders s m <> [].
Proof.
  induction m as [|kv m IH]; intros s V Hs; [exact Hs|].
  rewrite restore_cons. apply IH.
  - intros x Hx. apply V. right. exact Hx.
  - apply str_replace_ne; [apply V; left; reflexivity|exact Hs].
Qed.

Lemma dict_set_ne : forall k v m, v <> [] -> vals_ne m -> vals_ne (dict_set k v m).
Proof.
  intros k v m Hv. induction m as [|[k' v'] m IH]; intros V kv Hin; simpl in Hin.
  - destruct Hin as [<-|[]]. exact Hv.
  - destruct (str_eqb k' k).
    + destruct Hin as [<-|Hin]; [exact Hv|]. apply V. right. exact Hin.
    + destruct Hin as [<-|Hin]; [apply (V (k', v')); left; reflexivity|].
      apply IH; [|exact Hin]. intros x Hx. apply V. right. exact Hx.
Qed.

Lemma ph_ne : forall tag n, _ph tag n <> [].
Proof. intros tag n. unfold _ph. solve_ne. Qed.

(** [pattern.sub] keeps a text that is not empty so when the replacement
    texts are not empty. *)
Lemma sub_loop_ne : forall (S : Type) (Inv : S -> Prop) r
    (repl : match_obj -> S -> M (str * S)),
  (forall m st out st', repl m st = Some (out, st') -> Inv st -> out <> [] /\ Inv st') ->
  forall rest before skip st o st',
    sub_loop r repl before rest skip st = Some (o, st') -> Inv st ->
    Inv st' /\ (skip = 0 -> rest <> [] -> o <> []).
Proof.
  intros S Inv r repl Hrepl. induction rest as [|c rest IH]; intros before skip st o st' H Hi.
  - destruct skip; cbn [sub_loop] in H.
    + destruct (match_at r before []) as [m|].
      * destruct (repl m st) as [[out st1]|] eqn:R; cbn [bind ret] in H; [|discriminate].
        inversion H; subst. destruct (Hrepl _ _ _ _ R Hi) as [_ Hi']. split; [exact Hi'|congruence].
      * inversion H; subst. split; [exact Hi|congruence].
    + inversion H; subst. split; [exact Hi|congruence].
  - destruct skip; cbn [sub_loop] in H.
    + destruct (match_at r before (c :: rest)) as [m|].
      * destruct (repl m st) as [[out st1]|] eqn:R; cbn [bind ret] in H; [|discriminate].
        destruct (Hrepl _ _ _ _ R Hi) as [Ho Hi1].
        destruct (m_len m) as [|k].
        -- destruct (sub_loop r repl (c :: before) rest 0 st1) as [[o2 st2]|] eqn:L;
             cbn [bind ret] in H; [|discriminate].
           inversion H; subst. destruct (IH _ _ _ _ _ L Hi1) as [Hi2 _].
           split; [exact Hi2|]. intros _ _. apply app_ne_l. exact Ho.
        -- destruct (sub_loop r repl (c :: before) rest k st1) as [[o2 st2]|] eqn:L;
             cbn [bind ret] in H; [|discriminate].
           inversion H; subst. destruct (IH _ _ _ _ _ L Hi1) as [Hi2 _].
           split; [exact Hi2|]. intros _ _. apply app_ne_l. exact Ho.
      * destruct (sub_loop r repl (c :: before) rest 0 st) as [[o2 st2]|] eqn:L;
          cbn [bind ret] in H; [|discriminate].
        inversion H; subst. destruct (IH _ _ _ _ _ L Hi) as [Hi2 _].
        split; [exact Hi2|]. intros _ _. discriminate.
    + destruct (IH _ _ _ _ _ H Hi) as [Hi2 _]. split; [exact Hi2|]. intros E. discriminate E.
Qed.

Lemma re_sub_st_ne : forall (S : Type) (Inv : S -> Prop) r
    (repl : match_obj -> S -> M (str * S)) s st o st',
  (forall m st out st', repl m st = Some (out, st') -> Inv st -> out <> [] /\ Inv st') ->
  re_sub_st r repl s st = Some (o, st') -> Inv st ->
  Inv st' /\ (s <> [] -> o <> []).
Proof.
  intros S Inv r repl s st o st' Hrepl H Hi. unfold re_sub_st in H.
  destruct (sub_loop_ne S Inv r repl Hrepl _ _ _ _ _ _ H Hi) as [Hi' Ho].
  split; [exact Hi'|]. intros Hs. apply Ho; auto.
Qed.

Lemma re_sub_ne : forall r (repl : match_obj -> M str) s o,
  (forall m out, repl m = Some out -> out <> []) ->
  re_sub r repl s = Some o -> s <> [] -> o <> [].
Proof.
  intros r repl s o Hrepl H Hs. unfold re_sub in H.
  destruct (re_sub_st r (fun m (_ : unit) => x <- repl m ;; ret (x, tt)) s tt)
    as [[o' u]|] eqn:R; cbn [bind ret] in H; [|discriminate].
  inversion H; subst.
  refine (proj2 (re_sub_st_ne unit (fun _ => True) r _ s tt o u _ R I) Hs).
  intros m st out st' Hm _. destruct (repl m) as [x|] eqn:X; cbn [bind ret] in Hm;
    [|discriminate]. inversion Hm; subst. split; [|exact I]. apply (Hrepl m). exact X.
Qed.

Lemma replacer_ne : forall m st out st',
  replacer m st = Some (out, st') -> vals_ne (snd st) -> out <> [] /\ vals_ne (snd st').
Proof.
  intros m [counter imap] out st' H V. unfold replacer in H.
  destruct (group_str m 1) as [content|]; cbn [bind ret] in H; [|discriminate].
  inversion H; subst. split; [apply ph_ne|]. cbn [snd] in *.
  apply dict_set_ne; [|exact V]. solve_ne.
Qed.

Lemma img_replacer_ne : forall m st out st',
  img_replacer m st = Some (out, st') -> vals_ne (snd st) -> out <> [] /\ vals_ne (snd st').
Proof.
  intros m [counter lmap] out st' H V. unfold img_replacer in H. cbn [ret] in H.
  inversion H; subst. split; [apply ph_ne|]. cbn [snd] in *.
  apply dict_set_ne; [|exact V]. solve_ne.
Qed.

Lemma link_replacer_ne : forall m st out st',
  link_replacer m st = Some (out, st') -> vals_ne (snd st) -> out <> [] /\ vals_ne (snd st').
Proof.
  intros m [counter lmap] out st' H V. unfold link_replacer in H. cbn [ret] in H.
  inversion H; subst. split; [apply ph_ne|]. cbn [snd] in *.
  apply dict_set_ne; [|exact V]. solve_ne.
Qed.

Lemma store_bold_ne : forall (wiki : match_obj -> str) m st out st',
  (forall m, wiki m <> []) ->
  store_bold wiki m st = Some (out, st') -> vals_ne (snd st) ->
  out <> [] /\ vals_ne (snd st').
Proof.
  intros wiki m [counter bmap] out st' Hw H V. unfold store_bold in H. cbn [ret] in H.
  inversion H; subst. split; [apply ph_ne|]. cbn [snd] in *.
  apply dict_set_ne; [apply Hw|exact V].
Qed.

Lemma extract_inline_code_ne : forall line imap line' imap',
  _extract_inline_code line imap = Some (line', imap') -> vals_ne imap ->
  vals_ne imap' /\ (line <> [] -> line' <> []).
Proof.
  intros line imap line' imap' H V. unfold _extract_inline_code in H.
  destruct (re_sub_st _INLINE_CODE replacer line (length imap, imap))
    as [[o [n im]]|] eqn:R; cbn [bind ret] in H; [|discriminate].
  inversion H; subst.
  apply (re_sub_st_ne ph_state (fun st => vals_ne (snd st))) in R; auto.
  intros m st out st' Hm Hv. eapply replacer_ne; eauto.
Qed.

Lemma extract_links_ne : forall line lmap line' lmap',
  _extract_links line lmap = Some (line', lmap') -> vals_ne lmap ->
  vals_ne lmap' /\ (line <> [] -> line' <> []).
Proof.
  intros line lmap line' lmap' H V. unfold _extract_links in H.
  destruct (re_sub_st _IMAGE img_replacer line (length lmap, lmap))
    as [[o1 st1]|] eqn:R1; cbn [bind ret] in H; [|discriminate].
  destruct (re_sub_st _LINK link_replacer o1 st1)
    as [[o2 [n lm]]|] eqn:R2; cbn [bind ret] in H; [|discriminate].
  inversion H; subst.
  apply (re_sub_st_ne ph_state (fun st => vals_ne (snd st))) in R1; auto.
  2:{ intros m st out st' Hm Hv. eapply img_replacer_ne; eauto. }
  destruct R1 as [V1 N1].
  apply (re_sub_st_ne ph_state (fun st => vals_ne (snd st))) in R2; auto.
  2:{ intros m st out st' Hm Hv. eapply link_replacer_ne; eauto. }
  destruct R2 as [V2 N2]. split; [exact V2|]. auto.
Qed.

Lemma formatting_ne : forall line line',
  _process_inline_formatting line = Some line' -> line <> [] -> line' <> [].
Proof.
  intros line line' H Hne. unfold _process_inline_formatting in H.
  match type of H with bind ?x _ = _ => destruct x as [[o1 st1]|] eqn:R1 end;
    cbn [bind ret] in H; [|discriminate].
  match type of H with bind ?x _ = _ => destruct x as [[o2 [n bm]]|] eqn:R2 end;
    cbn [bind ret] in H; [|discriminate].
  match type of H with bind ?x _ = _ => destruct x as [o3|] eqn:R3 end;
    cbn [bind ret] in H; [|discriminate].
  match type of H with bind ?x _ = _ => destruct x as [o4|] eqn:R4 end;
    cbn [bind ret] in H; [|discriminate].
  inversion H; subst.
  apply (re_sub_st_ne ph_state (fun st => vals_ne (snd st))) in R1.
  2:{ intros m st out st' Hm Hv. eapply store_bold_ne; eauto.
      intros m0. solve_ne. }
  2:{ intros kv []. }
  destruct R1 as [V1 N1].
  apply (re_sub_st_ne ph_state (fun st => vals_ne (snd st))) in R2; [|
    intros m st out st' Hm Hv; eapply store_bold_ne; eauto;
    intros m0; solve_ne | exact V1].
  destruct R2 as [V2 N2]. cbn [snd] in V2.
  apply re_sub_ne in R3; [| |auto].
  2:{ intros m out Hm. unfold italic_repl in Hm. cbn [ret] in Hm. inversion Hm; subst.
      solve_ne. }
  apply re_sub_ne in R4; [| |exact R3].
  2:{ intros m out Hm. cbn [ret] in Hm. inversion Hm; subst. solve_ne. }
  apply restore_ne; auto.
Qed.

Lemma inline_line_ne : forall line imap lmap line' imap' lmap',
  inline_line line imap lmap = Some (line', imap', lmap') ->
  vals_ne imap -> vals_ne lmap ->
  vals_ne imap' /\ vals_ne lmap' /\ (line <> [] -> line' <> []).
Proof.
  intros line imap lmap line' imap' lmap' H Vi Vl. unfold inline_line in H.
  destruct (_extract_inline_code line imap) as [[l1 im]|] eqn:R1;
    cbn [bind ret] in H; [|discriminate].
  destruct (_extract_links l1 lmap) as [[l2 lm]|] eqn:R2; cbn [bind ret] in H; [|discriminate].
  destruct (_process_inline_formatting l2) as [l3|] eqn:R3; cbn [bind ret] in H; [|discriminate].
  inversion H; subst.
  destruct (extract_inline_code_ne _ _ _ _ R1 Vi) as [Vi' N1].
  destruct (extract_links_ne _ _ _ _ R2 Vl) as [Vl' N2].
  repeat split; auto. intros Hne.
  apply restore_ne; [exact Vi'|]. apply restore_ne; [exact Vl'|].
  eapply formatting_ne; eauto.
Qed.

Lemma inline_loop_last : forall lines acc imap lmap out,
  inline_loop lines acc imap lmap = Some out ->
  vals_ne imap -> vals_ne lmap ->
  last (acc ++ lines) [] <> [] -> last out [] <> [].
Proof.
  induction lines as [|l lines IH]; intros acc imap lmap out H Vi Vl Hl.
  - simpl in H. inversion H; subst. rewrite app_nil_r in Hl. exact Hl.
  - cbn [inline_loop] in H. destruct (contains _PH_CB l).
    + apply (IH _ _ _ _ H Vi Vl). rewrite <- app_assoc. exact Hl.
    + destruct (inline_line l imap lmap) as [[[l' im] lm]|] eqn:R; cbn [bind ret] in H;
        [|discriminate].
      destruct (inline_line_ne _ _ _ _ _ _ R Vi Vl) as (Vi' & Vl' & N).
      apply (IH _ _ _ _ H Vi' Vl'). rewrite <- app_assoc. simpl app.
      destruct lines as [|x lines].
      * rewrite last_last. apply N. rewrite last_last in Hl. exact Hl.
      * rewrite last_app_ne by discriminate. rewrite last_app_ne in Hl by discriminate.
        rewrite last_cons_ne by discriminate. rewrite last_cons_ne in Hl by discriminate.
        exact Hl.
Qed.

(** ** The text of the output *)

Lemma no_final_newline_app : forall a b, no_final_newline b -> no_final_newline (a ++ b).
Proof.
  unfold no_final_newline. intros a b H. rewrite last_app_ne; [exact H|].
  intros ->. apply H. reflexivity.
Qed.

Lemma no_final_newline_line : forall l,
  l <> [] -> forallb no_break l = true -> no_final_newline l.
Proof.
  intros l Hne H. unfold no_final_newline.
  destruct (exists_last Hne) as (l' & c & ->). rewrite last_last.
  rewrite forallb_app in H. apply andb_true_iff in H as [_ H].
  intros ->. vm_compute in H. discriminate H.
Qed.

Lemma join_no_final_newline : forall ls,
  last ls [] <> [] -> oks no_break ls -> no_final_newline (join [LF] ls).
Proof.
  induction ls as [|l ls IH]; intros H O; [simpl in H; congruence|].
  inversion O; subst. destruct ls as [|l' ls].
  - cbn [last join] in *. apply no_final_newline_line; auto.
  - change (join [LF] (l :: l' :: ls)) with (l ++ [LF] ++ join [LF] (l' :: ls)).
    apply no_final_newline_app. apply no_final_newline_app. apply IH; auto.
Qed.

Lemma replace_aux_no_final_newline : forall old new s,
  no_final_newline new -> no_final_newline s ->
  forall skip,
    (replace_aux old new s skip = [] \/ no_final_newline (replace_aux old new s skip))
    /\ no_final_newline (replace_aux old new s 0).
Proof.
  intros old new s Hn. induction s as [|c s IH]; intros Hs skip.
  - exfalso. apply Hs. reflexivity.
  - destruct s as [|d s].
    + cbn [replace_aux]. split.
      * destruct skip; [|left; reflexivity].
        right. destruct (startswith old [c]); [rewrite app_nil_r; exact Hn|exact Hs].
      * destruct (startswith old [c]); [rewrite app_nil_r; exact Hn|exact Hs].
    + assert (Hs' : no_final_newline (d :: s)) by exact Hs.
      assert (Z : no_final_newline (replace_aux old new (c :: d :: s) 0)).
      { change (replace_aux old new (c :: d :: s) 0)
          with (if startswith old (c :: d :: s)
                then new ++ replace_aux old new (d :: s) (length old - 1)
                else c :: replace_aux old new (d :: s) 0).
        destruct (startswith old (c :: d :: s)).
        - destruct (proj1 (IH Hs' (length old - 1))) as [E|E].
          + rewrite E, app_nil_r. exact Hn.
          + apply no_final_newline_app. exact E.
        - apply (no_final_newline_app [c]). apply (proj2 (IH Hs' 0)). }
      split; [|exact Z]. destruct skip as [|k]; [right; exact Z|].
      change (replace_aux old new (c :: d :: s) (S k))
        with (replace_aux old new (d :: s) k).
      apply (proj1 (IH Hs' k)).
Qed.

Lemma restore_no_final_newline : forall m s,
  (forall kv, In kv m -> fst kv <> [] /\ no_final_newline (snd kv)) ->
  no_final_newline s -> no_final_newline (_restore_placeholders s m).
Proof.
  induction m as [|[k v] m IH]; intros s V Hs; [exact Hs|].
  rewrite restore_cons. cbn [fst snd]. apply IH.
  - intros kv Hin. apply V. right. exact Hin.
  - destruct (V (k, v) (or_introl eq_refl)) as [Hk Hv]. cbn [fst snd] in Hk, Hv.
    rewrite str_replace_aux by exact Hk.
    apply (proj2 (replace_aux_no_final_newline k v s Hv Hs 0)).
Qed.

Lemma code_block_no_final_newline : forall lang body, no_final_newline (code_block lang body).
Proof.
  intros lang body. unfold code_block.
  apply no_final_newline_app. apply no_final_newline_app. apply no_final_newline_app.
  unfold no_final_newline. vm_compute. discriminate.
Qed.

Lemma no_final_newline_endswith : forall t, no_final_newline t -> endswith (py "\n") t = false.
Proof.
  intros t H. destruct (endswith (py "\n") t) eqn:E; [|reflexivity].
  exfalso. apply H. change (py "\n") with [LF] in E. unfold endswith in E.
  rewrite <- (rev_involutive t). destruct (rev t) as [|x r]; [discriminate|].
  cbn [rev app startswith] in E. apply andb_true_iff in E as [E _].
  apply Ascii.eqb_eq in E. subst x. cbn [rev]. apply last_last.
Qed.

(** X1. The converse of the final newline rule: an input that does not
    end at a line boundary, and whose last line is not a table separator
    row, is converted, and the output does not end with a newline. *)
Theorem convert_no_final_newline : forall s,
  ends_with_break s = false -> is_sep (last (splitlines s) []) = false ->
  exists out, convert s = Some out /\ endswith (py "\n") out = false.
Proof.
  intros s Hb Hs. destruct s as [|c s]; [exists []; split; reflexivity|].
  destruct (convert_stages no_break (c :: s) literal_no_break (splitlines_ok _))
    as (l1 & cm & l2 & rl & E1 & E2 & E3 & Inv & O & E).
  rewrite (endswith_no_break _ Hb) in E.
  eexists. split; [exact E|].
  apply no_final_newline_endswith. unfold rendered.
  destruct Inv as (_ & K & _ & B & _).
  apply restore_no_final_newline.
  - intros kv Hin. split.
    + destruct (keys_of_In _ _ _ K Hin) as (j & _ & Ej).
      pose proof (ph_ne _PH_CB j) as P. rewrite <- Ej in P. exact P.
    + destruct (B kv Hin) as (lang & body & Ev & _).
      pose proof (code_block_no_final_newline lang body) as P.
      rewrite <- Ev in P. exact P.
  - change (py "\n") with [LF]. apply join_no_final_newline; [|exact O].
    pose proof (splitlines_last (c :: s) ltac:(discriminate) Hb) as L0.
    unfold _extract_code_blocks in E1.
    pose proof (extract_loop_last _ _ _ _ _ _ _ E1 (last_ne_list _ L0)) as L1.
    assert (L1' : last l1 [] <> []
                  /\ (contains _PH_CB (last l1 []) = true \/ is_sep (last l1 []) = false)).
    { destruct L1 as [L1|(k & L1)]; rewrite L1.
      - split; [exact L0|right; exact Hs].
      - split; [apply ph_ne|left; reflexivity]. }
    destruct L1' as [N1 S1].
    unfold _process_block_structure in E2.
    pose proof (block_loop_last _ _ _ _ _ E2 N1 S1) as L2.
    apply (inline_loop_last _ _ _ _ _ E3); [intros kv []|intros kv []|exact L2].
Qed.

Lemma convert_no_final_newline_witness :
  exists out, convert (py "# Title\r\n- item") = Some out
              /\ endswith (py "\n") out = false.
Proof. apply (convert_no_final_newline (py "# Title\r\n- item")); reflexivity. Defined.

(* ------------------------------------------------------------------ *)
(** * Headings, rules and blockquotes *)
(* ------------------------------------------------------------------ *)

(** ** Headings *)

Lemma space_not_hash : forall c, is_space c = true -> ch "#" c = false.
Proof. intros c. destruct c as [[] [] [] [] [] [] [] []]; vm_compute; congruence. Qed.

Lemma heading_match : forall n ws content,
  1 <= n <= 6 -> ws <> [] -> forallb is_space ws = true ->
  forallb dot content = true -> starts_nonspace content ->
  re_match _HEADING (repeat "#"%char n ++ ws ++ content)
  = Some {| m_groups := [(2, content); (1, repeat "#"%char n)];
            m_len := length (repeat "#"%char n ++ ws ++ content) |}.
Proof.
  intros n ws content Hn Hne Hws Hc Hs.
  assert (R : rmatch _HEADING [] (repeat "#"%char n ++ ws ++ content) []
                (fun _ t g => Some (g, t))
              = Some ([(2, content); (1, repeat "#"%char n)], [])).
  { unfold _HEADING, many, many1. cbn [rmatch].
    apply rep_greedy_longest.
    - apply forallb_repeat. apply ch_refl.
    - intros h Hh. inversion Hh. rewrite repeat_length. lia.
    - rewrite repeat_length. lia.
    - destruct ws as [|w ws']; [congruence|]. simpl app. left.
      apply space_not_hash. simpl in Hws. apply andb_true_iff in Hws as [H _]. exact H.
    - cbn [rmatch]. apply rep_greedy_longest.
      + exact Hws.
      + discriminate.
      + destruct ws; [congruence|simpl; lia].
      + apply stop_nonspace. exact Hs.
      + cbn beta. apply rep_greedy_all.
        * exact Hc.
        * discriminate.
        * lia.
        * rewrite (firstn_app_sub _ (repeat "#"%char n) (ws ++ content)).
          cbn [length]. rewrite Nat.sub_0_r, firstn_all. reflexivity. }
  unfold re_match, match_at. rewrite R. simpl length. rewrite Nat.sub_0_r. reflexivity.
Qed.

Lemma heading_shape : forall l m,
  re_match _HEADING l = Some m ->
  exists n ws rest, l = repeat "#"%char n ++ ws ++ rest /\ 1 <= n <= 6
                    /\ ws <> [] /\ forallb is_space ws = true.
Proof.
  intros l m H. apply match_at_sound in H as (b' & t' & g' & R & _).
  unfold _HEADING, many, many1 in R. simpl in R.
  destruct R as (b1 & t1 & g1 & (_ & -> & -> & ->) & R).
  destruct R as (b2 & t2 & g2 & (g3 & (u & -> & Hu & Hlo & Hhi & -> & ->) & ->) & R).
  destruct R as (b3 & t3 & g4 & (ws & -> & Hws & Hl & _ & -> & ->) & _).
  exists (length u), ws, t3. repeat split.
  - rewrite <- forallb_ch_repeat; auto.
  - exact Hlo.
  - apply Hhi. reflexivity.
  - intros ->. simpl in Hl. lia.
  - exact Hws.
Qed.

Lemma nth_error_repeat_app : forall (c : ascii) n rest k,
  k < n -> nth_error (repeat c n ++ rest) k = Some c.
Proof.
  intros c n rest k Hk. rewrite nth_error_app1 by (rewrite repeat_length; exact Hk).
  revert k Hk. induction n as [|n IH]; intros k Hk; [lia|].
  destruct k; [reflexivity|]. simpl. apply IH. lia.
Qed.

Lemma nth_error_repeat_end : forall (c w : ascii) n rest,
  nth_error (repeat c n ++ w :: rest) n = Some w.
Proof.
  intros c w n rest. induction n as [|n IH]; [reflexivity|exact IH].
Qed.

Lemma heading_seven : forall n rest,
  7 <= n -> re_match _HEADING (repeat "#"%char n ++ rest) = None.
Proof.
  intros n rest Hn. destruct (re_match _HEADING (repeat "#"%char n ++ rest)) eqn:E; auto.
  exfalso. apply heading_shape in E as (k & ws & rest' & E & Hk & Hne & Hws).
  destruct ws as [|w ws]; [congruence|]. simpl in Hws.
  apply andb_true_iff in Hws as [Hw _].
  pose proof (nth_error_repeat_app "#"%char n rest k ltac:(lia)) as L.
  rewrite E in L. simpl app in L. rewrite nth_error_repeat_end in L.
  inversion L; subst. discriminate Hw.
Qed.

Lemma ul_item_head : forall x t,
  is_space x = false -> ul_marker x = false -> re_match _UL_ITEM (x :: t) = None.
Proof.
  intros x t H1 H2. unfold re_match, match_at, _UL_ITEM, many. cbn [rmatch rep_greedy].
  rewrite H1. cbn [andb Nat.leb rmatch]. unfold ul_marker in H2. rewrite H2. reflexivity.
Qed.

Lemma ol_item_head : forall x t,
  is_space x = false -> is_digit x = false -> re_match _OL_ITEM (x :: t) = None.
Proof.
  intros x t H1 H2. unfold re_match, match_at, _OL_ITEM, many, many1.
  cbn [rmatch rep_greedy]. rewrite H1. cbn [andb Nat.leb rmatch rep_greedy].
  rewrite H2. reflexivity.
Qed.

Lemma hr_head : forall x t, hr_char x = false -> re_match _HR (x :: t) = None.
Proof.
  intros x t H. unfold re_match, match_at, _HR, at_least. cbn [rmatch rep_greedy].
  assert (E : ch "*" x = false /\ ch "-" x = false /\ ch "_" x = false).
  { revert H. destruct x as [[] [] [] [] [] [] [] []]; vm_compute; auto. }
  destruct E as (E1 & E2 & E3). rewrite E1, E2, E3. reflexivity.
Qed.

Lemma table_row_hashes : forall n rest,
  1 <= n -> re_match _TABLE_ROW (repeat "#"%char n ++ rest) = None.
Proof. intros [|n] rest H; [lia|]. apply table_row_head. reflexivity. Qed.

(** X2. A line of one to six [#], whitespace and a content is emitted
    as [h<n>. <content>] with the trailing whitespace of the content
    removed; the table buffer is flushed before it and the list stack is
    emptied. Seven or more [#] do not make a heading: such a line is
    emitted as it is. *)
Theorem heading_line :
  forall n ws content result stack tb,
    ws <> [] -> forallb is_space ws = true ->
    forallb dot content = true -> starts_nonspace content ->
    contains _PH_CB (repeat "#"%char n ++ ws ++ content) = false ->
    (1 <= n <= 6 ->
     block_step (repeat "#"%char n ++ ws ++ content) (result, stack, tb)
     = (' (r, t) <- flush_table result tb ;;
        ret (r ++ [py "h" ++ str_of_nat n ++ py ". " ++ rstrip content], [], t)))
    /\ (7 <= n ->
        block_step (repeat "#"%char n ++ ws ++ content) (result, stack, tb)
        = (' (r, t) <- flush_table result tb ;;
           ret (r ++ [repeat "#"%char n ++ ws ++ content], [], t))).
Proof.
  intros n ws content result stack tb Hne Hws Hc Hs Hph. split; intros Hn.
  - unfold block_step. rewrite Hph.
    rewrite table_row_hashes by lia. cbn [is_match].
    rewrite heading_match by auto.
    destruct (flush_table result tb) as [[r t]|]; cbn [bind ret]; [|reflexivity].
    unfold group_str, group. cbn [m_groups lookup Nat.eqb bind ret].
    rewrite repeat_length. reflexivity.
  - unfold block_step. rewrite Hph.
    rewrite table_row_hashes by lia. cbn [is_match].
    rewrite heading_seven by exact Hn.
    destruct (flush_table result tb) as [[r t]|]; cbn [bind ret]; [|reflexivity].
    destruct n as [|n]; [lia|]. cbn [repeat app].
    rewrite hr_head, blockquote_head, ul_item_head, ol_item_head by reflexivity.
    reflexivity.
Qed.

Lemma heading_line_witness :
  block_step (py "## Title  ") ([], [ul], [py "| a |"])
  = Some ([py "|a|"; py "h2. Title"], [], [])
  /\ block_step (py "####### x") ([], [], []) = Some ([py "####### x"], [], []).
Proof.
  split.
  - apply (proj1 (heading_line 2 (py " ") (py "Title  ") [] [ul] [py "| a |"]
                    ltac:(discriminate) eq_refl eq_refl eq_refl eq_refl)). lia.
  - apply (proj2 (heading_line 7 (py " ") (py "x") [] [] []
                    ltac:(discriminate) eq_refl eq_refl eq_refl eq_refl)). lia.
Defined.

(** ** Horizontal rules *)

Lemma hr_char_cases : forall c,
  hr_char c = true -> c = "*"%char \/ c = "-"%char \/ c = "_"%char.
Proof.
  intros c H. unfold hr_char, one_of in H. cbn [py existsb] in H.
  change (py "*-_") with ["*"%char; "-"%char; "_"%char] in H. cbn [existsb] in H.
  repeat (apply orb_true_iff in H as [H|H]; [apply Ascii.eqb_eq in H; auto|]).
  discriminate.
Qed.

Lemma hr_char_not_space : forall c, hr_char c = true -> is_space c = false.
Proof. intros c. destruct c as [[] [] [] [] [] [] [] []]; vm_compute; congruence. Qed.

Lemma hr_char_not_digit : forall c, hr_char c = true -> is_digit c = false.
Proof. intros c. destruct c as [[] [] [] [] [] [] [] []]; vm_compute; congruence. Qed.

Lemma hr_char_plain_start : forall c, hr_char c = true -> plain_start c = true.
Proof. intros c. destruct c as [[] [] [] [] [] [] [] []]; vm_compute; congruence. Qed.

Lemma hr_match : forall c n ws,
  hr_char c = true -> 3 <= n -> forallb is_space ws = true ->
  is_match (re_match _HR (repeat c n ++ ws)) = true.
Proof.
  intros c n ws Hc Hn Hws. apply is_match_iff.
  exists (rev ws ++ rev (repeat c n) ++ []), [], [(1, repeat c n)].
  unfold _HR, at_least, many. simpl.
  exists [], (repeat c n ++ ws), []. split; [auto|].
  exists (rev (repeat c n) ++ []), ws, [(1, repeat c n)]. split.
  - exists []. split; [|rewrite firstn_app_sub; reflexivity].
    assert (R : forall p : ascii -> bool, p c = true ->
              exists u, repeat c n ++ ws = u ++ ws /\ forallb p u = true
                        /\ 3 <= length u /\ (forall h, @None nat = Some h -> length u <= h)
                        /\ rev (repeat c n) ++ [] = rev u ++ []
                        /\ @nil (nat * str) = []).
    { intros p Hp. exists (repeat c n). repeat split; auto.
      - apply forallb_repeat. exact Hp.
      - rewrite repeat_length. exact Hn.
      - discriminate. }
    apply hr_char_cases in Hc as [-> | [-> | ->]].
    + left. apply R. reflexivity.
    + right. left. apply R. reflexivity.
    + right. right. apply R. reflexivity.
  - exists (rev ws ++ rev (repeat c n) ++ []), [], [(1, repeat c n)]. split.
    + exists ws. rewrite app_nil_r. repeat split; auto; try lia. discriminate.
    + repeat split; auto.
Qed.

Lemma hr_shape : forall l,
  is_match (re_match _HR l) = true ->
  exists c n ws, hr_char c = true /\ 3 <= n /\ l = repeat c n ++ ws
                 /\ forallb is_space ws = true.
Proof.
  intros l H. apply is_match_iff in H as (b' & t' & g' & R).
  unfold _HR, at_least, many in R. simpl in R.
  destruct R as (b1 & t1 & g1 & (_ & -> & -> & ->) & R).
  destruct R as (b2 & t2 & g2 & (g3 & R1 & ->) & R).
  destruct R as (b3 & t3 & g4 & (ws & -> & Hws & _ & _ & -> & ->) & (He & E1 & E2 & E3)).
  assert (S : forall c, hr_char c = true ->
            (exists u, l = u ++ ws ++ t3 /\ forallb (ch c) u = true /\ 3 <= length u
                       /\ (forall h, @None nat = Some h -> length u <= h)
                       /\ b2 = rev u ++ [] /\ g3 = []) ->
            exists c n ws, hr_char c = true /\ 3 <= n /\ l = repeat c n ++ ws
                           /\ forallb is_space ws = true).
  { intros c Hc (u & -> & Hu & Hl & _). exists c, (length u), (ws ++ t3).
    repeat split; auto.
    - rewrite <- forallb_ch_repeat; auto.
    - rewrite forallb_app, Hws. destruct He as [-> | ->]; reflexivity. }
  destruct R1 as [R1 | [R1 | R1]]; eapply S; try exact R1; reflexivity.
Qed.

(** A line of rule characters is not a list item. *)
Lemma hr_not_item : forall c n ws,
  hr_char c = true -> 2 <= n ->
  re_match _UL_ITEM (repeat c n ++ ws) = None
  /\ re_match _OL_ITEM (repeat c n ++ ws) = None.
Proof.
  intros c n ws Hc Hn. pose proof (hr_char_not_space c Hc) as Hsp.
  destruct n as [|[|n]]; try lia. cbn [repeat app]. split.
  - destruct (re_match _UL_ITEM (c :: c :: repeat c n ++ ws)) eqn:E; auto. exfalso.
    apply match_at_sound in E as (b' & t' & g' & R & _).
    unfold _UL_ITEM, many, many1 in R. simpl in R.
    destruct R as (b1 & t1 & g1 & (_ & -> & -> & ->) & R).
    destruct R as (b2 & t2 & g2 & (g3 & (u & E & Hu & _ & _ & -> & ->) & ->) & R).
    destruct R as (b3 & t3 & g4 & (g5 & (x & Hx & -> & -> & ->) & ->) & R).
    destruct R as (b4 & t4 & g6 & (u2 & -> & Hu2 & Hl2 & _) & _).
    apply (leading_unique [] u c x) in E as (<- & <- & E); auto.
    + destruct u2 as [|w u2]; [simpl in Hl2; lia|]. simpl in E. inversion E; subst.
      simpl in Hu2. apply andb_true_iff in Hu2 as [Hw _]. congruence.
    + apply ul_marker_not_space. exact Hx.
  - apply ol_item_head; [exact Hsp|apply hr_char_not_digit; exact Hc].
Qed.

(** X3. A line of three or more equal characters out of [*], [-] and
    [_], followed by whitespace only, is emitted as [----]; the table
    buffer is flushed before it and the list stack is emptied. The test
    of the rule branch that the line is no list item never decides: a
    line that matches the rule pattern matches neither item pattern. *)
Theorem hr_line :
  (forall l,
      is_match (re_match _HR l) = true ->
      re_match _UL_ITEM l = None /\ re_match _OL_ITEM l = None)
  /\ (forall c n ws result stack tb,
        hr_char c = true -> 3 <= n -> forallb is_space ws = true ->
        contains _PH_CB (repeat c n ++ ws) = false ->
        block_step (repeat c n ++ ws) (result, stack, tb)
        = (' (r, t) <- flush_table result tb ;; ret (r ++ [py "----"], [], t))).
Proof.
  split.
  - intros l H. apply hr_shape in H as (c & n & ws & Hc & Hn & -> & _).
    apply hr_not_item; [exact Hc|lia].
  - intros c n ws result stack tb Hc Hn Hws Hph.
    pose proof (hr_match c n ws Hc Hn Hws) as M.
    destruct (hr_not_item c n ws Hc ltac:(lia)) as [U O].
    pose proof (hr_char_plain_start c Hc) as P.
    apply plain_start_split in P as (P1 & P2 & P3).
    unfold block_step. rewrite Hph, U, O.
    destruct (re_match _HR (repeat c n ++ ws)) as [m|]; [|discriminate M].
    destruct n as [|n]; [lia|]. cbn [repeat app].
    rewrite table_row_head, heading_head by auto. cbn [is_match negb andb].
    destruct (flush_table result tb) as [[r t]|]; reflexivity.
Qed.

Lemma hr_line_witness :
  block_step (py "***") ([py "* a"], [ul], []) = Some ([py "* a"; py "----"], [], []).
Proof.
  apply (proj2 hr_line "*"%char 3 [] [py "* a"] [ul] [] eq_refl (le_n 3) eq_refl eq_refl).
Defined.

(** ** Blockquotes *)

Lemma blockquote_match : forall sp content,
  quote_space sp -> (sp = [] -> starts_nonspace content) ->
  forallb dot content = true ->
  re_match _BLOCKQUOTE (">"%char :: sp ++ content)
  = Some {| m_groups := [(1, content)];
            m_len := length (">"%char :: sp ++ content) |}.
Proof.
  intros sp content Hq Hs Hc.
  assert (Hsp : forallb is_space sp = true /\ length sp <= 1).
  { destruct Hq as [-> | (w & -> & Hw & _)]; simpl; [auto|]. rewrite Hw. auto. }
  destruct Hsp as [Hsp Hl].
  assert (R : rmatch _BLOCKQUOTE [] (">"%char :: sp ++ content) []
                (fun _ t g => Some (g, t))
              = Some ([(1, content)], [])).
  { unfold _BLOCKQUOTE, many. cbn [rmatch]. rewrite Ascii.eqb_refl.
    apply rep_greedy_longest.
    - exact Hsp.
    - intros h Hh. inversion Hh. lia.
    - lia.
    - destruct content as [|x content]; [exact I|].
      destruct Hq as [-> | (w & -> & _)].
      + left. apply (Hs eq_refl).
      + right. reflexivity.
    - cbn [rmatch]. apply rep_greedy_all.
      + exact Hc.
      + discriminate.
      + lia.
      + cbn [length]. rewrite Nat.sub_0_r, firstn_all. reflexivity. }
  unfold re_match, match_at. rewrite R. simpl length. rewrite Nat.sub_0_r. reflexivity.
Qed.

Lemma quoted_dot : forall levels content,
  Forall quote_space levels -> forallb dot content = true ->
  forallb dot (quoted levels content) = true.
Proof.
  induction levels as [|sp levels IH]; intros content H Hc; [exact Hc|].
  inversion H; subst. cbn [quoted forallb]. rewrite forallb_app, (IH _ H3 Hc).
  destruct H2 as [-> | (w & -> & _ & Hw)]; simpl; [reflexivity|]. rewrite Hw. reflexivity.
Qed.

Lemma quoted_starts : forall levels content,
  starts_nonspace content -> starts_nonspace (quoted levels content).
Proof. intros [|sp levels] content H; [exact H|reflexivity]. Qed.

Lemma quoted_length : forall levels content, length levels <= length (quoted levels content).
Proof.
  induction levels as [|sp levels IH]; intros content; simpl; [lia|].
  rewrite length_app. specialize (IH content). lia.
Qed.

Lemma blockquote_none : forall content,
  hd_error content <> Some ">"%char -> re_match _BLOCKQUOTE content = None.
Proof.
  intros [|x t] H; [reflexivity|]. apply blockquote_head.
  apply Ascii.eqb_neq. intros ->. apply H. reflexivity.
Qed.

(** The loop that strips the quote markers of a nested blockquote. *)
Lemma flatten_quoted : forall levels content fuel,
  Forall quote_space levels -> length levels <= fuel ->
  forallb dot content = true -> starts_nonspace content ->
  hd_error content <> Some ">"%char ->
  flatten_blockquote fuel (quoted levels content) = Some content.
Proof.
  induction levels as [|sp levels IH]; intros content fuel H Hf Hc Hs Hq.
  - cbn [quoted]. destruct fuel; cbn [flatten_blockquote];
      rewrite blockquote_none by exact Hq; reflexivity.
  - inversion H; subst. destruct fuel as [|fuel]; [simpl in Hf; lia|].
    cbn [quoted flatten_blockquote].
    rewrite blockquote_match; auto.
    + unfold group_str, group. cbn [m_groups lookup Nat.eqb bind].
      apply IH; auto. simpl in Hf. lia.
    + intros _. apply quoted_starts. exact Hs.
    + apply quoted_dot; auto.
Qed.

(** X4. A blockquote line is emitted as [bq. <content>] whatever the
    number of its quote markers: the markers of a nested quote, each [>]
    with the whitespace character after it, are all removed. The table
    buffer is flushed before the line and the list stack is emptied. *)
Theorem blockquote_line :
  forall sp levels content result stack tb,
    Forall quote_space (sp :: levels) ->
    forallb dot content = true -> starts_nonspace content ->
    hd_error content <> Some ">"%char ->
    contains _PH_CB (quoted (sp :: levels) content) = false ->
    block_step (quoted (sp :: levels) content) (result, stack, tb)
    = (' (r, t) <- flush_table result tb ;; ret (r ++ [py "bq. " ++ content], [], t)).
Proof.
  intros sp levels content result stack tb H Hc Hs Hq Hph.
  inversion H; subst.
  unfold block_step. rewrite Hph. cbn [quoted].
  rewrite table_row_head, heading_head, hr_head by reflexivity.
  rewrite blockquote_match; auto.
  2:{ intros _. apply quoted_starts. exact Hs. }
  2:{ apply quoted_dot; auto. }
  cbn [is_match andb].
  destruct (flush_table result tb) as [[r t]|]; cbn [bind ret]; [|reflexivity].
  unfold group_str, group. cbn [m_groups lookup Nat.eqb bind].
  rewrite flatten_quoted; auto. apply quoted_length.
Qed.

Lemma blockquote_line_witness :
  block_step (py "> >> deep") ([], [ol], []) = Some ([py "bq. deep"], [], []).
Proof.
  apply (blockquote_line (py " ") [[]; py " "] (py "deep") [] [ol] []).
  - constructor; [right; exists SP; repeat split; reflexivity|].
    constructor; [left; reflexivity|].
    constructor; [right; exists SP; repeat split; reflexivity|constructor].
  - reflexivity.
  - reflexivity.
  - discriminate.
  - reflexivity.
Defined.

(* ------------------------------------------------------------------ *)
(** * Inline formatting *)
(* ------------------------------------------------------------------ *)

(** ** Lines without code spans, links and images *)

Lemma extract_links_free : forall s link_map,
  forallb (not_ch "!") s = true -> forallb (not_ch "[") s = true ->
  _extract_links s link_map = Some (s, link_map).
Proof.
  intros s link_map H1 H2. unfold _extract_links, re_sub_st.
  rewrite (sub_loop_free _ (ch "!")); auto using image_head. cbn [bind ret].
  rewrite (sub_loop_free _ (ch "[")); auto using link_head.
Qed.

(** The inline processing of a line in which only the formatting pass
    finds something. *)
Lemma inline_line_formatting : forall line out inline_map link_map,
  forallb (not_ch "`") line = true -> forallb (not_ch "!") line = true ->
  forallb (not_ch "[") line = true ->
  _process_inline_formatting line = Some out -> nul_free out = true ->
  keys_of _PH_IC inline_map -> keys_of _PH_LK link_map ->
  inline_line line inline_map link_map = Some (out, inline_map, link_map).
Proof.
  intros line out inline_map link_map H1 H2 H3 F N KI KL. unfold inline_line.
  rewrite extract_inline_code_plain by exact H1. cbn [bind ret].
  rewrite extract_links_free by auto. cbn [bind ret].
  rewrite F. cbn [bind ret].
  rewrite (restore_nul_free _PH_LK link_map out tag_LK KL N).
  rewrite (restore_nul_free _PH_IC inline_map out tag_IC KI N).
  reflexivity.
Qed.

Lemma plain_emph : forall s,
  plain_text s = true -> forallb (fun c => negb (emph_char c)) s = true.
Proof.
  intros s. unfold plain_text. apply forallb_impl. intros x Hx.
  apply negb_true_iff in Hx. apply special_false in Hx as (_ & _ & _ & Hx & _).
  unfold emph_char. rewrite Hx. reflexivity.
Qed.

Lemma plain_tilde : forall s,
  plain_text s = true -> forallb (fun c => negb (ch "~" c)) s = true.
Proof. intros s H. apply not_ch_of_plain; auto. Qed.

Lemma plain_head : forall x s, plain_text (x :: s) = true -> special x = false.
Proof.
  intros x s H. unfold plain_text in H. simpl in H.
  apply andb_true_iff in H as [H _]. apply negb_true_iff in H. exact H.
Qed.

Lemma plain_mid : forall u x v, plain_text (u ++ x :: v) = true -> special x = false.
Proof.
  intros u x v H. rewrite plain_text_app in H. apply andb_true_iff in H as [_ H].
  apply plain_head in H. exact H.
Qed.

(** ** Strikethrough *)

Lemma strike_rmatch : forall b g text post,
  text <> [] -> forallb dot text = true -> plain_text text = true ->
  rmatch (Grp 1 (few1 dot) +++ Lit "~" +++ Lit "~") b
    (text ++ "~"%char :: "~"%char :: post) g (fun _ t g' => Some (g', t))
  = Some ((1, text) :: g, post).
Proof.
  intros b g text post Hne Hd Hp. unfold few1. cbn [rmatch].
  apply rep_lazy_first.
  - exact Hd.
  - discriminate.
  - apply nonempty_length. exact Hne.
  - cbn [rmatch]. rewrite !Ascii.eqb_refl. rewrite firstn_app_sub. reflexivity.
  - intros u1 u2 E Hne2 _. destruct u2 as [|x u2]; [congruence|].
    subst text. apply plain_mid in Hp. apply special_false in Hp as (_ & _ & _ & _ & Hp).
    cbn [rmatch app]. unfold ch in Hp. rewrite Hp. reflexivity.
Qed.

Lemma strike_match : forall b text post,
  text <> [] -> forallb dot text = true -> plain_text text = true ->
  match_at _STRIKE b ("~"%char :: ("~"%char :: text ++ py "~~") ++ post)
  = Some {| m_groups := [(1, text)];
            m_len := S (length ("~"%char :: text ++ py "~~")) |}.
Proof.
  intros b text post Hne Hd Hp. change (py "~~") with ["~"%char; "~"%char].
  unfold match_at, _STRIKE. cbn [rmatch app]. rewrite !Ascii.eqb_refl.
  replace ((text ++ ["~"%char; "~"%char]) ++ post) with (text ++ "~"%char :: "~"%char :: post)
    by (rewrite <- app_assoc; reflexivity).
  pose proof (strike_rmatch ("~"%char :: "~"%char :: b) [] text post Hne Hd Hp) as R.
  cbn [rmatch] in R. rewrite R.
  f_equal. f_equal. cbn [length]. rewrite !length_app. cbn [length]. lia.
Qed.

Lemma strike_formatting : forall pre text post,
  plain_text pre = true -> marked_text text -> plain_text post = true ->
  _process_inline_formatting (pre ++ py "~~" ++ text ++ py "~~" ++ post)
  = Some (pre ++ py "-" ++ text ++ py "-" ++ post).
Proof.
  intros pre text post P (Hne & T & _ & Hd) Q.
  assert (E : forallb (fun c => negb (emph_char c))
                (pre ++ py "~~" ++ text ++ py "~~" ++ post) = true).
  { rewrite !forallb_app, (plain_emph pre), (plain_emph text), (plain_emph post) by auto.
    reflexivity. }
  unfold _process_inline_formatting, re_sub, re_sub_st.
  rewrite (sub_loop_free _ emph_char); auto using bold_italic_head. cbn [bind ret].
  rewrite (sub_loop_free _ emph_char); auto using bold_head. cbn [bind ret].
  rewrite (sub_loop_free _ emph_char); auto using italic_head, italic_nil. cbn [bind ret].
  rewrite (sub_loop_free_prefix _ (ch "~")); auto using strike_head, plain_tilde.
  change (py "~~" ++ text ++ py "~~" ++ post)
    with ("~"%char :: "~"%char :: text ++ py "~~" ++ post).
  replace ("~"%char :: "~"%char :: text ++ py "~~" ++ post)
    with ("~"%char :: ("~"%char :: text ++ py "~~") ++ post)
    by (simpl; rewrite <- app_assoc; reflexivity).
  erewrite sub_loop_match; [|apply strike_match; auto|reflexivity].
  unfold group. cbn [m_groups lookup Nat.eqb bind ret fmt].
  rewrite (sub_loop_free _ (ch "~")); auto using strike_head, plain_tilde.
  cbn [bind ret]. unfold _restore_placeholders. cbn [fold_left].
  rewrite <- !app_assoc. reflexivity.
Qed.

(** X5. Text between two [~~] is struck through: the line comes out of
    the inline processing with the text between two [-], whatever the
    placeholder maps of the earlier lines hold. *)
Theorem strikethrough_text :
  forall pre text post inline_map link_map,
    context_text pre -> marked_text text -> context_text post ->
    keys_of _PH_IC inline_map -> keys_of _PH_LK link_map ->
    inline_line (pre ++ py "~~" ++ text ++ py "~~" ++ post) inline_map link_map
    = Some (pre ++ py "-" ++ text ++ py "-" ++ post, inline_map, link_map).
Proof.
  intros pre text post inline_map link_map [P1 P2] T [Q1 Q2] KI KL.
  pose proof T as (Hne & T1 & T2 & Hd).
  apply inline_line_formatting; auto.
  - rewrite !forallb_app, (plain_not_ch "`"%char pre), (plain_not_ch "`"%char text),
      (plain_not_ch "`"%char post) by auto. reflexivity.
  - rewrite !forallb_app, (plain_not_ch "!"%char pre), (plain_not_ch "!"%char text),
      (plain_not_ch "!"%char post) by auto. reflexivity.
  - rewrite !forallb_app, (plain_not_ch "["%char pre), (plain_not_ch "["%char text),
      (plain_not_ch "["%char post) by auto. reflexivity.
  - apply strike_formatting; auto.
  - rewrite !nul_free_app, P2, T2, Q2. reflexivity.
Qed.

Lemma strikethrough_text_witness :
  inline_line (py "a ~~strike~~ b") [] []
  = Some (py "a -strike- b", [], []).
Proof.
  apply (strikethrough_text (py "a ") (py "strike") (py " b") [] []).
  - split; reflexivity.
  - repeat split; try reflexivity. discriminate.
  - split; reflexivity.
  - reflexivity.
  - reflexivity.
Defined.

(* ------------------------------------------------------------------ *)
(** * Placeholders *)
(* ------------------------------------------------------------------ *)

(** ** The keys *)

(** X6. The placeholder keys are unambiguous and inert: two keys are
    equal only when their tags and their counters are, and the inline
    formatting pass leaves a key between texts without inline markers as
    it is. *)
Theorem placeholder_keys :
  forall tag tag' n n' pre post,
    is_tag tag -> is_tag tag' ->
    (_ph tag n = _ph tag' n' -> tag = tag' /\ n = n')
    /\ (plain_text pre = true -> plain_text post = true ->
        _process_inline_formatting (pre ++ _ph tag n ++ post)
        = Some (pre ++ _ph tag n ++ post)).
Proof.
  intros tag tag' n n' pre post T T'. split.
  - apply ph_inj; assumption.
  - intros P Q. apply formatting_plain_text.
    rewrite !plain_text_app, P, Q, (key_plain tag n T). reflexivity.
Qed.

Lemma placeholder_keys_witness :
  (_ph _PH_IC 1 = _ph _PH_LK 1 -> _PH_IC = _PH_LK /\ 1 = 1)
  /\ (plain_text (py "see ") = true -> plain_text (py ".") = true ->
      _process_inline_formatting (py "see " ++ _ph _PH_IC 1 ++ py ".")
      = Some (py "see " ++ _ph _PH_IC 1 ++ py ".")).
Proof.
  apply (placeholder_keys _PH_IC _PH_LK 1 1 (py "see ") (py ".")).
  - right. left. reflexivity.
  - right. right. left. reflexivity.
Defined.

(** ** Storing and restoring *)



(** X8. Restoring does not touch a text without NUL: with a map whose
    keys are placeholder keys, whatever its values are, the text comes
    back as it is. *)
Theorem restore_without_keys :
  forall tag m s,
    is_tag tag -> (forall kv, In kv m -> exists j, fst kv = _ph tag j) ->
    nul_free s = true -> _restore_placeholders s m = s.
Proof. intros tag m s T H N. apply (restore_keys_nul_free tag); assumption. Qed.

Lemma restore_without_keys_witness :
  _restore_placeholders (py "CB1 and IC0") [(_ph _PH_CB 1, py "{code}")]
  = py "CB1 and IC0".
Proof.
  apply (restore_without_keys _PH_CB [(_ph _PH_CB 1, py "{code}")] (py "CB1 and IC0")).
  - left. reflexivity.
  - intros kv [<-|[]]. exists 1. reflexivity.
  - reflexivity.
Defined.

(* ------------------------------------------------------------------ *)
(** * The map of the fenced blocks *)
(* ------------------------------------------------------------------ *)

Lemma collect_body_rest : forall c lines acc body rest,
  collect_body c lines acc = (body, rest) ->
  (forall l, In l rest -> In l lines) /\ length rest < length lines + 1.
Proof.
  intros c. induction lines as [|x lines IH]; intros acc body rest H; simpl in H.
  - inversion H; subst. split; [auto|simpl; lia].
  - destruct (is_match (re_match (close_fence c) x)).
    + inversion H; subst. split; [intros l Hl; right; exact Hl|simpl; lia].
    + apply IH in H as [H1 H2]. split; [intros l Hl; right; auto|simpl; lia].
Qed.

(** The lines that the loop of [_extract_code_blocks] adds are lines of
    the input or keys of the map, one for each line or block it reads. *)
Lemma extract_loop_lines : forall fuel lines result code_map counter res m,
  extract_loop fuel lines result code_map counter = Some (res, m) ->
  counter = length code_map -> keys_of _PH_CB code_map ->
  (forall l, In l res ->
     In l result \/ In l lines \/ exists kv, In kv m /\ fst kv = l)
  /\ (forall kv, In kv code_map -> In kv m)
  /\ length res <= length result + length lines.
Proof.
  induction fuel as [|fuel IH]; intros lines result code_map counter res m H Hc K;
    destruct lines as [|line rest].
  - simpl in H. inversion H; subst. repeat split; auto. simpl. lia.
  - simpl in H. discriminate.
  - simpl in H. inversion H; subst. repeat split; auto. simpl. lia.
  - cbn [extract_loop] in H. destruct (re_match _FENCE_START line) as [mo|].
    + destruct (group_str mo 1) as [g1|]; cbn [bind] in H; [|discriminate].
      destruct (index g1 0) as [fc|]; cbn [bind] in H; [|discriminate].
      destruct (group_str mo 2) as [g2|]; cbn [bind] in H; [|discriminate].
      destruct (collect_body fc rest []) as [body rest'] eqn:C.
      apply collect_body_rest in C as [C1 C2].
      subst counter. rewrite dict_set_new in H by (auto using tag_CB).
      apply IH in H as (H1 & H2 & H3).
      * split; [|split].
        -- intros l Hl. apply H1 in Hl as [Hl|[Hl|Hl]].
           ++ apply in_app_or in Hl as [Hl|[<-|[]]]; [left; exact Hl|].
              right. right. eexists. split; [apply H2; apply in_or_app; right; left; reflexivity|].
              reflexivity.
           ++ right. left. right. auto.
           ++ right. right. exact Hl.
        -- intros kv Hkv. apply H2. apply in_or_app. left. exact Hkv.
        -- rewrite length_app in H3. simpl in *. lia.
      * rewrite length_app. simpl. lia.
      * apply keys_of_snoc. exact K.
    + apply IH in H as (H1 & H2 & H3); auto.
      split; [|split; auto].
      * intros l Hl. apply H1 in Hl as [Hl|[Hl|Hl]].
        -- apply in_app_or in Hl as [Hl|[<-|[]]]; [left; exact Hl|].
           right. left. left. reflexivity.
        -- right. left. right. exact Hl.
        -- right. right. exact Hl.
      * rewrite length_app in H3. simpl in *. lia.
Qed.

(** X9. [_extract_code_blocks] returns on every list of lines. The keys
    of its map are the code block keys numbered from 0 in the order of
    the blocks, each key is a line of the result and its value is a
    rendered code block; every line of the result is a line of the
    input or a key of the map, and the result has no more lines than
    the input. *)
Theorem extract_code_blocks_map :
  forall lines, exists result code_map,
    _extract_code_blocks lines = Some (result, code_map)
    /\ keys_of _PH_CB code_map
    /\ (forall kv, In kv code_map ->
          In (fst kv) result /\ exists lang body, snd kv = code_block lang body)
    /\ (forall l, In l result ->
          In l lines \/ exists kv, In kv code_map /\ fst kv = l)
    /\ length result <= length lines.
Proof.
  intros lines. unfold _extract_code_blocks.
  destruct (extract_loop_ok (fun _ => true) (fun _ _ => eq_refl) (length lines) lines
              [] [] 0 (le_n _) (oks_true _))
    as (res & m & E & _ & K & Hin & B & _).
  { split; [reflexivity|]. split; [reflexivity|]. split; [intros kv []|].
    split; [intros kv []|constructor]. }
  exists res, m. split; [exact E|]. split; [exact K|].
  destruct (extract_loop_lines _ _ _ _ _ _ _ E eq_refl eq_refl) as (H1 & _ & H3).
  split; [|split].
  - intros kv Hkv. split; [auto|].
    destruct (B kv Hkv) as (lang & body & Ev & _). eauto.
  - intros l Hl. destruct (H1 l Hl) as [[]|[Hl'|Hl']]; auto.
  - simpl in H3. exact H3.
Qed.

(* ------------------------------------------------------------------ *)
(** * Bold and italic text *)
(* ------------------------------------------------------------------ *)

Lemma emphasis_bold_italic : _BOLD_ITALIC = emphasis 3.
Proof. reflexivity. Qed.

Lemma emphasis_bold : _BOLD = emphasis 2.
Proof. reflexivity. Qed.

Lemma tag_BD : is_tag _PH_BD.
Proof. right. right. right. reflexivity. Qed.

Lemma emph_char_cases : forall c, emph_char c = true -> c = "*"%char \/ c = "_"%char.
Proof.
  intros c H. unfold emph_char, ch in H. apply orb_true_iff in H as [H|H];
    apply Ascii.eqb_eq in H; auto.
Qed.

Lemma ch_emph : forall c x, emph_char c = true -> ch c x = true -> emph_char x = true.
Proof. intros c x Hc Hx. apply Ascii.eqb_eq in Hx. subst x. exact Hc. Qed.

(** ** Runs of markers *)

Lemma lead_app : forall u s, forallb emph_char u = true -> length u <= lead (u ++ s).
Proof.
  induction u as [|x u IH]; intros s H; simpl in *; [lia|].
  apply andb_true_iff in H as [H1 H2]. rewrite H1. specialize (IH s H2). lia.
Qed.

Lemma lead_le_maxrun : forall p1 p2, lead p2 <= maxrun (p1 ++ p2).
Proof.
  induction p1 as [|x p1 IH]; intros p2.
  - destruct p2 as [|y p2]; [simpl; lia|]. cbn [app maxrun]. lia.
  - cbn [app maxrun]. specialize (IH p2). lia.
Qed.

Lemma lead_plain : forall s,
  forallb (fun c => negb (emph_char c)) s = true -> lead s = 0.
Proof.
  intros [|x s] H; [reflexivity|]. simpl in *.
  apply andb_true_iff in H as [H _]. apply negb_true_iff in H. rewrite H. reflexivity.
Qed.

Lemma lead_plain_app : forall s t,
  s <> [] -> forallb (fun c => negb (emph_char c)) s = true -> lead (s ++ t) = 0.
Proof.
  intros [|x s] t Hne H; [congruence|]. simpl in *.
  apply andb_true_iff in H as [H _]. apply negb_true_iff in H. rewrite H. reflexivity.
Qed.

Lemma maxrun_app_plain : forall pre s,
  forallb (fun c => negb (emph_char c)) pre = true -> maxrun (pre ++ s) = maxrun s.
Proof.
  induction pre as [|x pre IH]; intros s H; [reflexivity|].
  simpl in H. apply andb_true_iff in H as [H1 H2]. apply negb_true_iff in H1.
  cbn [app maxrun lead]. rewrite H1, (IH s H2). reflexivity.
Qed.

Lemma maxrun_plain : forall s,
  forallb (fun c => negb (emph_char c)) s = true -> maxrun s = 0.
Proof.
  intros s H. rewrite <- (app_nil_r s). rewrite maxrun_app_plain by exact H. reflexivity.
Qed.

Lemma lead_repeat : forall c k s, emph_char c = true -> lead (repeat c k ++ s) = k + lead s.
Proof.
  intros c k s H. induction k as [|k IH]; [reflexivity|].
  cbn [repeat app lead]. rewrite H, IH. reflexivity.
Qed.

Lemma maxrun_repeat : forall c k s,
  emph_char c = true -> maxrun (repeat c k ++ s) = Nat.max (k + lead s) (maxrun s).
Proof.
  intros c k s H. induction k as [|k IH].
  - simpl. pose proof (lead_le_maxrun [] s) as L. simpl in L. lia.
  - change (repeat c (S k) ++ s) with (c :: repeat c k ++ s).
    cbn [maxrun]. rewrite IH.
    change (c :: repeat c k ++ s) with (repeat c (S k) ++ s).
    rewrite lead_repeat by exact H. lia.
Qed.

(** The longest run of markers of a text marked once. *)
Lemma maxrun_marked : forall c k pre text post,
  emph_char c = true -> plain_text pre = true -> text <> [] ->
  plain_text text = true -> plain_text post = true ->
  maxrun (pre ++ repeat c k ++ text ++ repeat c k ++ post) = k.
Proof.
  intros c k pre text post Hc P Hne T Q.
  apply plain_emph in P. apply plain_emph in T. apply plain_emph in Q.
  rewrite maxrun_app_plain by exact P.
  rewrite maxrun_repeat by exact Hc.
  rewrite lead_plain_app by assumption.
  rewrite maxrun_app_plain by exact T.
  rewrite maxrun_repeat by exact Hc.
  rewrite lead_plain, maxrun_plain by exact Q. lia.
Qed.

(** ** Where [emphasis n] cannot match *)

Lemma emph_lead : forall n b t m, match_at (emphasis n) b t = Some m -> n <= lead t.
Proof.
  intros n b t m H. apply match_at_sound in H as (b' & t' & g' & R & _).
  destruct R as (b1 & t1 & g1 & R1 & _).
  destruct R1 as (g0 & R1 & _).
  assert (A : forall c, emph_char c = true ->
            reach (exactly n (ch c)) b t [] b1 t1 g0 -> n <= lead t).
  { intros c Hc (u & -> & Hu & Hlo & _).
    assert (Hu' : forallb emph_char u = true).
    { revert Hu. apply forallb_impl. intros x. apply ch_emph. exact Hc. }
    pose proof (lead_app u t1 Hu'). lia. }
  destruct R1 as [R1|R1]; eapply A; try exact R1; reflexivity.
Qed.

Lemma emph_none : forall n b t, lead t < n -> match_at (emphasis n) b t = None.
Proof.
  intros n b t H. destruct (match_at (emphasis n) b t) eqn:E; [|reflexivity].
  apply emph_lead in E. lia.
Qed.

Lemma emph_head : forall n b x t,
  1 <= n -> emph_char x = false -> match_at (emphasis n) b (x :: t) = None.
Proof. intros n b x t Hn H. apply emph_none. simpl. rewrite H. lia. Qed.

Lemma emph_nil : forall n b, 1 <= n -> match_at (emphasis n) b [] = None.
Proof. intros n b Hn. apply emph_none. simpl. lia. Qed.

(** A text whose runs of markers are shorter than [n] is left as it is. *)
Lemma emph_nomatch : forall (S : Type) n (repl : match_obj -> S -> M (str * S)) t st,
  maxrun t < n -> re_sub_st (emphasis n) repl t st = Some (t, st).
Proof.
  intros S n repl t st H. unfold re_sub_st. apply sub_loop_nomatch.
  intros p1 p2 E. apply emph_none. pose proof (lead_le_maxrun p1 p2) as L.
  rewrite <- E in L. lia.
Qed.

Lemma emph_free : forall (S : Type) n (repl : match_obj -> S -> M (str * S)) t b st,
  1 <= n -> forallb (fun c => negb (emph_char c)) t = true ->
  sub_loop (emphasis n) repl b t 0 st = Some (t, st).
Proof.
  intros S n repl t b st Hn H.
  apply (sub_loop_free (emphasis n) emph_char repl); auto using emph_head, emph_nil.
Qed.

(** ** Where [emphasis n] matches *)

(** The markers: [n] equal characters out of [*] and [_]. *)
Lemma marker_rmatch : forall c n b s g k res,
  emph_char c = true -> 1 <= n ->
  k (rev (repeat c n) ++ b) s g = Some res ->
  rmatch (Alt (exactly n (ch "*")) (exactly n (ch "_"))) b (repeat c n ++ s) g k
  = Some res.
Proof.
  intros c n b s g k res Hc Hn Hk.
  assert (G : rep_greedy (ch c) n (Some n) (repeat c n ++ s) 0 b g k = Some res).
  { apply rep_greedy_longest.
    - apply forallb_repeat. apply ch_refl.
    - intros h Hh. inversion Hh; subst. rewrite repeat_length. lia.
    - rewrite repeat_length. lia.
    - destruct s; [exact I|]. right. rewrite repeat_length. reflexivity.
    - exact Hk. }
  apply emph_char_cases in Hc as [-> | ->]; unfold exactly; cbn [rmatch].
  - rewrite G. reflexivity.
  - destruct n as [|n]; [lia|]. cbn [repeat app rep_greedy].
    change (ch "*" "_"%char) with false. cbn [andb Nat.leb].
    exact G.
Qed.

Lemma marker_greedy : forall c n b s g k res,
  emph_char c = true -> 1 <= n ->
  k (rev (repeat c n) ++ b) s g = Some res ->
  match rep_greedy (ch "*") n (Some n) (repeat c n ++ s) 0 b g k with
  | Some x => Some x
  | None => rep_greedy (ch "_") n (Some n) (repeat c n ++ s) 0 b g k
  end = Some res.
Proof. exact marker_rmatch. Qed.

Lemma startswith_repeat_other : forall c n x t,
  1 <= n -> Ascii.eqb x c = false -> startswith (repeat c n) (x :: t) = false.
Proof.
  intros c [|n] x t Hn H; [lia|]. cbn [repeat startswith].
  rewrite Ascii.eqb_sym, H. reflexivity.
Qed.

Lemma emph_match : forall c n b text post,
  emph_char c = true -> 1 <= n ->
  text <> [] -> forallb dot text = true ->
  forallb (fun x => negb (emph_char x)) text = true ->
  match_at (emphasis n) b (repeat c n ++ text ++ repeat c n ++ post)
  = Some {| m_groups := [(2, text); (1, repeat c n)];
            m_len := n + length text + n |}.
Proof.
  intros c n b text post Hc Hn Hne Hd Hp.
  unfold match_at, emphasis, exactly. cbn [rmatch].
  erewrite marker_greedy; [| exact Hc | exact Hn |].
  2:{ rewrite firstn_app_sub. unfold few1. cbn [rmatch].
      apply rep_lazy_first.
      - exact Hd.
      - discriminate.
      - apply nonempty_length. exact Hne.
      - rewrite firstn_app_sub. cbn [rmatch lookup Nat.eqb].
        rewrite startswith_prefix, skipn_length_app. reflexivity.
      - intros u1 u2 E Hne2 _. destruct u2 as [|x u2]; [congruence|].
        cbn [rmatch lookup Nat.eqb app].
        rewrite startswith_repeat_other; [reflexivity|exact Hn|].
        subst text. rewrite forallb_app in Hp. apply andb_true_iff in Hp as [_ Hp].
        simpl in Hp. apply andb_true_iff in Hp as [Hp _]. apply negb_true_iff in Hp.
        destruct (Ascii.eqb x c) eqn:Ex; [|reflexivity].
        apply Ascii.eqb_eq in Ex. subst x. congruence. }
  cbv iota beta. f_equal. f_equal. rewrite !length_app, !repeat_length. lia.
Qed.

(** The substitution of [emphasis n] in a text marked once: the marked
    text goes into the map and its key takes its place. *)
Lemma emph_sub : forall n c wiki pre text post k m,
  1 <= n -> emph_char c = true ->
  plain_text pre = true -> text <> [] -> forallb dot text = true ->
  plain_text text = true -> plain_text post = true ->
  re_sub_st (emphasis n) (store_bold wiki)
    (pre ++ repeat c n ++ text ++ repeat c n ++ post) (k, m)
  = Some (pre ++ _ph _PH_BD k ++ post,
          (S k, dict_set (_ph _PH_BD k)
                  (wiki {| m_groups := [(2, text); (1, repeat c n)];
                           m_len := n + length text + n |}) m)).
Proof.
  intros n c wiki pre text post k m Hn Hc P Hne Hd T Q. unfold re_sub_st.
  rewrite (sub_loop_free_prefix (emphasis n) emph_char);
    [|intros; apply emph_head; assumption|apply plain_emph; exact P].
  pose proof (emph_match c n (rev pre ++ []) text post Hc Hn Hne Hd (plain_emph _ T)) as Hm.
  destruct n as [|n']; [lia|].
  replace (repeat c (S n') ++ text ++ repeat c (S n') ++ post)
    with (c :: (repeat c n' ++ text ++ repeat c (S n')) ++ post) in *
    by (cbn [repeat app]; rewrite <- !app_assoc; reflexivity).
  erewrite sub_loop_match; [|exact Hm|].
  2:{ cbn [m_len]. rewrite !length_app, !repeat_length. lia. }
  unfold store_bold at 1. cbn [bind ret].
  rewrite emph_free by (auto using plain_emph; lia).
  cbn [bind ret]. reflexivity.
Qed.

Lemma italic_free : forall t,
  forallb (fun c => negb (emph_char c)) t = true -> re_sub _ITALIC italic_repl t = Some t.
Proof.
  intros t H. unfold re_sub, re_sub_st.
  rewrite (sub_loop_free _ emph_char); auto using italic_head, italic_nil.
Qed.

Lemma strike_free : forall t,
  forallb (fun c => negb (ch "~" c)) t = true ->
  re_sub _STRIKE (fun m => ret (py "-" ++ fmt (group m 1) ++ py "-")) t = Some t.
Proof.
  intros t H. unfold re_sub, re_sub_st.
  rewrite (sub_loop_free _ (ch "~")); auto using strike_head.
Qed.

Lemma key_line_plain : forall pre k post,
  plain_text pre = true -> plain_text post = true ->
  plain_text (pre ++ _ph _PH_BD k ++ post) = true.
Proof.
  intros pre k post P Q. rewrite !plain_text_app, P, Q, (key_plain _ k tag_BD). reflexivity.
Qed.

(** The passes after the one that stored the marked text under the first
    key of the bold map. *)
Lemma formatting_stored : forall pre post v,
  context_text pre -> context_text post ->
  (line <- re_sub _ITALIC italic_repl (pre ++ _ph _PH_BD 0 ++ post) ;;
   line <- re_sub _STRIKE (fun m => ret (py "-" ++ fmt (group m 1) ++ py "-")) line ;;
   ret (_restore_placeholders line (dict_set (_ph _PH_BD 0) v [])))
  = Some (pre ++ v ++ post).
Proof.
  intros pre post v [P1 P2] [Q1 Q2].
  pose proof (key_line_plain pre 0 post P1 Q1) as L.
  rewrite italic_free by (apply plain_emph; exact L). cbn [bind ret].
  rewrite strike_free by (apply plain_tilde; exact L). cbn [bind ret].
  unfold ret. f_equal. exact (restore_last _PH_BD [] v pre post tag_BD eq_refl P2 Q2).
Qed.

Lemma bold_italic_formatting : forall c pre text post,
  emph_char c = true -> context_text pre -> marked_text text -> context_text post ->
  _process_inline_formatting (pre ++ repeat c 3 ++ text ++ repeat c 3 ++ post)
  = Some (pre ++ py "*_" ++ text ++ py "_*" ++ post).
Proof.
  intros c pre text post Hc P (Hne & T & _ & Hd) Q.
  unfold _process_inline_formatting.
  rewrite emphasis_bold_italic, emphasis_bold.
  rewrite emph_sub by (try apply P; try apply Q; auto). cbn [bind ret].
  unfold re_sub_st at 1.
  rewrite emph_free by (try apply plain_emph, key_line_plain; try apply P; try apply Q; lia).
  cbn [bind ret].
  rewrite formatting_stored by assumption.
  unfold group. cbn [m_groups lookup Nat.eqb fmt]. rewrite <- !app_assoc. reflexivity.
Qed.

Lemma bold_formatting : forall c pre text post,
  emph_char c = true -> context_text pre -> marked_text text -> context_text post ->
  _process_inline_formatting (pre ++ repeat c 2 ++ text ++ repeat c 2 ++ post)
  = Some (pre ++ py "*" ++ text ++ py "*" ++ post).
Proof.
  intros c pre text post Hc P (Hne & T & _ & Hd) Q.
  unfold _process_inline_formatting.
  rewrite emphasis_bold_italic, emphasis_bold.
  rewrite emph_nomatch by (rewrite maxrun_marked; try apply P; try apply Q; auto).
  cbn [bind ret].
  rewrite emph_sub by (try apply P; try apply Q; auto). cbn [bind ret].
  rewrite formatting_stored by assumption.
  unfold group. cbn [m_groups lookup Nat.eqb fmt]. rewrite <- !app_assoc. reflexivity.
Qed.

(** ** Italic text *)

Lemma rev_head_in : forall (text : str) b,
  text <> [] -> exists y r, rev text ++ b = y :: r /\ In y text.
Proof.
  intros text b Hne. destruct (rev text) as [|y r] eqn:E.
  - apply (f_equal (@rev ascii)) in E. rewrite rev_involutive in E. simpl in E. congruence.
  - exists y, (r ++ b). split; [reflexivity|]. apply in_rev. rewrite E. left. reflexivity.
Qed.

(** The text and the closing marker of an italic text. *)
Lemma italic_rmatch : forall c gi b g text post,
  text <> [] -> forallb dot text = true ->
  forallb (fun x => negb (Ascii.eqb x c)) text = true ->
  hd_error post <> Some c ->
  rmatch (Grp gi (few1 dot) +++ NotBehind c +++ Lit c +++ NotAhead c) b
    (text ++ c :: post) g (fun _ t g' => Some (g', t))
  = Some ((gi, text) :: g, post).
Proof.
  intros c gi b g text post Hne Hd Hc Hpost. unfold few1. cbn [rmatch].
  apply rep_lazy_first.
  - exact Hd.
  - discriminate.
  - apply nonempty_length. exact Hne.
  - destruct (rev_head_in text b Hne) as (y & r & -> & Hy).
    rewrite forallb_forall in Hc. specialize (Hc y Hy). apply negb_true_iff in Hc.
    rewrite Hc, Ascii.eqb_refl, firstn_app_sub.
    destruct post as [|p post]; [reflexivity|].
    destruct (Ascii.eqb p c) eqn:Ep; [|reflexivity].
    apply Ascii.eqb_eq in Ep. subst p. exfalso. apply Hpost. reflexivity.
  - intros u1 u2 E Hne2 _. destruct u2 as [|x u2]; [congruence|].
    assert (Hx : Ascii.eqb x c = false).
    { subst text. rewrite forallb_app in Hc. apply andb_true_iff in Hc as [_ Hc].
      simpl in Hc. apply andb_true_iff in Hc as [Hc _]. apply negb_true_iff in Hc. exact Hc. }
    cbn [app]. rewrite Hx.
    destruct (rev u1 ++ b) as [|y r]; [reflexivity|].
    destruct (Ascii.eqb y c); reflexivity.
Qed.

(** One alternative of [_ITALIC] at a text marked with [c]. *)
Lemma italic_alt : forall c gi b text post,
  hd_error b <> Some c ->
  text <> [] -> forallb dot text = true ->
  forallb (fun x => negb (Ascii.eqb x c)) text = true ->
  hd_error post <> Some c ->
  rmatch (NotBehind c +++ Lit c +++ NotAhead c +++ Grp gi (few1 dot)
            +++ NotBehind c +++ Lit c +++ NotAhead c) b
    (c :: text ++ c :: post) [] (fun _ t g' => Some (g', t))
  = Some ([(gi, text)], post).
Proof.
  intros c gi b text post Hb Hne Hd Hc Hpost.
  pose proof (italic_rmatch c gi (c :: b) [] text post Hne Hd Hc Hpost) as R.
  cbn [rmatch] in R |- *. rewrite Ascii.eqb_refl.
  assert (Hb' : match b with
                | x :: _ => Ascii.eqb x c = false
                | [] => True
                end).
  { destruct b as [|x b]; [exact I|]. destruct (Ascii.eqb x c) eqn:E; [|reflexivity].
    apply Ascii.eqb_eq in E. subst x. exfalso. apply Hb. reflexivity. }
  destruct text as [|x text]; [congruence|].
  assert (Hx : Ascii.eqb x c = false).
  { simpl in Hc. apply andb_true_iff in Hc as [Hc _]. apply negb_true_iff in Hc. exact Hc. }
  cbn [app]. rewrite Hx.
  destruct b as [|y b]; [exact R|]. rewrite Hb'. exact R.
Qed.

Lemma emph_not_eq : forall x c,
  emph_char x = false -> emph_char c = true -> Ascii.eqb x c = false.
Proof.
  intros x c Hx Hc. destruct (Ascii.eqb x c) eqn:E; [|reflexivity].
  apply Ascii.eqb_eq in E. subst x. congruence.
Qed.

Lemma italic_match : forall c b text post,
  emph_char c = true -> hd_error b <> Some c ->
  text <> [] -> forallb dot text = true ->
  forallb (fun x => negb (emph_char x)) text = true ->
  hd_error post <> Some c ->
  exists m, match_at _ITALIC b (c :: (text ++ [c]) ++ post) = Some m
            /\ m_len m = S (length (text ++ [c]))
            /\ italic_repl m = Some (py "_" ++ text ++ py "_").
Proof.
  intros c b text post Hc Hb Hne Hd Hp Hpost.
  replace ((text ++ [c]) ++ post) with (text ++ c :: post)
    by (rewrite <- app_assoc; reflexivity).
  assert (Hc' : forallb (fun x => negb (Ascii.eqb x c)) text = true).
  { revert Hp. apply forallb_impl. intros x Hx. apply negb_true_iff in Hx.
    rewrite (emph_not_eq x c Hx Hc). reflexivity. }
  assert (L : forall x : ascii,
            length (x :: text ++ x :: post) - length post = S (length (text ++ [x]))).
  { intros x. cbn [length]. rewrite !length_app. cbn [length]. lia. }
  apply emph_char_cases in Hc as [-> | ->].
  - pose proof (italic_alt "*" 1 b text post Hb Hne Hd Hc' Hpost) as R.
    exists {| m_groups := [(1, text)]; m_len := S (length (text ++ ["*"%char])) |}.
    split; [|split; reflexivity].
    unfold match_at, _ITALIC. cbn [rmatch] in R |- *. rewrite R.
    cbv iota beta. rewrite L. reflexivity.
  - pose proof (italic_alt "_" 2 b text post Hb Hne Hd Hc' Hpost) as R.
    exists {| m_groups := [(2, text)]; m_len := S (length (text ++ ["_"%char])) |}.
    split; [|split; reflexivity].
    unfold match_at, _ITALIC. cbn [rmatch] in R |- *.
    change (Ascii.eqb "_" "*") with false. cbv iota.
    assert (E : match b with
                | [] => @None (groups * str)
                | x :: _ => if Ascii.eqb x "*" then None else None
                end = None).
    { destruct b as [|y b]; [reflexivity|]. destruct (Ascii.eqb y "*"); reflexivity. }
    rewrite E. rewrite R. cbv iota beta. rewrite L. reflexivity.
Qed.

Lemma plain_rev_head : forall pre c,
  forallb (fun x => negb (emph_char x)) pre = true -> emph_char c = true ->
  hd_error (rev pre ++ []) <> Some c.
Proof.
  intros pre c H Hc E. rewrite app_nil_r in E.
  destruct (rev pre) as [|y r] eqn:R; [discriminate|]. inversion E; subst y.
  rewrite forallb_forall in H. specialize (H c).
  rewrite Hc in H. discriminate H. apply in_rev. rewrite R. left. reflexivity.
Qed.

Lemma plain_hd : forall post c,
  forallb (fun x => negb (emph_char x)) post = true -> emph_char c = true ->
  hd_error post <> Some c.
Proof.
  intros [|y post] c H Hc E; [discriminate|]. inversion E; subst y.
  simpl in H. rewrite Hc in H. discriminate H.
Qed.

Lemma italic_formatting : forall c pre text post,
  emph_char c = true -> context_text pre -> marked_text text -> context_text post ->
  _process_inline_formatting (pre ++ repeat c 1 ++ text ++ repeat c 1 ++ post)
  = Some (pre ++ py "_" ++ text ++ py "_" ++ post).
Proof.
  intros c pre text post Hc [P1 P2] (Hne & T & _ & Hd) [Q1 Q2].
  unfold _process_inline_formatting.
  rewrite emphasis_bold_italic, emphasis_bold.
  rewrite emph_nomatch by (rewrite maxrun_marked; auto).
  cbn [bind ret].
  rewrite emph_nomatch by (rewrite maxrun_marked; auto).
  cbn [bind ret].
  assert (I1 : re_sub _ITALIC italic_repl (pre ++ repeat c 1 ++ text ++ repeat c 1 ++ post)
               = Some (pre ++ py "_" ++ text ++ py "_" ++ post)).
  { unfold re_sub, re_sub_st.
    rewrite (sub_loop_free_prefix _ emph_char); auto using italic_head, plain_emph.
    replace (repeat c 1 ++ text ++ repeat c 1 ++ post) with (c :: (text ++ [c]) ++ post)
      by (cbn [repeat app]; rewrite <- app_assoc; reflexivity).
    destruct (italic_match c (rev pre ++ []) text post Hc
                (plain_rev_head pre c (plain_emph _ P1) Hc) Hne Hd (plain_emph _ T)
                (plain_hd post c (plain_emph _ Q1) Hc)) as (m & Hm & Hl & Hr).
    erewrite sub_loop_match; [|exact Hm|exact Hl].
    rewrite Hr. cbn [bind ret].
    rewrite (sub_loop_free _ emph_char); auto using italic_head, italic_nil, plain_emph.
    cbn [bind ret]. rewrite <- !app_assoc. reflexivity. }
  rewrite I1. cbn [bind ret].
  rewrite strike_free.
  - reflexivity.
  - rewrite !forallb_app, (plain_tilde pre), (plain_tilde text), (plain_tilde post) by auto.
    reflexivity.
Qed.

(** ** The inline processing of a marked text *)

Lemma marked_line_free : forall q c k pre text post,
  special q = true -> emph_char q = false -> emph_char c = true ->
  plain_text pre = true -> plain_text text = true -> plain_text post = true ->
  forallb (not_ch q) (pre ++ repeat c k ++ text ++ repeat c k ++ post) = true.
Proof.
  intros q c k pre text post Hq Hq' Hc P T Q.
  assert (R : forallb (not_ch q) (repeat c k) = true).
  { apply forallb_repeat. unfold not_ch. destruct (Ascii.eqb c q) eqn:E; [|reflexivity].
    apply Ascii.eqb_eq in E. subst c. congruence. }
  rewrite !forallb_app, R, (plain_not_ch q pre), (plain_not_ch q text),
    (plain_not_ch q post) by auto.
  reflexivity.
Qed.

Lemma inline_line_marked : forall c k pre text post l r inline_map link_map,
  emph_char c = true ->
  context_text pre -> marked_text text -> context_text post ->
  nul_free l = true -> nul_free r = true ->
  _process_inline_formatting (pre ++ repeat c k ++ text ++ repeat c k ++ post)
  = Some (pre ++ l ++ text ++ r ++ post) ->
  keys_of _PH_IC inline_map -> keys_of _PH_LK link_map ->
  inline_line (pre ++ repeat c k ++ text ++ repeat c k ++ post) inline_map link_map
  = Some (pre ++ l ++ text ++ r ++ post, inline_map, link_map).
Proof.
  intros c k pre text post l r inline_map link_map Hc [P1 P2] (Hne & T1 & T2 & Hd)
    [Q1 Q2] Hl Hr F KI KL.
  apply inline_line_formatting; auto.
  - apply marked_line_free; auto.
  - apply marked_line_free; auto.
  - apply marked_line_free; auto.
  - rewrite !nul_free_app, P2, T2, Q2, Hl, Hr. reflexivity.
Qed.

(** X10. Text between two [**] or two [__] is bold: the line comes out
    of the inline processing with the text between two [*], whatever the
    placeholder maps of the earlier lines hold. *)
Theorem bold_text :
  forall c pre text post inline_map link_map,
    emph_char c = true ->
    context_text pre -> marked_text text -> context_text post ->
    keys_of _PH_IC inline_map -> keys_of _PH_LK link_map ->
    inline_line (pre ++ [c; c] ++ text ++ [c; c] ++ post) inline_map link_map
    = Some (pre ++ py "*" ++ text ++ py "*" ++ post, inline_map, link_map).
Proof.
  intros c pre text post inline_map link_map Hc P T Q KI KL.
  apply (inline_line_marked c 2); auto.
  apply bold_formatting; auto.
Qed.

Lemma bold_text_witness :
  inline_line (py "a **bold** b") [] [] = Some (py "a *bold* b", [], [])
  /\ inline_line (py "a __bold__ b") [] [] = Some (py "a *bold* b", [], []).
Proof.
  split.
  - apply (bold_text "*" (py "a ") (py "bold") (py " b") [] []).
    + reflexivity.
    + split; reflexivity.
    + repeat split; try reflexivity. discriminate.
    + split; reflexivity.
    + reflexivity.
    + reflexivity.
  - apply (bold_text "_" (py "a ") (py "bold") (py " b") [] []).
    + reflexivity.
    + split; reflexivity.
    + repeat split; try reflexivity. discriminate.
    + split; reflexivity.
    + reflexivity.
    + reflexivity.
Defined.

(** X11. Text between two [***] or two [___] is bold and italic: the
    line comes out of the inline processing with the text between [*_]
    and [_*]; the italic pass does not read the markers that the bold
    pass wrote. *)
Theorem bold_italic_text :
  forall c pre text post inline_map link_map,
    emph_char c = true ->
    context_text pre -> marked_text text -> context_text post ->
    keys_of _PH_IC inline_map -> keys_of _PH_LK link_map ->
    inline_line (pre ++ [c; c; c] ++ text ++ [c; c; c] ++ post) inline_map link_map
    = Some (pre ++ py "*_" ++ text ++ py "_*" ++ post, inline_map, link_map).
Proof.
  intros c pre text post inline_map link_map Hc P T Q KI KL.
  apply (inline_line_marked c 3); auto.
  apply bold_italic_formatting; auto.
Qed.

Lemma bold_italic_text_witness :
  inline_line (py "so ***very*** true") [] [] = Some (py "so *_very_* true", [], []).
Proof.
  apply (bold_italic_text "*" (py "so ") (py "very") (py " true") [] []).
  - reflexivity.
  - split; reflexivity.
  - repeat split; try reflexivity. discriminate.
  - split; reflexivity.
  - reflexivity.
  - reflexivity.
Defined.

(** X12. Text between two [*] or two [_] is italic: the line comes out
    of the inline processing with the text between two [_]. *)
Theorem italic_text :
  forall c pre text post inline_map link_map,
    emph_char c = true ->
    context_text pre -> marked_text text -> context_text post ->
    keys_of _PH_IC inline_map -> keys_of _PH_LK link_map ->
    inline_line (pre ++ [c] ++ text ++ [c] ++ post) inline_map link_map
    = Some (pre ++ py "_" ++ text ++ py "_" ++ post, inline_map, link_map).
Proof.
  intros c pre text post inline_map link_map Hc P T Q KI KL.
  apply (inline_line_marked c 1); auto.
  apply italic_formatting; auto.
Qed.

Lemma italic_text_witness :
  inline_line (py "an *italic* word") [] [] = Some (py "an _italic_ word", [], [])
  /\ inline_line (py "an _italic_ word") [] [] = Some (py "an _italic_ word", [], []).
Proof.
  split.
  - apply (italic_text "*" (py "an ") (py "italic") (py " word") [] []).
    + reflexivity.
    + split; reflexivity.
    + repeat split; try reflexivity. discriminate.
    + split; reflexivity.
    + reflexivity.
    + reflexivity.
  - apply (italic_text "_" (py "an ") (py "italic") (py " word") [] []).
    + reflexivity.
    + split; reflexivity.
    + repeat split; try reflexivity. discriminate.
    + split; reflexivity.
    + reflexivity.
    + reflexivity.
Defined.
